(** * default.mixed: the mixed-state tensor evolution engine

    A shallow embedding of [pennylane/devices/default_mixed.py].  The device
    state is a rank-2N tensor of complex numbers; the array primitives the
    device calls ([reshape], [einsum], [tensordot], [moveaxis], [transpose],
    [kron], ...) are embedded with their NumPy meaning over an exact scalar
    type, and the device methods are translated on top of them. *)

From Stdlib Require Import String Ascii.
From Stdlib Require Import List Arith Lia ZArith Bool Ring Permutation.
From Stdlib Require QArith.
Import ListNotations.

Set Implicit Arguments.

(** ** Scalars

    [C_DTYPE] is a complex floating-point type.  The engine only adds,
    multiplies and conjugates entries; the embedding abstracts the entries
    as a commutative ring with a conjugation, and a type of reals with the
    real part, the test [r < 0] and negation; every statement holds for
    exact arithmetic.  [close_to_one x] is [allclose(x, 1.0, atol=tolerance)]. *)

Class Scalar : Type := {
  C : Type;
  c0 : C;
  c1 : C;
  cadd : C -> C -> C;
  cmul : C -> C -> C;
  csub : C -> C -> C;
  copp : C -> C;
  cconj : C -> C;
  Re : Type;
  creal : C -> Re;
  rneg : Re -> bool;
  ropp : Re -> Re;
  close_to_one : C -> bool;
  C_ring : ring_theory c0 c1 cadd cmul csub copp (@eq C);
  cconj_add : forall x y, cconj (cadd x y) = cadd (cconj x) (cconj y);
  cconj_mul : forall x y, cconj (cmul x y) = cmul (cconj x) (cconj y);
  close_to_one_1 : close_to_one c1 = true
}.

Declare Scope scalar_scope.
Delimit Scope scalar_scope with sc.
Infix "+" := cadd : scalar_scope.
Infix "*" := cmul : scalar_scope.

(** ** Finite sums *)

Section Sums.
Context {Sc : Scalar}.

Definition sum_list {A : Type} (l : list A) (f : A -> C) : C :=
  fold_right (fun a acc => cadd (f a) acc) c0 l.

Definition sum_range (n : nat) (f : nat -> C) : C := sum_list (seq 0 n) f.

End Sums.

(** ** Tensors

    An array is its shape together with its entries, read at a multi-index
    (one coordinate per axis).  Only entries at in-range multi-indices are
    meaningful; two arrays are the same array when they agree there. *)

Record tensorOf (A : Type) : Type := mkTensor {
  shape : list nat;
  data : list nat -> A
}.

Definition ndim {A : Type} (t : tensorOf A) : nat := length (shape t).

(** Elementwise application, as [np.real] or [np.where] on one array. *)
Definition tmap {A B : Type} (f : A -> B) (t : tensorOf A) : tensorOf B :=
  mkTensor (shape t) (fun idx => f (data t idx)).

Section Tensors.
Context {Sc : Scalar}.

Definition tensor : Type := tensorOf C.

Definition prod_shape (s : list nat) : nat := fold_right Nat.mul 1 s.

(** All multi-indices of a shape, in row-major order. *)
Fixpoint all_indices (s : list nat) : list (list nat) :=
  match s with
  | [] => [[]]
  | d :: s' => flat_map (fun i => map (cons i) (all_indices s')) (seq 0 d)
  end.

(** [valid_index s idx]: [idx] is an in-range multi-index of shape [s]. *)
Fixpoint valid_index (s idx : list nat) : Prop :=
  match s, idx with
  | [], [] => True
  | d :: s', i :: idx' => i < d /\ valid_index s' idx'
  | _, _ => False
  end.

Definition tensor_eq (a b : tensor) : Prop :=
  shape a = shape b /\
  forall idx, valid_index (shape a) idx -> data a idx = data b idx.

(** Row-major (C order) flattening of a multi-index and its inverse:
    [np.ravel_multi_index] and [np.unravel_index]. *)
Fixpoint ravel (s idx : list nat) : nat :=
  match s, idx with
  | _ :: s', i :: idx' => i * prod_shape s' + ravel s' idx'
  | _, _ => 0
  end.

Fixpoint unravel (s : list nat) (n : nat) : list nat :=
  match s with
  | [] => []
  | _ :: s' => n / prod_shape s' :: unravel s' (n mod prod_shape s')
  end.

(** [np.reshape(t, s)]: same entries in row-major order; an error when the
    sizes differ. *)
Definition reshape (t : tensor) (s : list nat) : option tensor :=
  if prod_shape (shape t) =? prod_shape s
  then Some (mkTensor s (fun idx => data t (unravel (shape t) (ravel s idx))))
  else None.

(** [np.conj], elementwise. *)
Definition conj (t : tensor) : tensor :=
  mkTensor (shape t) (fun idx => cconj (data t idx)).

(** [np.transpose(t)] of a matrix (axes reversed). *)
Definition transpose2 (t : tensor) : tensor :=
  mkTensor (rev (shape t)) (fun idx => data t (rev idx)).

Definition shape_eqb (a b : list nat) : bool :=
  if list_eq_dec Nat.eq_dec a b then true else false.

(** [np.stack(ts)]: a new leading axis; an error for an empty list or for
    arrays of different shapes. *)
Definition stack (ts : list tensor) : option tensor :=
  match ts with
  | [] => None
  | t :: _ =>
      if forallb (fun u => shape_eqb (shape u) (shape t)) ts
      then Some (mkTensor (length ts :: shape t)
                  (fun idx => match idx with
                              | [] => c0
                              | i :: idx' => data (nth i ts t) idx'
                              end))
      else None
  end.

(** [np.zeros(s)]. *)
Definition zeros (s : list nat) : tensor := mkTensor s (fun _ => c0).

(** [np.diagonal] of a matrix. *)
Definition diagonal (t : tensor) : tensor :=
  mkTensor [Nat.min (nth 0 (shape t) 0) (nth 1 (shape t) 0)]
           (fun idx => data t [nth 0 idx 0; nth 0 idx 0]).

(** [np.trace] of a matrix. *)
Definition trace (t : tensor) : C :=
  sum_range (Nat.min (nth 0 (shape t) 0) (nth 1 (shape t) 0))
            (fun i => data t [i; i]).

(** [np.kron] of two matrices. *)
Definition kron (a b : tensor) : tensor :=
  let ra := nth 0 (shape a) 0 in let ca := nth 1 (shape a) 0 in
  let rb := nth 0 (shape b) 0 in let cb := nth 1 (shape b) 0 in
  mkTensor [ra * rb; ca * cb]
    (fun idx => let i := nth 0 idx 0 in let j := nth 1 idx 0 in
       cmul (data a [i / rb; j / cb]) (data b [i mod rb; j mod cb])).

End Tensors.

(** ** Subscript strings

    [ABC] is [string.ascii_letters]; Python slices of it are clipped at its
    end, indexing [ABC_ARRAY] out of range raises. *)

Definition ABC : list ascii :=
  String.list_ascii_of_string
    "abcdefghijklmnopqrstuvwxyzABCDEFGHIJKLMNOPQRSTUVWXYZ"%string.

(** [l[a:b]] for non-negative [a], [b]. *)
Definition slice {A : Type} (a b : nat) (l : list A) : list A :=
  firstn (b - a) (skipn a l).

(** [ABC_ARRAY[ws].tolist()], [None] for an [IndexError]. *)
Fixpoint ABC_ARRAY_at (ws : list nat) : option (list ascii) :=
  match ws with
  | [] => Some []
  | w :: ws' =>
      match nth_error ABC w, ABC_ARRAY_at ws' with
      | Some c, Some cs => Some (c :: cs)
      | _, _ => None
      end
  end.

(** [s.replace(a, b)] for one-character [a] and [b]. *)
Definition replace_char (a b : ascii) (s : list ascii) : list ascii :=
  map (fun c => if Ascii.eqb c a then b else c) s.

(** [functools.reduce(lambda s, p: s.replace(p[0], p[1]), zip(olds, news), s)]. *)
Definition replace_all (olds news s : list ascii) : list ascii :=
  fold_left (fun acc p => replace_char (fst p) (snd p) acc) (combine olds news) s.

(** ** einsum

    [einsum ops out] is [np.einsum] in explicit mode; the subscript string
    ["s1,s2,...->out"] is given by its parts.  Every label stands for one
    coordinate; labels that do not reach the output are summed over their
    whole extent.  The call raises ([None]) when an operand has not as many
    subscripts as axes, when one label is given two extents, or when the
    output repeats a label or names one no operand has. *)

Section Einsum.
Context {Sc : Scalar}.

Definition env : Type := list (ascii * nat).

Fixpoint lookup (e : env) (c : ascii) : nat :=
  match e with
  | [] => 0
  | (k, v) :: e' => if Ascii.eqb k c then v else lookup e' c
  end.

Definition mem (c : ascii) (l : list ascii) : bool := existsb (Ascii.eqb c) l.

Fixpoint dedup (l : list ascii) : list ascii :=
  match l with
  | [] => []
  | c :: l' => c :: filter (fun d => negb (Ascii.eqb c d)) (dedup l')
  end.

Fixpoint nodupb (l : list ascii) : bool :=
  match l with
  | [] => true
  | c :: l' => negb (mem c l') && nodupb l'
  end.

Definition operand : Type := (list ascii * tensor)%type.

Definition label_extents (ops : list operand) : env :=
  flat_map (fun o => combine (fst o) (shape (snd o))) ops.

Definition input_labels (ops : list operand) : list ascii :=
  flat_map (fun o => fst o) ops.

Definition summed_labels (ops : list operand) (out : list ascii) : list ascii :=
  filter (fun c => negb (mem c out)) (dedup (input_labels ops)).

Definition einsum_ok (ops : list operand) (out : list ascii) : bool :=
  forallb (fun o => length (fst o) =? ndim (snd o)) ops
  && forallb (fun p => lookup (label_extents ops) (fst p) =? snd p)
             (label_extents ops)
  && forallb (fun c => mem c (input_labels ops)) out
  && nodupb out.

Definition prod_list (l : list C) : C := fold_right cmul c1 l.

Definition einsum (ops : list operand) (out : list ascii) : option tensor :=
  if einsum_ok ops out then
    let ext := label_extents ops in
    let summed := summed_labels ops out in
    Some (mkTensor (map (lookup ext) out)
      (fun idx =>
         sum_list (all_indices (map (lookup ext) summed))
           (fun asg =>
              let e := combine out idx ++ combine summed asg in
              prod_list (map (fun o => data (snd o) (map (lookup e) (fst o))) ops))))
  else None.

End Einsum.

(** ** Axis primitives: transpose, tensordot, moveaxis, sum *)

Section AxisPrimitives.
Context {Sc : Scalar}.

Fixpoint index_of (p : nat) (l : list nat) : nat :=
  match l with
  | [] => 0
  | q :: l' => if p =? q then 0 else S (index_of p l')
  end.

Definition memn (p : nat) (l : list nat) : bool := existsb (Nat.eqb p) l.

Definition is_permutation_of_range (axes : list nat) (n : nat) : bool :=
  (length axes =? n) && forallb (fun p => memn p axes) (seq 0 n).

(** [np.transpose(t, axes)]: axis [j] of the result is axis [axes[j]] of
    [t]. *)
Definition transpose (t : tensor) (axes : list nat) : option tensor :=
  if is_permutation_of_range axes (ndim t) then
    Some (mkTensor (map (fun a => nth a (shape t) 0) axes)
            (fun idx => data t (map (fun p => nth (index_of p axes) idx 0)
                                    (seq 0 (ndim t)))))
  else None.

(** The coordinates of an operand of [tensordot]: coordinate [p] comes from
    the summed ones when [p] is a contracted axis, from the free ones
    otherwise. *)
Definition operand_index (n : nat) (axes free : list nat)
    (summed kept : list nat) : list nat :=
  map (fun p => if memn p axes then nth (index_of p axes) summed 0
                else nth (index_of p free) kept 0) (seq 0 n).

Definition free_axes (n : nat) (axes : list nat) : list nat :=
  filter (fun p => negb (memn p axes)) (seq 0 n).

(** [np.tensordot(a, b, [axes_a, axes_b])]: sums over the paired axes; the
    result carries the free axes of [a] and then those of [b]. *)
Definition tensordot (a b : tensor) (axes_a axes_b : list nat) : option tensor :=
  let sa := map (fun p => nth p (shape a) 0) axes_a in
  let sb := map (fun p => nth p (shape b) 0) axes_b in
  if (length axes_a =? length axes_b)
     && forallb (fun p => p <? ndim a) axes_a
     && forallb (fun p => p <? ndim b) axes_b
     && shape_eqb sa sb
  then
    let fa := free_axes (ndim a) axes_a in
    let fb := free_axes (ndim b) axes_b in
    Some (mkTensor (map (fun p => nth p (shape a) 0) fa
                    ++ map (fun p => nth p (shape b) 0) fb)
      (fun idx =>
         let ia := firstn (length fa) idx in
         let ib := skipn (length fa) idx in
         sum_list (all_indices sa) (fun s =>
           cmul (data a (operand_index (ndim a) axes_a fa s ia))
                (data b (operand_index (ndim b) axes_b fb s ib)))))
  else None.

(** [l.insert(i, x)]. *)
Definition insert_at {A : Type} (i : nat) (x : A) (l : list A) : list A :=
  firstn i l ++ x :: skipn i l.

(** [sorted] on pairs of integers. *)
Definition pair_leb (p q : nat * nat) : bool :=
  (fst p <? fst q) || ((fst p =? fst q) && (snd p <=? snd q)).

Fixpoint insert_sorted (p : nat * nat) (l : list (nat * nat)) : list (nat * nat) :=
  match l with
  | [] => [p]
  | q :: l' => if pair_leb p q then p :: q :: l' else q :: insert_sorted p l'
  end.

Definition sorted_pairs (l : list (nat * nat)) : list (nat * nat) :=
  fold_right insert_sorted [] l.

(** [normalize_axis_tuple]: a negative axis counts from the end; an axis out
    of range is an error. *)
Definition normalize_axis (n : nat) (a : Z) : option nat :=
  if ((0 <=? a) && (a <? Z.of_nat n))%Z then Some (Z.to_nat a)
  else if ((- Z.of_nat n <=? a) && (a <? 0))%Z then Some (Z.to_nat (a + Z.of_nat n))
  else None.

Fixpoint normalize_axes (n : nat) (l : list Z) : option (list nat) :=
  match l with
  | [] => Some []
  | a :: l' =>
      match normalize_axis n a, normalize_axes n l' with
      | Some x, Some xs => Some (x :: xs)
      | _, _ => None
      end
  end.

Fixpoint nodupn (l : list nat) : bool :=
  match l with
  | [] => true
  | x :: l' => negb (memn x l') && nodupn l'
  end.

(** [np.moveaxis(t, source, destination)]. *)
Definition moveaxis (t : tensor) (source destination : list Z) : option tensor :=
  match normalize_axes (ndim t) source, normalize_axes (ndim t) destination with
  | Some src, Some dst =>
      if (length src =? length dst) && nodupn src && nodupn dst then
        let order0 := filter (fun n => negb (memn n src)) (seq 0 (ndim t)) in
        let order := fold_left (fun o p => insert_at (fst p) (snd p) o)
                               (sorted_pairs (combine dst src)) order0 in
        transpose t order
      else None
  | _, _ => None
  end.

(** [np.sum(t, axis=0)]. *)
Definition sum_axis0 (t : tensor) : tensor :=
  mkTensor (tl (shape t))
           (fun idx => sum_range (hd 0 (shape t)) (fun i => data t (i :: idx))).

End AxisPrimitives.

(** ** Wires, operations and measurements *)

(** A wire label is any hashable value; numbers and strings are the ones
    the constructor documents. *)
Inductive label : Type :=
| LInt (z : Z)
| LStr (s : string).

Definition label_eq_dec (a b : label) : {a = b} + {a <> b}.
Proof. decide equality; [apply Z.eq_dec | apply string_dec]. Defined.

Definition label_eqb (a b : label) : bool :=
  if label_eq_dec a b then true else false.

(** [Wires]: an ordered collection of labels. *)
Definition Wires : Type := list label.

Definition Wires_eqb (a b : Wires) : bool :=
  if list_eq_dec label_eq_dec a b then true else false.

(** The measurement-process classes the device imports. *)
Inductive mp_class : Type :=
| StateMP | DensityMatrixMP | PurityMP | ProbabilityMP | ExpectationMP
| VarianceMP | VnEntropyMP | MutualInfoMP | SampleMP | CountsMP
| OtherMP (name : string).

Inductive exn : Type :=
| ValueError (msg : string)
| TypeError (msg : string)
| DeviceError (msg : string)
| WireError
| IndexError
| AssertionError
| ArrayError.

(** The array backend [qml.math.get_interface] reports. *)
Inductive interface : Type :=
| Numpy | Autograd | Torch | Jax | Tensorflow.

Section Model.
Context {Sc : Scalar}.

(** What [_get_kraus] reads from a gate: its eigenvalues when the gate is
    in [diagonal_in_z_basis], its Kraus matrices when it is a [Channel],
    its matrix otherwise. *)
Inductive gate_kind : Type :=
| Diagonal (eigvals : tensor)
| Channel (kraus_matrices : list tensor)
| Unitary (matrix : tensor).

Record gate : Type := mkGate {
  g_name : string;
  g_kind : gate_kind;
  g_wires : Wires
}.

Record measurement : Type := mkMeasurement {
  m_class : mp_class;
  m_wires : Wires;
  m_raw_wires : list Wires;
  m_diagonalizing_gates : list gate;
  m_eigvals : tensorOf Re;
  m_log_base : option nat
}.

Inductive operation : Type :=
| Gate (g : gate)
| StatePrep (state : tensor) (wires : Wires)
| BasisState (state : list Z) (wires : Wires)
| QubitDensityMatrix (state : tensor) (wires : Wires)
| Snapshot (tag : option string) (m : measurement).

Definition op_name (o : operation) : string :=
  match o with
  | Gate g => g_name g
  | StatePrep _ _ => "StatePrep"
  | BasisState _ _ => "BasisState"
  | QubitDensityMatrix _ _ => "QubitDensityMatrix"
  | Snapshot _ _ => "Snapshot"
  end.

Definition op_wires (o : operation) : Wires :=
  match o with
  | Gate g => g_wires g
  | StatePrep _ w | BasisState _ w | QubitDensityMatrix _ w => w
  | Snapshot _ _ => []
  end.

End Model.

(** ** The channel application engine

    The array computation of each method, as a function of the number of
    device wires [N], the device indices of the target wires and the state
    tensor.  [None] is an exception raised by an array primitive. *)

Section Engine.
Context {Sc : Scalar}.

Definition obind {A B : Type} (o : option A) (f : A -> option B) : option B :=
  match o with Some a => f a | None => None end.

(** [DefaultMixed._apply_channel], lines 415-461. *)
Definition apply_channel_einsum (N : nat) (kraus : list tensor)
    (channel_wires : list nat) (state : tensor) : option tensor :=
  let rho_dim := 2 * N in
  let num_ch_wires := length channel_wires in
  let kraus_dagger := map (fun k => conj (transpose2 k)) kraus in
  obind (stack kraus) (fun kraus =>
  obind (stack kraus_dagger) (fun kraus_dagger =>
  let kraus_shape := nth 0 (shape kraus) 0 :: repeat 2 (num_ch_wires * 2) in
  obind (reshape kraus kraus_shape) (fun kraus =>
  obind (reshape kraus_dagger kraus_shape) (fun kraus_dagger =>
  let state_indices := slice 0 rho_dim ABC in
  let row_wires_list := channel_wires in
  obind (ABC_ARRAY_at row_wires_list) (fun row_indices =>
  let col_wires_list := map (fun w => w + N) row_wires_list in
  obind (ABC_ARRAY_at col_wires_list) (fun col_indices =>
  let new_row_indices := slice rho_dim (rho_dim + num_ch_wires) ABC in
  let new_col_indices :=
    slice (rho_dim + num_ch_wires) (rho_dim + 2 * num_ch_wires) ABC in
  let kraus_index :=
    slice (rho_dim + 2 * num_ch_wires) (rho_dim + 2 * num_ch_wires + 1) ABC in
  let new_state_indices :=
    replace_all (col_indices ++ row_indices)
                (new_col_indices ++ new_row_indices) state_indices in
  einsum [ (kraus_index ++ new_row_indices ++ row_indices, kraus);
           (state_indices, state);
           (kraus_index ++ col_indices ++ new_col_indices, kraus_dagger) ]
         new_state_indices)))))).

(** [DefaultMixed._apply_diagonal_unitary], lines 519-539.  [np.stack] of a
    1-D array of eigenvalues is that array. *)
Definition apply_diagonal_unitary_einsum (N : nat) (eigvals : tensor)
    (channel_wires : list nat) (state : tensor) : option tensor :=
  obind (reshape eigvals (repeat 2 (length channel_wires))) (fun eigvals =>
  let state_indices := slice 0 (2 * N) ABC in
  let row_wires_list := channel_wires in
  obind (ABC_ARRAY_at row_wires_list) (fun row_indices =>
  let col_wires_list := map (fun w => w + N) row_wires_list in
  obind (ABC_ARRAY_at col_wires_list) (fun col_indices =>
  einsum [ (row_indices, eigvals);
           (state_indices, state);
           (col_indices, conj eigvals) ]
         state_indices))).

(** [DefaultMixed._apply_channel_tensordot], lines 471-508. *)
Definition reshape_all (ks : list tensor) (s : list nat) : option (list tensor) :=
  fold_right (fun k acc =>
                obind (reshape k s) (fun k' =>
                obind acc (fun ks' => Some (k' :: ks')))) (Some []) ks.

Fixpoint conjugate_all (f : tensor -> option tensor) (ks : list tensor)
  : option (list tensor) :=
  match ks with
  | [] => Some []
  | k :: ks' =>
      obind (f k) (fun t => obind (conjugate_all f ks') (fun ts => Some (t :: ts)))
  end.

Definition apply_channel_tensordot (N : nat) (kraus : list tensor)
    (channel_wires : list nat) (state : tensor) : option tensor :=
  let num_ch_wires := length channel_wires in
  let kraus_shape := repeat 2 (num_ch_wires * 2) in
  obind (reshape_all kraus kraus_shape) (fun kraus =>
  let row_wires_list := channel_wires in
  let col_wires_list := map (fun w => w + N) row_wires_list in
  let channel_col_ids := seq num_ch_wires num_ch_wires in
  let _conjugate_state_with := fun k =>
    obind (tensordot k state channel_col_ids row_wires_list) (fun ks =>
    tensordot ks (conj k) col_wires_list channel_col_ids) in
  obind (match kraus with
         | [k] => _conjugate_state_with k
         | _ => obind (conjugate_all _conjugate_state_with kraus) (fun ts =>
                obind (stack ts) (fun st => Some (sum_axis0 st)))
         end) (fun _state =>
  let source_left := map Z.of_nat (seq 0 num_ch_wires) in
  let dest_left := map Z.of_nat row_wires_list in
  let source_right :=
    map (fun i => (Z.of_nat i - Z.of_nat num_ch_wires)%Z) (seq 0 num_ch_wires) in
  let dest_right := map Z.of_nat col_wires_list in
  moveaxis _state (source_left ++ source_right) (dest_left ++ dest_right))).

End Engine.

(** ** The device *)


(** A Python value given as [readout_prob]: an [int], a [float], or a
    value of another type, of which only its truth value matters.  A
    [float] is a finite number, an infinity or [nan]. *)
Inductive pyval : Type :=
| PyInt (z : Z)
| PyFloat (q : QArith_base.Q)
| PyInf (negative : bool)
| PyNaN
| PyOther (truthy : bool).

(** [isinstance(v, float) or isinstance(v, int)]. *)
Definition is_number (v : pyval) : bool :=
  match v with
  | PyInt _ | PyFloat _ | PyInf _ | PyNaN => true
  | PyOther _ => false
  end.

(** [bool(v)]; [nan] and the infinities are not zero. *)
Definition truthy (v : pyval) : bool :=
  match v with
  | PyInt z => negb (Z.eqb z 0)
  | PyFloat q => negb (Z.eqb (QArith_base.Qnum q) 0)
  | PyInf _ | PyNaN => true
  | PyOther b => b
  end.

(** [v < 0 or v > 1]; every comparison with [nan] is [False]. *)
Definition outside_unit (v : pyval) : bool :=
  match v with
  | PyInt z => (z <? 0)%Z || (1 <? z)%Z
  | PyFloat q =>
      (QArith_base.Qnum q <? 0)%Z
      || (Z.pos (QArith_base.Qden q) <? QArith_base.Qnum q)%Z
  | PyInf _ => true
  | PyNaN => false
  | PyOther _ => false
  end.

(** The [wires] argument of the constructors: a count or an iterable of
    labels. *)
Inductive wires_arg : Type :=
| WiresCount (n : Z)
| WiresLabels (ls : list label).

Section Device.
Context {Sc : Scalar}.

Inductive snap_key : Type :=
| KeyTag (tag : string)
| KeyIndex (n : nat).

(** What a snapshot records.  The entropies and the dot products with the
    eigenvalues are kept as the calls that produce them. *)
Inductive snap_result : Type :=
| SnapDensityMatrix (dm : tensor)
| SnapPurity (p : C)
| SnapProbs (probs : option (tensorOf Re))
| SnapExpval (probs : option (tensorOf Re)) (eigvals : tensorOf Re)
| SnapVar (probs : option (tensorOf Re)) (eigvals : tensorOf Re)
| SnapVnEntropy (dm : tensor) (wires : list nat) (base : option nat)
| SnapMutualInfo (dm : tensor) (wires0 wires1 : list nat) (base : option nat).

Record debugger : Type := mkDebugger {
  active : bool;
  snapshots : list (snap_key * snap_result)
}.

Record device : Type := mkDevice {
  wires : Wires;
  dev_interface : interface;
  readout_err : option pyval;
  _state : option tensor;
  _pre_rotated_state : option tensor;
  measured_wires : Wires;
  _debugger : option debugger
}.

Definition num_wires (d : device) : nat := length (wires d).

Definition set_state (t : option tensor) (d : device) : device :=
  mkDevice (wires d) (dev_interface d) (readout_err d) t
           (_pre_rotated_state d) (measured_wires d) (_debugger d).

Definition set_pre_rotated_state (t : option tensor) (d : device) : device :=
  mkDevice (wires d) (dev_interface d) (readout_err d) (_state d)
           t (measured_wires d) (_debugger d).

Definition set_measured_wires (w : Wires) (d : device) : device :=
  mkDevice (wires d) (dev_interface d) (readout_err d) (_state d)
           (_pre_rotated_state d) w (_debugger d).

Definition set_debugger (g : option debugger) (d : device) : device :=
  mkDevice (wires d) (dev_interface d) (readout_err d) (_state d)
           (_pre_rotated_state d) (measured_wires d) g.

(** A method: it returns a value or raises, and leaves a device behind
    either way. *)
Definition M (A : Type) : Type := device -> (exn + A) * device.

Definition ret {A : Type} (a : A) : M A := fun d => (inr a, d).
Definition raise {A : Type} (e : exn) : M A := fun d => (inl e, d).
Definition bind {A B : Type} (m : M A) (f : A -> M B) : M B :=
  fun d => match m d with
           | (inr a, d') => f a d'
           | (inl e, d') => (inl e, d')
           end.
Definition get : M device := fun d => (inr d, d).
Definition modify (f : device -> device) : M unit := fun d => (inr tt, f d).
Definition lift {A : Type} (e : exn) (o : option A) : M A :=
  match o with Some a => ret a | None => raise e end.

End Device.

Notation "x <- m ;; k" := (bind m (fun x => k))
  (at level 61, m at next level, right associativity).
Notation "m ;;; k" := (bind m (fun _ => k))
  (at level 61, right associativity).

(** ** Reduced states and marginals *)

Section Reduced.
Context {Sc : Scalar}.

Definition bits (k : nat) : list nat := repeat 2 k.

(** Modelled from the spec: [qml.math.reduce_dm(state, indices)], the
    partial trace of the matrix-form state of [N] wires over the complement
    of [indices]; its code is not part of the device module. *)
Definition reduce_dm (N : nat) (state : tensor) (indices : list nat) : tensor :=
  let k := length indices in
  let comp := free_axes N indices in
  mkTensor [2 ^ k; 2 ^ k]
    (fun idx =>
       let a := unravel (bits k) (nth 0 idx 0) in
       let b := unravel (bits k) (nth 1 idx 0) in
       sum_list (all_indices (bits (length comp))) (fun e =>
         data state [ ravel (bits N) (operand_index N indices comp a e);
                      ravel (bits N) (operand_index N indices comp b e) ])).

(** Modelled from the spec: [qml.math.purity(state, indices)], the trace of
    the square of the reduced state. *)
Definition purity_of (N : nat) (state : tensor) (indices : list nat) : C :=
  let sigma := reduce_dm N state indices in
  let dim := 2 ^ length indices in
  sum_range dim (fun i => sum_range dim (fun j =>
    cmul (data sigma [i; j]) (data sigma [j; i]))).

(** Modelled from the spec: [QubitDevice.marginal_prob(prob, wires)] with
    the wires already mapped, the sum of the probabilities over the wires
    that are not selected. *)
Definition marginal_prob (N : nat) (prob : tensor) (device_wires : list nat)
  : tensor :=
  let k := length device_wires in
  let comp := free_axes N device_wires in
  mkTensor [2 ^ k]
    (fun idx =>
       let a := unravel (bits k) (nth 0 idx 0) in
       sum_list (all_indices (bits (length comp))) (fun e =>
         data prob [ ravel (bits N) (operand_index N device_wires comp a e) ])).

End Reduced.

(** ** Device methods *)

Section Methods.
Context {Sc : Scalar}.

Fixpoint label_index (l : label) (ws : Wires) : option nat :=
  match ws with
  | [] => None
  | w :: ws' => if label_eqb l w then Some 0
                else option_map S (label_index l ws')
  end.

Fixpoint map_labels (dev_wires ws : Wires) : option (list nat) :=
  match ws with
  | [] => Some []
  | w :: ws' =>
      match label_index w dev_wires, map_labels dev_wires ws' with
      | Some i, Some r => Some (i :: r)
      | _, _ => None
      end
  end.

(** Modelled from the spec: [Device.map_wires], the translation of wire
    labels to the dense indices [0..N-1] fixed at construction; a label the
    device does not have raises [WireError]. *)
Definition map_wires (ws : Wires) : M (list nat) :=
  d <- get ;; lift WireError (map_labels (wires d) ws).

(** [DefaultMixed._create_basis_state].  Memory is not modelled: the
    array of [4^N] entries that [qnp.zeros] allocates is taken to exist
    for every [N], so a result about the constructor of [DefaultMixed]
    says which of its tests are passed, not that so large an array can be
    held. *)
Definition create_basis_state (N index : nat) : option tensor :=
  let dim := 2 ^ N in
  if index <? dim then
    reshape (mkTensor [dim; dim]
               (fun idx => if (nth 0 idx 0 =? index) && (nth 1 idx 0 =? index)
                           then c1 else c0))
            (repeat 2 (2 * N))
  else None.

Definition _create_basis_state (index : nat) : M tensor :=
  d <- get ;; lift IndexError (create_basis_state (num_wires d) index).

(** The [state] property: the matrix form of [_pre_rotated_state]. *)
Definition state : M tensor :=
  d <- get ;;
  pre <- lift (TypeError "NoneType") (_pre_rotated_state d) ;;
  let dim := 2 ^ num_wires d in
  lift ArrayError (reshape pre [dim; dim]).

(** [DefaultMixed.density_matrix]. *)
Definition density_matrix (ws : Wires) : M tensor :=
  st <- state ;;
  mapped <- map_wires ws ;;
  d <- get ;;
  ret (reduce_dm (num_wires d) st mapped).

(** [DefaultMixed.analytic_probability]; [None] is Python's [None]. *)
Definition analytic_probability (ws : option Wires) : M (option (tensorOf Re)) :=
  d <- get ;;
  match _state d with
  | None => ret None
  | Some st =>
      let dim := 2 ^ num_wires d in
      rho <- lift ArrayError (reshape st [dim; dim]) ;;
      probs <- match ws with
               | None => ret (diagonal rho)
               | Some w =>
                   mapped <- map_wires w ;;
                   ret (marginal_prob (num_wires d) (diagonal rho) mapped)
               end ;;
      let probs := tmap creal probs in
      ret (Some (tmap (fun p => if rneg p then ropp p else p) probs))
  end.

(** [DefaultMixed._get_kraus] for a gate that is not diagonal. *)
Definition _get_kraus (k : gate_kind) : list tensor :=
  match k with
  | Diagonal e => [e]
  | Channel ks => ks
  | Unitary m => [m]
  end.

Definition current_state : M tensor :=
  d <- get ;; lift (TypeError "NoneType") (_state d).

Definition _apply_channel (kraus : list tensor) (ws : Wires) : M unit :=
  channel_wires <- map_wires ws ;;
  d <- get ;;
  st <- current_state ;;
  t <- lift ArrayError (apply_channel_einsum (num_wires d) kraus channel_wires st) ;;
  modify (set_state (Some t)).

Definition _apply_channel_tensordot (kraus : list tensor) (ws : Wires) : M unit :=
  channel_wires <- map_wires ws ;;
  d <- get ;;
  st <- current_state ;;
  t <- lift ArrayError (apply_channel_tensordot (num_wires d) kraus channel_wires st) ;;
  modify (set_state (Some t)).

Definition _apply_diagonal_unitary (eigvals : tensor) (ws : Wires) : M unit :=
  channel_wires <- map_wires ws ;;
  d <- get ;;
  st <- current_state ;;
  t <- lift ArrayError
         (apply_diagonal_unitary_einsum (num_wires d) eigvals channel_wires st) ;;
  modify (set_state (Some t)).

(** [DefaultMixed._apply_basis_state]. *)
Definition basis_number (N : nat) (bitvals : list Z) (device_wires : list nat) : nat :=
  fold_right Nat.add 0
    (map (fun p => Z.to_nat (fst p) * 2 ^ (N - 1 - snd p))
         (combine bitvals device_wires)).

Definition _apply_basis_state (bitvals : list Z) (ws : Wires) : M unit :=
  device_wires <- map_wires ws ;;
  let n_basis_state := length bitvals in
  if negb (forallb (fun b => Z.eqb b 0 || Z.eqb b 1) bitvals) then
    raise (ValueError "BasisState parameter must consist of 0 or 1 integers.")
  else if negb (n_basis_state =? length device_wires) then
    raise (ValueError "BasisState parameter and wires must be of equal length.")
  else
    d <- get ;;
    let num := basis_number (num_wires d) bitvals device_wires in
    t <- _create_basis_state num ;;
    modify (set_state (Some t)).

End Methods.

Section StatePreparation.
Context {Sc : Scalar}.

(** [np.outer] of two vectors. *)
Definition outer (a b : tensor) : tensor :=
  mkTensor [hd 0 (shape a); hd 0 (shape b)]
           (fun idx => cmul (data a [nth 0 idx 0]) (data b [nth 1 idx 0])).

(** [np.reshape(t, (-1,))]. *)
Definition flatten (t : tensor) : tensor :=
  mkTensor [prod_shape (shape t)]
           (fun idx => data t (unravel (shape t) (nth 0 idx 0))).

(** [sorted(l) == l] for a list without repetition. *)
Fixpoint is_sorted (l : list nat) : bool :=
  match l with
  | [] => true
  | x :: l' => match l' with
               | [] => true
               | y :: _ => (x <=? y) && is_sorted l'
               end
  end.

(** [qnp.scatter(indices, updates, [n])]: zeros, with [updates[i]] written
    at [indices[i]]. *)
Definition scatter (indices : list nat) (updates : tensor) (n : nat) : tensor :=
  mkTensor [n]
    (fun idx =>
       match find (fun p => snd p =? nth 0 idx 0)
                  (combine (seq 0 (length indices)) indices) with
       | Some p => data updates [fst p]
       | None => c0
       end).

Definition when (b : bool) (e : exn) : M unit :=
  if b then raise e else ret tt.

(** [DefaultMixed._apply_state_vector].  The test on the norm is made on
    its square. *)
Definition _apply_state_vector (st : tensor) (ws : Wires) : M unit :=
  device_wires <- map_wires ws ;;
  d <- get ;;
  let N := num_wires d in
  let n_state_vector := hd 0 (shape st) in
  when (negb (ndim st =? 1) || negb (n_state_vector =? 2 ^ length device_wires))
       (ValueError "State vector must be of length 2**wires.") ;;;
  when (negb (close_to_one
                (sum_range n_state_vector
                   (fun i => cmul (data st [i]) (cconj (data st [i]))))))
       (ValueError "Sum of amplitudes-squared does not equal one.") ;;;
  if (length device_wires =? N) && is_sorted device_wires then
    rho <- lift ArrayError (reshape (outer st (conj st)) (repeat 2 (2 * N))) ;;
    modify (set_state (Some rho))
  else
    let basis_states := all_indices (bits (length device_wires)) in
    let unravelled_indices :=
      map (fun b => operand_index N device_wires [] b []) basis_states in
    let ravelled_indices := map (ravel (bits N)) unravelled_indices in
    let st' := scatter ravelled_indices st (2 ^ N) in
    rho <- lift ArrayError (reshape (outer st' (conj st')) (repeat 2 (2 * N))) ;;
    modify (set_state (Some rho)).

(** The transposition axes that [_apply_density_matrix] builds, lines
    659-671. *)
Definition transpose_axes (N : nat) (device_wires complement_wires : list nat)
  : list nat :=
  let complement_wires_count := length complement_wires in
  let step := fun (acc : list nat * list nat) (i : nat) =>
    if memn i device_wires then
      let index := index_of i device_wires in
      (fst acc ++ [complement_wires_count + index],
       snd acc ++ [complement_wires_count + index + N])
    else if memn i complement_wires then
      let index := index_of i complement_wires in
      (fst acc ++ [index], snd acc ++ [index + N])
    else acc in
  let axes := fold_left step (seq 0 N) ([], []) in
  fst axes ++ snd axes.

(** [DefaultMixed._apply_density_matrix] on concrete (not traced) arrays. *)
Definition _apply_density_matrix (st : tensor) (ws : Wires) : M unit :=
  device_wires <- map_wires ws ;;
  d <- get ;;
  let N := num_wires d in
  let st := flatten st in
  let state_dim := 2 ^ length device_wires in
  let dm_dim := state_dim ^ 2 in
  when (negb (dm_dim =? hd 0 (shape st)))
       (ValueError "Density matrix must be of length (2**wires, 2**wires)") ;;;
  m <- lift ArrayError (reshape st [state_dim; state_dim]) ;;
  when (negb (close_to_one (trace m)))
       (ValueError "Trace of density matrix is not equal one.") ;;;
  if (length device_wires =? N) && is_sorted device_wires then
    rho <- lift ArrayError (reshape st (repeat 2 (2 * N))) ;;
    modify (set_state (Some rho)) ;;;
    modify (set_pre_rotated_state (Some rho))
  else
    let complement_wires := free_axes N device_wires in
    sigma <- density_matrix (map (fun i => LInt (Z.of_nat i)) complement_wires) ;;
    let rho := kron sigma m in
    rho <- lift ArrayError (reshape rho (repeat 2 (2 * N))) ;;
    rho <- lift ArrayError
             (transpose rho (transpose_axes N device_wires complement_wires)) ;;
    flat <- lift ArrayError (reshape rho [2 ^ N; 2 ^ N]) ;;
    when (negb (close_to_one (trace flat))) AssertionError ;;;
    modify (set_state (Some rho)) ;;;
    modify (set_pre_rotated_state (Some rho)).

End StatePreparation.

Section Dispatch.
Context {Sc : Scalar}.

(** [isinstance(m, StateMP)]; [DensityMatrixMP] derives from [StateMP]. *)
Definition isinstance_StateMP (c : mp_class) : bool :=
  match c with StateMP | DensityMatrixMP => true | _ => false end.

Definition isinstance_rotated (c : mp_class) : bool :=
  match c with ProbabilityMP | ExpectationMP | VarianceMP => true | _ => false end.

Definition mp_name (c : mp_class) : string :=
  match c with
  | StateMP => "StateMP" | DensityMatrixMP => "DensityMatrixMP"
  | PurityMP => "PurityMP" | ProbabilityMP => "ProbabilityMP"
  | ExpectationMP => "ExpectationMP" | VarianceMP => "VarianceMP"
  | VnEntropyMP => "VnEntropyMP" | MutualInfoMP => "MutualInfoMP"
  | SampleMP => "SampleMP" | CountsMP => "CountsMP"
  | OtherMP n => n
  end.

Fixpoint for_each {A : Type} (l : list A) (f : A -> M unit) : M unit :=
  match l with
  | [] => ret tt
  | a :: l' => f a ;;; for_each l' f
  end.

(** [_apply_operation] on a gate: lines 764-765 and 783-795. *)
Definition _apply_gate (g : gate) : M unit :=
  if String.eqb (g_name g) "Identity" then ret tt
  else
    match g_kind g with
    | Diagonal eigvals => _apply_diagonal_unitary eigvals (g_wires g)
    | k =>
        let matrices := _get_kraus k in
        let num_op_wires := length (g_wires g) in
        d <- get ;;
        let numpy_like := match dev_interface d with
                          | Autograd | Numpy => true
                          | _ => false
                          end in
        if ((2 <? num_op_wires) && numpy_like) || (7 <? num_op_wires)
        then _apply_channel_tensordot matrices (g_wires g)
        else _apply_channel matrices (g_wires g)
    end.

(** [DefaultMixed._snapshot_measurements].  The diagonalizing gates of a
    measurement are gates, so [_apply_operation] on them is [_apply_gate]. *)
Definition _snapshot_measurements (dm : tensor) (m : measurement) : M snap_result :=
  d <- get ;;
  let N := num_wires d in
  let meas_wires := match m_wires m with [] => wires d | w => w end in
  let pre_rotated_state := _state d in
  (if isinstance_rotated (m_class m)
   then for_each (m_diagonalizing_gates m) _apply_gate
   else ret tt) ;;;
  snap_result <-
    match m_class m with
    | StateMP | DensityMatrixMP =>
        mapped <- map_wires meas_wires ;; ret (SnapDensityMatrix (reduce_dm N dm mapped))
    | PurityMP =>
        mapped <- map_wires meas_wires ;; ret (SnapPurity (purity_of N dm mapped))
    | ProbabilityMP =>
        probs <- analytic_probability (Some meas_wires) ;; ret (SnapProbs probs)
    | ExpectationMP =>
        probs <- analytic_probability (Some meas_wires) ;;
        ret (SnapExpval probs (m_eigvals m))
    | VarianceMP =>
        probs <- analytic_probability (Some meas_wires) ;;
        ret (SnapVar probs (m_eigvals m))
    | VnEntropyMP =>
        mapped <- map_wires meas_wires ;;
        ret (SnapVnEntropy dm mapped (m_log_base m))
    | MutualInfoMP =>
        wires0 <- map_wires (nth 0 (m_raw_wires m) []) ;;
        wires1 <- map_wires (nth 1 (m_raw_wires m) []) ;;
        ret (SnapMutualInfo dm wires0 wires1 (m_log_base m))
    | c =>
        raise (DeviceError ("Snapshots of " ++ mp_name c
                            ++ " are not yet supported on default.mixed"))
    end ;;
  modify (set_state pre_rotated_state) ;;;
  modify (fun d' => set_pre_rotated_state (_state d') d') ;;;
  ret snap_result.

(** [d[k] = v] on the snapshot dictionary. *)
Definition snap_key_eqb (a b : snap_key) : bool :=
  match a, b with
  | KeyTag s, KeyTag t => String.eqb s t
  | KeyIndex n, KeyIndex m => n =? m
  | _, _ => false
  end.

Fixpoint dict_set (k : snap_key) (v : snap_result)
    (l : list (snap_key * snap_result)) : list (snap_key * snap_result) :=
  match l with
  | [] => [(k, v)]
  | (k', v') :: l' => if snap_key_eqb k k' then (k, v) :: l'
                      else (k', v') :: dict_set k v l'
  end.

(** [DefaultMixed._apply_snapshot]. *)
Definition _apply_snapshot (tag : option string) (m : measurement) : M unit :=
  d <- get ;;
  match _debugger d with
  | Some dbg =>
      if active dbg then
        let dim := 2 ^ num_wires d in
        st <- current_state ;;
        dm <- lift ArrayError (reshape st [dim; dim]) ;;
        snapshot_result <- _snapshot_measurements dm m ;;
        modify (fun d' =>
          match _debugger d' with
          | Some g =>
              let key := match tag with
                         | Some t => if String.eqb t EmptyString
                                     then KeyIndex (length (snapshots g))
                                     else KeyTag t
                         | None => KeyIndex (length (snapshots g))
                         end in
              set_debugger
                (Some (mkDebugger (active g)
                                  (dict_set key snapshot_result (snapshots g)))) d'
          | None => d'
          end)
      else ret tt
  | None => ret tt
  end.

(** [DefaultMixed._apply_operation]. *)
Definition _apply_operation (o : operation) : M unit :=
  match o with
  | Gate g => _apply_gate g
  | StatePrep st ws => _apply_state_vector st ws
  | BasisState bitvals ws => _apply_basis_state bitvals ws
  | QubitDensityMatrix st ws => _apply_density_matrix st ws
  | Snapshot tag m => _apply_snapshot tag m
  end.

End Dispatch.

Section Orchestration.
Context {Sc : Scalar}.

(** The operator library: [qml.BitFlip(p, wires=k)]. *)
Variable BitFlip : pyval -> label -> operation.

Definition is_StatePrep_or_BasisState (o : operation) : bool :=
  match o with
  | StatePrep _ _ | BasisState _ _ => true
  | _ => false
  end.

Definition order_error (o : operation) : exn :=
  DeviceError ("Operation " ++ op_name o
               ++ " cannot be used after other Operations have already been applied "
               ++ "on a default.mixed device.").

(** The first loop of [apply], lines 860-865. *)
Fixpoint check_order (i : nat) (operations : list operation) : M unit :=
  match operations with
  | [] => ret tt
  | o :: rest =>
      if (0 <? i) && is_StatePrep_or_BasisState o then raise (order_error o)
      else check_order (S i) rest
  end.

(** [DefaultMixed.apply]. *)
Definition apply (operations rotations : list operation) : M unit :=
  check_order 0 operations ;;;
  for_each operations _apply_operation ;;;
  modify (fun d => set_pre_rotated_state (_state d) d) ;;;
  for_each rotations _apply_operation ;;;
  d <- get ;;
  match readout_err d with
  | Some p =>
      if truthy p
      then for_each (measured_wires d) (fun k => _apply_operation (BitFlip p k))
      else ret tt
  | None => ret tt
  end.

(** Modelled from the spec: [Wires.all_wires], the union of the wires of a
    list, each wire once, in the order of first appearance. *)
Fixpoint unique_labels (l : Wires) : Wires :=
  match l with
  | [] => []
  | w :: l' => w :: filter (fun v => negb (label_eqb w v)) (unique_labels l')
  end.

Definition all_wires (wires_list : list Wires) : Wires :=
  unique_labels (concat wires_list).

Definition is_sample_or_counts (c : mp_class) : bool :=
  match c with SampleMP | CountsMP => true | _ => false end.

Definition is_entropy (c : mp_class) : bool :=
  match c with VnEntropyMP | MutualInfoMP => true | _ => false end.

(** The loop of [execute], lines 831-852: the value [measured_wires] has
    when [super().execute] is called. *)
Fixpoint scan_measurements (dev_wires : Wires) (ms : list measurement)
    (wires_list : list Wires) : Wires :=
  match ms with
  | [] => all_wires wires_list
  | m :: rest =>
      if isinstance_StateMP (m_class m) then []
      else if is_sample_or_counts (m_class m)
              && (Wires_eqb (m_wires m) [] || Wires_eqb (m_wires m) dev_wires)
      then dev_wires
      else if is_entropy (m_class m) then scan_measurements dev_wires rest wires_list
      else scan_measurements dev_wires rest (wires_list ++ [m_wires m])
  end.

Record circuit : Type := mkCircuit {
  c_operations : list operation;
  c_measurements : list measurement
}.

Definition readout_enabled (d : device) : bool :=
  match readout_err d with Some p => truthy p | None => false end.

Section Execute.
Variable Result : Type.
(** [QubitDevice.execute], which is not part of the device module. *)
Variable super_execute : circuit -> M Result.

(** [DefaultMixed.execute]. *)
Definition execute (c : circuit) : M Result :=
  d <- get ;;
  (if readout_enabled d
   then modify (set_measured_wires
                  (scan_measurements (wires d) (c_measurements c) []))
   else ret tt) ;;;
  super_execute c.

End Execute.

End Orchestration.

Section Construction.
Context {Sc : Scalar}.

Definition wire_limit_error : exn :=
  ValueError "This device does not currently support computations on more than 23 wires".

(** [isinstance(wires, int) and wires > 23]. *)
Definition too_many_wires (w : wires_arg) : bool :=
  match w with
  | WiresCount n => (23 <? n)%Z
  | WiresLabels _ => false
  end.

(** The test of [readout_prob], lines 289-295 and 932-938. *)
Definition check_readout (readout_prob : option pyval) : option exn :=
  match readout_prob with
  | None => None
  | Some v =>
      if negb (is_number v) then
        Some (TypeError "The readout error probability should be an integer or a floating-point number in [0,1].")
      else if outside_unit v then
        Some (ValueError "The readout error probability should be in the range [0,1].")
      else None
  end.

Fixpoint unique_wires (l : Wires) : bool :=
  match l with
  | [] => true
  | w :: l' => negb (existsb (label_eqb w) l') && unique_wires l'
  end.

(** Modelled from the spec: the wire map that [super().__init__] fixes, the
    labels [0..n-1] for a count and the given labels, which must be unique,
    for an iterable. *)
Definition make_wires (w : wires_arg) : option Wires :=
  match w with
  | WiresCount n => Some (map (fun i => LInt (Z.of_nat i)) (seq 0 (Z.to_nat n)))
  | WiresLabels ls => if unique_wires ls then Some ls else None
  end.

(** [DefaultMixed.__init__]. *)
Definition DefaultMixed_init (w : wires_arg) (readout_prob : option pyval)
    (iface : interface) : exn + device :=
  if too_many_wires w then inl wire_limit_error
  else match check_readout readout_prob with
       | Some e => inl e
       | None =>
           match make_wires w with
           | None => inl WireError
           | Some ws =>
               match create_basis_state (length ws) 0 with
               | None => inl IndexError
               | Some t => inr (mkDevice ws iface readout_prob (Some t) (Some t) [] None)
               end
           end
       end.

(** The fields [DefaultMixedNewAPI.__init__] sets from its arguments. *)
Record new_api_device : Type := mkNewApi {
  new_wires : option Wires;
  new_readout_err : option pyval
}.

(** [DefaultMixedNewAPI.__init__]; [wires=None] is allowed. *)
Definition DefaultMixedNewAPI_init (w : option wires_arg)
    (readout_prob : option pyval) : exn + new_api_device :=
  if match w with Some a => too_many_wires a | None => false end
  then inl wire_limit_error
  else match check_readout readout_prob with
       | Some e => inl e
       | None =>
           match w with
           | None => inr (mkNewApi None readout_prob)
           | Some a =>
               match make_wires a with
               | None => inl WireError
               | Some ws => inr (mkNewApi (Some ws) readout_prob)
               end
           end
       end.

End Construction.

(** ** The remaining methods of the device *)

Section OtherMethods.
Context {Sc : Scalar}.

(** [DefaultMixed.reset].  [super().reset()] clears the samples kept by
    [QubitDevice], which the device module does not hold. *)
Definition reset : M unit :=
  t <- _create_basis_state 0 ;;
  modify (set_state (Some t)) ;;;
  modify (fun d => set_pre_rotated_state (_state d) d).

(** [DefaultMixed.purity] of a measurement process on the wires
    [mp_wires]. *)
Definition purity (mp_wires : Wires) : M C :=
  st <- state ;;
  mapped <- map_wires mp_wires ;;
  d <- get ;;
  ret (purity_of (num_wires d) st mapped).

End OtherMethods.

(** ** The new device interface: support and preprocessing *)

(** The names the module accepts as observables and as operations. *)
Definition observables : list string :=
  ["Hadamard"; "Hermitian"; "Identity"; "PauliX"; "PauliY"; "PauliZ"; "Prod";
   "Projector"; "SProd"; "Sum"]%string.

Definition operations_mixed : list string :=
  ["Identity"; "Snapshot"; "BasisState"; "StatePrep"; "QubitDensityMatrix";
   "QubitUnitary"; "ControlledQubitUnitary"; "BlockEncode"; "MultiControlledX";
   "DiagonalQubitUnitary"; "SpecialUnitary"; "PauliX"; "PauliY"; "PauliZ";
   "MultiRZ"; "Hadamard"; "S"; "T"; "SX"; "CNOT"; "SWAP"; "ISWAP"; "CSWAP";
   "Toffoli"; "CCZ"; "CY"; "CZ"; "CH"; "PhaseShift"; "PCPhase";
   "ControlledPhaseShift"; "CPhaseShift00"; "CPhaseShift01"; "CPhaseShift10";
   "RX"; "RY"; "RZ"; "Rot"; "CRX"; "CRY"; "CRZ"; "CRot"; "AmplitudeDamping";
   "GeneralizedAmplitudeDamping"; "PhaseDamping"; "DepolarizingChannel";
   "BitFlip"; "PhaseFlip"; "PauliError"; "ResetError"; "QubitChannel";
   "SingleExcitation"; "SingleExcitationPlus"; "SingleExcitationMinus";
   "DoubleExcitation"; "DoubleExcitationPlus"; "DoubleExcitationMinus";
   "QubitCarry"; "QubitSum"; "OrbitalRotation"; "FermionicSWAP"; "QFT";
   "ThermalRelaxationError"; "ECR"; "ParametrizedEvolution"; "GlobalPhase"]%string.

(** [name in names]. *)
Definition name_in (name : string) (names : list string) : bool :=
  existsb (String.eqb name) names.

(** An operator as [observable_stopping_condition] reads it: its [name]
    and the attributes the function visits, [operands], the operators of
    [terms()] and [base]; an attribute the object does not have is
    [None], and reading it raises [AttributeError]. *)
Unset Elimination Schemes.
Inductive operator : Type :=
| Operator (name : string)
           (operands : option (list operator))
           (terms : option (list operator))
           (base : option operator).
Set Elimination Schemes.

(** [observable_stopping_condition]; the result [None] is the
    [AttributeError].  [all] stops at the first operand that is not
    accepted. *)
Fixpoint observable_stopping_condition (obs : operator) : option bool :=
  match obs with
  | Operator name operands terms base =>
      let all :=
        fix all (l : list operator) : option bool :=
          match l with
          | [] => Some true
          | o :: l' =>
              match observable_stopping_condition o with
              | Some true => all l'
              | other => other
              end
          end in
      if name_in name ["Prod"; "Sum"]%string then
        match operands with Some l => all l | None => None end
      else if String.eqb name "LinearCombination" then
        match terms with Some l => all l | None => None end
      else if String.eqb name "SProd" then
        match base with
        | Some b => observable_stopping_condition b
        | None => None
        end
      else Some (name_in name observables)
  end.

Section Preprocessing.

(** [pennylane.ops.channel.__qubit_channels__], a set of names from the
    operator library. *)
Variable channels : list string.

(** [stopping_condition] on the name of an operator. *)
Definition stopping_condition (op_name : string) : bool :=
  let expected_set := operations_mixed ++ ["Snapshot"%string] ++ channels in
  name_in op_name expected_set.

(** The values of the device options: random generators and keys. *)
Variable option_value : Type.

(** The fields of [ExecutionConfig] that the device reads or sets; a
    gradient method is given by its name. *)
Record ExecutionConfig : Type := mkConfig {
  gradient_method : option string;
  use_device_gradient : option bool;
  grad_on_execution : option bool;
  config_interface : option string;
  device_options : list (string * option_value)
}.

(** [DefaultMixedNewAPI.supports_derivatives]; the circuit is given by
    the truth value of its shots. *)
Definition supports_derivatives (execution_config : option ExecutionConfig)
    (circuit_shots : option bool) : bool :=
  if match execution_config with
     | None => true
     | Some c => match gradient_method c with
                 | Some m => name_in m ["backprop"; "best"]%string
                 | None => false
                 end
     end
  then match circuit_shots with None => true | Some shots => negb shots end
  else false.

Definition _device_options : list string := ["rng"; "prng_key"]%string.

(** [option in d] for a dictionary of options. *)
Definition has_option (opt : string) (d : list (string * option_value)) : bool :=
  existsb (fun p => String.eqb opt (fst p)) d.

(** The attributes [_rng] and [_prng_key] of the device and its text in
    messages. *)
Variable _rng _prng_key : option_value.
Variable device_text : string.

(** [getattr(self, f"_{option}")] for the options of the device. *)
Definition device_attribute (opt : string) : option_value :=
  if String.eqb opt "rng" then _rng else _prng_key.

(** Modelled from the spec: [dataclasses.replace] on the fields above,
    every other field of the configuration being kept; the checks that the
    class makes after construction are not part of the device module. *)
Definition replace_config (gm : option string) (udg goe : bool)
    (iface : option string) (opts : list (string * option_value))
  : ExecutionConfig :=
  mkConfig gm (Some udg) (Some goe) iface opts.

(** [DefaultMixedNewAPI._setup_execution_config]. *)
Definition _setup_execution_config (execution_config : ExecutionConfig)
  : exn + ExecutionConfig :=
  let gm := gradient_method execution_config in
  let gradient_method' :=
    match gm with
    | Some m => if String.eqb m "best" then Some "backprop"%string else gm
    | None => gm
    end in
  let use_device_gradient' :=
    match gm with
    | Some m => name_in m ["backprop"; "best"]%string
    | None => false
    end in
  let interface' :=
    match gm with
    | Some m => if name_in m ["best"; "backprop"]%string
                then config_interface execution_config else None
    | None => config_interface execution_config
    end in
  let updated_options := device_options execution_config in
  match find (fun p => negb (name_in (fst p) _device_options))
             (device_options execution_config) with
  | Some p =>
      inl (DeviceError ("device option " ++ fst p ++ " not present on "
                        ++ device_text))
  | None =>
      let updated_options :=
        fold_left (fun acc opt =>
                     if has_option opt acc then acc
                     else acc ++ [(opt, device_attribute opt)])
                  _device_options updated_options in
      inr (replace_config gradient_method' use_device_gradient' false
             interface' updated_options)
  end.

(** The transforms of a program, with the arguments the device gives
    them. *)
Inductive transform : Type :=
| defer_measurements (allow_postselect : bool)
| decompose (name : string)
| no_sampling (name : string)
| warn_readout_error_state
| validate_device_wires (wires : option Wires) (name : string)
| validate_measurements (name : string)
| validate_observables (name : string).

(** [ExecutionConfig()], built by the class. *)
Variable default_config : ExecutionConfig.

(** [DefaultMixedNewAPI.preprocess]. *)
Definition preprocess (self : new_api_device)
    (execution_config : option ExecutionConfig)
  : exn + (list transform * ExecutionConfig) :=
  let execution_config :=
    match execution_config with Some c => c | None => default_config end in
  match _setup_execution_config execution_config with
  | inl e => inl e
  | inr config =>
      let transform_program :=
        [defer_measurements false; decompose "default.mixed"] in
      let transform_program :=
        match gradient_method config with
        | Some m => if String.eqb m "backprop"
                    then transform_program ++ [no_sampling "backprop + default.mixed"]
                    else transform_program
        | None => transform_program
        end in
      let transform_program :=
        match new_readout_err self with
        | Some _ => transform_program ++ [warn_readout_error_state]
        | None => transform_program
        end in
      inr (transform_program
             ++ [validate_device_wires (new_wires self) "default.mixed";
                 validate_measurements "default.mixed";
                 validate_observables "default.mixed"],
           config)
  end.

End Preprocessing.

(** * Verification *)

(** Gaussian integers: the concrete scalars used to run the model. *)
Module Gauss.

Definition t : Type := (Z * Z)%type.
Definition zero : t := (0, 0)%Z.
Definition one : t := (1, 0)%Z.
Definition imag : t := (0, 1)%Z.
Definition add (x y : t) : t := (fst x + fst y, snd x + snd y)%Z.
Definition mul (x y : t) : t :=
  (fst x * fst y - snd x * snd y, fst x * snd y + snd x * fst y)%Z.
Definition opp (x : t) : t := (- fst x, - snd x)%Z.
Definition sub (x y : t) : t := add x (opp y).
Definition conj (x : t) : t := (fst x, - snd x)%Z.

Lemma ring : ring_theory zero one add mul sub opp (@eq t).
Proof.
  constructor; unfold zero, one, add, mul, sub, opp;
    repeat (intros [? ?]); cbn [fst snd]; try reflexivity; f_equal; ring.
Qed.

Lemma conj_add x y : conj (add x y) = add (conj x) (conj y).
Proof. destruct x, y; unfold conj, add; cbn [fst snd]; f_equal; ring. Qed.

Lemma conj_mul x y : conj (mul x y) = mul (conj x) (conj y).
Proof. destruct x, y; unfold conj, mul; cbn [fst snd]; f_equal; ring. Qed.

End Gauss.

#[export] Instance GaussScalar : Scalar := {|
  C := Gauss.t;
  c0 := Gauss.zero;
  c1 := Gauss.one;
  cadd := Gauss.add;
  cmul := Gauss.mul;
  csub := Gauss.sub;
  copp := Gauss.opp;
  cconj := Gauss.conj;
  Re := Z;
  creal := fst;
  rneg := fun r => Z.ltb r 0;
  ropp := Z.opp;
  close_to_one := fun x => Z.eqb (fst x) 1 && Z.eqb (snd x) 0;
  C_ring := Gauss.ring;
  cconj_add := Gauss.conj_add;
  cconj_mul := Gauss.conj_mul;
  close_to_one_1 := eq_refl
|}.

(** ** Running a method *)

Section MonadFacts.
Context {Sc : Scalar}.

Lemma bind_ok {A B : Type} (m : M A) (f : A -> M B) d a d' :
  m d = (inr a, d') -> bind m f d = f a d'.
Proof. unfold bind; intros ->; reflexivity. Qed.

Lemma bind_err {A B : Type} (m : M A) (f : A -> M B) d e d' :
  m d = (inl e, d') -> bind m f d = (inl e, d').
Proof. unfold bind; intros ->; reflexivity. Qed.

Lemma bind_inv {A B : Type} (m : M A) (f : A -> M B) d b d' :
  bind m f d = (inr b, d') -> exists a d1, m d = (inr a, d1) /\ f a d1 = (inr b, d').
Proof.
  unfold bind; destruct (m d) as [[e | a] d1]; intros H; [discriminate |].
  exists a, d1; auto.
Qed.

Lemma lift_inv {A : Type} (e : exn) (o : option A) d a d' :
  lift e o d = (inr a, d') -> o = Some a /\ d' = d.
Proof.
  destruct o; unfold lift, ret, raise; intros H; inversion H; auto.
Qed.

End MonadFacts.

Arguments bind_ok {Sc A B} m f {d a d'} _.
Arguments bind_err {Sc A B} m f {d e d'} _.

(** ** Concrete data used by the examples *)

Section Examples.
Context {Sc : Scalar}.

(** A matrix given by its rows. *)
Definition matrix_of (rows : list (list C)) : tensor :=
  mkTensor [length rows; length (hd [] rows)]
    (fun idx => nth (nth 1 idx 0) (nth (nth 0 idx 0) rows []) c0).

Definition PauliX_matrix : tensor := matrix_of [[c0; c1]; [c1; c0]].
Definition ket0_matrix : tensor := matrix_of [[c1; c0]; [c0; c0]].
Definition ket1_matrix : tensor := matrix_of [[c0; c0]; [c0; c1]].

Definition PauliX (w : label) : operation :=
  Gate (mkGate "PauliX" (Unitary PauliX_matrix) [w]).

(** A stand-in for the operator library where no readout error is set. *)
Definition no_BitFlip (p : pyval) (w : label) : operation :=
  Gate (mkGate "Identity" (Channel []) [w]).

(** The device [DefaultMixed(wires=n)] right after construction. *)
Definition fresh_device (n : nat) (dbg : option debugger) : option device :=
  match DefaultMixed_init (WiresCount (Z.of_nat n)) None Numpy with
  | inr d => Some (set_debugger dbg d)
  | inl _ => None
  end.

End Examples.

(** ** Ordering of state preparations (C3) *)

Section Ordering.
Context {Sc : Scalar}.
Variable BitFlip : pyval -> label -> operation.

Definition is_state_preparation (o : operation) : bool :=
  match o with
  | StatePrep _ _ | BasisState _ _ | QubitDensityMatrix _ _ => true
  | _ => false
  end.

Lemma check_order_rejects (ops : list operation) :
  forall j i o d,
    nth_error ops i = Some o -> 0 < j + i ->
    is_StatePrep_or_BasisState o = true ->
    exists o', In o' ops /\ is_StatePrep_or_BasisState o' = true /\
               check_order j ops d = (inl (order_error o'), d).
Proof.
  induction ops as [| a ops IH]; intros j i o d Hn Hpos Ho.
  - destruct i; discriminate.
  - cbn [check_order].
    destruct ((0 <? j) && is_StatePrep_or_BasisState a) eqn:E.
    + apply andb_prop in E as [_ Ea].
      exists a; repeat split; [left; reflexivity | exact Ea].
    + destruct i as [| i].
      * cbn in Hn; inversion Hn; subst a.
        rewrite Ho, andb_true_r in E. apply Nat.ltb_ge in E. lia.
      * destruct (IH (S j) i o d Hn ltac:(lia) Ho) as (o' & Hin & Ho' & Hc).
        exists o'; repeat split; [right; exact Hin | exact Ho' | exact Hc].
Qed.

(** C3 (as amended): a [StatePrep] or [BasisState] at any position after
    the first makes [apply] raise the [DeviceError] saying that the
    operation cannot be used after other operations, and the device is left
    exactly as it was. *)
Theorem apply_rejects_late_state_preparation
    (ops rots : list operation) (d : device) (i : nat) (o : operation) :
  0 < i -> nth_error ops i = Some o ->
  is_StatePrep_or_BasisState o = true ->
  exists o', In o' ops /\ is_StatePrep_or_BasisState o' = true /\
             apply BitFlip ops rots d = (inl (order_error o'), d).
Proof.
  intros Hi Hn Ho.
  destruct (@check_order_rejects ops 0 i o d Hn ltac:(lia) Ho) as (o' & Hin & Ho' & Hc).
  exists o'; repeat split; auto.
  unfold apply. apply bind_err. exact Hc.
Qed.

End Ordering.

Definition bare_device {Sc : Scalar} (ws : Wires) : device :=
  mkDevice ws Numpy None None None [] None.

Lemma apply_rejects_late_state_preparation_witness :
  exists o',
    In o' [PauliX (LInt 0); BasisState [1%Z] [LInt 0]] /\
    is_StatePrep_or_BasisState o' = true /\
    apply no_BitFlip [PauliX (LInt 0); BasisState [1%Z] [LInt 0]] []
          (@bare_device GaussScalar [LInt 0%Z])
    = (inl (order_error o'), bare_device [LInt 0%Z]).
Proof.
  apply (@apply_rejects_late_state_preparation GaussScalar no_BitFlip
           [PauliX (LInt 0); BasisState [1%Z] [LInt 0]] []
           (bare_device [LInt 0%Z]) 1 (BasisState [1%Z] [LInt 0]));
    [lia | reflexivity | reflexivity].
Defined.

(** C3 as stated fails for [QubitDensityMatrix]: after a [PauliX], a
    [QubitDensityMatrix] on the one-wire device is applied and [apply]
    returns normally. *)
Lemma late_QubitDensityMatrix_is_accepted :
  let ops := [PauliX (LInt 0); QubitDensityMatrix ket0_matrix [LInt 0]] in
  exists d : @device GaussScalar,
    fresh_device 1 None = Some d /\
    nth_error ops 1 = Some (QubitDensityMatrix ket0_matrix [LInt 0]) /\
    is_state_preparation (QubitDensityMatrix ket0_matrix [LInt 0]) = true /\
    fst (apply no_BitFlip ops [] d) = inr tt.
Proof.
  intros ops.
  destruct (fresh_device 1 None) as [d |] eqn:Hd; [| discriminate].
  exists d. split; [reflexivity |]. split; [reflexivity |]. split; [reflexivity |].
  inversion Hd; subst d. vm_compute. reflexivity.
Qed.

(** ** Shapes and basis states *)

Section ShapeFacts.
Context {Sc : Scalar}.

Lemma prod_shape_repeat2 (n : nat) : prod_shape (repeat 2 n) = 2 ^ n.
Proof.
  induction n as [| n IH]; [reflexivity |].
  cbn [repeat prod_shape fold_right]. fold (prod_shape (repeat 2 n)).
  rewrite IH, Nat.pow_succ_r'. reflexivity.
Qed.

Lemma prod_shape_square (N : nat) :
  prod_shape [2 ^ N; 2 ^ N] = prod_shape (repeat 2 (2 * N)).
Proof.
  rewrite prod_shape_repeat2. unfold prod_shape; cbn [fold_right].
  replace (2 * N) with (N + N) by lia. rewrite Nat.pow_add_r. lia.
Qed.

Lemma pow2_pos (n : nat) : 0 < 2 ^ n.
Proof. apply Nat.neq_0_lt_0, Nat.pow_nonzero. discriminate. Qed.

Lemma reshape_square_to_tensor (N : nat) (f : list nat -> C) :
  reshape (mkTensor [2 ^ N; 2 ^ N] f) (repeat 2 (2 * N))
  = Some (mkTensor (repeat 2 (2 * N))
            (fun idx => f (unravel [2 ^ N; 2 ^ N] (ravel (repeat 2 (2 * N)) idx)))).
Proof.
  unfold reshape. cbn [shape data]. rewrite prod_shape_square, Nat.eqb_refl.
  reflexivity.
Qed.

Lemma reshape_tensor_to_square (N : nat) (t : tensor) :
  shape t = repeat 2 (2 * N) ->
  reshape t [2 ^ N; 2 ^ N]
  = Some (mkTensor [2 ^ N; 2 ^ N]
            (fun idx => data t (unravel (repeat 2 (2 * N)) (ravel [2 ^ N; 2 ^ N] idx)))).
Proof.
  intros Hs. unfold reshape. rewrite Hs, prod_shape_square, Nat.eqb_refl.
  reflexivity.
Qed.

Lemma create_basis_state_eq (N index : nat) :
  index < 2 ^ N ->
  create_basis_state N index
  = Some (mkTensor (repeat 2 (2 * N))
      (fun idx =>
         let rc := unravel [2 ^ N; 2 ^ N] (ravel (repeat 2 (2 * N)) idx) in
         if (nth 0 rc 0 =? index) && (nth 1 rc 0 =? index) then c1 else c0)).
Proof.
  intros Hi. unfold create_basis_state.
  apply Nat.ltb_lt in Hi. rewrite Hi.
  apply reshape_square_to_tensor.
Qed.

End ShapeFacts.

(** ** The wire limit (C4) *)

Section WireLimit.
Context {Sc : Scalar}.

Lemma DefaultMixed_init_count_limit (n : Z) (r : option pyval) (i : interface) :
  (23 < n)%Z -> DefaultMixed_init (WiresCount n) r i = inl wire_limit_error.
Proof.
  intros H. unfold DefaultMixed_init, too_many_wires.
  apply Z.ltb_lt in H. rewrite H. reflexivity.
Qed.

Lemma DefaultMixedNewAPI_init_count_limit (n : Z) (r : option pyval) :
  (23 < n)%Z -> DefaultMixedNewAPI_init (Some (WiresCount n)) r = inl wire_limit_error.
Proof.
  intros H. unfold DefaultMixedNewAPI_init, too_many_wires.
  apply Z.ltb_lt in H. rewrite H. reflexivity.
Qed.

Lemma DefaultMixed_init_labels (ls : Wires) (i : interface) :
  unique_wires ls = true ->
  exists t, DefaultMixed_init (WiresLabels ls) None i
            = inr (mkDevice ls i None (Some t) (Some t) [] None).
Proof.
  intros Hu. unfold DefaultMixed_init.
  cbn [too_many_wires check_readout make_wires]. rewrite Hu.
  rewrite create_basis_state_eq by apply pow2_pos.
  eexists. reflexivity.
Qed.

Definition labels24 : Wires := map (fun i => LInt (Z.of_nat i)) (seq 0 24).

(** C4 at its failing input: a list of 24 wire labels passes the guard
    [isinstance(wires, int) and wires > 23] of both constructors, and a
    device of 24 wires is built: by [DefaultMixedNewAPI], which allocates
    no state, and by [DefaultMixed] as far as its tests go (its state of
    [4^24] entries is beyond what this model counts). *)
Theorem constructors_accept_24_labels :
  (exists d, DefaultMixed_init (WiresLabels labels24) None Numpy = inr d
             /\ num_wires d = 24)
  /\ (exists d, DefaultMixedNewAPI_init (Some (WiresLabels labels24)) None = inr d
                /\ option_map (@length label) (new_wires d) = Some 24).
Proof.
  split.
  - destruct (@DefaultMixed_init_labels labels24 Numpy) as [t Ht];
      [vm_compute; reflexivity |].
    eexists. split; [exact Ht | reflexivity].
  - eexists. split; reflexivity.
Qed.

End WireLimit.

(** ** The wires subject to readout error (C7) *)

Section MeasuredWires.
Context {Sc : Scalar}.

Definition is_full_sample (dev_wires : Wires) (m : measurement) : bool :=
  is_sample_or_counts (m_class m)
  && (Wires_eqb (m_wires m) [] || Wires_eqb (m_wires m) dev_wires).

Definition contributing_wires (ms : list measurement) : list Wires :=
  map (@m_wires Sc) (filter (fun m => negb (is_entropy (m_class m))) ms).

(** The rule as the specification words it: a state measurement anywhere
    wins, then a full-register sample anywhere, then the union. *)
Definition claimed_measured_wires (dev_wires : Wires) (ms : list measurement) : Wires :=
  if existsb (fun m => isinstance_StateMP (m_class m)) ms then []
  else if existsb (is_full_sample dev_wires) ms then dev_wires
  else all_wires (contributing_wires ms).



Variable Result : Type.
Variable super_execute : circuit -> M Result.






End MeasuredWires.

Definition plain_measurement (c : mp_class) (ws : Wires) : @measurement GaussScalar :=
  mkMeasurement c ws [] [] (mkTensor [] (fun _ => 0%Z)) None.

Definition noisy_device : @device GaussScalar :=
  mkDevice [LInt 0; LInt 1] Numpy (Some (PyFloat (QArith_base.Qmake 1 2)))
           None None [] None.

Definition return_nothing : circuit -> @M GaussScalar unit := fun _ => ret tt.


(** Outside those circuits the order of the measurements shows: with a
    sample of the whole register before a state measurement the loop stops
    at the sample and takes all device wires. *)
Lemma sample_before_state_measures_all_wires :
  let ms := [plain_measurement SampleMP []; plain_measurement StateMP []] in
  readout_enabled noisy_device = true /\
  claimed_measured_wires (wires noisy_device) ms = [] /\
  measured_wires (snd (execute return_nothing (mkCircuit [] ms) noisy_device))
  = [LInt 0; LInt 1].
Proof. repeat split. Qed.

(** ** Analytic probabilities (C10) *)

Section Probability.
Context {Sc : Scalar}.

(** The matrix form of a rank-2N state tensor. *)
Definition matrix_form (N : nat) (st : tensor) : tensor :=
  mkTensor [2 ^ N; 2 ^ N]
    (fun idx => data st (unravel (repeat 2 (2 * N)) (ravel [2 ^ N; 2 ^ N] idx))).

Definition reflect_negative (p : Re) : Re := if rneg p then ropp p else p.

Definition selected_probs (d : device) (rho : tensor) (ws : option Wires)
  : option tensor :=
  match ws with
  | None => Some (diagonal rho)
  | Some w => option_map (marginal_prob (num_wires d) (diagonal rho))
                         (map_labels (wires d) w)
  end.

(** The method unfolded: [None] without a state tensor, and otherwise the
    reflected real part of the probabilities that are selected. *)
Lemma analytic_probability_run (ws : option Wires) (d : device) :
  (_state d = None -> analytic_probability ws d = (inr None, d))
  /\ (forall st probs,
        _state d = Some st ->
        shape st = repeat 2 (2 * num_wires d) ->
        selected_probs d (matrix_form (num_wires d) st) ws = Some probs ->
        analytic_probability ws d
        = (inr (Some (tmap reflect_negative (tmap creal probs))), d)).
Proof.
  split.
  - intros Hn. unfold analytic_probability, bind, get, ret. rewrite Hn. reflexivity.
  - intros st probs Hs Hshape Hp.
    unfold analytic_probability, bind, get, ret. rewrite Hs.
    rewrite (reshape_tensor_to_square (num_wires d) st Hshape).
    fold (matrix_form (num_wires d) st). cbn [lift ret].
    unfold selected_probs in Hp. destruct ws as [w |].
    + unfold map_wires, bind, get, ret.
      destruct (map_labels (wires d) w) as [mapped |]; [| discriminate].
      cbn in Hp. inversion Hp; subst probs. reflexivity.
    + inversion Hp; subst probs. reflexivity.
Qed.

End Probability.

Definition stateless_device : @device GaussScalar :=
  mkDevice [LInt 0] Numpy None None None [] None.

Definition ket0_tensor : @tensor GaussScalar :=
  mkTensor [2; 2] (fun idx => if forallb (Nat.eqb 0) idx then c1 else c0).

(** ** Snapshots (C6) *)

Section Snapshots.
Context {Sc : Scalar}.

Definition debugger_active (d : device) : bool :=
  match _debugger d with Some g => active g | None => false end.

Definition snapshot_supported (c : mp_class) : bool :=
  match c with
  | SampleMP | CountsMP | OtherMP _ => false
  | _ => true
  end.

Definition unsupported_snapshot (c : mp_class) : exn :=
  DeviceError ("Snapshots of " ++ mp_name c
               ++ " are not yet supported on default.mixed").

Lemma snapshot_measurements_restores (dm : tensor) (m : measurement) d r d' :
  _snapshot_measurements dm m d = (inr r, d') ->
  _state d' = _state d /\ _pre_rotated_state d' = _state d.
Proof.
  unfold _snapshot_measurements. intros H.
  apply bind_inv in H as (d0 & d1 & Hget & H).
  unfold get in Hget. inversion Hget; subst d0 d1. clear Hget.
  apply bind_inv in H as (u & d1 & _ & H).
  apply bind_inv in H as (sr & d2 & _ & H).
  unfold bind, modify, ret in H. inversion H. split; reflexivity.
Qed.

Lemma snapshot_measurements_unsupported (dm : tensor) (m : measurement) d :
  snapshot_supported (m_class m) = false ->
  _snapshot_measurements dm m d = (inl (unsupported_snapshot (m_class m)), d).
Proof.
  unfold _snapshot_measurements, unsupported_snapshot. intros H.
  destruct (m_class m); try discriminate; reflexivity.
Qed.

(** C6 (as amended): a snapshot that returns leaves the working tensor as
    it was.  Without an active debugger it changes nothing at all; with
    one, a snapshot that returns sets the pre-rotation reference to the
    working tensor; and, with an active debugger and a state that is set,
    a measurement type without a snapshot raises the [DeviceError] naming
    the type and changes nothing. *)
Theorem snapshot_state_effect (tag : option string) (m : measurement) (d : device) :
  (debugger_active d = false -> _apply_snapshot tag m d = (inr tt, d))
  /\ (forall d', _apply_snapshot tag m d = (inr tt, d') ->
        _state d' = _state d
        /\ (debugger_active d = true -> _pre_rotated_state d' = _state d))
  /\ (forall st,
        debugger_active d = true ->
        _state d = Some st -> shape st = repeat 2 (2 * num_wires d) ->
        snapshot_supported (m_class m) = false ->
        _apply_snapshot tag m d = (inl (unsupported_snapshot (m_class m)), d)).
Proof.
  unfold debugger_active. split; [| split].
  - intros Ha. unfold _apply_snapshot, bind, get.
    destruct (_debugger d) as [g |]; [rewrite Ha |]; reflexivity.
  - intros d' H. unfold _apply_snapshot in H.
    apply bind_inv in H as (d0 & d1 & Hget & H).
    unfold get in Hget. inversion Hget; subst d0 d1. clear Hget.
    destruct (_debugger d) as [g |] eqn:Eg.
    + destruct (active g) eqn:Ea.
      * apply bind_inv in H as (st & d1 & Hst & H).
        unfold current_state in Hst.
        apply bind_inv in Hst as (d0 & d2 & Hget & Hst).
        unfold get in Hget. inversion Hget; subst d0 d2. clear Hget.
        apply lift_inv in Hst as [_ ->].
        apply bind_inv in H as (dm & d1 & Hdm & H).
        apply lift_inv in Hdm as [_ ->].
        apply bind_inv in H as (sr & d1 & Hsm & H).
        apply snapshot_measurements_restores in Hsm as [Hs Hp].
        unfold modify in H. inversion H; subst d'.
        destruct (_debugger d1); cbn; rewrite ?Hs, ?Hp; auto.
      * unfold ret in H. inversion H; subst d'. split; [reflexivity | discriminate].
    + unfold ret in H. inversion H; subst d'. split; [reflexivity | discriminate].
  - intros st Ha Hs Hshape Hu. unfold _apply_snapshot, bind, get.
    destruct (_debugger d) as [g |]; [| discriminate]. rewrite Ha.
    unfold current_state, bind, get. rewrite Hs. cbn [lift ret].
    rewrite (reshape_tensor_to_square (num_wires d) st Hshape). cbn [lift ret].
    rewrite snapshot_measurements_unsupported by exact Hu. reflexivity.
Qed.

End Snapshots.

Lemma returned_pair {A : Type} {Sc : Scalar} (p : (exn + A) * device) (a : A) :
  fst p = inr a -> p = (inr a, snd p).
Proof. destruct p as [r d]; cbn; intros ->; reflexivity. Qed.

(** A one-wire device with a recording debugger, after a [PauliX]: the
    working tensor is |1><1| and the pre-rotation reference still
    |0><0|. *)
Definition debugged_device : @device GaussScalar :=
  match fresh_device 1 (Some (mkDebugger true [])) with
  | Some d => snd (_apply_operation (PauliX (LInt 0)) d)
  | None => bare_device []
  end.

Definition probs_snapshot : @measurement GaussScalar :=
  plain_measurement ProbabilityMP [LInt 0].

Definition entry00 (t : option (@tensor GaussScalar)) : option Gauss.t :=
  option_map (fun u => data u [0; 0]) t.

Lemma snapshot_state_effect_witness :
  _apply_snapshot None probs_snapshot stateless_device = (inr tt, stateless_device)
  /\ (let d' := snd (_apply_snapshot None probs_snapshot debugged_device) in
      _state d' = _state debugged_device
      /\ _pre_rotated_state d' = _state debugged_device)
  /\ _apply_snapshot None (plain_measurement SampleMP []) debugged_device
     = (inl (unsupported_snapshot SampleMP), debugged_device).
Proof.
  split; [| split].
  - apply (proj1 (snapshot_state_effect None probs_snapshot stateless_device)).
    reflexivity.
  - intros d'.
    destruct (proj1 (proj2 (snapshot_state_effect None probs_snapshot debugged_device)) d')
      as [Hs Hp].
    + apply returned_pair. vm_compute. reflexivity.
    + split; [exact Hs | apply Hp; reflexivity].
  - apply (proj2 (proj2 (snapshot_state_effect None (plain_measurement SampleMP [])
                           debugged_device))
             (match _state debugged_device with Some t => t | None => ket0_tensor end));
      try reflexivity.
Defined.

(** C6 as stated fails for the pre-rotation reference: it is |0><0| before
    the snapshot and |1><1|, the working tensor, after it. *)
Lemma snapshot_moves_pre_rotated_reference :
  let d' := snd (_apply_snapshot None probs_snapshot debugged_device) in
  debugger_active debugged_device = true
  /\ fst (_apply_snapshot None probs_snapshot debugged_device) = inr tt
  /\ entry00 (_pre_rotated_state debugged_device) = Some Gauss.one
  /\ entry00 (_pre_rotated_state d') = Some Gauss.zero
  /\ _pre_rotated_state d' <> _pre_rotated_state debugged_device.
Proof.
  intros d'.
  assert (H1 : entry00 (_pre_rotated_state debugged_device) = Some Gauss.one)
    by (vm_compute; reflexivity).
  assert (H2 : entry00 (_pre_rotated_state d') = Some Gauss.zero)
    by (vm_compute; reflexivity).
  split; [reflexivity |]. split; [vm_compute; reflexivity |].
  split; [exact H1 |]. split; [exact H2 |].
  intros E. rewrite E, H1 in H2. discriminate.
Qed.

(** A snapshot that raises is not covered by the statement above, and is
    not restored: the expectation value of an observable on the wires 0
    and 5, with one diagonalizing gate on wire 0 ([PauliX] stands for it),
    on the one-wire device.  The gate is applied, [analytic_probability]
    then raises [WireError] for wire 5, and the assignments that restore
    the state are not reached: the working tensor is left rotated. *)
Definition failing_snapshot : @measurement GaussScalar :=
  mkMeasurement ExpectationMP [LInt 0; LInt 5] []
    [mkGate "PauliX" (Unitary PauliX_matrix) [LInt 0]]
    (mkTensor [] (fun _ => 0%Z)) None.

Lemma snapshot_raising_after_rotation :
  let d' := snd (_apply_snapshot None failing_snapshot debugged_device) in
  debugger_active debugged_device = true
  /\ fst (_apply_snapshot None failing_snapshot debugged_device) = inl WireError
  /\ entry00 (_state debugged_device) = Some Gauss.zero
  /\ entry00 (_state d') = Some Gauss.one.
Proof. repeat split; vm_compute; reflexivity. Qed.

(** ** Row-major indexing *)

Section Indexing.
Context {Sc : Scalar}.

Lemma valid_index_length (s idx : list nat) :
  valid_index s idx -> length idx = length s.
Proof.
  revert idx; induction s as [| d s IH]; intros [| i idx] H; cbn in *;
    try contradiction; auto.
  destruct H as [_ H]. f_equal. apply IH, H.
Qed.

Lemma prod_shape_pos (s idx : list nat) : valid_index s idx -> 0 < prod_shape s.
Proof.
  revert idx; induction s as [| d s IH]; intros [| i idx] H; cbn in *;
    try contradiction; [lia |].
  destruct H as [Hi H]. specialize (IH _ H).
  fold (prod_shape s). nia.
Qed.

Lemma ravel_lt (s idx : list nat) : valid_index s idx -> ravel s idx < prod_shape s.
Proof.
  revert idx; induction s as [| d s IH]; intros [| i idx] H; cbn in *;
    try contradiction; [lia |].
  destruct H as [Hi H]. specialize (IH _ H).
  fold (prod_shape s). nia.
Qed.

Lemma prod_shape_app (s1 s2 : list nat) :
  prod_shape (s1 ++ s2) = prod_shape s1 * prod_shape s2.
Proof.
  unfold prod_shape. induction s1 as [| d s1 IH]; cbn [app fold_right]; [lia |].
  rewrite IH. ring.
Qed.

Lemma ravel_app (s1 s2 i1 i2 : list nat) :
  length i1 = length s1 ->
  ravel (s1 ++ s2) (i1 ++ i2) = ravel s1 i1 * prod_shape s2 + ravel s2 i2.
Proof.
  revert i1; induction s1 as [| d s1 IH]; intros [| i i1] H; cbn in *;
    try discriminate; [lia |].
  injection H as H. rewrite (IH _ H), prod_shape_app. lia.
Qed.

Lemma valid_index_app (s1 s2 i1 i2 : list nat) :
  valid_index s1 i1 -> valid_index s2 i2 -> valid_index (s1 ++ s2) (i1 ++ i2).
Proof.
  revert i1; induction s1 as [| d s1 IH]; intros [| i i1] H1 H2; cbn in *;
    try contradiction; auto.
  destruct H1 as [Hi H1]. split; auto.
Qed.

Lemma valid_index_split (s1 s2 idx : list nat) :
  valid_index (s1 ++ s2) idx ->
  valid_index s1 (firstn (length s1) idx) /\ valid_index s2 (skipn (length s1) idx).
Proof.
  revert idx; induction s1 as [| d s1 IH]; intros idx H; cbn in *.
  - split; [exact I | exact H].
  - destruct idx as [| i idx]; [contradiction |]. destruct H as [Hi H].
    destruct (IH _ H) as [H1 H2]. cbn. auto.
Qed.

Lemma unravel_ravel (s idx : list nat) :
  valid_index s idx -> unravel s (ravel s idx) = idx.
Proof.
  revert idx; induction s as [| d s IH]; intros [| i idx] H; cbn in *;
    try contradiction; [reflexivity |].
  destruct H as [Hi H]. fold (prod_shape s).
  pose proof (ravel_lt _ _ H) as Hlt.
  rewrite Nat.div_add_l by lia. rewrite Nat.div_small by exact Hlt.
  rewrite Nat.add_0_r. f_equal.
  rewrite Nat.add_comm, Nat.Div0.mod_add, Nat.mod_small by exact Hlt.
  apply IH, H.
Qed.

Lemma valid_unravel (s : list nat) (n : nat) :
  n < prod_shape s -> valid_index s (unravel s n).
Proof.
  revert n; induction s as [| d s IH]; intros n H; cbn in *; [exact I |].
  fold (prod_shape s) in *.
  assert (0 < prod_shape s) by nia.
  split.
  - apply Nat.Div0.div_lt_upper_bound. lia.
  - apply IH. apply Nat.mod_upper_bound. lia.
Qed.

Lemma ravel_unravel (s : list nat) (n : nat) :
  n < prod_shape s -> ravel s (unravel s n) = n.
Proof.
  revert n; induction s as [| d s IH]; intros n H; cbn in *; [lia |].
  fold (prod_shape s) in *.
  assert (0 < prod_shape s) by nia.
  rewrite IH by (apply Nat.mod_upper_bound; lia).
  pose proof (Nat.div_mod_eq n (prod_shape s)). lia.
Qed.

(** The row and the column of the matrix form at a multi-index. *)
Lemma unravel_square (N : nat) (r c : list nat) :
  valid_index (repeat 2 N) r -> valid_index (repeat 2 N) c ->
  unravel [2 ^ N; 2 ^ N] (ravel (repeat 2 (2 * N)) (r ++ c))
  = [ravel (repeat 2 N) r; ravel (repeat 2 N) c].
Proof.
  intros Hr Hc.
  replace (2 * N) with (N + N) by lia. rewrite repeat_app.
  rewrite ravel_app by (rewrite (valid_index_length _ _ Hr); reflexivity).
  rewrite prod_shape_repeat2.
  pose proof (ravel_lt _ _ Hr) as Hr'. pose proof (ravel_lt _ _ Hc) as Hc'.
  rewrite prod_shape_repeat2 in Hr', Hc'.
  change (unravel [2 ^ N; 2 ^ N] ?n)
    with [n / prod_shape [2 ^ N]; (n mod prod_shape [2 ^ N]) / prod_shape []].
  unfold prod_shape; cbn [fold_right]. rewrite Nat.mul_1_r, Nat.div_1_r.
  rewrite Nat.div_add_l by lia. rewrite (Nat.div_small _ _ Hc'), Nat.add_0_r.
  rewrite Nat.add_comm, Nat.Div0.mod_add, (Nat.mod_small _ _ Hc'). reflexivity.
Qed.

End Indexing.

(** ** Basis states (C9) *)

Section BasisStates.
Context {Sc : Scalar}.

Definition sum_nat (l : list nat) (f : nat -> nat) : nat :=
  fold_right (fun x acc => f x + acc) 0 l.

Lemma sum_nat_remove (f : nat -> nat) (a : nat) (l : list nat) :
  NoDup l -> In a l ->
  sum_nat l f = f a + sum_nat (remove Nat.eq_dec a l) f.
Proof.
  induction l as [| x l IH]; intros Hnd Hin; [contradiction |].
  inversion Hnd as [| ? ? Hx Hl]; subst. cbn [remove sum_nat fold_right].
  destruct (Nat.eq_dec a x) as [-> | Hne].
  - rewrite notin_remove by exact Hx. reflexivity.
  - destruct Hin as [-> | Hin]; [contradiction |].
    cbn [fold_right]. fold (sum_nat l f) (sum_nat (remove Nat.eq_dec a l) f).
    rewrite (IH Hl Hin). lia.
Qed.

Lemma NoDup_remove_eq (a : nat) (l : list nat) :
  NoDup l -> NoDup (remove Nat.eq_dec a l).
Proof.
  induction 1 as [| x l Hx Hl IH]; cbn; [constructor |].
  destruct (Nat.eq_dec a x); [exact IH |].
  constructor; [| exact IH]. intros Hin. apply in_remove in Hin as [Hin _]. auto.
Qed.

Lemma sum_pow2_bound (N : nat) :
  forall l, NoDup l -> (forall x, In x l -> x < N) -> sum_nat l (Nat.pow 2) < 2 ^ N.
Proof.
  induction N as [| N IH]; intros l Hnd Hlt.
  - destruct l as [| x l]; [cbn; lia |]. specialize (Hlt x (or_introl eq_refl)). lia.
  - rewrite Nat.pow_succ_r'.
    destruct (in_dec Nat.eq_dec N l) as [Hin | Hnin].
    + rewrite (sum_nat_remove (Nat.pow 2) N Hnd Hin).
      assert (sum_nat (remove Nat.eq_dec N l) (Nat.pow 2) < 2 ^ N); [| lia].
      apply IH; [apply NoDup_remove_eq, Hnd |].
      intros x Hx. apply in_remove in Hx as [Hx Hne]. specialize (Hlt x Hx). lia.
    + assert (sum_nat l (Nat.pow 2) < 2 ^ N); [| lia].
      apply IH; [exact Hnd |]. intros x Hx. specialize (Hlt x Hx).
      assert (x <> N) by (intros ->; contradiction). lia.
Qed.

Definition binary (bitvals : list Z) : bool :=
  forallb (fun b => Z.eqb b 0 || Z.eqb b 1) bitvals.

Lemma basis_number_le (N : nat) (bitvals : list Z) (ws : list nat) :
  binary bitvals = true ->
  basis_number N bitvals ws <= sum_nat (map (fun w => N - 1 - w) ws) (Nat.pow 2).
Proof.
  unfold basis_number. revert ws.
  induction bitvals as [| b bs IH]; intros ws Hb; [cbn; lia |].
  destruct ws as [| w ws]; [cbn; lia |].
  cbn in Hb. apply andb_prop in Hb as [Hb Hbs].
  cbn [combine map fold_right fst snd sum_nat]. specialize (IH ws Hbs).
  fold (sum_nat (map (fun w => N - 1 - w) ws) (Nat.pow 2)).
  assert (Z.to_nat b <= 1).
  { apply orb_prop in Hb as [Hb | Hb]; apply Z.eqb_eq in Hb; subst b; cbn; lia. }
  nia.
Qed.

Lemma basis_number_lt (N : nat) (bitvals : list Z) (ws : list nat) :
  binary bitvals = true -> NoDup ws -> (forall w, In w ws -> w < N) ->
  basis_number N bitvals ws < 2 ^ N.
Proof.
  intros Hb Hnd Hlt.
  eapply Nat.le_lt_trans; [apply basis_number_le, Hb |].
  apply sum_pow2_bound.
  - clear Hb. induction ws as [| w ws IH]; cbn; [constructor |].
    inversion Hnd as [| ? ? Hw Hws]; subst. constructor.
    + intros Hin. apply in_map_iff in Hin as (v & Hv & Hin).
      assert (v < N) by (apply Hlt; right; exact Hin).
      assert (w < N) by (apply Hlt; left; reflexivity).
      assert (v = w) by lia. subst v. contradiction.
    + apply IH; [exact Hws |]. intros v Hv. apply Hlt. right. exact Hv.
  - intros x Hx. apply in_map_iff in Hx as (v & <- & Hin).
    specialize (Hlt v Hin). lia.
Qed.

End BasisStates.

Section WireMapping.
Context {Sc : Scalar}.

Lemma label_index_spec (l : label) (dev : Wires) (i : nat) :
  label_index l dev = Some i -> i < length dev /\ nth_error dev i = Some l.
Proof.
  revert i; induction dev as [| w dev IH]; intros i H; cbn in *; [discriminate |].
  unfold label_eqb in H. destruct (label_eq_dec l w) as [-> | Hne].
  - inversion H; subst. cbn. split; [lia | reflexivity].
  - destruct (label_index l dev) as [j |]; [| discriminate].
    inversion H; subst. destruct (IH j eq_refl) as [Hj Hn].
    cbn. split; [lia | exact Hn].
Qed.

Lemma map_labels_spec (dev ws : Wires) :
  forall mapped,
    map_labels dev ws = Some mapped ->
    length mapped = length ws
    /\ (forall i, In i mapped -> exists l, In l ws /\ label_index l dev = Some i).
Proof.
  induction ws as [| w ws IH]; intros mapped H; cbn in *.
  - inversion H; subst. split; [reflexivity | intros i []].
  - destruct (label_index w dev) as [i |] eqn:Ei; [| discriminate].
    destruct (map_labels dev ws) as [r |]; [| discriminate].
    inversion H; subst. destruct (IH r eq_refl) as [Hlen Hin].
    split; [cbn; congruence |].
    intros j [<- | Hj].
    + exists w. auto.
    + destruct (Hin j Hj) as (l & Hl & Hj'). exists l. auto.
Qed.

Lemma map_labels_lt (dev ws : Wires) (mapped : list nat) :
  map_labels dev ws = Some mapped -> forall i, In i mapped -> i < length dev.
Proof.
  intros H i Hi. destruct (map_labels_spec dev ws H) as [_ Hin].
  destruct (Hin i Hi) as (l & _ & Hl). apply (label_index_spec _ _ Hl).
Qed.

Lemma map_labels_NoDup (dev ws : Wires) :
  forall mapped, map_labels dev ws = Some mapped -> NoDup ws -> NoDup mapped.
Proof.
  induction ws as [| w ws IH]; intros mapped H Hnd; cbn in *.
  - inversion H; constructor.
  - destruct (label_index w dev) as [i |] eqn:Ei; [| discriminate].
    destruct (map_labels dev ws) as [r |] eqn:Er; [| discriminate].
    inversion H; subst. inversion Hnd as [| ? ? Hw Hws]; subst.
    constructor; [| apply IH; auto].
    intros Hin. destruct (map_labels_spec dev ws Er) as [_ Hsrc].
    destruct (Hsrc i Hin) as (l & Hl & Hi).
    apply label_index_spec in Ei as [_ Ei]. apply label_index_spec in Hi as [_ Hi].
    rewrite Ei in Hi. inversion Hi; subst. contradiction.
Qed.

End WireMapping.

Section BasisStatePreparation.
Context {Sc : Scalar}.

Lemma in_all_indices (s idx : list nat) :
  valid_index s idx -> In idx (all_indices s).
Proof.
  revert idx; induction s as [| d s IH]; intros [| i idx] H; cbn in *;
    try contradiction; [left; reflexivity |].
  destruct H as [Hi H]. apply in_flat_map. exists i. split.
  - apply in_seq. lia.
  - apply in_map, IH, H.
Qed.

Lemma all_indices_valid (s idx : list nat) :
  In idx (all_indices s) -> valid_index s idx.
Proof.
  revert idx; induction s as [| d s IH]; intros idx H; cbn in *.
  - destruct H as [<- | []]. exact I.
  - apply in_flat_map in H as (i & Hi & H). apply in_map_iff in H as (r & <- & Hr).
    apply in_seq in Hi. split; [lia | apply IH, Hr].
Qed.

(** The rank-2N tensor that is 1 at row [num], column [num] of the matrix
    form and 0 elsewhere. *)
Definition basis_projector (N num : nat) : tensor :=
  mkTensor (repeat 2 (2 * N))
    (fun idx =>
       if (ravel (repeat 2 N) (firstn N idx) =? num)
          && (ravel (repeat 2 N) (skipn N idx) =? num)
       then c1 else c0).

Lemma create_basis_state_projector (N num : nat) :
  num < 2 ^ N ->
  exists t, create_basis_state N num = Some t /\ tensor_eq t (basis_projector N num).
Proof.
  intros Hn. rewrite (create_basis_state_eq N Hn). eexists. split; [reflexivity |].
  split; [reflexivity |]. cbn [shape data]. intros idx Hv.
  replace (2 * N) with (N + N) in Hv by lia. rewrite repeat_app in Hv.
  apply valid_index_split in Hv as [Hr Hc]. rewrite repeat_length in Hr, Hc.
  assert (E : unravel [2 ^ N; 2 ^ N] (ravel (repeat 2 (2 * N)) idx)
              = [ravel (repeat 2 N) (firstn N idx); ravel (repeat 2 N) (skipn N idx)]).
  { rewrite <- (firstn_skipn N idx) at 1. apply unravel_square; assumption. }
  rewrite E. reflexivity.
Qed.

Definition bits_error : exn :=
  ValueError "BasisState parameter must consist of 0 or 1 integers.".
Definition length_error : exn :=
  ValueError "BasisState parameter and wires must be of equal length.".

Definition wires012 : Wires := [LInt 0; LInt 1; LInt 2].

(** What [_apply_basis_state] does for wires on the device: the two
    errors, and the projector it stores. *)
Lemma apply_basis_state_run (bitvals : list Z) (ws : Wires) (d : device)
    (device_wires : list nat) :
  map_labels (wires d) ws = Some device_wires ->
  (binary bitvals = false -> _apply_basis_state bitvals ws d = (inl bits_error, d))
  /\ (binary bitvals = true -> length bitvals <> length ws ->
      _apply_basis_state bitvals ws d = (inl length_error, d))
  /\ (binary bitvals = true -> length bitvals = length ws -> NoDup ws ->
      exists t,
        create_basis_state (num_wires d)
          (basis_number (num_wires d) bitvals device_wires) = Some t
        /\ _apply_basis_state bitvals ws d = (inr tt, set_state (Some t) d)
        /\ tensor_eq t (basis_projector (num_wires d)
                          (basis_number (num_wires d) bitvals device_wires))).
Proof.
  intros Hmap.
  destruct (map_labels_spec _ _ Hmap) as [Hlen _].
  assert (Hrun : map_wires ws d = (inr device_wires, d))
    by (unfold map_wires, bind, get; rewrite Hmap; reflexivity).
  split; [| split].
  - intros Hb. unfold _apply_basis_state. rewrite (bind_ok _ _ Hrun).
    fold (binary bitvals). rewrite Hb. reflexivity.
  - intros Hb Hne. unfold _apply_basis_state. rewrite (bind_ok _ _ Hrun).
    fold (binary bitvals). rewrite Hb. cbn [negb].
    rewrite Hlen. apply Nat.eqb_neq in Hne. rewrite Hne. reflexivity.
  - intros Hb He Hnd.
    assert (Hnum : basis_number (num_wires d) bitvals device_wires < 2 ^ num_wires d).
    { apply basis_number_lt; [exact Hb | eapply map_labels_NoDup; eauto |].
      intros w Hw. eapply map_labels_lt; eauto. }
    destruct (@create_basis_state_projector _ _ Hnum) as (t & Ht & Heq).
    exists t. split; [exact Ht |]. split; [| exact Heq].
    unfold _apply_basis_state. rewrite (bind_ok _ _ Hrun).
    fold (binary bitvals). rewrite Hb. cbn [negb].
    rewrite Hlen, He, Nat.eqb_refl. cbn [negb].
    unfold bind, get, _create_basis_state, bind, get. rewrite Ht. reflexivity.
Qed.

End BasisStatePreparation.

Definition device3 : @device GaussScalar := bare_device wires012.

Lemma NoDup_wires012 : NoDup wires012.
Proof.
  unfold wires012. repeat constructor; cbn; intros H;
    repeat (destruct H as [H | H]; try discriminate H); exact H.
Defined.

(** ** Density-matrix preparation on a subset of the wires (C5) *)

(** The reduced state of the working tensor on the given device wires, as
    the list of its entries. *)
Definition reduced_working_state (d : @device GaussScalar) (indices : list nat)
  : option (list Gauss.t) :=
  option_map
    (fun st =>
       let sigma := reduce_dm (num_wires d) (matrix_form (num_wires d) st) indices in
       map (data sigma) (all_indices (shape sigma)))
    (_state d).

Definition two_wire_device : @device GaussScalar :=
  match fresh_device 2 None with Some d => d | None => bare_device [] end.

(** C5 at its failing input: on two wires, after [PauliX] on wire 1 the
    reduced state of wire 1 is |1><1|; [QubitDensityMatrix(|1><1|)] on wire
    0 then takes the reduced state of the stale [_pre_rotated_state], and
    wire 1 is left in |0><0|. *)
Theorem density_matrix_preparation_uses_stale_state :
  let ops := [PauliX (LInt 1); QubitDensityMatrix ket1_matrix [LInt 0]] in
  let before := snd (_apply_operation (PauliX (LInt 1)) two_wire_device) in
  let after := snd (_apply_operation (QubitDensityMatrix ket1_matrix [LInt 0]) before) in
  fst (apply no_BitFlip ops [] two_wire_device) = inr tt
  /\ fst (_apply_operation (QubitDensityMatrix ket1_matrix [LInt 0]) before) = inr tt
  /\ reduced_working_state before [1]
     = Some [Gauss.zero; Gauss.zero; Gauss.zero; Gauss.one]
  /\ reduced_working_state after [1]
     = Some [Gauss.one; Gauss.zero; Gauss.zero; Gauss.zero]
  /\ reduced_working_state
       (snd (apply no_BitFlip ops [] two_wire_device)) [1]
     = Some [Gauss.one; Gauss.zero; Gauss.zero; Gauss.zero].
Proof. repeat split; vm_compute; reflexivity. Qed.

(** On a device whose wires are labelled by strings the method looks the
    complement up by device index and raises [WireError], even as the first
    operation. *)
Lemma density_matrix_preparation_on_string_labels :
  let d := match DefaultMixed_init (WiresLabels [LStr "a"; LStr "b"]) None Numpy with
           | inr d => d
           | inl _ => @bare_device GaussScalar []
           end in
  num_wires d = 2
  /\ fst (_apply_operation (QubitDensityMatrix ket1_matrix [LStr "a"]) d) = inl WireError.
Proof. split; vm_compute; reflexivity. Qed.

(** ** Subscript labels *)

Section Labels.

Definition L (i : nat) : ascii := nth i ABC "a"%char.

Lemma ABC_length : length ABC = 52.
Proof. reflexivity. Qed.

Lemma mem_In (c : ascii) (l : list ascii) : mem c l = true <-> In c l.
Proof.
  unfold mem. rewrite existsb_exists. split.
  - intros (x & Hx & He). apply Ascii.eqb_eq in He. subst. exact Hx.
  - intros H. exists c. split; [exact H | apply Ascii.eqb_refl].
Qed.

Lemma mem_false (c : ascii) (l : list ascii) : mem c l = false <-> ~ In c l.
Proof.
  rewrite <- mem_In. destruct (mem c l); split; intros H;
    try discriminate; try congruence; try reflexivity.
Qed.

Lemma nodupb_NoDup (l : list ascii) : nodupb l = true <-> NoDup l.
Proof.
  induction l as [| c l IH]; cbn.
  - split; [constructor | reflexivity].
  - rewrite andb_true_iff, negb_true_iff, mem_false, IH. split.
    + intros [H1 H2]. constructor; assumption.
    + intros H. inversion H; subst. split; assumption.
Qed.

Lemma ABC_NoDup : NoDup ABC.
Proof. apply nodupb_NoDup. vm_compute. reflexivity. Qed.

Lemma L_inj (i j : nat) : i < 52 -> j < 52 -> L i = L j -> i = j.
Proof.
  intros Hi Hj H. unfold L in H.
  apply (proj1 (NoDup_nth ABC "a"%char) ABC_NoDup); rewrite ?ABC_length; assumption.
Qed.

Lemma slice_nth {A : Type} (d : A) (l : list A) (a n : nat) :
  a + n <= length l ->
  firstn n (skipn a l) = map (fun i => nth i l d) (seq a n).
Proof.
  revert a l; induction n as [| n IH]; intros a l H; [reflexivity |].
  cbn [seq map]. destruct (skipn a l) as [| x r] eqn:E.
  - assert (length (skipn a l) = 0) by (rewrite E; reflexivity).
    rewrite length_skipn in *. lia.
  - cbn [firstn]. f_equal.
    + pose proof (nth_skipn a l 0 d) as Hn. rewrite E in Hn. cbn in Hn.
      rewrite Nat.add_0_r in Hn. exact Hn.
    + assert (Er : r = skipn (S a) l).
      { replace (S a) with (1 + a) by lia. rewrite <- skipn_skipn, E. reflexivity. }
      rewrite Er. apply IH. lia.
Qed.

Lemma slice_ABC (a b : nat) : a <= b -> b <= 52 -> slice a b ABC = map L (seq a (b - a)).
Proof.
  intros Hab Hb. unfold slice. apply slice_nth. rewrite ABC_length. lia.
Qed.

Lemma ABC_ARRAY_at_map (ws : list nat) :
  (forall w, In w ws -> w < 52) -> ABC_ARRAY_at ws = Some (map L ws).
Proof.
  induction ws as [| w ws IH]; intros H; [reflexivity |].
  cbn [ABC_ARRAY_at map]. rewrite IH by (intros; apply H; right; assumption).
  assert (Hw : w < length ABC) by (rewrite ABC_length; apply H; left; reflexivity).
  rewrite (nth_error_nth' ABC "a"%char Hw). reflexivity.
Qed.

End Labels.

(** ** Environments of einsum *)

Section Environments.
Context {Sc : Scalar}.

Definition gather (idx ws : list nat) : list nat := map (fun w => nth w idx 0) ws.

Lemma lookup_app_notin (keys : list ascii) (vals : list nat) (rest : env) (c : ascii) :
  ~ In c keys -> lookup (combine keys vals ++ rest) c = lookup rest c.
Proof.
  revert vals; induction keys as [| k keys IH]; intros vals H; [reflexivity |].
  destruct vals as [| v vals]; [reflexivity |]. cbn [combine app lookup].
  destruct (Ascii.eqb k c) eqn:E.
  - apply Ascii.eqb_eq in E. subst. exfalso. apply H. left. reflexivity.
  - apply IH. intros Hin. apply H. right. exact Hin.
Qed.

Lemma lookup_combine_nth (keys : list ascii) (vals : list nat) (rest : env)
    (j : nat) (d : ascii) :
  NoDup keys -> j < length keys -> length vals = length keys ->
  lookup (combine keys vals ++ rest) (nth j keys d) = nth j vals 0.
Proof.
  revert vals j; induction keys as [| k keys IH]; intros vals j Hnd Hj Hl;
    [cbn in Hj; lia |].
  destruct vals as [| v vals]; [discriminate |].
  inversion Hnd as [| ? ? Hk Hks]; subst. cbn [combine app lookup].
  destruct j as [| j]; cbn [nth].
  - rewrite Ascii.eqb_refl. reflexivity.
  - destruct (Ascii.eqb k (nth j keys d)) eqn:E.
    + apply Ascii.eqb_eq in E. exfalso. apply Hk. rewrite E.
      apply nth_In. cbn in Hj. lia.
    + apply IH; [exact Hks | cbn in Hj; lia | cbn in Hl; lia].
Qed.

Lemma NoDup_map_L (xs : list nat) :
  NoDup xs -> (forall x, In x xs -> x < 52) -> NoDup (map L xs).
Proof.
  induction 1 as [| x xs Hx Hxs IH]; intros Hlt; cbn; [constructor |].
  constructor.
  - intros Hin. apply in_map_iff in Hin as (y & Hy & Hin).
    apply L_inj in Hy; [subst; contradiction | |]; apply Hlt; [right | left]; auto.
  - apply IH. intros y Hy. apply Hlt. right. exact Hy.
Qed.

Lemma In_map_L (y : nat) (xs : list nat) :
  y < 52 -> (forall x, In x xs -> x < 52) -> In (L y) (map L xs) -> In y xs.
Proof.
  intros Hy Hlt Hin. apply in_map_iff in Hin as (x & Hx & Hin).
  apply L_inj in Hx; [subst; exact Hin | apply Hlt; exact Hin | exact Hy].
Qed.

Lemma lookup_L_nth (xs vals : list nat) (rest : env) (j : nat) :
  NoDup xs -> (forall x, In x xs -> x < 52) ->
  j < length xs -> length vals = length xs ->
  lookup (combine (map L xs) vals ++ rest) (L (nth j xs 0)) = nth j vals 0.
Proof.
  intros Hnd Hlt Hj Hl.
  replace (L (nth j xs 0)) with (nth j (map L xs) (L 0)) by apply map_nth.
  apply lookup_combine_nth;
    [apply NoDup_map_L; assumption | rewrite length_map; exact Hj
    | rewrite length_map; exact Hl].
Qed.

Lemma lookup_L_notin (xs vals : list nat) (rest : env) (y : nat) :
  y < 52 -> (forall x, In x xs -> x < 52) -> ~ In y xs ->
  lookup (combine (map L xs) vals ++ rest) (L y) = lookup rest (L y).
Proof.
  intros Hy Hlt Hn. apply lookup_app_notin. intros Hin. apply Hn.
  apply In_map_L; assumption.
Qed.

Lemma lookup_L_seq (a n : nat) (vals : list nat) (rest : env) (y : nat) :
  a + n <= 52 -> length vals = n -> a <= y < a + n ->
  lookup (combine (map L (seq a n)) vals ++ rest) (L y) = nth (y - a) vals 0.
Proof.
  intros Hb Hl Hy.
  replace y with (nth (y - a) (seq a n) 0) at 1 by (rewrite seq_nth; lia).
  apply lookup_L_nth;
    [apply seq_NoDup | intros x Hx; apply in_seq in Hx; lia
    | rewrite length_seq; lia | rewrite length_seq; exact Hl].
Qed.

Lemma gather_seq (idx : list nat) :
  gather idx (seq 0 (length idx)) = idx.
Proof.
  unfold gather. apply nth_ext with (d := 0) (d' := 0).
  - rewrite length_map, length_seq. reflexivity.
  - intros n Hn. rewrite length_map, length_seq in Hn.
    rewrite (nth_indep _ 0 (nth 0 idx 0)) by (rewrite length_map, length_seq; exact Hn).
    rewrite (map_nth (fun w => nth w idx 0)). rewrite seq_nth by exact Hn. reflexivity.
Qed.

(** Extents are consistent when every label has one extent. *)
Lemma lookup_in (e : env) (k : ascii) (v : nat) :
  In (k, v) e -> exists v', In (k, v') e /\ lookup e k = v'.
Proof.
  induction e as [| [k0 v0] e IH]; intros H; [contradiction |].
  cbn [lookup]. destruct (Ascii.eqb k0 k) eqn:E.
  - apply Ascii.eqb_eq in E. subst. exists v0. split; [left; reflexivity | reflexivity].
  - destruct H as [H | H].
    + inversion H; subst. rewrite Ascii.eqb_refl in E. discriminate.
    + destruct (IH H) as (v' & Hin & Hl). exists v'. split; [right; exact Hin | exact Hl].
Qed.

Lemma extents_consistent (e : env) (ext : ascii -> nat) :
  (forall p, In p e -> snd p = ext (fst p)) ->
  forallb (fun p => lookup e (fst p) =? snd p) e = true.
Proof.
  intros H. apply forallb_forall. intros [k v] Hin. cbn [fst snd].
  destruct (lookup_in _ _ _ Hin) as (v' & Hin' & ->).
  apply Nat.eqb_eq. pose proof (H _ Hin) as E1. pose proof (H _ Hin') as E2.
  cbn [fst snd] in E1, E2. congruence.
Qed.

Lemma lookup_ext (e : env) (ext : ascii -> nat) (k : ascii) :
  (forall p, In p e -> snd p = ext (fst p)) ->
  In k (map fst e) -> lookup e k = ext k.
Proof.
  intros H Hin. apply in_map_iff in Hin as ([k' v] & Hk & Hin). cbn in Hk. subst k'.
  destruct (lookup_in _ _ _ Hin) as (v' & Hin' & ->). apply (H _ Hin').
Qed.

End Environments.

(** ** The diagonal fast path (C8) *)

Section DiagonalFastPath.
Context {Sc : Scalar}.

Lemma scalar_ring_theory : ring_theory c0 c1 cadd cmul csub copp (@eq C).
Proof. exact C_ring. Qed.

Add Ring scalar_ring : scalar_ring_theory.

Lemma in_dedup (c : ascii) (l : list ascii) : In c (dedup l) -> In c l.
Proof.
  induction l as [| x l IH]; cbn; [auto |].
  intros [H | H]; [left; exact H |].
  apply filter_In in H as [H _]. right. apply IH, H.
Qed.

Lemma filter_all_out (out l : list ascii) :
  (forall c, In c l -> In c out) -> filter (fun c => negb (mem c out)) l = [].
Proof.
  induction l as [| x l IH]; intros H; [reflexivity |].
  cbn [filter]. rewrite (proj2 (mem_In x out) (H x (or_introl eq_refl))).
  cbn [negb]. apply IH. intros c Hc. apply H. right. exact Hc.
Qed.

Lemma summed_labels_nil (ops : list operand) (out : list ascii) :
  (forall c, In c (input_labels ops) -> In c out) -> summed_labels ops out = [].
Proof.
  intros H. unfold summed_labels. apply filter_all_out.
  intros c Hc. apply H, in_dedup, Hc.
Qed.

Lemma in_combine_repeat (A : Type) (l : list A) (v n : nat) (p : A * nat) :
  In p (combine l (repeat v n)) -> snd p = v.
Proof.
  destruct p as [a b]. intros H. apply in_combine_r in H.
  apply repeat_spec in H. exact H.
Qed.

Lemma unravel_vector (n x : nat) : unravel [n] x = [x].
Proof. unfold unravel, prod_shape. cbn [fold_right]. rewrite Nat.div_1_r. reflexivity. Qed.

Lemma reshape_vector (eigvals : tensor) (k : nat) :
  shape eigvals = [2 ^ k] ->
  reshape eigvals (repeat 2 k)
  = Some (mkTensor (repeat 2 k)
            (fun idx => data eigvals (unravel [2 ^ k] (ravel (repeat 2 k) idx)))).
Proof.
  intros Hs. unfold reshape. rewrite Hs, prod_shape_repeat2.
  replace (prod_shape [2 ^ k]) with (2 ^ k) by (unfold prod_shape; cbn [fold_right]; lia).
  rewrite Nat.eqb_refl. reflexivity.
Qed.

Lemma map_fst_combine (A B : Type) (a : list A) (b : list B) :
  length a = length b -> map fst (combine a b) = a.
Proof.
  revert b; induction a as [| x a IH]; intros [| y b] H; cbn in *;
    try discriminate; [reflexivity |].
  f_equal. apply IH. lia.
Qed.

Lemma map_const (A : Type) (f : A -> nat) (v : nat) (l : list A) :
  (forall x, In x l -> f x = v) -> map f l = repeat v (length l).
Proof.
  induction l as [| x l IH]; intros H; cbn; [reflexivity |].
  rewrite (H x (or_introl eq_refl)). f_equal. apply IH.
  intros y Hy. apply H. right. exact Hy.
Qed.

Lemma gather_lookup (n : nat) (idx ws : list nat) (rest : env) :
  n <= 52 -> length idx = n -> (forall w, In w ws -> w < n) ->
  map (lookup (combine (map L (seq 0 n)) idx ++ rest)) (map L ws) = gather idx ws.
Proof.
  intros Hn Hl Hw. rewrite map_map. unfold gather. apply map_ext_in.
  intros w Hin. rewrite lookup_L_seq; [| lia | exact Hl | specialize (Hw w Hin); lia].
  rewrite Nat.sub_0_r. reflexivity.
Qed.

Definition shifted (N : nat) (ws : list nat) : list nat := map (fun w => w + N) ws.

(** The entry the diagonal fast path must produce. *)
Definition diagonal_conjugation (eigvals state : tensor) (N : nat) (ws idx : list nat) : C :=
  cmul (cmul (data eigvals [ravel (repeat 2 (length ws)) (gather idx ws)])
             (data state idx))
       (cconj (data eigvals [ravel (repeat 2 (length ws)) (gather idx (shifted N ws))])).

Lemma apply_diagonal_unitary_einsum_spec (N : nat) (eigvals state : tensor)
    (ws : list nat) :
  N <= 26 -> (forall w, In w ws -> w < N) ->
  shape eigvals = [2 ^ length ws] -> shape state = repeat 2 (2 * N) ->
  exists t,
    apply_diagonal_unitary_einsum N eigvals ws state = Some t
    /\ shape t = repeat 2 (2 * N)
    /\ forall idx, valid_index (repeat 2 (2 * N)) idx ->
         data t idx = diagonal_conjugation eigvals state N ws idx.
Proof.
  intros HN Hw He Hst.
  unfold apply_diagonal_unitary_einsum.
  rewrite (reshape_vector eigvals (length ws) He). cbn [obind].
  rewrite (ABC_ARRAY_at_map ws) by (intros w Hin; specialize (Hw w Hin); lia).
  cbn [obind]. fold (shifted N ws).
  assert (Hc : forall w, In w (shifted N ws) -> w < 2 * N).
  { intros w Hin. apply in_map_iff in Hin as (v & <- & Hv). specialize (Hw v Hv). lia. }
  rewrite (ABC_ARRAY_at_map (shifted N ws)) by (intros w Hin; specialize (Hc w Hin); lia).
  cbn [obind]. rewrite slice_ABC by lia. rewrite Nat.sub_0_r.
  set (eig := mkTensor (repeat 2 (length ws)) _).
  set (out := map L (seq 0 (2 * N))).
  match goal with |- context [einsum ?o out] => set (ops := o) end.
  assert (Hin_out : forall c, In c (input_labels ops) -> In c out).
  { intros c Hin. unfold input_labels, ops in Hin. cbn [flat_map fst] in Hin.
    rewrite app_nil_r in Hin. unfold out.
    apply in_app_or in Hin as [Hin | Hin]; [| apply in_app_or in Hin as [Hin | Hin]];
      [| exact Hin |];
      apply in_map_iff in Hin as (w & <- & Hin); apply in_map, in_seq;
      [specialize (Hw w Hin) | specialize (Hc w Hin)]; lia. }
  assert (Hok : einsum_ok ops out = true).
  { unfold einsum_ok.
    apply andb_true_intro; split;
      [apply andb_true_intro; split; [apply andb_true_intro; split |] |].
    - unfold ops, out, ndim, eig. cbn [forallb fst snd shape conj].
      rewrite Hst. unfold shifted.
      rewrite !length_map, !repeat_length, length_seq, !Nat.eqb_refl. reflexivity.
    - apply extents_consistent with (ext := fun _ => 2).
      intros p Hp. unfold label_extents, ops, eig in Hp.
      cbn [flat_map fst snd shape conj] in Hp. rewrite Hst in Hp.
      rewrite app_nil_r in Hp.
      apply in_app_or in Hp as [Hp | Hp]; [| apply in_app_or in Hp as [Hp | Hp]];
        apply in_combine_repeat in Hp; exact Hp.
    - apply forallb_forall. intros c Hc'. apply mem_In.
      unfold input_labels, ops. cbn [flat_map fst]. apply in_or_app. right.
      apply in_or_app. left. exact Hc'.
    - apply nodupb_NoDup. unfold out. apply NoDup_map_L; [apply seq_NoDup |].
      intros x Hx. apply in_seq in Hx. lia. }
  unfold einsum. rewrite Hok. eexists. split; [reflexivity |].
  cbn [shape data]. split.
  - assert (Hext : forall p, In p (label_extents ops) -> snd p = 2).
    { intros p Hp. unfold label_extents, ops, eig in Hp.
      cbn [flat_map fst snd shape conj] in Hp. rewrite Hst in Hp.
      rewrite app_nil_r in Hp.
      apply in_app_or in Hp as [Hp | Hp]; [| apply in_app_or in Hp as [Hp | Hp]];
        apply in_combine_repeat in Hp; exact Hp. }
    rewrite (map_const (lookup (label_extents ops)) (v := 2)).
    + unfold out. rewrite length_map, length_seq. reflexivity.
    + intros c Hc'. apply (lookup_ext (label_extents ops) (fun _ => 2)); [exact Hext |].
      unfold label_extents, ops. cbn [flat_map fst snd]. rewrite !map_app.
      apply in_or_app. right. apply in_or_app. left.
      rewrite map_fst_combine; [exact Hc' |].
      rewrite Hst. unfold out. rewrite length_map, length_seq, repeat_length. reflexivity.
  - intros idx Hv. pose proof (valid_index_length _ _ Hv) as Hl.
    rewrite repeat_length in Hl.
    rewrite (summed_labels_nil ops out Hin_out).
    cbn [map all_indices sum_list fold_right combine].
    unfold ops. cbn [map prod_list fold_right fst snd].
    rewrite !(gather_lookup (n := 2 * N)); try lia; try assumption.
    + unfold out. rewrite (gather_lookup (n := 2 * N) idx (seq 0 (2 * N))); try lia;
        [| intros w Hin; apply in_seq in Hin; lia].
      replace (gather idx (seq 0 (2 * N))) with idx
        by (rewrite <- Hl; symmetry; apply gather_seq).
      unfold eig, conj. cbn [data]. rewrite !unravel_vector.
      unfold diagonal_conjugation. ring.
    + intros w Hin. specialize (Hw w Hin). lia.
Qed.

Lemma get_run (d : device) : get d = (inr d, d).
Proof. reflexivity. Qed.

Lemma map_wires_run (ws : Wires) (d : device) (mapped : list nat) :
  map_labels (wires d) ws = Some mapped -> map_wires ws d = (inr mapped, d).
Proof.
  intros H. unfold map_wires. rewrite (bind_ok _ _ (get_run d)), H. reflexivity.
Qed.

Lemma current_state_run (d : device) (st : tensor) :
  _state d = Some st -> current_state d = (inr st, d).
Proof.
  intros H. unfold current_state. rewrite (bind_ok _ _ (get_run d)), H. reflexivity.
Qed.

(** C8: for an operator that is diagonal in the computational basis, with
    eigenvalue vector [eigvals] on the wires [ws], the fast path replaces
    every entry [rho[idx]] by
    [eigvals[rows] * rho[idx] * conj(eigvals[cols])], where [rows] and
    [cols] are the coordinates of [idx] on the row and the column axes of
    the wires; the entry is read at the same multi-index, so no axis is
    moved or mixed. *)
Theorem diagonal_fast_path (eigvals state : tensor) (ws : Wires) (d : device)
    (device_wires : list nat) :
  num_wires d <= 26 ->
  map_labels (wires d) ws = Some device_wires ->
  _state d = Some state ->
  shape state = repeat 2 (2 * num_wires d) ->
  shape eigvals = [2 ^ length ws] ->
  exists t,
    _apply_diagonal_unitary eigvals ws d = (inr tt, set_state (Some t) d)
    /\ shape t = repeat 2 (2 * num_wires d)
    /\ forall idx, valid_index (repeat 2 (2 * num_wires d)) idx ->
         data t idx = diagonal_conjugation eigvals state (num_wires d) device_wires idx.
Proof.
  intros HN Hmap Hs Hshape He.
  destruct (map_labels_spec _ _ Hmap) as [Hlen _]. rewrite <- Hlen in He.
  destruct (@apply_diagonal_unitary_einsum_spec (num_wires d) eigvals state device_wires
              HN (map_labels_lt _ _ Hmap) He Hshape) as (t & Ht & Hsh & Hdata).
  exists t. split; [| split; assumption].
  unfold _apply_diagonal_unitary.
  rewrite (bind_ok _ _ (map_wires_run _ _ Hmap)), (bind_ok _ _ (get_run d)).
  rewrite (bind_ok _ _ (current_state_run _ Hs)), Ht. reflexivity.
Qed.

End DiagonalFastPath.

Definition phase_eigvals : @tensor GaussScalar :=
  mkTensor [2] (fun idx => nth (nth 0 idx 0) [Gauss.one; Gauss.imag] Gauss.zero).

Definition plus_state : @tensor GaussScalar := mkTensor [2; 2] (fun _ => Gauss.one).

Definition plus_device : @device GaussScalar :=
  mkDevice [LInt 0] Numpy None (Some plus_state) (Some plus_state) [] None.

Lemma diagonal_fast_path_witness :
  exists t,
    _apply_diagonal_unitary phase_eigvals [LInt 0] plus_device
    = (inr tt, set_state (Some t) plus_device)
    /\ shape t = [2; 2]
    /\ forall idx, valid_index [2; 2] idx ->
         data t idx = diagonal_conjugation phase_eigvals plus_state 1 [0] idx.
Proof.
  apply (@diagonal_fast_path GaussScalar phase_eigvals plus_state [LInt 0]
           plus_device [0]); try reflexivity.
  cbn. lia.
Defined.

Example diagonal_fast_path_entries :
  option_map (fun t => map (data t) (all_indices [2; 2]))
    (_state (snd (_apply_diagonal_unitary phase_eigvals [LInt 0] plus_device)))
  = Some [(1, 0); (0, -1); (0, 1); (1, 0)]%Z.
Proof. vm_compute. reflexivity. Qed.

(** ** Algebra of finite sums *)

Section SumFacts.
Context {Sc : Scalar}.

Add Ring scalar_ring_sums : (@scalar_ring_theory Sc).

Lemma sum_list_ext (A : Type) (l : list A) (f g : A -> C) :
  (forall x, In x l -> f x = g x) -> sum_list l f = sum_list l g.
Proof.
  induction l as [| a l IH]; intros H; [reflexivity |].
  cbn. rewrite (H a (or_introl eq_refl)). f_equal.
  apply IH. intros x Hx. apply H. right. exact Hx.
Qed.

Lemma sum_list_app (A : Type) (a b : list A) (f : A -> C) :
  sum_list (a ++ b) f = cadd (sum_list a f) (sum_list b f).
Proof.
  unfold sum_list. induction a as [| x a IH]; cbn [app fold_right]; [ring |].
  rewrite IH. ring.
Qed.

Lemma sum_list_map (A B : Type) (h : A -> B) (l : list A) (f : B -> C) :
  sum_list (map h l) f = sum_list l (fun x => f (h x)).
Proof.
  induction l as [| a l IH]; cbn; [reflexivity |].
  fold (sum_list (map h l) f). rewrite IH. reflexivity.
Qed.

Lemma sum_list_flat_map (A B : Type) (h : A -> list B) (l : list A) (f : B -> C) :
  sum_list (flat_map h l) f = sum_list l (fun x => sum_list (h x) f).
Proof.
  induction l as [| a l IH]; cbn [flat_map]; [reflexivity |].
  rewrite sum_list_app, IH. reflexivity.
Qed.

Lemma sum_list_zero (A : Type) (l : list A) : sum_list l (fun _ => c0) = c0.
Proof.
  unfold sum_list. induction l as [| a l IH]; cbn [fold_right]; [reflexivity |].
  rewrite IH. ring.
Qed.

Lemma sum_list_add (A : Type) (l : list A) (f g : A -> C) :
  sum_list l (fun x => cadd (f x) (g x)) = cadd (sum_list l f) (sum_list l g).
Proof.
  unfold sum_list. induction l as [| a l IH]; cbn [fold_right]; [ring |].
  rewrite IH. ring.
Qed.

Lemma sum_list_swap (A B : Type) (a : list A) (b : list B) (f : A -> B -> C) :
  sum_list a (fun x => sum_list b (fun y => f x y))
  = sum_list b (fun y => sum_list a (fun x => f x y)).
Proof.
  induction a as [| x a IH].
  - cbn. symmetry. apply sum_list_zero.
  - change (sum_list (x :: a) (fun x => sum_list b (fun y => f x y)))
      with (cadd (sum_list b (fun y => f x y))
                 (sum_list a (fun x => sum_list b (fun y => f x y)))).
    rewrite IH, <- sum_list_add. reflexivity.
Qed.

Lemma sum_list_mul_l (A : Type) (l : list A) (c : C) (f : A -> C) :
  cmul c (sum_list l f) = sum_list l (fun x => cmul c (f x)).
Proof.
  unfold sum_list. induction l as [| a l IH]; cbn [fold_right]; [ring |].
  rewrite <- IH. ring.
Qed.

Lemma sum_list_mul_r (A : Type) (l : list A) (c : C) (f : A -> C) :
  cmul (sum_list l f) c = sum_list l (fun x => cmul (f x) c).
Proof.
  unfold sum_list. induction l as [| a l IH]; cbn [fold_right]; [ring |].
  rewrite <- IH. ring.
Qed.

Lemma map_nth_range (A : Type) (l : list A) (d : A) :
  map (fun i => nth i l d) (seq 0 (length l)) = l.
Proof.
  apply nth_ext with (d := d) (d' := d).
  - rewrite length_map, length_seq. reflexivity.
  - intros n Hn. rewrite length_map, length_seq in Hn.
    rewrite (nth_indep _ d (nth 0 l d)) by (rewrite length_map, length_seq; exact Hn).
    rewrite (map_nth (fun i => nth i l d)), seq_nth by exact Hn. reflexivity.
Qed.

Lemma sum_range_nth (A : Type) (l : list A) (d : A) (f : A -> C) :
  sum_range (length l) (fun i => f (nth i l d)) = sum_list l f.
Proof.
  unfold sum_range. rewrite <- (map_nth_range l d) at 2.
  rewrite sum_list_map. reflexivity.
Qed.

End SumFacts.

(** ** Summation over the labels of an einsum *)

Section LabelSums.
Context {Sc : Scalar}.

Add Ring scalar_ring_labels : (@scalar_ring_theory Sc).

(** The sum over all values of the labels [ls], a label at a time. *)
Fixpoint sum_env (ls : list ascii) (ext : ascii -> nat) (F : env -> C) : C :=
  match ls with
  | [] => F []
  | c :: ls' => sum_range (ext c) (fun i => sum_env ls' ext (fun e => F ((c, i) :: e)))
  end.

Definition env_equiv (e e' : env) : Prop := forall c, lookup e c = lookup e' c.

Definition respects (F : env -> C) : Prop :=
  forall e e', env_equiv e e' -> F e = F e'.

Lemma sum_all_indices_env (ls : list ascii) (ext : ascii -> nat) :
  forall F : env -> C,
    sum_list (all_indices (map ext ls)) (fun asg => F (combine ls asg))
    = sum_env ls ext F.
Proof.
  induction ls as [| c ls IH]; intros F.
  - cbn. ring.
  - cbn [map all_indices sum_env]. rewrite sum_list_flat_map. unfold sum_range.
    apply sum_list_ext. intros i _. rewrite sum_list_map.
    rewrite <- (IH (fun e => F ((c, i) :: e))). reflexivity.
Qed.

Lemma sum_env_ext (ls : list ascii) (ext : ascii -> nat) :
  forall F G : env -> C, (forall e, F e = G e) -> sum_env ls ext F = sum_env ls ext G.
Proof.
  induction ls as [| c ls IH]; intros F G H; cbn [sum_env]; [apply H |].
  apply sum_list_ext. intros i _. apply IH. intros e. apply H.
Qed.

Lemma env_equiv_cons (p : ascii * nat) (e e' : env) :
  env_equiv e e' -> env_equiv (p :: e) (p :: e').
Proof.
  intros H c. destruct p as [k v]. cbn [lookup]. rewrite (H c). reflexivity.
Qed.

Lemma env_equiv_swap (x y : ascii) (i j : nat) (e : env) :
  x <> y -> env_equiv ((x, i) :: (y, j) :: e) ((y, j) :: (x, i) :: e).
Proof.
  intros Hne c. cbn [lookup].
  destruct (Ascii.eqb x c) eqn:Ex; destruct (Ascii.eqb y c) eqn:Ey; try reflexivity.
  apply Ascii.eqb_eq in Ex, Ey. congruence.
Qed.

Lemma sum_env_perm (ls ls' : list ascii) (ext : ascii -> nat) :
  Permutation ls ls' ->
  forall F : env -> C, NoDup ls -> respects F -> sum_env ls ext F = sum_env ls' ext F.
Proof.
  induction 1 as [| x l l' Hp IH | x y l | l l' l'' Hp1 IH1 Hp2 IH2]; intros F Hnd HF.
  - reflexivity.
  - cbn [sum_env]. apply sum_list_ext. intros i _.
    inversion Hnd; subst. apply IH; [assumption |].
    intros e e' He. apply HF, env_equiv_cons, He.
  - cbn [sum_env]. unfold sum_range. rewrite sum_list_swap.
    apply sum_list_ext. intros i _. apply sum_list_ext. intros j _.
    apply sum_env_ext. intros e. apply HF, env_equiv_swap.
    inversion Hnd as [| ? ? Hy _]; subst. intros ->. apply Hy. left. reflexivity.
  - rewrite (IH1 F Hnd HF). apply IH2; [| exact HF].
    eapply Permutation_NoDup; eauto.
Qed.

Lemma sum_env_app (l1 l2 : list ascii) (ext : ascii -> nat) :
  forall F : env -> C,
    sum_env (l1 ++ l2) ext F
    = sum_env l1 ext (fun e1 => sum_env l2 ext (fun e2 => F (e1 ++ e2))).
Proof.
  induction l1 as [| c l1 IH]; intros F; cbn [app sum_env]; [reflexivity |].
  apply sum_list_ext. intros i _. rewrite IH. reflexivity.
Qed.

End LabelSums.

(** ** Relabelling of the touched axes *)

Section Relabelling.

Lemma memn_In (p : nat) (l : list nat) : memn p l = true <-> In p l.
Proof.
  unfold memn. rewrite existsb_exists. split.
  - intros (x & Hx & He). apply Nat.eqb_eq in He. subst. exact Hx.
  - intros H. exists p. split; [exact H | apply Nat.eqb_refl].
Qed.

Lemma memn_false (p : nat) (l : list nat) : memn p l = false <-> ~ In p l.
Proof.
  rewrite <- memn_In. destruct (memn p l); split; intros H;
    try discriminate; try congruence; try reflexivity.
Qed.

Lemma index_of_lt (p : nat) (l : list nat) : In p l -> index_of p l < length l.
Proof.
  induction l as [| x l IH]; intros H; [contradiction |].
  cbn [index_of length]. destruct (p =? x) eqn:E; [lia |].
  apply Nat.eqb_neq in E. destruct H as [H | H]; [congruence |].
  specialize (IH H). lia.
Qed.

Lemma nth_index_of (p d : nat) (l : list nat) : In p l -> nth (index_of p l) l d = p.
Proof.
  induction l as [| x l IH]; intros H; [contradiction |].
  cbn [index_of]. destruct (p =? x) eqn:E.
  - apply Nat.eqb_eq in E. subst. reflexivity.
  - apply Nat.eqb_neq in E. destruct H as [H | H]; [congruence |]. cbn. apply IH, H.
Qed.

Lemma index_of_nth (j d : nat) (l : list nat) :
  NoDup l -> j < length l -> index_of (nth j l d) l = j.
Proof.
  revert j; induction l as [| x l IH]; intros j Hnd Hj; [cbn in Hj; lia |].
  inversion Hnd as [| ? ? Hx Hl]; subst. destruct j as [| j]; cbn [nth index_of].
  - rewrite Nat.eqb_refl. reflexivity.
  - cbn in Hj. destruct (nth j l d =? x) eqn:E.
    + apply Nat.eqb_eq in E. exfalso. apply Hx. rewrite <- E. apply nth_In. lia.
    + f_equal. apply IH; [exact Hl | lia].
Qed.

(** [subst_axis olds news p]: the label that the replacements of [olds] by
    [news], made one after the other, leave in the place of [p]. *)
Fixpoint subst_axis (olds news : list nat) (p : nat) : nat :=
  match olds, news with
  | o :: os, n :: ns => if p =? o then n else subst_axis os ns p
  | _, _ => p
  end.

Lemma subst_axis_notin (olds news : list nat) (p : nat) :
  ~ In p olds -> subst_axis olds news p = p.
Proof.
  revert news; induction olds as [| o os IH]; intros news H; [reflexivity |].
  destruct news as [| n ns]; [reflexivity |]. cbn [subst_axis].
  destruct (p =? o) eqn:E.
  - apply Nat.eqb_eq in E. subst. exfalso. apply H. left. reflexivity.
  - apply IH. intros Hin. apply H. right. exact Hin.
Qed.

Lemma eqb_L (p o : nat) : p < 52 -> o < 52 -> Ascii.eqb (L p) (L o) = (p =? o).
Proof.
  intros Hp Ho. destruct (p =? o) eqn:E.
  - apply Nat.eqb_eq in E. subst. apply Ascii.eqb_refl.
  - apply Nat.eqb_neq in E. apply Ascii.eqb_neq. intros H. apply E.
    apply L_inj; assumption.
Qed.

Lemma replace_char_L (o n : nat) (xs : list nat) :
  o < 52 -> (forall x, In x xs -> x < 52) ->
  replace_char (L o) (L n) (map L xs)
  = map L (map (fun p => if p =? o then n else p) xs).
Proof.
  intros Ho Hx. unfold replace_char. rewrite !map_map. apply map_ext_in.
  intros p Hp. rewrite eqb_L by (auto using Hx). destruct (p =? o); reflexivity.
Qed.

Lemma replace_all_L (olds : list nat) :
  forall news xs,
    (forall x, In x olds -> x < 52) -> (forall x, In x news -> x < 52) ->
    (forall x, In x xs -> x < 52) ->
    (forall x, In x news -> ~ In x olds) ->
    replace_all (map L olds) (map L news) (map L xs)
    = map L (map (subst_axis olds news) xs).
Proof.
  unfold replace_all.
  induction olds as [| o os IH]; intros news xs Ho Hn Hx Hd.
  - cbn. rewrite map_id. reflexivity.
  - destruct news as [| n ns].
    + cbn. rewrite map_id. reflexivity.
    + cbn [map combine fold_left fst snd].
      rewrite replace_char_L by (auto using Ho, in_eq).
      rewrite IH.
      * f_equal. rewrite map_map. apply map_ext. intros p. cbn [subst_axis].
        destruct (p =? o); [| reflexivity].
        apply subst_axis_notin. intros Hin. apply (Hd n (or_introl eq_refl)).
        right. exact Hin.
      * intros x Hin. apply Ho. right. exact Hin.
      * intros x Hin. apply Hn. right. exact Hin.
      * intros x Hin. apply in_map_iff in Hin as (p & <- & Hp).
        destruct (p =? o); [apply Hn; left; reflexivity | apply Hx, Hp].
      * intros x Hin Hos. apply (Hd x (or_intror Hin)). right. exact Hos.
Qed.

Lemma subst_axis_seq (olds : list nat) :
  forall a p,
    subst_axis olds (seq a (length olds)) p
    = if memn p olds then a + index_of p olds else p.
Proof.
  induction olds as [| o os IH]; intros a p; [reflexivity |].
  cbn [length seq subst_axis memn existsb index_of]. fold (memn p os).
  destruct (p =? o); cbn [orb]; [lia |].
  rewrite IH. destruct (memn p os); lia.
Qed.

Lemma subst_axis_app (o1 n1 o2 n2 : list nat) (p : nat) :
  length o1 = length n1 ->
  subst_axis (o1 ++ o2) (n1 ++ n2) p
  = if memn p o1 then subst_axis o1 n1 p else subst_axis o2 n2 p.
Proof.
  revert n1; induction o1 as [| o o1 IH]; intros [| n n1] H; cbn in H;
    try discriminate; [reflexivity |].
  cbn [app subst_axis memn existsb]. fold (memn p o1).
  destruct (p =? o); cbn [orb]; [reflexivity |]. apply IH. lia.
Qed.

End Relabelling.

(** ** The output subscripts of the channel einsum *)

Section NewAxes.
Variable N : nat.
Variable ws : list nat.
Hypothesis ws_NoDup : NoDup ws.
Hypothesis ws_lt : forall w, In w ws -> w < N.

Let k := length ws.

(** The label at axis [p] of the output: a new row label for a row axis of
    the wires, a new column label for a column axis, the old label
    otherwise. *)
Definition new_axis (p : nat) : nat :=
  if memn p (shifted N ws) then 2 * N + length ws + index_of p (shifted N ws)
  else if memn p ws then 2 * N + index_of p ws
  else p.

Lemma shifted_length : length (shifted N ws) = k.
Proof. unfold shifted. apply length_map. Qed.

Lemma in_shifted (p : nat) : In p (shifted N ws) <-> exists w, In w ws /\ p = w + N.
Proof.
  unfold shifted. rewrite in_map_iff. split; intros (w & H1 & H2);
    exists w; [split; [exact H2 | symmetry; exact H1] | split; [symmetry |]; tauto].
Qed.

Lemma shifted_ge (p : nat) : In p (shifted N ws) -> N <= p < 2 * N.
Proof.
  intros H. apply in_shifted in H as (w & Hw & ->). pose proof (ws_lt w Hw) as Hwlt. lia.
Qed.

Lemma shifted_NoDup : NoDup (shifted N ws).
Proof.
  unfold shifted.
  assert (H : forall l, NoDup l -> NoDup (map (fun w => w + N) l)).
  { induction 1 as [| x l Hx Hl IH]; cbn; constructor; [| exact IH].
    intros H. apply in_map_iff in H as (y & Hy & Hin). assert (y = x) by lia.
    subst. contradiction. }
  apply H, ws_NoDup.
Qed.

Lemma ws_not_shifted (p : nat) : In p ws -> ~ In p (shifted N ws).
Proof.
  intros H1 H2. pose proof (ws_lt p H1) as Hwlt. apply shifted_ge in H2. lia.
Qed.

Lemma relabel_state (p : nat) :
  subst_axis (shifted N ws ++ ws) (seq (2 * N + k) k ++ seq (2 * N) k) p
  = new_axis p.
Proof.
  rewrite subst_axis_app by (rewrite shifted_length, length_seq; reflexivity).
  replace (subst_axis (shifted N ws) (seq (2 * N + k) k) p)
    with (subst_axis (shifted N ws) (seq (2 * N + k) (length (shifted N ws))) p)
    by (rewrite shifted_length; reflexivity).
  rewrite subst_axis_seq.
  change (seq (2 * N) k) with (seq (2 * N) (length ws)).
  rewrite subst_axis_seq. unfold new_axis.
  destruct (memn p (shifted N ws)); reflexivity.
Qed.

Lemma new_axis_row (j : nat) : j < k -> new_axis (nth j ws 0) = 2 * N + j.
Proof.
  intros Hj. unfold new_axis.
  assert (Hin : In (nth j ws 0) ws) by (apply nth_In; exact Hj).
  rewrite (proj2 (memn_false _ _) (ws_not_shifted _ Hin)).
  rewrite (proj2 (memn_In _ _) Hin).
  rewrite index_of_nth by assumption. reflexivity.
Qed.

Lemma new_axis_col (j : nat) :
  j < k -> new_axis (nth j (shifted N ws) 0) = 2 * N + k + j.
Proof.
  intros Hj. unfold new_axis.
  assert (Hin : In (nth j (shifted N ws) 0) (shifted N ws))
    by (apply nth_In; rewrite shifted_length; exact Hj).
  rewrite (proj2 (memn_In _ _) Hin).
  rewrite index_of_nth; [reflexivity | apply shifted_NoDup | rewrite shifted_length; exact Hj].
Qed.

Lemma new_axis_other (p : nat) :
  ~ In p ws -> ~ In p (shifted N ws) -> new_axis p = p.
Proof.
  intros H1 H2. unfold new_axis.
  rewrite (proj2 (memn_false _ _) H1), (proj2 (memn_false _ _) H2). reflexivity.
Qed.

(** Every axis is of one of the three kinds. *)
Lemma axis_kind (p : nat) :
  (exists j, j < k /\ p = nth j ws 0 /\ new_axis p = 2 * N + j)
  \/ (exists j, j < k /\ p = nth j (shifted N ws) 0 /\ new_axis p = 2 * N + k + j)
  \/ (~ In p ws /\ ~ In p (shifted N ws) /\ new_axis p = p).
Proof.
  destruct (in_dec Nat.eq_dec p ws) as [H1 | H1].
  - left. exists (index_of p ws).
    pose proof (index_of_lt _ _ H1) as Hlt.
    pose proof (nth_index_of p 0 ws H1) as Hn.
    split; [exact Hlt |]. split; [symmetry; exact Hn |].
    rewrite <- Hn at 1. apply new_axis_row. exact Hlt.
  - destruct (in_dec Nat.eq_dec p (shifted N ws)) as [H2 | H2].
    + right. left. exists (index_of p (shifted N ws)).
      pose proof (index_of_lt _ _ H2) as Hlt. rewrite shifted_length in Hlt.
      pose proof (nth_index_of p 0 (shifted N ws) H2) as Hn.
      split; [exact Hlt |]. split; [symmetry; exact Hn |].
      rewrite <- Hn at 1. apply new_axis_col. exact Hlt.
    + right. right. split; [exact H1 |]. split; [exact H2 |].
      apply new_axis_other; assumption.
Qed.

Lemma new_axis_inj (p p' : nat) :
  p < 2 * N -> p' < 2 * N -> new_axis p = new_axis p' -> p = p'.
Proof.
  intros Hp Hp' He.
  destruct (axis_kind p) as [(j & Hj & Ej & Hn) | [(j & Hj & Ej & Hn) | (H1 & H2 & Hn)]];
    destruct (axis_kind p') as [(j' & Hj' & Ej' & Hn') | [(j' & Hj' & Ej' & Hn') | (H1' & H2' & Hn')]];
    rewrite Hn, Hn' in He; try lia;
    try (assert (j = j') by lia; subst j'; congruence).
Qed.

Lemma new_axis_lt (p : nat) : p < 2 * N -> new_axis p < 2 * N + 2 * k.
Proof.
  intros Hp.
  destruct (axis_kind p) as [(j & Hj & Ej & Hn) | [(j & Hj & Ej & Hn) | (H1 & H2 & Hn)]];
    rewrite Hn; lia.
Qed.

Definition out_axes : list nat := map new_axis (seq 0 (2 * N)).

Lemma out_axes_NoDup : NoDup out_axes.
Proof.
  unfold out_axes. generalize (seq_NoDup (2 * N) 0).
  assert (Hall : forall x, In x (seq 0 (2 * N)) -> x < 2 * N)
    by (intros x Hx; apply in_seq in Hx; lia).
  revert Hall. generalize (seq 0 (2 * N)). intros l Hall Hnd.
  induction Hnd as [| x l Hx Hl IH]; cbn; constructor.
  - intros Hin. apply in_map_iff in Hin as (y & Hy & Hin).
    apply new_axis_inj in Hy; [subst; contradiction | |]; apply Hall;
      [right; exact Hin | left; reflexivity].
  - apply IH. intros y Hy. apply Hall. right. exact Hy.
Qed.

Lemma in_out_axes (y : nat) :
  In y out_axes <-> exists p, p < 2 * N /\ new_axis p = y.
Proof.
  unfold out_axes. rewrite in_map_iff. split; intros (p & H1 & H2).
  - exists p. apply in_seq in H2. split; [lia | exact H1].
  - exists p. split; [exact H2 | apply in_seq; lia].
Qed.

Lemma out_axes_length : length out_axes = 2 * N.
Proof. unfold out_axes. rewrite length_map, length_seq. reflexivity. Qed.

Lemma nth_out_axes (p : nat) : p < 2 * N -> nth p out_axes 0 = new_axis p.
Proof.
  intros Hp. unfold out_axes.
  rewrite (nth_indep _ 0 (new_axis 0)) by (rewrite length_map, length_seq; exact Hp).
  rewrite map_nth, seq_nth by exact Hp. reflexivity.
Qed.

Lemma row_not_out (w : nat) : In w ws -> ~ In w out_axes.
Proof.
  intros Hw Hin. apply in_out_axes in Hin as (p & Hp & He).
  pose proof (ws_lt w Hw) as Hwlt.
  destruct (axis_kind p) as [(j & Hj & Ej & Hn) | [(j & Hj & Ej & Hn) | (H1 & H2 & Hn)]];
    rewrite Hn in He; try lia. subst p. contradiction.
Qed.

Lemma col_not_out (c : nat) : In c (shifted N ws) -> ~ In c out_axes.
Proof.
  intros Hc Hin. apply in_out_axes in Hin as (p & Hp & He).
  pose proof (shifted_ge _ Hc) as Hge.
  destruct (axis_kind p) as [(j & Hj & Ej & Hn) | [(j & Hj & Ej & Hn) | (H1 & H2 & Hn)]];
    rewrite Hn in He; try lia. subst p. contradiction.
Qed.

Lemma beyond_not_out (y : nat) : 2 * N + 2 * k <= y -> ~ In y out_axes.
Proof.
  intros Hy Hin. apply in_out_axes in Hin as (p & Hp & He).
  pose proof (new_axis_lt Hp). lia.
Qed.

End NewAxes.

(** ** Stacked and reshaped Kraus operators *)

Section KrausTensors.
Context {Sc : Scalar}.

Lemma shape_eqb_refl (s : list nat) : shape_eqb s s = true.
Proof. unfold shape_eqb. destruct (list_eq_dec Nat.eq_dec s s); congruence. Qed.

Lemma stack_some (t0 : tensor) (rest : list tensor) (s : list nat) :
  (forall u, In u (t0 :: rest) -> shape u = s) ->
  stack (t0 :: rest)
  = Some (mkTensor (length (t0 :: rest) :: s)
            (fun idx => match idx with
                        | [] => c0
                        | i :: idx' => data (nth i (t0 :: rest) t0) idx'
                        end)).
Proof.
  intros H. unfold stack.
  assert (Hall : forallb (fun u => shape_eqb (shape u) (shape t0)) (t0 :: rest) = true).
  { apply forallb_forall. intros u Hu.
    rewrite (H u Hu), (H t0 (or_introl eq_refl)). apply shape_eqb_refl. }
  rewrite Hall, (H t0 (or_introl eq_refl)). reflexivity.
Qed.

Lemma pow2_square (k : nat) : 2 ^ k * 2 ^ k = 2 ^ (2 * k).
Proof. replace (2 * k) with (k + k) by lia. rewrite Nat.pow_add_r. reflexivity. Qed.

Lemma unravel_stacked (m k i : nat) (a b : list nat) :
  valid_index (repeat 2 k) a -> valid_index (repeat 2 k) b ->
  unravel [m; 2 ^ k; 2 ^ k] (ravel (m :: repeat 2 (k * 2)) (i :: a ++ b))
  = [i; ravel (repeat 2 k) a; ravel (repeat 2 k) b].
Proof.
  intros Ha Hb. rewrite (Nat.mul_comm k 2).
  pose proof (unravel_square k a b Ha Hb) as Hsq.
  assert (Hv : valid_index (repeat 2 (2 * k)) (a ++ b)).
  { replace (2 * k) with (k + k) by lia. rewrite repeat_app.
    apply valid_index_app; assumption. }
  pose proof (ravel_lt _ _ Hv) as Hlt. rewrite prod_shape_repeat2 in Hlt.
  cbn [ravel]. rewrite prod_shape_repeat2.
  change (unravel [m; 2 ^ k; 2 ^ k] ?n)
    with (n / prod_shape [2 ^ k; 2 ^ k]
          :: unravel [2 ^ k; 2 ^ k] (n mod prod_shape [2 ^ k; 2 ^ k])).
  replace (prod_shape [2 ^ k; 2 ^ k]) with (2 ^ (2 * k))
    by (unfold prod_shape; cbn [fold_right]; rewrite Nat.mul_1_r; symmetry; apply pow2_square).
  rewrite Nat.div_add_l by (apply Nat.pow_nonzero; discriminate).
  rewrite (Nat.div_small _ _ Hlt), Nat.add_0_r.
  rewrite Nat.add_comm, Nat.Div0.mod_add, (Nat.mod_small _ _ Hlt), Hsq. reflexivity.
Qed.

Lemma reshape_stacked (m k : nat) (f : list nat -> C) :
  reshape (mkTensor [m; 2 ^ k; 2 ^ k] f) (m :: repeat 2 (k * 2))
  = Some (mkTensor (m :: repeat 2 (k * 2))
            (fun idx => f (unravel [m; 2 ^ k; 2 ^ k] (ravel (m :: repeat 2 (k * 2)) idx)))).
Proof.
  unfold reshape. cbn [shape data].
  assert (E : prod_shape [m; 2 ^ k; 2 ^ k] = prod_shape (m :: repeat 2 (k * 2))).
  { change (prod_shape (m :: repeat 2 (k * 2))) with (m * prod_shape (repeat 2 (k * 2))).
    rewrite prod_shape_repeat2, (Nat.mul_comm k 2), <- pow2_square.
    unfold prod_shape. cbn [fold_right]. lia. }
  rewrite E, Nat.eqb_refl. reflexivity.
Qed.

End KrausTensors.

Unset Implicit Arguments.
(** ** The labelled contraction (C1) *)

Ltac len_simpl :=
  repeat first [ rewrite length_map | rewrite length_app | rewrite length_seq
               | rewrite repeat_length | rewrite shifted_length
               | progress cbn [length app] ].

Section ListFacts.

Lemma map_seq_nth {A : Type} (f g : nat -> A) (a : nat) (l : list nat) :
  (forall j, j < length l -> f (a + j) = g (nth j l 0)) ->
  map f (seq a (length l)) = map g l.
Proof.
  revert a; induction l as [| x l IH]; intros a H; [reflexivity |].
  cbn [length seq map]. f_equal.
  - specialize (H 0 ltac:(cbn; lia)). rewrite Nat.add_0_r in H. exact H.
  - apply IH. intros j Hj. specialize (H (S j) ltac:(cbn; lia)).
    replace (S a + j) with (a + S j) by lia. exact H.
Qed.

Lemma map_nth_values (f : nat -> nat) (l r : list nat) :
  length r = length l ->
  (forall j, j < length l -> f (nth j l 0) = nth j r 0) ->
  map f l = r.
Proof.
  revert r; induction l as [| x l IH]; intros [| y r] Hl H; cbn in Hl;
    try discriminate; [reflexivity |].
  cbn [map]. f_equal.
  - exact (H 0 ltac:(cbn; lia)).
  - apply IH; [lia |]. intros j Hj. exact (H (S j) ltac:(cbn; lia)).
Qed.

Lemma valid_nth (n : nat) (idx : list nat) (w : nat) :
  valid_index (repeat 2 n) idx -> w < n -> nth w idx 0 < 2.
Proof.
  revert idx w; induction n as [| n IH]; intros idx w Hv Hw; [lia |].
  destruct idx as [| x idx]; [contradiction |]. destruct Hv as [Hx Hv].
  destruct w as [| w]; [exact Hx |]. cbn [nth]. apply IH; [exact Hv | lia].
Qed.

Lemma gather_valid (n : nat) (idx ws : list nat) :
  valid_index (repeat 2 n) idx -> (forall w, In w ws -> w < n) ->
  valid_index (repeat 2 (length ws)) (gather idx ws).
Proof.
  intros Hv. induction ws as [| w ws IH]; intros Hw; [exact I |].
  cbn. split.
  - apply valid_nth with (n := n); [exact Hv | apply Hw; left; reflexivity].
  - apply IH. intros x Hx. apply Hw. right. exact Hx.
Qed.

Lemma lookup_app_equiv (a e e' : env) (c : ascii) :
  lookup e c = lookup e' c -> lookup (a ++ e) c = lookup (a ++ e') c.
Proof.
  intros H. induction a as [| [k v] a IH]; [exact H |].
  cbn [app lookup]. destruct (Ascii.eqb k c); [reflexivity | exact IH].
Qed.

End ListFacts.

Section Dedup.

Lemma dedup_In (c : ascii) (l : list ascii) : In c l -> In c (dedup l).
Proof.
  induction l as [| x l IH]; intros H; [contradiction |]. cbn [dedup].
  destruct (Ascii.eqb x c) eqn:E.
  - apply Ascii.eqb_eq in E. left. exact E.
  - destruct H as [H | H]; [subst; rewrite Ascii.eqb_refl in E; discriminate |].
    right. apply filter_In. split; [apply IH, H | rewrite E; reflexivity].
Qed.

Lemma dedup_NoDup (l : list ascii) : NoDup (dedup l).
Proof.
  induction l as [| x l IH]; cbn [dedup]; constructor.
  - intros H. apply filter_In in H as [_ H]. rewrite Ascii.eqb_refl in H. discriminate.
  - apply NoDup_filter, IH.
Qed.

End Dedup.

Section LabelledContraction.
Context {Sc : Scalar}.

Add Ring scalar_ring_contraction : (@scalar_ring_theory Sc).

(** The multi-index of [rho] that a term of the channel reads: the row
    axes of the wires carry [r], their column axes [c], every other axis
    keeps the coordinate of [idx]. *)
Definition updated_index (N : nat) (idx ws r c : list nat) : list nat :=
  map (fun p => if memn p ws then nth (index_of p ws) r 0
                else if memn p (shifted N ws) then nth (index_of p (shifted N ws)) c 0
                else nth p idx 0)
      (seq 0 (2 * N)).

(** The entry of [sum_i K_i rho K_i^dagger] at the multi-index [idx]. *)
Definition kraus_conjugation (kraus : list tensor) (state : tensor) (N : nat)
    (ws idx : list nat) : C :=
  let k := length ws in
  sum_list kraus (fun K =>
  sum_list (all_indices (repeat 2 k)) (fun r =>
  sum_list (all_indices (repeat 2 k)) (fun c =>
    cmul (cmul (data K [ravel (repeat 2 k) (gather idx ws); ravel (repeat 2 k) r])
               (data state (updated_index N idx ws r c)))
         (cconj (data K [ravel (repeat 2 k) (gather idx (shifted N ws));
                         ravel (repeat 2 k) c]))))).

Variable N : nat.
Variable ws : list nat.
Variable K0 : tensor.
Variable Ks : list tensor.
Variable state : tensor.
Hypothesis ws_NoDup : NoDup ws.
Hypothesis ws_lt : forall w, In w ws -> w < N.
Hypothesis labels_fit : 2 * N + 2 * length ws + 1 <= 52.
Hypothesis kraus_shape :
  forall K, In K (K0 :: Ks) -> shape K = [2 ^ length ws; 2 ^ length ws].
Hypothesis state_shape : shape state = repeat 2 (2 * N).

Let k := length ws.
Let m := length (K0 :: Ks).
Let q := 2 * N + 2 * k.

(** The operands and the output of the einsum, by their axes. *)
Definition kraus_axes : list nat := [q] ++ seq (2 * N) k ++ ws.
Definition dagger_axes : list nat := [q] ++ shifted N ws ++ seq (2 * N + k) k.

Definition stacked (ts : list tensor) (t0 : tensor) : tensor :=
  mkTensor (m :: repeat 2 (k * 2))
    (fun idx =>
       match unravel [m; 2 ^ k; 2 ^ k] (ravel (m :: repeat 2 (k * 2)) idx) with
       | [] => c0
       | i :: idx' => data (nth i ts t0) idx'
       end).

Definition daggers : list tensor := map (fun K => conj (transpose2 K)) (K0 :: Ks).

Definition channel_operands : list operand :=
  [ (map L kraus_axes, stacked (K0 :: Ks) K0);
    (map L (seq 0 (2 * N)), state);
    (map L dagger_axes, stacked daggers (conj (transpose2 K0))) ].

Lemma apply_channel_einsum_unfold :
  apply_channel_einsum N (K0 :: Ks) ws state
  = einsum channel_operands (map L (out_axes N ws)).
Proof.
  unfold apply_channel_einsum.
  rewrite (stack_some kraus_shape). cbn [obind].
  assert (Hd : forall u, In u (conj (transpose2 K0) :: map (fun K => conj (transpose2 K)) Ks)
                         -> shape u = [2 ^ k; 2 ^ k]).
  { intros u Hu. change (In u (map (fun K => conj (transpose2 K)) (K0 :: Ks))) in Hu.
    apply in_map_iff in Hu as (K & <- & HK). cbn [conj transpose2 shape].
    rewrite (@kraus_shape K HK). reflexivity. }
  cbn [map]. rewrite (stack_some Hd). cbn [obind shape].
  change (nth 0 (length (K0 :: Ks) :: [2 ^ length ws; 2 ^ length ws]) 0)
    with (length (K0 :: Ks)).
  replace (length (conj (transpose2 K0) :: map (fun K => conj (transpose2 K)) Ks))
    with (length (K0 :: Ks)) by (cbn [length]; rewrite length_map; reflexivity).
  fold k. rewrite !reshape_stacked. cbn [obind].
  rewrite (ABC_ARRAY_at_map ws) by (intros w Hw; pose proof (ws_lt w Hw); lia).
  cbn [obind]. fold (shifted N ws).
  rewrite (ABC_ARRAY_at_map (shifted N ws))
    by (intros w Hw; pose proof (@shifted_ge N ws ws_lt w Hw); lia).
  cbn [obind]. fold k.
  rewrite !slice_ABC by (unfold k; lia).
  replace (2 * N - 0) with (2 * N) by lia.
  replace (2 * N + k - 2 * N) with k by lia.
  replace (2 * N + 2 * k - (2 * N + k)) with k by lia.
  replace (2 * N + 2 * k + 1 - (2 * N + 2 * k)) with 1 by lia.
  rewrite <- !map_app.
  rewrite replace_all_L.
  - rewrite (map_ext _ _ (@relabel_state N ws)). reflexivity.
  - intros x Hx. apply in_app_or in Hx as [Hx | Hx];
      [pose proof (@shifted_ge N ws ws_lt x Hx) | pose proof (ws_lt x Hx)]; lia.
  - intros x Hx. apply in_app_or in Hx as [Hx | Hx]; apply in_seq in Hx; unfold k in *; lia.
  - intros x Hx. apply in_seq in Hx. unfold k in *. lia.
  - intros x Hx Hin. apply in_app_or in Hx as [Hx | Hx]; apply in_seq in Hx;
      apply in_app_or in Hin as [Hin | Hin];
      [pose proof (@shifted_ge N ws ws_lt x Hin) | pose proof (ws_lt x Hin)
      | pose proof (@shifted_ge N ws ws_lt x Hin) | pose proof (ws_lt x Hin)]; lia.
Qed.

Definition out_labels : list ascii := map L (out_axes N ws).

(** The extent of every label: the number of operators for the Kraus
    index, 2 for a qubit axis. *)
Definition extent (c : ascii) : nat := if Ascii.eqb c (L q) then m else 2.

Lemma q_lt : q < 52.
Proof. unfold q, k. lia. Qed.

Lemma kraus_axes_lt (x : nat) : In x kraus_axes -> x < 52.
Proof.
  unfold kraus_axes. intros H. pose proof q_lt.
  apply in_app_or in H as [[<- | []] | H]; [assumption |].
  apply in_app_or in H as [H | H];
    [apply in_seq in H; unfold q, k in *; lia | pose proof (ws_lt x H); lia].
Qed.

Lemma dagger_axes_lt (x : nat) : In x dagger_axes -> x < 52.
Proof.
  unfold dagger_axes. intros H. pose proof q_lt.
  apply in_app_or in H as [[<- | []] | H]; [assumption |].
  apply in_app_or in H as [H | H];
    [pose proof (@shifted_ge N ws ws_lt x H); lia
    | apply in_seq in H; unfold q, k in *; lia].
Qed.

Lemma out_axes_lt (x : nat) : In x (out_axes N ws) -> x < q.
Proof.
  intros H. apply in_out_axes in H as (p & Hp & <-).
  apply new_axis_lt; assumption.
Qed.

Lemma extent_pairs (p : ascii * nat) :
  In p (label_extents channel_operands) -> snd p = extent (fst p).
Proof.
  unfold label_extents, channel_operands, stacked.
  cbn [flat_map fst snd shape]. rewrite state_shape, app_nil_r.
  unfold kraus_axes, dagger_axes. cbn [app map combine].
  assert (Hq : extent (L q) = m) by (unfold extent; rewrite Ascii.eqb_refl; reflexivity).
  assert (Hother : forall x, x < q -> extent (L x) = 2).
  { intros x Hx. unfold extent. pose proof q_lt.
    rewrite eqb_L by lia. replace (x =? q) with false by (symmetry; apply Nat.eqb_neq; lia).
    reflexivity. }
  assert (Hcomb : forall xs n (p : ascii * nat),
             (forall x, In x xs -> x < q) ->
             In p (combine (map L xs) (repeat 2 n)) -> snd p = extent (fst p)).
  { intros xs n [c v] Hxs Hp. pose proof (in_combine_repeat _ _ _ _ Hp) as Hv.
    apply in_combine_l in Hp. apply in_map_iff in Hp as (x & <- & Hx).
    cbn [fst snd] in *. rewrite Hother by (apply Hxs, Hx). exact Hv. }
  intros H. destruct H as [<- | H]; [cbn; symmetry; exact Hq |].
  apply in_app_or in H as [H | H];
    [| apply in_app_or in H as [H | [<- | H]]; [| cbn; symmetry; exact Hq |]];
    (eapply Hcomb; [| exact H]); intros x Hx.
  - apply in_app_or in Hx as [Hx | Hx];
      [apply in_seq in Hx; unfold q, k in *; lia | pose proof (ws_lt x Hx); unfold q; lia].
  - apply in_seq in Hx. unfold q. lia.
  - apply in_app_or in Hx as [Hx | Hx];
      [pose proof (@shifted_ge N ws ws_lt x Hx); unfold q; lia
      | apply in_seq in Hx; unfold q, k in *; lia].
Qed.

Definition input_axes : list nat := kraus_axes ++ seq 0 (2 * N) ++ dagger_axes.

Lemma input_labels_axes : input_labels channel_operands = map L input_axes.
Proof.
  unfold input_labels, channel_operands, input_axes. cbn [flat_map fst].
  rewrite app_nil_r, !map_app. reflexivity.
Qed.

Lemma input_axes_lt (x : nat) : In x input_axes -> x < 52.
Proof.
  unfold input_axes. intros H.
  apply in_app_or in H as [H | H]; [apply kraus_axes_lt, H |].
  apply in_app_or in H as [H | H]; [apply in_seq in H; lia | apply dagger_axes_lt, H].
Qed.

Lemma out_in_inputs (y : nat) : In y (out_axes N ws) -> In y input_axes.
Proof.
  intros H. apply in_out_axes in H as (p & Hp & <-). unfold input_axes.
  destruct (@axis_kind N ws ws_NoDup ws_lt p)
    as [(j & Hj & _ & ->) | [(j & Hj & _ & ->) | (_ & _ & ->)]].
  - apply in_or_app. left. unfold kraus_axes. apply in_or_app. right.
    apply in_or_app. left. apply in_seq. fold k. lia.
  - apply in_or_app. right. apply in_or_app. right. unfold dagger_axes.
    apply in_or_app. right. apply in_or_app. right. apply in_seq. fold k. lia.
  - apply in_or_app. right. apply in_or_app. left. apply in_seq. lia.
Qed.

Lemma keys_of_extents :
  map fst (label_extents channel_operands) = map L input_axes.
Proof.
  unfold label_extents, channel_operands, stacked, input_axes.
  cbn [flat_map fst snd shape]. rewrite state_shape, app_nil_r, !map_app.
  rewrite !map_fst_combine; [reflexivity | | |];
    unfold dagger_axes, kraus_axes; len_simpl; fold k; lia.
Qed.

Lemma channel_einsum_ok : einsum_ok channel_operands out_labels = true.
Proof.
  unfold einsum_ok.
  apply andb_true_intro; split;
    [apply andb_true_intro; split; [apply andb_true_intro; split |] |].
  - unfold channel_operands, stacked, ndim, kraus_axes, dagger_axes.
    cbn [forallb fst snd shape]. rewrite state_shape.
    len_simpl. fold k.
    replace (1 + (k + k)) with (S (k * 2)) by lia.
    rewrite !Nat.eqb_refl. reflexivity.
  - apply extents_consistent with (ext := extent). exact extent_pairs.
  - apply forallb_forall. intros c Hc. apply mem_In.
    rewrite input_labels_axes. unfold out_labels in Hc.
    apply in_map_iff in Hc as (y & <- & Hy). apply in_map, out_in_inputs, Hy.
  - apply nodupb_NoDup. unfold out_labels. apply NoDup_map_L.
    + apply out_axes_NoDup; assumption.
    + intros x Hx. pose proof (out_axes_lt x Hx). pose proof q_lt. lia.
Qed.

Lemma lookup_extent (x : nat) :
  In x input_axes -> lookup (label_extents channel_operands) (L x) = extent (L x).
Proof.
  intros H. apply (lookup_ext _ extent); [exact extent_pairs |].
  rewrite keys_of_extents. apply in_map, H.
Qed.

Lemma extent_qubit (x : nat) : x < q -> extent (L x) = 2.
Proof.
  intros Hx. unfold extent. pose proof q_lt.
  rewrite eqb_L by lia. replace (x =? q) with false by (symmetry; apply Nat.eqb_neq; lia).
  reflexivity.
Qed.

Lemma out_extents :
  map (lookup (label_extents channel_operands)) out_labels = repeat 2 (2 * N).
Proof.
  rewrite (map_const (lookup (label_extents channel_operands)) (v := 2)).
  - unfold out_labels. rewrite length_map, out_axes_length. reflexivity.
  - intros c Hc. unfold out_labels in Hc. apply in_map_iff in Hc as (y & <- & Hy).
    rewrite lookup_extent by (apply out_in_inputs, Hy).
    apply extent_qubit, out_axes_lt, Hy.
Qed.

(** The labels that are summed: the Kraus index and the old row and column
    labels of the wires. *)
Definition sum_axes : list nat := [q] ++ ws ++ shifted N ws.

Lemma sum_axes_lt (x : nat) : In x sum_axes -> x < 52.
Proof.
  unfold sum_axes. intros H. pose proof q_lt.
  apply in_app_or in H as [[<- | []] | H]; [assumption |].
  apply in_app_or in H as [H | H];
    [pose proof (ws_lt x H) | pose proof (@shifted_ge N ws ws_lt x H)]; lia.
Qed.

Lemma sum_axes_NoDup : NoDup sum_axes.
Proof.
  unfold sum_axes. apply NoDup_app.
  - repeat constructor. intros [].
  - apply NoDup_app; [exact ws_NoDup | apply shifted_NoDup, ws_NoDup |].
    intros a Ha. apply ws_not_shifted; assumption.
  - intros a [<- | []] H.
    apply in_app_or in H as [H | H];
      [pose proof (ws_lt _ H) | pose proof (@shifted_ge N ws ws_lt _ H)];
      unfold q in *; lia.
Qed.

Lemma sum_axes_not_out (x : nat) : In x sum_axes -> ~ In x (out_axes N ws).
Proof.
  unfold sum_axes. intros H.
  apply in_app_or in H as [[<- | []] | H].
  - apply beyond_not_out; [assumption | assumption | unfold q, k; lia].
  - apply in_app_or in H as [H | H];
      [apply row_not_out | apply col_not_out]; assumption.
Qed.

Lemma input_axis_cases (x : nat) :
  In x input_axes -> In x sum_axes \/ In x (out_axes N ws).
Proof.
  unfold input_axes, kraus_axes, dagger_axes, sum_axes. intros H.
  assert (Hrow : forall j, j < k -> In (2 * N + j) (out_axes N ws)).
  { intros j Hj. apply in_out_axes. exists (nth j ws 0). split.
    - pose proof (ws_lt _ (nth_In ws 0 Hj)). lia.
    - apply new_axis_row; assumption. }
  assert (Hcol : forall j, j < k -> In (2 * N + k + j) (out_axes N ws)).
  { intros j Hj. apply in_out_axes. exists (nth j (shifted N ws) 0). split.
    - assert (Hin : In (nth j (shifted N ws) 0) (shifted N ws))
        by (apply nth_In; rewrite shifted_length; exact Hj).
      pose proof (@shifted_ge N ws ws_lt _ Hin). lia.
    - apply new_axis_col; assumption. }
  repeat (apply in_app_or in H as [H | H]).
  - left. apply in_or_app. left. exact H.
  - right. apply in_seq in H. replace x with (2 * N + (x - 2 * N)) by lia.
    apply Hrow. fold k in H. lia.
  - left. apply in_or_app. right. apply in_or_app. left. exact H.
  - apply in_seq in H.
    destruct (@axis_kind N ws ws_NoDup ws_lt x)
      as [(j & Hj & -> & _) | [(j & Hj & -> & _) | (H1 & H2 & Hn)]].
    + left. apply in_or_app. right. apply in_or_app. left. apply nth_In. exact Hj.
    + left. apply in_or_app. right. apply in_or_app. right. apply nth_In.
      rewrite shifted_length. exact Hj.
    + right. apply in_out_axes. exists x. split; [lia | exact Hn].
  - left. apply in_or_app. left. exact H.
  - left. apply in_or_app. right. apply in_or_app. right. exact H.
  - right. apply in_seq in H. replace x with (2 * N + k + (x - (2 * N + k))) by lia.
    apply Hcol. fold k in H. lia.
Qed.

Lemma sum_axes_in_inputs (x : nat) : In x sum_axes -> In x input_axes.
Proof.
  unfold sum_axes, input_axes, kraus_axes, dagger_axes. intros H.
  apply in_app_or in H as [H | H]; [apply in_or_app; left; apply in_or_app; left; exact H |].
  apply in_app_or in H as [H | H].
  - apply in_or_app. left. apply in_or_app. right. apply in_or_app. right. exact H.
  - apply in_or_app. right. apply in_or_app. right. apply in_or_app. right.
    apply in_or_app. left. exact H.
Qed.

Lemma summed_perm :
  Permutation (summed_labels channel_operands out_labels) (map L sum_axes).
Proof.
  apply NoDup_Permutation.
  - unfold summed_labels. apply NoDup_filter, dedup_NoDup.
  - apply NoDup_map_L; [exact sum_axes_NoDup | exact sum_axes_lt].
  - intros c. unfold summed_labels. rewrite filter_In, negb_true_iff, mem_false.
    rewrite input_labels_axes. unfold out_labels. split.
    + intros [Hin Hout]. apply in_dedup in Hin. apply in_map_iff in Hin as (x & <- & Hx).
      destruct (input_axis_cases x Hx) as [H | H]; [apply in_map, H |].
      exfalso. apply Hout, in_map, H.
    + intros Hc. apply in_map_iff in Hc as (x & <- & Hx). split.
      * apply dedup_In, in_map, sum_axes_in_inputs, Hx.
      * intros Hin. apply In_map_L in Hin;
          [exact (sum_axes_not_out x Hx Hin) | apply sum_axes_lt, Hx |].
        intros y Hy. pose proof (out_axes_lt y Hy). pose proof q_lt. lia.
Qed.

Section Environment.
Variables (idx r c : list nat) (i : nat).
Hypothesis idx_length : length idx = 2 * N.
Hypothesis r_length : length r = k.
Hypothesis c_length : length c = k.

Definition summed_env : env :=
  (L q, i) :: combine (map L ws) r ++ combine (map L (shifted N ws)) c.

Definition channel_env : env := combine out_labels idx ++ summed_env.

Lemma env_out (p : nat) : p < 2 * N -> lookup channel_env (L (new_axis N ws p)) = nth p idx 0.
Proof.
  intros Hp. unfold channel_env, out_labels.
  rewrite <- (@nth_out_axes N ws p Hp).
  apply lookup_L_nth.
  - apply out_axes_NoDup; assumption.
  - intros x Hx. pose proof (out_axes_lt x Hx). pose proof q_lt. lia.
  - rewrite out_axes_length. exact Hp.
  - rewrite out_axes_length. exact idx_length.
Qed.

Lemma env_summed (x : nat) :
  In x sum_axes -> lookup channel_env (L x) = lookup summed_env (L x).
Proof.
  intros Hx. unfold channel_env, out_labels. apply lookup_L_notin.
  - apply sum_axes_lt, Hx.
  - intros y Hy. pose proof (out_axes_lt y Hy). pose proof q_lt. lia.
  - apply sum_axes_not_out, Hx.
Qed.

Lemma env_index : lookup channel_env (L q) = i.
Proof.
  rewrite env_summed by (unfold sum_axes; apply in_or_app; left; left; reflexivity).
  unfold summed_env. cbn [lookup]. rewrite Ascii.eqb_refl. reflexivity.
Qed.

Lemma env_row (j : nat) : j < k -> lookup channel_env (L (nth j ws 0)) = nth j r 0.
Proof.
  intros Hj. pose proof (nth_In ws 0 Hj) as Hin.
  rewrite env_summed
    by (unfold sum_axes; apply in_or_app; right; apply in_or_app; left; exact Hin).
  unfold summed_env. cbn [lookup]. pose proof q_lt. pose proof (ws_lt _ Hin).
  rewrite eqb_L by lia.
  replace (q =? nth j ws 0) with false by (symmetry; apply Nat.eqb_neq; unfold q; lia).
  apply lookup_L_nth; [exact ws_NoDup | intros x Hx; pose proof (ws_lt x Hx); lia
                      | exact Hj | exact r_length].
Qed.

Lemma env_col (j : nat) :
  j < k -> lookup channel_env (L (nth j (shifted N ws) 0)) = nth j c 0.
Proof.
  intros Hj.
  assert (Hin : In (nth j (shifted N ws) 0) (shifted N ws))
    by (apply nth_In; rewrite shifted_length; exact Hj).
  rewrite env_summed
    by (unfold sum_axes; apply in_or_app; right; apply in_or_app; right; exact Hin).
  unfold summed_env. cbn [lookup]. pose proof q_lt.
  pose proof (@shifted_ge N ws ws_lt _ Hin).
  rewrite eqb_L by lia.
  replace (q =? nth j (shifted N ws) 0) with false
    by (symmetry; apply Nat.eqb_neq; unfold q; lia).
  rewrite lookup_L_notin;
    [| lia | intros x Hx; pose proof (ws_lt x Hx); lia
     | intros H'; exact (@ws_not_shifted N ws ws_lt _ H' Hin)].
  rewrite <- (app_nil_r (combine (map L (shifted N ws)) c)).
  apply lookup_L_nth;
    [apply shifted_NoDup, ws_NoDup
    | intros x Hx; pose proof (@shifted_ge N ws ws_lt x Hx); lia
    | rewrite shifted_length; exact Hj | rewrite shifted_length; exact c_length].
Qed.

Lemma env_kraus_axes :
  map (lookup channel_env) (map L kraus_axes) = i :: gather idx ws ++ r.
Proof.
  unfold kraus_axes. rewrite !map_app, !map_map. cbn [map app].
  rewrite env_index. f_equal. f_equal.
  - unfold gather, k. apply map_seq_nth. intros j Hj.
    rewrite <- (@new_axis_row N ws ws_NoDup ws_lt j Hj).
    apply env_out. pose proof (ws_lt _ (nth_In ws 0 Hj)). lia.
  - apply map_nth_values; [exact r_length | exact env_row].
Qed.

Lemma env_dagger_axes :
  map (lookup channel_env) (map L dagger_axes) = i :: c ++ gather idx (shifted N ws).
Proof.
  unfold dagger_axes. rewrite !map_app, !map_map. cbn [map app].
  rewrite env_index. f_equal. f_equal.
  - apply map_nth_values; [rewrite shifted_length; exact c_length |].
    rewrite shifted_length. exact env_col.
  - unfold gather.
    replace (seq (2 * N + k) k) with (seq (2 * N + k) (length (shifted N ws)))
      by (rewrite shifted_length; reflexivity).
    apply map_seq_nth. rewrite shifted_length. intros j Hj. unfold k.
    rewrite <- (@new_axis_col N ws ws_NoDup j Hj).
    apply env_out.
    assert (Hin : In (nth j (shifted N ws) 0) (shifted N ws))
      by (apply nth_In; rewrite shifted_length; exact Hj).
    pose proof (@shifted_ge N ws ws_lt _ Hin). lia.
Qed.

Lemma env_state_axes :
  map (lookup channel_env) (map L (seq 0 (2 * N))) = updated_index N idx ws r c.
Proof.
  unfold updated_index. rewrite map_map. apply map_ext_in. intros p Hp.
  apply in_seq in Hp.
  destruct (@axis_kind N ws ws_NoDup ws_lt p)
    as [(j & Hj & -> & _) | [(j & Hj & -> & _) | (H1 & H2 & Hn)]].
  - rewrite (proj2 (memn_In _ _) (nth_In ws 0 Hj)).
    rewrite index_of_nth by assumption. apply env_row, Hj.
  - assert (Hin : In (nth j (shifted N ws) 0) (shifted N ws))
      by (apply nth_In; rewrite shifted_length; exact Hj).
    rewrite (proj2 (memn_false _ _)
               (fun H' => @ws_not_shifted N ws ws_lt _ H' Hin)).
    rewrite (proj2 (memn_In _ _) Hin).
    rewrite index_of_nth;
      [apply env_col, Hj | apply shifted_NoDup, ws_NoDup | rewrite shifted_length; exact Hj].
  - rewrite (proj2 (memn_false _ _) H1), (proj2 (memn_false _ _) H2).
    rewrite <- Hn at 1. apply env_out. lia.
Qed.

Hypothesis idx_valid : valid_index (repeat 2 (2 * N)) idx.
Hypothesis r_valid : valid_index (repeat 2 k) r.
Hypothesis c_valid : valid_index (repeat 2 k) c.

(** One term of the contraction. *)
Lemma channel_term :
  prod_list (map (fun o : operand => data (snd o) (map (lookup channel_env) (fst o)))
                 channel_operands)
  = cmul (cmul (data (nth i (K0 :: Ks) K0)
                     [ravel (repeat 2 k) (gather idx ws); ravel (repeat 2 k) r])
               (data state (updated_index N idx ws r c)))
         (cconj (data (nth i (K0 :: Ks) K0)
                      [ravel (repeat 2 k) (gather idx (shifted N ws));
                       ravel (repeat 2 k) c])).
Proof.
  unfold channel_operands. cbn [map prod_list fold_right fst snd].
  rewrite env_kraus_axes, env_state_axes, env_dagger_axes.
  assert (Hg : valid_index (repeat 2 k) (gather idx ws)).
  { apply gather_valid with (n := 2 * N); [exact idx_valid |].
    intros w Hw. pose proof (ws_lt w Hw). lia. }
  assert (Hgc : valid_index (repeat 2 k) (gather idx (shifted N ws))).
  { unfold k. rewrite <- (shifted_length N ws).
    apply gather_valid with (n := 2 * N); [exact idx_valid |].
    intros w Hw. pose proof (@shifted_ge N ws ws_lt w Hw). lia. }
  unfold stacked. cbn [data].
  rewrite (unravel_stacked m k i _ _ Hg r_valid).
  rewrite (unravel_stacked m k i _ _ c_valid Hgc).
  unfold daggers.
  change (conj (transpose2 K0)) with ((fun K => conj (transpose2 K)) K0).
  rewrite map_nth. cbn [conj transpose2 data rev app]. ring.
Qed.

End Environment.

(** The product of the operand entries under an assignment of the summed
    labels. *)
Definition operand_product (idx : list nat) (e : env) : C :=
  prod_list (map (fun o : operand =>
                    data (snd o) (map (lookup (combine out_labels idx ++ e)) (fst o)))
                 channel_operands).

Lemma operand_product_respects (idx : list nat) : respects (operand_product idx).
Proof.
  intros e e' He. unfold operand_product. f_equal. apply map_ext. intros o.
  f_equal. apply map_ext. intros c. apply lookup_app_equiv, He.
Qed.

Lemma extents_of (xs : list nat) :
  (forall x, In x xs -> In x input_axes /\ x < q) ->
  map (lookup (label_extents channel_operands)) (map L xs) = repeat 2 (length xs).
Proof.
  intros H. rewrite map_map.
  rewrite (map_const (fun x => lookup (label_extents channel_operands) (L x)) (v := 2));
    [reflexivity |].
  intros x Hx. destruct (H x Hx) as [Hin Hlt].
  rewrite lookup_extent by exact Hin. apply extent_qubit, Hlt.
Qed.

Lemma apply_channel_einsum_entries :
  exists t,
    apply_channel_einsum N (K0 :: Ks) ws state = Some t
    /\ shape t = repeat 2 (2 * N)
    /\ forall idx, valid_index (repeat 2 (2 * N)) idx ->
         data t idx = kraus_conjugation (K0 :: Ks) state N ws idx.
Proof.
  rewrite apply_channel_einsum_unfold. fold out_labels.
  unfold einsum. rewrite channel_einsum_ok.
  eexists. split; [reflexivity |]. cbn [shape data].
  split; [exact out_extents |].
  intros idx Hv. pose proof (valid_index_length _ _ Hv) as Hl.
  rewrite repeat_length in Hl.
  set (ext := lookup (label_extents channel_operands)).
  change (sum_list (all_indices (map ext (summed_labels channel_operands out_labels)))
            (fun asg => operand_product idx
                          (combine (summed_labels channel_operands out_labels) asg))
          = kraus_conjugation (K0 :: Ks) state N ws idx).
  rewrite sum_all_indices_env.
  rewrite (sum_env_perm ext summed_perm)
    by (first [ apply NoDup_filter, dedup_NoDup | apply operand_product_respects ]).
  unfold sum_axes. rewrite !map_app. cbn [map app sum_env].
  assert (Hq : ext (L q) = m).
  { unfold ext. rewrite lookup_extent
      by (apply sum_axes_in_inputs; unfold sum_axes; apply in_or_app; left; left; reflexivity).
    unfold extent. rewrite Ascii.eqb_refl. reflexivity. }
  rewrite Hq. unfold kraus_conjugation. fold k.
  rewrite <- (sum_range_nth (K0 :: Ks) K0). fold m. unfold sum_range.
  apply sum_list_ext. intros i Hi. apply in_seq in Hi.
  rewrite sum_env_app. rewrite <- sum_all_indices_env.
  unfold ext at 1. rewrite extents_of.
  2:{ intros x Hx. split.
      - apply sum_axes_in_inputs. unfold sum_axes. apply in_or_app. right.
        apply in_or_app. left. exact Hx.
      - pose proof (ws_lt x Hx). unfold q. lia. }
  fold k. apply sum_list_ext. intros r Hr. apply all_indices_valid in Hr.
  rewrite <- sum_all_indices_env.
  unfold ext at 1. rewrite extents_of.
  2:{ intros x Hx. split.
      - apply sum_axes_in_inputs. unfold sum_axes. apply in_or_app. right.
        apply in_or_app. right. exact Hx.
      - pose proof (@shifted_ge N ws ws_lt x Hx). unfold q. lia. }
  rewrite shifted_length. fold k.
  apply sum_list_ext. intros c Hc. apply all_indices_valid in Hc.
  pose proof (valid_index_length _ _ Hr) as Hrl. rewrite repeat_length in Hrl.
  pose proof (valid_index_length _ _ Hc) as Hcl. rewrite repeat_length in Hcl.
  exact (channel_term idx r c i Hl Hrl Hcl Hv Hr Hc).
Qed.

End LabelledContraction.

Section ChannelMethod.
Context {Sc : Scalar}.

(** C1 (as amended): when the [2N + 2k + 1] subscripts fit the 52 letters,
    the labelled contraction replaces the state by
    [sum_i K_i rho K_i^dagger]: each [K_i] is contracted with the row axes
    of the wires, its conjugate with their column axes, and every other
    axis keeps its coordinate. *)
Theorem labelled_contraction (kraus : list tensor) (ws : Wires) (d : device)
    (device_wires : list nat) (state : tensor) :
  2 * num_wires d + 2 * length ws + 1 <= 52 ->
  NoDup ws ->
  map_labels (wires d) ws = Some device_wires ->
  _state d = Some state ->
  shape state = repeat 2 (2 * num_wires d) ->
  kraus <> [] ->
  (forall K, In K kraus -> shape K = [2 ^ length ws; 2 ^ length ws]) ->
  exists t,
    _apply_channel kraus ws d = (inr tt, set_state (Some t) d)
    /\ shape t = repeat 2 (2 * num_wires d)
    /\ forall idx, valid_index (repeat 2 (2 * num_wires d)) idx ->
         data t idx = kraus_conjugation kraus state (num_wires d) device_wires idx.
Proof.
  intros Hfit Hnd Hmap Hs Hshape Hne Hk.
  destruct kraus as [| K0 Ks]; [contradiction |].
  destruct (map_labels_spec _ _ Hmap) as [Hlen _]. rewrite <- Hlen in Hfit, Hk.
  destruct (apply_channel_einsum_entries (num_wires d) device_wires K0 Ks state
              (@map_labels_NoDup (wires d) ws device_wires Hmap Hnd)
              (@map_labels_lt (wires d) ws device_wires Hmap)
              Hfit Hk Hshape) as (t & Ht & Hsh & Hdata).
  exists t. split; [| split; assumption].
  unfold _apply_channel.
  rewrite (bind_ok _ _ (map_wires_run _ _ Hmap)), (bind_ok _ _ (get_run d)).
  rewrite (bind_ok _ _ (current_state_run _ Hs)), Ht. reflexivity.
Qed.

End ChannelMethod.

Definition identity_matrix {Sc : Scalar} (n : nat) : tensor :=
  mkTensor [n; n] (fun idx => if nth 0 idx 0 =? nth 1 idx 0 then c1 else c0).

Lemma labelled_contraction_witness :
  exists t,
    _apply_channel [PauliX_matrix] [LInt 0] plus_device
    = (inr tt, set_state (Some t) plus_device)
    /\ shape t = [2; 2]
    /\ forall idx, valid_index [2; 2] idx ->
         data t idx = kraus_conjugation [PauliX_matrix] plus_state 1 [0] idx.
Proof.
  apply (@labelled_contraction GaussScalar [PauliX_matrix] [LInt 0] plus_device [0]
           plus_state); try reflexivity.
  - cbn. lia.
  - repeat constructor. intros [].
  - discriminate.
  - intros K [<- | []]. reflexivity.
Defined.

(** A device of 23 wires in the state |0...0><0...0| on the torch
    interface. *)
Definition device23 : @device GaussScalar :=
  mkDevice (map (fun i => LInt (Z.of_nat i)) (seq 0 23)) Torch None
           (Some (basis_projector 23 0)) (Some (basis_projector 23 0)) [] None.

Definition wires_0_1_2 : Wires := [LInt 0; LInt 1; LInt 2].

Lemma einsum_out_of_letters :
  apply_channel_einsum 23 [@identity_matrix GaussScalar 8] [0; 1; 2]
    (basis_projector 23 0) = None.
Proof. vm_compute. reflexivity. Qed.

(** C1 as stated fails on 23 wires for an operator on three wires: the
    subscripts need [46 + 6 + 1 = 53] letters, the slice for the Kraus
    index is empty, and the contraction raises. *)
Lemma labelled_contraction_runs_out_of_letters :
  num_wires device23 = 23
  /\ shape (@identity_matrix GaussScalar 8) = [2 ^ 3; 2 ^ 3]
  /\ _apply_channel [identity_matrix 8] wires_0_1_2 device23 = (inl ArrayError, device23)
  /\ _apply_operation (Gate (mkGate "QubitUnitary" (Unitary (identity_matrix 8)) wires_0_1_2))
       device23 = (inl ArrayError, device23).
Proof.
  assert (Hmap : map_labels (wires device23) wires_0_1_2 = Some [0; 1; 2]) by reflexivity.
  assert (Hrun : _apply_channel [identity_matrix 8] wires_0_1_2 device23
                 = (inl ArrayError, device23)).
  { unfold _apply_channel.
    rewrite (bind_ok _ _ (map_wires_run _ _ Hmap)), (bind_ok _ _ (get_run device23)).
    rewrite (bind_ok _ _ (current_state_run device23 eq_refl)).
    change (num_wires device23) with 23.
    rewrite einsum_out_of_letters. reflexivity. }
  split; [reflexivity |]. split; [reflexivity |]. split; [exact Hrun |].
  exact Hrun.
Qed.

(** ** Counting axes *)

Section Counting.

(** The number of the axes of [axes] below [p]. *)
Definition count_below (p : nat) (axes : list nat) : nat :=
  length (filter (fun a => a <? p) axes).

Lemma count_below_app (p : nat) (a b : list nat) :
  count_below p (a ++ b) = count_below p a + count_below p b.
Proof. unfold count_below. rewrite filter_app, length_app. reflexivity. Qed.

Lemma count_below_all (p : nat) (axes : list nat) :
  (forall a, In a axes -> a < p) -> count_below p axes = length axes.
Proof.
  intros H. unfold count_below. induction axes as [| a l IH]; [reflexivity |].
  cbn [filter]. rewrite (proj2 (Nat.ltb_lt a p) (H a (or_introl eq_refl))).
  cbn [length]. f_equal. apply IH. intros x Hx. apply H. right. exact Hx.
Qed.

Lemma count_below_none (p : nat) (axes : list nat) :
  (forall a, In a axes -> p <= a) -> count_below p axes = 0.
Proof.
  intros H. unfold count_below. induction axes as [| a l IH]; [reflexivity |].
  cbn [filter]. rewrite (proj2 (Nat.ltb_ge a p) (H a (or_introl eq_refl))).
  apply IH. intros x Hx. apply H. right. exact Hx.
Qed.

Lemma filter_length_complement {A : Type} (f : A -> bool) (l : list A) :
  length (filter f l) + length (filter (fun x => negb (f x)) l) = length l.
Proof.
  induction l as [| x l IH]; [reflexivity |]. cbn [filter].
  destruct (f x); cbn [negb length]; lia.
Qed.

(** The members of [axes] below [p], counted in [seq 0 p]. *)
Lemma count_in_seq (p : nat) (axes : list nat) :
  NoDup axes ->
  length (filter (fun a => memn a axes) (seq 0 p)) = count_below p axes.
Proof.
  intros Hnd. unfold count_below. apply Permutation_length.
  apply NoDup_Permutation.
  - apply NoDup_filter, seq_NoDup.
  - apply NoDup_filter, Hnd.
  - intros x. rewrite !filter_In, in_seq, memn_In, Nat.ltb_lt. split.
    + intros [H1 H2]. split; [exact H2 | lia].
    + intros [H1 H2]. split; [lia | exact H1].
Qed.

Lemma index_of_app_r (p : nat) (a b : list nat) :
  ~ In p a -> index_of p (a ++ b) = length a + index_of p b.
Proof.
  intros H. induction a as [| x a IH]; [reflexivity |].
  cbn [app index_of length]. destruct (p =? x) eqn:E.
  - apply Nat.eqb_eq in E. subst. exfalso. apply H. left. reflexivity.
  - rewrite IH by (intros Hin; apply H; right; exact Hin). lia.
Qed.

Lemma index_of_head (p : nat) (l : list nat) : index_of p (p :: l) = 0.
Proof. cbn. rewrite Nat.eqb_refl. reflexivity. Qed.

(** The place of a free axis among the free axes. *)
Lemma index_of_free (n p : nat) (axes : list nat) :
  NoDup axes -> p < n -> ~ In p axes ->
  index_of p (free_axes n axes) = p - count_below p axes.
Proof.
  intros Hnd Hp Hn. unfold free_axes.
  replace n with (p + S (n - S p)) by lia.
  rewrite seq_app, filter_app, Nat.add_0_l. cbn [seq filter].
  rewrite (proj2 (memn_false p axes) Hn). cbn [negb].
  rewrite index_of_app_r.
  - rewrite index_of_head, Nat.add_0_r.
    pose proof (filter_length_complement (fun a => memn a axes) (seq 0 p)) as Hc.
    rewrite length_seq, (count_in_seq p axes Hnd) in Hc. lia.
  - intros Hin. apply filter_In in Hin as [Hin _]. apply in_seq in Hin. lia.
Qed.

Lemma free_axes_length (n : nat) (axes : list nat) :
  NoDup axes -> (forall a, In a axes -> a < n) ->
  length (free_axes n axes) = n - length axes.
Proof.
  intros Hnd Hlt. unfold free_axes.
  pose proof (filter_length_complement (fun a => memn a axes) (seq 0 n)) as Hc.
  rewrite length_seq, (count_in_seq n axes Hnd), (count_below_all n axes Hlt) in Hc. lia.
Qed.

Lemma in_free_axes (n p : nat) (axes : list nat) :
  In p (free_axes n axes) <-> p < n /\ ~ In p axes.
Proof.
  unfold free_axes. rewrite filter_In, in_seq, negb_true_iff, memn_false. split;
    intros [H1 H2]; split; auto; lia.
Qed.

Lemma count_below_le (p : nat) (axes : list nat) :
  NoDup axes -> count_below p axes <= p.
Proof.
  intros Hnd. rewrite <- (count_in_seq p axes Hnd).
  pose proof (filter_length_complement (fun a => memn a axes) (seq 0 p)) as Hc.
  rewrite length_seq in Hc. lia.
Qed.

End Counting.

(** ** The order of axes that moveaxis builds *)

Section Insertions.

(** The loop [for dest, src in pairs: order.insert(dest, src)]. *)
Definition insert_all (ps : list (nat * nat)) (cur : list nat) : list nat :=
  fold_left (fun o p => insert_at (fst p) (snd p) o) ps cur.

Definition assoc_nat (t : nat) (ps : list (nat * nat)) : nat :=
  match find (fun p => fst p =? t) ps with
  | Some p => snd p
  | None => 0
  end.

Fixpoint ascending (l : list nat) : Prop :=
  match l with
  | [] => True
  | x :: l' => (forall y, In y l' -> x < y) /\ ascending l'
  end.

Lemma ascending_snoc (l : list nat) (d : nat) :
  ascending (l ++ [d]) -> ascending l /\ forall x, In x l -> x < d.
Proof.
  induction l as [| a l IH]; cbn [app ascending]; intros H.
  - split; [exact I | intros x []].
  - destruct H as [Ha Hl]. destruct (IH Hl) as [Hasc Hlt]. split.
    + split; [| exact Hasc]. intros y Hy. apply Ha, in_or_app. left. exact Hy.
    + intros x [<- | Hx]; [apply Ha, in_or_app; right; left; reflexivity | apply Hlt, Hx].
Qed.

Lemma length_insert_at {A : Type} (d : nat) (s : A) (l : list A) :
  length (insert_at d s l) = S (length l).
Proof.
  unfold insert_at. rewrite length_app. cbn [length].
  rewrite <- (firstn_skipn d l) at 3. rewrite length_app. lia.
Qed.

Lemma nth_insert_at (d s t : nat) (l : list nat) :
  d <= length l ->
  nth t (insert_at d s l) 0
  = if t <? d then nth t l 0 else if t =? d then s else nth (t - 1) l 0.
Proof.
  intros Hd. unfold insert_at.
  assert (Hf : length (firstn d l) = d) by (rewrite length_firstn; lia).
  destruct (t <? d) eqn:E1.
  - rewrite app_nth1 by (apply Nat.ltb_lt in E1; lia). rewrite nth_firstn, E1. reflexivity.
  - apply Nat.ltb_ge in E1. rewrite app_nth2 by lia. rewrite Hf.
    destruct (t =? d) eqn:E2.
    + apply Nat.eqb_eq in E2. subst. rewrite Nat.sub_diag. reflexivity.
    + apply Nat.eqb_neq in E2. destruct (t - d) as [| u] eqn:Eu; [lia |].
      cbn [nth]. rewrite nth_skipn. f_equal. lia.
Qed.

Lemma insert_all_snoc (ps : list (nat * nat)) (p : nat * nat) (cur : list nat) :
  insert_all (ps ++ [p]) cur = insert_at (fst p) (snd p) (insert_all ps cur).
Proof. unfold insert_all. rewrite fold_left_app. reflexivity. Qed.

Lemma length_insert_all (ps : list (nat * nat)) :
  forall cur, length (insert_all ps cur) = length ps + length cur.
Proof.
  induction ps as [| p ps IH]; intros cur; [reflexivity |].
  change (insert_all (p :: ps) cur) with (insert_all ps (insert_at (fst p) (snd p) cur)).
  rewrite IH, length_insert_at. cbn [length]. lia.
Qed.

Lemma memn_app (t : nat) (a b : list nat) : memn t (a ++ b) = memn t a || memn t b.
Proof. unfold memn. apply existsb_app. Qed.

Lemma assoc_nat_app_l (t : nat) (a b : list (nat * nat)) :
  In t (map fst a) -> assoc_nat t (a ++ b) = assoc_nat t a.
Proof.
  intros H. unfold assoc_nat. induction a as [| p a IH]; [contradiction |].
  cbn [app find]. destruct (fst p =? t) eqn:E; [reflexivity |].
  apply IH. destruct H as [H | H]; [apply Nat.eqb_neq in E; contradiction | exact H].
Qed.

Lemma assoc_nat_app_r (t : nat) (a b : list (nat * nat)) :
  ~ In t (map fst a) -> assoc_nat t (a ++ b) = assoc_nat t b.
Proof.
  intros H. unfold assoc_nat. induction a as [| p a IH]; [reflexivity |].
  cbn [app find]. destruct (fst p =? t) eqn:E.
  - apply Nat.eqb_eq in E. exfalso. apply H. left. exact E.
  - apply IH. intros Hin. apply H. right. exact Hin.
Qed.

(** After the insertions in ascending order of destination, a destination
    holds its source and the other places hold the rest in order. *)
Lemma nth_insert_all (ps : list (nat * nat)) :
  forall cur t,
    ascending (map fst ps) ->
    (forall p, In p ps -> fst p < length ps + length cur) ->
    t < length ps + length cur ->
    nth t (insert_all ps cur) 0
    = if memn t (map fst ps) then assoc_nat t ps
      else nth (t - count_below t (map fst ps)) cur 0.
Proof.
  induction ps as [| [d s] ps IH] using rev_ind; intros cur t Hasc Hlt Ht.
  - cbn. rewrite Nat.sub_0_r. reflexivity.
  - rewrite map_app in Hasc. cbn [map fst] in Hasc.
    apply ascending_snoc in Hasc as [Hasc Hbelow].
    rewrite length_app in Hlt, Ht. cbn [length] in Hlt, Ht.
    assert (Hd : d < length ps + 1 + length cur)
      by (apply (Hlt (d, s)), in_or_app; right; left; reflexivity).
    assert (Hps : forall p, In p ps -> fst p < length ps + length cur).
    { intros p Hp. assert (fst p < d) by (apply Hbelow, in_map, Hp). lia. }
    rewrite insert_all_snoc. cbn [fst snd].
    rewrite nth_insert_at by (rewrite length_insert_all; lia).
    rewrite map_app, memn_app, count_below_app. cbn [map fst].
    destruct (t <? d) eqn:E1.
    + apply Nat.ltb_lt in E1. rewrite IH by (auto; lia).
      replace (memn t [d]) with false
        by (symmetry; apply memn_false; intros [-> | []]; lia).
      rewrite orb_false_r.
      replace (count_below t [d]) with 0
        by (symmetry; apply count_below_none; intros a [<- | []]; lia).
      rewrite Nat.add_0_r.
      destruct (memn t (map fst ps)) eqn:Em; [| reflexivity].
      symmetry. apply assoc_nat_app_l, memn_In, Em.
    + apply Nat.ltb_ge in E1.
      assert (Hnot : forall u, d <= u -> memn u (map fst ps) = false).
      { intros u Hu. apply memn_false. intros Hin. specialize (Hbelow u Hin). lia. }
      rewrite (Hnot t E1). cbn [orb].
      destruct (t =? d) eqn:E2.
      * apply Nat.eqb_eq in E2. subst t.
        replace (memn d [d]) with true
          by (symmetry; apply memn_In; left; reflexivity).
        rewrite assoc_nat_app_r by (apply memn_false, Hnot; lia).
        unfold assoc_nat. cbn [find fst snd]. rewrite Nat.eqb_refl. reflexivity.
      * apply Nat.eqb_neq in E2.
        replace (memn t [d]) with false
          by (symmetry; apply memn_false; intros [-> | []]; lia).
        rewrite IH by (auto; lia). rewrite (Hnot (t - 1)) by lia.
        rewrite (count_below_all (t - 1) (map fst ps))
          by (intros a Ha; specialize (Hbelow a Ha); lia).
        rewrite (count_below_all t (map fst ps))
          by (intros a Ha; specialize (Hbelow a Ha); lia).
        rewrite (count_below_all t [d]) by (intros a [<- | []]; lia).
        cbn [length]. f_equal. lia.
Qed.

Lemma pair_leb_spec (p q : nat * nat) :
  pair_leb p q = true <-> fst p < fst q \/ (fst p = fst q /\ snd p <= snd q).
Proof.
  unfold pair_leb.
  rewrite orb_true_iff, andb_true_iff, Nat.ltb_lt, Nat.eqb_eq, Nat.leb_le. reflexivity.
Qed.

Lemma pair_leb_total (p q : nat * nat) : pair_leb p q = false -> pair_leb q p = true.
Proof.
  intros H. apply pair_leb_spec.
  assert (Hn : ~ (fst p < fst q \/ (fst p = fst q /\ snd p <= snd q)))
    by (rewrite <- pair_leb_spec, H; discriminate).
  lia.
Qed.

Lemma pair_leb_trans (p q r : nat * nat) :
  pair_leb p q = true -> pair_leb q r = true -> pair_leb p r = true.
Proof. rewrite !pair_leb_spec. lia. Qed.

Fixpoint sorted_by_pair (l : list (nat * nat)) : Prop :=
  match l with
  | [] => True
  | x :: l' => (forall y, In y l' -> pair_leb x y = true) /\ sorted_by_pair l'
  end.

Lemma insert_sorted_perm (p : nat * nat) (l : list (nat * nat)) :
  Permutation (insert_sorted p l) (p :: l).
Proof.
  induction l as [| q l IH]; cbn [insert_sorted]; [apply Permutation_refl |].
  destruct (pair_leb p q); [apply Permutation_refl |].
  eapply Permutation_trans; [apply perm_skip, IH | apply perm_swap].
Qed.

Lemma sorted_pairs_perm (l : list (nat * nat)) : Permutation (sorted_pairs l) l.
Proof.
  induction l as [| p l IH]; cbn [sorted_pairs fold_right]; [apply Permutation_refl |].
  eapply Permutation_trans; [apply insert_sorted_perm | apply perm_skip, IH].
Qed.

Lemma insert_sorted_sorted (p : nat * nat) (l : list (nat * nat)) :
  sorted_by_pair l -> sorted_by_pair (insert_sorted p l).
Proof.
  induction l as [| q l IH]; intros Hs; cbn [insert_sorted sorted_by_pair].
  - split; [intros y [] | exact I].
  - destruct Hs as [Hq Hl]. destruct (pair_leb p q) eqn:E.
    + cbn [sorted_by_pair]. split; [| split; assumption].
      intros y [<- | Hy]; [exact E |]. eapply pair_leb_trans; [exact E | apply Hq, Hy].
    + cbn [sorted_by_pair]. split; [| apply IH, Hl].
      intros y Hy. apply (Permutation_in _ (insert_sorted_perm p l)) in Hy.
      destruct Hy as [<- | Hy]; [apply pair_leb_total, E | apply Hq, Hy].
Qed.

Lemma sorted_pairs_sorted (l : list (nat * nat)) : sorted_by_pair (sorted_pairs l).
Proof.
  induction l as [| p l IH]; cbn [sorted_pairs fold_right]; [exact I |].
  apply insert_sorted_sorted, IH.
Qed.

Lemma sorted_ascending (l : list (nat * nat)) :
  sorted_by_pair l -> NoDup (map fst l) -> ascending (map fst l).
Proof.
  induction l as [| p l IH]; intros Hs Hnd; [exact I |].
  destruct Hs as [Hp Hl]. cbn [map] in Hnd. inversion Hnd as [| ? ? Hnin Hnd']; subst.
  cbn [map ascending]. split; [| apply IH; assumption].
  intros y Hy. assert (Hne : fst p <> y) by (intros E; rewrite E in Hnin; contradiction).
  apply in_map_iff in Hy as (r & <- & Hr).
  pose proof (proj1 (pair_leb_spec p r) (Hp r Hr)). lia.
Qed.

Lemma assoc_nat_in (t s : nat) (l : list (nat * nat)) :
  NoDup (map fst l) -> In (t, s) l -> assoc_nat t l = s.
Proof.
  unfold assoc_nat. induction l as [| p l IH]; intros Hnd Hin; [contradiction |].
  cbn [map] in Hnd. inversion Hnd as [| ? ? Hnin Hnd']; subst. cbn [find].
  destruct (fst p =? t) eqn:E.
  - apply Nat.eqb_eq in E. destruct Hin as [-> | Hin]; [reflexivity |].
    exfalso. apply Hnin. apply in_map_iff. exists (t, s).
    split; [cbn; symmetry; exact E | exact Hin].
  - apply Nat.eqb_neq in E. destruct Hin as [-> | Hin]; [cbn in E; congruence |].
    apply IH; assumption.
Qed.

Lemma in_combine_nth (dst src : list nat) (j : nat) :
  j < length dst -> length src = length dst ->
  In (nth j dst 0, nth j src 0) (combine dst src).
Proof.
  revert src j; induction dst as [| d dst IH]; intros [| s src] j Hj Hl;
    cbn in Hj, Hl; try lia.
  destruct j as [| j]; [left; reflexivity |]. right. cbn [nth]. apply IH; lia.
Qed.

Lemma insert_all_perm (ps : list (nat * nat)) :
  forall cur, Permutation (insert_all ps cur) (map snd ps ++ cur).
Proof.
  induction ps as [| p ps IH]; intros cur; [apply Permutation_refl |].
  change (insert_all (p :: ps) cur) with (insert_all ps (insert_at (fst p) (snd p) cur)).
  eapply Permutation_trans; [apply IH |]. cbn [map app].
  assert (Hi : Permutation (insert_at (fst p) (snd p) cur) (snd p :: cur)).
  { unfold insert_at. rewrite <- (firstn_skipn (fst p) cur) at 3.
    apply Permutation_sym, Permutation_middle. }
  eapply Permutation_trans; [apply Permutation_app_head, Hi |].
  apply Permutation_sym, Permutation_middle.
Qed.

Lemma filter_perm {A : Type} (f : A -> bool) (l l' : list A) :
  Permutation l l' -> Permutation (filter f l) (filter f l').
Proof.
  induction 1 as [| x l l' Hp IH | x y l | l l' l'' Hp1 IH1 Hp2 IH2]; cbn [filter].
  - apply Permutation_refl.
  - destruct (f x); [apply perm_skip, IH | exact IH].
  - destruct (f x), (f y); try apply Permutation_refl. apply perm_swap.
  - eapply Permutation_trans; eassumption.
Qed.

(** The order of [np.moveaxis] for sources [src] and destinations [dst]. *)
Definition moveaxis_order (n : nat) (src dst : list nat) : list nat :=
  insert_all (sorted_pairs (combine dst src))
             (filter (fun a => negb (memn a src)) (seq 0 n)).

Section Order.
Variables (n : nat) (src dst : list nat).
Hypothesis same_length : length src = length dst.
Hypothesis src_NoDup : NoDup src.
Hypothesis dst_NoDup : NoDup dst.
Hypothesis src_lt : forall a, In a src -> a < n.
Hypothesis dst_lt : forall a, In a dst -> a < n.

Lemma fst_combine : map fst (combine dst src) = dst.
Proof. apply map_fst_combine. symmetry. exact same_length. Qed.

Lemma snd_combine : map snd (combine dst src) = src.
Proof.
  clear src_NoDup dst_NoDup src_lt dst_lt. revert same_length. revert dst.
  induction src as [| s l IH]; intros [| d dl] H; cbn in *; try discriminate;
    [reflexivity |]. f_equal. apply IH. lia.
Qed.

Lemma moveaxis_order_length : length (moveaxis_order n src dst) = n.
Proof.
  unfold moveaxis_order. rewrite length_insert_all.
  rewrite (Permutation_length (sorted_pairs_perm _)), length_combine.
  fold (free_axes n src). rewrite (free_axes_length n src src_NoDup src_lt). 
  assert (Hle : length src <= length (seq 0 n)).
  { apply NoDup_incl_length; [exact src_NoDup |].
    intros a Ha. apply in_seq. pose proof (src_lt a Ha). lia. }
  rewrite length_seq in Hle. lia.
Qed.

Lemma moveaxis_order_perm : Permutation (moveaxis_order n src dst) (seq 0 n).
Proof.
  unfold moveaxis_order.
  eapply Permutation_trans; [apply insert_all_perm |].
  eapply Permutation_trans.
  { apply Permutation_app_tail, Permutation_map, sorted_pairs_perm. }
  rewrite snd_combine. apply NoDup_Permutation.
  - apply NoDup_app; [exact src_NoDup | apply NoDup_filter, seq_NoDup |].
    intros a Ha Hin. apply filter_In in Hin as [_ Hin].
    rewrite (proj2 (memn_In a src) Ha) in Hin. discriminate.
  - apply seq_NoDup.
  - intros a. rewrite in_app_iff, filter_In, in_seq, negb_true_iff, memn_false. split.
    + intros [H | [H _]]; [pose proof (src_lt a H) |]; lia.
    + intros H. destruct (in_dec Nat.eq_dec a src); [left | right]; auto. 
Qed.

Lemma nth_moveaxis_order (t : nat) :
  t < n ->
  nth t (moveaxis_order n src dst) 0
  = if memn t dst then nth (index_of t dst) src 0
    else nth (t - count_below t dst) (free_axes n src) 0.
Proof.
  intros Ht. unfold moveaxis_order.
  pose proof (sorted_pairs_perm (combine dst src)) as Hperm.
  assert (Hfst : Permutation (map fst (sorted_pairs (combine dst src))) dst).
  { rewrite <- fst_combine at 2. apply Permutation_map, Hperm. }
  assert (Hnd : NoDup (map fst (sorted_pairs (combine dst src)))).
  { apply (Permutation_NoDup (Permutation_sym Hfst)), dst_NoDup. }
  assert (Hlen : length (sorted_pairs (combine dst src))
                 + length (filter (fun a => negb (memn a src)) (seq 0 n)) = n).
  { pose proof moveaxis_order_length as H. unfold moveaxis_order in H.
    rewrite length_insert_all in H. exact H. }
  rewrite nth_insert_all.
  - assert (Hmem : memn t (map fst (sorted_pairs (combine dst src))) = memn t dst).
    { destruct (memn t dst) eqn:E.
      - apply memn_In. apply (Permutation_in _ (Permutation_sym Hfst)), memn_In, E.
      - apply memn_false. intros Hin. apply (Permutation_in _ Hfst) in Hin.
        apply memn_In in Hin. congruence. }
    rewrite Hmem. destruct (memn t dst) eqn:E.
    + apply memn_In in E. apply assoc_nat_in; [exact Hnd |].
      apply (Permutation_in _ (Permutation_sym Hperm)).
      rewrite <- (nth_index_of t 0 dst E) at 1.
      apply in_combine_nth; [apply index_of_lt, E | exact same_length].
    + f_equal. f_equal. unfold count_below.
      apply Permutation_length, filter_perm, Hfst.
  - apply sorted_ascending; [apply sorted_pairs_sorted | exact Hnd].
  - intros p Hp. rewrite Hlen. apply dst_lt.
    apply (Permutation_in _ Hfst), in_map, Hp.
  - rewrite Hlen. exact Ht.
Qed.

End Order.

End Insertions.

(** ** tensordot, transpose and moveaxis on qubit tensors *)

Section QubitTensors.
Context {Sc : Scalar}.

Lemma nth_repeat2 (n p : nat) : p < n -> nth p (repeat 2 n) 0 = 2.
Proof.
  revert p; induction n as [| n IH]; intros p Hp; [lia |].
  destruct p as [| p]; [reflexivity |]. cbn. apply IH. lia.
Qed.

Lemma extents_repeat2 (n : nat) (axes : list nat) :
  (forall p, In p axes -> p < n) ->
  map (fun p => nth p (repeat 2 n) 0) axes = repeat 2 (length axes).
Proof.
  intros H. apply map_const. intros p Hp. apply nth_repeat2, H, Hp.
Qed.

Lemma forallb_ltb (n : nat) (axes : list nat) :
  (forall p, In p axes -> p < n) -> forallb (fun p => p <? n) axes = true.
Proof.
  intros H. apply forallb_forall. intros p Hp. apply Nat.ltb_lt, H, Hp.
Qed.

(** The entries of a contraction of two qubit tensors. *)
Lemma tensordot_qubits (a b : tensor) (na nb : nat) (axes_a axes_b : list nat) :
  shape a = repeat 2 na -> shape b = repeat 2 nb ->
  length axes_a = length axes_b ->
  NoDup axes_a -> NoDup axes_b ->
  (forall p, In p axes_a -> p < na) -> (forall p, In p axes_b -> p < nb) ->
  exists t,
    tensordot a b axes_a axes_b = Some t
    /\ shape t = repeat 2 (na - length axes_a + (nb - length axes_b))
    /\ forall idx,
         data t idx
         = sum_list (all_indices (repeat 2 (length axes_a))) (fun s =>
             cmul (data a (operand_index na axes_a (free_axes na axes_a) s
                             (firstn (na - length axes_a) idx)))
                  (data b (operand_index nb axes_b (free_axes nb axes_b) s
                             (skipn (na - length axes_a) idx)))).
Proof.
  intros Ha Hb Hlen Hnda Hndb Hlta Hltb.
  unfold tensordot, ndim. rewrite Ha, Hb, !repeat_length.
  rewrite Hlen, Nat.eqb_refl, (forallb_ltb na axes_a Hlta), (forallb_ltb nb axes_b Hltb).
  rewrite (extents_repeat2 na axes_a Hlta), (extents_repeat2 nb axes_b Hltb).
  rewrite Hlen, shape_eqb_refl. cbn [andb].
  eexists. split; [reflexivity |]. cbn [shape data]. split.
  - rewrite (extents_repeat2 na), (extents_repeat2 nb);
      try (intros p Hp; apply in_free_axes in Hp; tauto).
    rewrite (free_axes_length na axes_a Hnda Hlta), (free_axes_length nb axes_b Hndb Hltb).
    rewrite <- repeat_app, Hlen. reflexivity.
  - intros idx. rewrite (free_axes_length na axes_a Hnda Hlta), Hlen. reflexivity.
Qed.

Lemma memn_perm (p : nat) (l l' : list nat) :
  Permutation l l' -> memn p l = memn p l'.
Proof.
  intros H. destruct (memn p l') eqn:E.
  - apply memn_In. apply (Permutation_in _ (Permutation_sym H)), memn_In, E.
  - apply memn_false. intros Hin. apply (Permutation_in _ H), memn_In in Hin. congruence.
Qed.

(** The entries of a transposition of a qubit tensor. *)
Lemma transpose_qubits (t : tensor) (n : nat) (order : list nat) :
  shape t = repeat 2 n -> Permutation order (seq 0 n) ->
  exists r,
    transpose t order = Some r
    /\ shape r = repeat 2 n
    /\ forall idx,
         data r idx = data t (map (fun p => nth (index_of p order) idx 0) (seq 0 n)).
Proof.
  intros Hs Hp. unfold transpose, is_permutation_of_range, ndim.
  rewrite Hs, repeat_length.
  rewrite (Permutation_length Hp), length_seq, Nat.eqb_refl.
  assert (Hall : forallb (fun p => memn p order) (seq 0 n) = true).
  { apply forallb_forall. intros p Hin. apply memn_In.
    apply (Permutation_in _ (Permutation_sym Hp)), Hin. }
  rewrite Hall. cbn [andb]. eexists. split; [reflexivity |]. cbn [shape data].
  split; [| reflexivity].
  rewrite extents_repeat2.
  - rewrite (Permutation_length Hp), length_seq. reflexivity.
  - intros p Hin. apply (Permutation_in _ Hp), in_seq in Hin. lia.
Qed.

End QubitTensors.

(** ** The axes of the direct contraction *)

Section AxisNormalization.

Lemma nodupn_NoDup (l : list nat) : nodupn l = true <-> NoDup l.
Proof.
  induction l as [| x l IH]; cbn [nodupn].
  - split; [constructor | reflexivity].
  - rewrite andb_true_iff, negb_true_iff, memn_false, IH. split.
    + intros [H1 H2]. constructor; assumption.
    + intros H. inversion H; subst. split; assumption.
Qed.

Lemma normalize_axes_app (n : nat) (a b : list Z) (x y : list nat) :
  normalize_axes n a = Some x -> normalize_axes n b = Some y ->
  normalize_axes n (a ++ b) = Some (x ++ y).
Proof.
  revert x; induction a as [| z a IH]; intros x Ha Hb; cbn [normalize_axes app] in *.
  - inversion Ha; subst. exact Hb.
  - destruct (normalize_axis n z) as [v |]; [| discriminate].
    destruct (normalize_axes n a) as [vs |]; [| discriminate].
    inversion Ha; subst. rewrite (IH vs eq_refl Hb). reflexivity.
Qed.

Lemma normalize_axes_nonneg (n : nat) (l : list nat) :
  (forall p, In p l -> p < n) -> normalize_axes n (map Z.of_nat l) = Some l.
Proof.
  induction l as [| p l IH]; intros H; [reflexivity |].
  cbn [map normalize_axes]. rewrite IH by (intros x Hx; apply H; right; exact Hx).
  unfold normalize_axis. pose proof (H p (or_introl eq_refl)) as Hp.
  replace ((0 <=? Z.of_nat p)%Z && (Z.of_nat p <? Z.of_nat n)%Z) with true
    by (symmetry; apply andb_true_intro; split; [apply Z.leb_le | apply Z.ltb_lt]; lia).
  rewrite Nat2Z.id. reflexivity.
Qed.

Lemma normalize_axes_negative (n k : nat) (l : list nat) :
  k <= n -> (forall i, In i l -> i < k) ->
  normalize_axes n (map (fun i => (Z.of_nat i - Z.of_nat k)%Z) l)
  = Some (map (fun i => n - k + i) l).
Proof.
  intros Hk. induction l as [| i l IH]; intros H; [reflexivity |].
  cbn [map normalize_axes]. rewrite IH by (intros x Hx; apply H; right; exact Hx).
  unfold normalize_axis. pose proof (H i (or_introl eq_refl)) as Hi.
  replace ((0 <=? Z.of_nat i - Z.of_nat k)%Z && (Z.of_nat i - Z.of_nat k <? Z.of_nat n)%Z)
    with false
    by (symmetry; apply andb_false_intro1; apply Z.leb_gt; lia).
  replace ((- Z.of_nat n <=? Z.of_nat i - Z.of_nat k)%Z && (Z.of_nat i - Z.of_nat k <? 0)%Z)
    with true
    by (symmetry; apply andb_true_intro; split; [apply Z.leb_le | apply Z.ltb_lt]; lia).
  replace (Z.to_nat (Z.of_nat i - Z.of_nat k + Z.of_nat n)) with (n - k + i) by lia.
  reflexivity.
Qed.

Lemma map_add_seq (a k : nat) : map (fun i => a + i) (seq 0 k) = seq a k.
Proof.
  assert (H : forall b, map (fun i => a + i) (seq b k) = seq (a + b) k).
  { induction k as [| k IH]; intros b; [reflexivity |].
    cbn [seq map]. f_equal. rewrite IH. f_equal. lia. }
  rewrite H, Nat.add_0_r. reflexivity.
Qed.

End AxisNormalization.

Section MoveaxisQubits.
Context {Sc : Scalar}.

(** [np.moveaxis] on a qubit tensor, for sources and destinations that are
    in range and without repetition. *)
Lemma moveaxis_qubits (t : tensor) (n : nat) (source destination : list Z)
    (src dst : list nat) :
  shape t = repeat 2 n ->
  normalize_axes n source = Some src -> normalize_axes n destination = Some dst ->
  length src = length dst -> NoDup src -> NoDup dst ->
  (forall a, In a src -> a < n) -> (forall a, In a dst -> a < n) ->
  exists r,
    moveaxis t source destination = Some r
    /\ shape r = repeat 2 n
    /\ forall idx,
         data r idx
         = data t (map (fun p => nth (index_of p (moveaxis_order n src dst)) idx 0)
                       (seq 0 n)).
Proof.
  intros Hs Hsrc Hdst Hlen Hnds Hndd Hlts Hltd.
  unfold moveaxis, ndim. rewrite Hs, repeat_length, Hsrc, Hdst.
  rewrite Hlen, Nat.eqb_refl.
  rewrite (proj2 (nodupn_NoDup src) Hnds), (proj2 (nodupn_NoDup dst) Hndd).
  cbn [andb].
  apply (transpose_qubits t n (moveaxis_order n src dst) Hs).
  apply moveaxis_order_perm; assumption.
Qed.

End MoveaxisQubits.

(** ** The direct-axis contraction (C2) *)

Section DirectAxes.
Variable N : nat.
Variable ws : list nat.
Hypothesis ws_NoDup : NoDup ws.
Hypothesis ws_lt : forall w, In w ws -> w < N.

Let k := length ws.
Let cols := shifted N ws.

(** The axes [moveaxis] takes (the legs of the operators, first and last)
    and the places it moves them to. *)
Definition moved_from : list nat := seq 0 k ++ seq (2 * N - k) k.
Definition moved_to : list nat := ws ++ cols.
Definition final_order : list nat := moveaxis_order (2 * N) moved_from moved_to.

Lemma k_le_N : k <= N.
Proof.
  assert (Hle : length ws <= length (seq 0 N)).
  { apply NoDup_incl_length; [exact ws_NoDup |].
    intros a Ha. apply in_seq. pose proof (ws_lt a Ha). lia. }
  rewrite length_seq in Hle. exact Hle.
Qed.

Lemma cols_length : length cols = k.
Proof. apply shifted_length. Qed.

Lemma cols_range (p : nat) : In p cols -> N <= p < 2 * N.
Proof. apply (@shifted_ge N ws ws_lt). Qed.

Lemma cols_NoDup : NoDup cols.
Proof. apply shifted_NoDup, ws_NoDup. Qed.

Lemma moved_from_length : length moved_from = length moved_to.
Proof. unfold moved_from, moved_to. rewrite !length_app, !length_seq, cols_length. reflexivity. Qed.

Lemma moved_from_NoDup : NoDup moved_from.
Proof.
  pose proof k_le_N. unfold moved_from.
  apply NoDup_app; [apply seq_NoDup | apply seq_NoDup |].
  intros a Ha Hb. apply in_seq in Ha, Hb. lia.
Qed.

Lemma moved_to_NoDup : NoDup moved_to.
Proof.
  unfold moved_to. apply NoDup_app; [exact ws_NoDup | exact cols_NoDup |].
  intros a Ha Hb. pose proof (ws_lt a Ha). pose proof (cols_range a Hb). lia.
Qed.

Lemma moved_from_lt (a : nat) : In a moved_from -> a < 2 * N.
Proof.
  pose proof k_le_N. unfold moved_from. intros H0.
  apply in_app_or in H0 as [H0 | H0]; apply in_seq in H0; lia.
Qed.

Lemma moved_to_lt (a : nat) : In a moved_to -> a < 2 * N.
Proof.
  unfold moved_to. intros H0.
  apply in_app_or in H0 as [H0 | H0];
    [pose proof (ws_lt a H0) | pose proof (cols_range a H0)]; lia.
Qed.

Lemma filter_none {A : Type} (f : A -> bool) (l : list A) :
  (forall x, In x l -> f x = false) -> filter f l = [].
Proof.
  induction l as [| x l IH]; intros H; [reflexivity |]. cbn [filter].
  rewrite (H x (or_introl eq_refl)). apply IH. intros y Hy. apply H. right. exact Hy.
Qed.

Lemma filter_all {A : Type} (f : A -> bool) (l : list A) :
  (forall x, In x l -> f x = true) -> filter f l = l.
Proof.
  induction l as [| x l IH]; intros H; [reflexivity |]. cbn [filter].
  rewrite (H x (or_introl eq_refl)). f_equal. apply IH. intros y Hy. apply H. right. exact Hy.
Qed.

Lemma rest_axes : free_axes (2 * N) moved_from = seq k (2 * N - 2 * k).
Proof.
  pose proof k_le_N. unfold free_axes.
  replace (2 * N) with (k + ((2 * N - 2 * k) + k)) at 1 by lia.
  rewrite !seq_app, !filter_app. cbn [Nat.add].
  rewrite filter_none, filter_all, filter_none.
  - rewrite app_nil_r. reflexivity.
  - intros x Hx. apply in_seq in Hx. apply negb_false_iff, memn_In.
    unfold moved_from. apply in_or_app. right. apply in_seq. lia.
  - intros x Hx. apply in_seq in Hx. apply negb_true_iff, memn_false.
    unfold moved_from. intros Hin.
    apply in_app_or in Hin as [Hin | Hin]; apply in_seq in Hin; lia.
  - intros x Hx. apply in_seq in Hx. apply negb_false_iff, memn_In.
    unfold moved_from. apply in_or_app. left. apply in_seq. lia.
Qed.

Lemma final_order_length : length final_order = 2 * N.
Proof.
  apply moveaxis_order_length;
    [exact moved_from_length | exact moved_from_NoDup | exact moved_from_lt].
Qed.

Lemma final_order_perm : Permutation final_order (seq 0 (2 * N)).
Proof.
  apply moveaxis_order_perm; [exact moved_from_length | exact moved_from_NoDup | exact moved_from_lt].
Qed.

Lemma final_order_inv (t : nat) :
  t < 2 * N -> index_of (nth t final_order 0) final_order = t.
Proof.
  intros Ht. apply index_of_nth.
  - apply (Permutation_NoDup (Permutation_sym final_order_perm)), seq_NoDup.
  - rewrite final_order_length. exact Ht.
Qed.

Lemma nth_final_order (t : nat) :
  t < 2 * N ->
  nth t final_order 0
  = if memn t moved_to then nth (index_of t moved_to) moved_from 0
    else k + (t - count_below t moved_to).
Proof.
  intros Ht. unfold final_order.
  rewrite (nth_moveaxis_order (2 * N) moved_from moved_to moved_from_length
             moved_from_NoDup moved_to_NoDup moved_from_lt moved_to_lt t Ht).
  destruct (memn t moved_to) eqn:E; [reflexivity |].
  rewrite rest_axes. apply seq_nth.
  apply memn_false in E.
  pose proof (index_of_free (2 * N) t moved_to moved_to_NoDup Ht E) as Hi.
  assert (Hin : In t (free_axes (2 * N) moved_to)) by (apply in_free_axes; auto).
  pose proof (@index_of_lt t _ Hin) as Hlt.
  rewrite (free_axes_length (2 * N) moved_to moved_to_NoDup moved_to_lt) in Hlt.
  unfold moved_to in Hlt at 2. rewrite length_app, cols_length in Hlt. fold k in Hlt.
  lia.
Qed.

Lemma index_of_app_l (p : nat) (a b : list nat) :
  In p a -> index_of p (a ++ b) = index_of p a.
Proof.
  intros H. induction a as [| x a IH]; [contradiction |].
  cbn [app index_of]. destruct (p =? x) eqn:E; [reflexivity |].
  f_equal. apply IH. destruct H as [H | H]; [| exact H].
  apply Nat.eqb_neq in E. congruence.
Qed.

Lemma nth_map_seq {A : Type} (f : nat -> A) (n p : nat) (d : A) :
  p < n -> nth p (map f (seq 0 n)) d = f p.
Proof.
  intros Hp. rewrite (nth_indep _ d (f 0)) by (rewrite length_map, length_seq; exact Hp).
  rewrite map_nth, seq_nth by exact Hp. reflexivity.
Qed.

Lemma order_row (j : nat) : j < k -> nth (nth j ws 0) final_order 0 = j.
Proof.
  intros Hj. pose proof (nth_In ws 0 Hj) as Hin. pose proof (ws_lt _ Hin) as Hlt.
  rewrite nth_final_order by lia.
  assert (Hm : In (nth j ws 0) moved_to) by (apply in_or_app; left; exact Hin).
  rewrite (proj2 (memn_In _ _) Hm). unfold moved_to, moved_from.
  rewrite index_of_app_l by exact Hin. rewrite index_of_nth by assumption.
  rewrite app_nth1 by (rewrite length_seq; exact Hj). apply seq_nth, Hj.
Qed.

Lemma order_col (j : nat) : j < k -> nth (nth j cols 0) final_order 0 = 2 * N - k + j.
Proof.
  intros Hj.
  assert (Hin : In (nth j cols 0) cols) by (apply nth_In; rewrite cols_length; exact Hj).
  pose proof (cols_range _ Hin) as Hr.
  rewrite nth_final_order by lia.
  assert (Hm : In (nth j cols 0) moved_to) by (apply in_or_app; right; exact Hin).
  rewrite (proj2 (memn_In _ _) Hm). unfold moved_to, moved_from.
  rewrite index_of_app_r
    by (intros Hw; pose proof (ws_lt _ Hw); lia).
  rewrite index_of_nth by (first [ exact cols_NoDup | rewrite cols_length; exact Hj ]).
  fold k. rewrite app_nth2 by (rewrite length_seq; lia).
  rewrite length_seq. replace (k + j - k) with j by lia. apply seq_nth, Hj.
Qed.

Lemma order_other (p : nat) :
  p < 2 * N -> ~ In p ws -> ~ In p cols ->
  nth p final_order 0 = k + (p - count_below p ws - count_below p cols).
Proof.
  intros Hp H1 H2. rewrite nth_final_order by exact Hp.
  assert (Hm : ~ In p moved_to).
  { unfold moved_to. intros H. apply in_app_or in H as [H | H]; contradiction. }
  rewrite (proj2 (memn_false _ _) Hm). unfold moved_to.
  rewrite count_below_app. f_equal. lia.
Qed.

Lemma count_cols_low (p : nat) : p <= N -> count_below p cols = 0.
Proof.
  intros Hp. apply count_below_none. intros a Ha. pose proof (cols_range a Ha). lia.
Qed.

Lemma count_ws_high (p : nat) : N <= p -> count_below p ws = k.
Proof.
  intros Hp. apply count_below_all. intros a Ha. pose proof (ws_lt a Ha). lia.
Qed.

Lemma free_row_place (p : nat) :
  p < N -> ~ In p ws -> p - count_below p ws < N - k.
Proof.
  intros Hp Hn.
  pose proof (index_of_free N p ws ws_NoDup Hp Hn) as E1.
  pose proof (free_axes_length N ws ws_NoDup ws_lt) as E2.
  assert (Hin : In p (free_axes N ws)) by (apply in_free_axes; auto).
  pose proof (@index_of_lt p (free_axes N ws) Hin). unfold k. lia.
Qed.

Lemma free_place (p : nat) (axes : list nat) :
  NoDup axes -> (forall a, In a axes -> a < 2 * N) -> p < 2 * N -> ~ In p axes ->
  p - count_below p axes < 2 * N - length axes.
Proof.
  intros Hnd Hlt Hp Hn.
  pose proof (index_of_free (2 * N) p axes Hnd Hp Hn) as E1.
  pose proof (free_axes_length (2 * N) axes Hnd Hlt) as E2.
  assert (Hin : In p (free_axes (2 * N) axes)) by (apply in_free_axes; auto).
  pose proof (@index_of_lt p (free_axes (2 * N) axes) Hin). lia.
Qed.

Lemma count_cols_le (p : nat) : N <= p -> count_below p cols <= p - N.
Proof.
  intros Hp. unfold cols, shifted, count_below.
  assert (E : forall l, length (filter (fun a => a <? p) (map (fun w => w + N) l))
                        = count_below (p - N) l).
  { induction l as [| a l IH]; [reflexivity |]. unfold count_below in *.
    cbn [map filter].
    replace (a + N <? p) with (a <? p - N)
      by (destruct (a <? p - N) eqn:E1; destruct (a + N <? p) eqn:E2; try reflexivity;
          [apply Nat.ltb_lt in E1; apply Nat.ltb_ge in E2
          | apply Nat.ltb_ge in E1; apply Nat.ltb_lt in E2]; lia).
    destruct (a <? p - N); cbn [length]; rewrite IH; reflexivity. }
  rewrite E. apply count_below_le, ws_NoDup.
Qed.

Lemma nth_gather (idx l : list nat) (j : nat) :
  j < length l -> nth j (gather idx l) 0 = nth (nth j l 0) idx 0.
Proof.
  intros Hj. unfold gather.
  rewrite (nth_indep (map (fun w => nth w idx 0) l) 0 (nth 0 idx 0))
    by (rewrite length_map; exact Hj).
  rewrite (map_nth (fun w => nth w idx 0)). reflexivity.
Qed.

Section Transport.
Variables (idx s s2 : list nat).
Hypothesis idx_length : length idx = 2 * N.

(** The multi-index of the contracted tensor that [moveaxis] reads. *)
Definition moved_index : list nat :=
  map (fun p => nth (index_of p final_order) idx 0) (seq 0 (2 * N)).

(** The multi-index of the first contraction that the second one reads. *)
Definition contracted_index : list nat :=
  operand_index (2 * N) cols (free_axes (2 * N) cols) s2
                (firstn (2 * N - k) moved_index).

Lemma moved_at (t : nat) :
  t < 2 * N -> nth (nth t final_order 0) moved_index 0 = nth t idx 0.
Proof.
  intros Ht.
  assert (Hin : In (nth t final_order 0) (seq 0 (2 * N))).
  { apply (Permutation_in _ final_order_perm), nth_In.
    rewrite final_order_length. exact Ht. }
  apply in_seq in Hin. unfold moved_index.
  rewrite nth_map_seq by lia. rewrite final_order_inv by exact Ht. reflexivity.
Qed.

Lemma contracted_at (z : nat) :
  z < 2 * N ->
  nth z contracted_index 0
  = if memn z cols then nth (index_of z cols) s2 0
    else nth (z - count_below z cols) moved_index 0.
Proof.
  intros Hz. unfold contracted_index, operand_index. rewrite nth_map_seq by exact Hz.
  destruct (memn z cols) eqn:E; [reflexivity |]. apply memn_false in E.
  assert (Hc : forall a, In a cols -> a < 2 * N)
    by (intros a Ha; pose proof (cols_range a Ha); lia).
  rewrite (index_of_free (2 * N) z cols cols_NoDup Hz E).
  pose proof (free_place z cols cols_NoDup Hc Hz E) as Hlt. rewrite cols_length in Hlt.
  rewrite nth_firstn. rewrite (proj2 (Nat.ltb_lt _ _) Hlt). reflexivity.
Qed.

Lemma contracted_length : length contracted_index = 2 * N.
Proof. unfold contracted_index, operand_index. rewrite length_map, length_seq. reflexivity. Qed.

Lemma moved_length : length moved_index = 2 * N.
Proof. unfold moved_index. rewrite length_map, length_seq. reflexivity. Qed.

Lemma contracted_head : firstn k contracted_index = gather idx ws.
Proof.
  pose proof k_le_N as Hk.
  apply nth_ext with (d := 0) (d' := 0).
  - rewrite length_firstn, contracted_length. unfold gather. rewrite length_map. fold k. lia.
  - intros j Hj. rewrite length_firstn, contracted_length in Hj.
    assert (Hjk : j < k) by lia.
    rewrite nth_firstn. rewrite (proj2 (Nat.ltb_lt _ _) Hjk).
    rewrite contracted_at by lia.
    assert (Hn : ~ In j cols) by (intros H; pose proof (cols_range j H); lia).
    rewrite (proj2 (memn_false _ _) Hn), count_cols_low by lia. rewrite Nat.sub_0_r.
    rewrite <- (order_row j Hjk) at 1.
    rewrite moved_at by (pose proof (ws_lt _ (nth_In ws 0 Hjk)); lia).
    rewrite nth_gather by exact Hjk. reflexivity.
Qed.

Lemma moved_tail : skipn (2 * N - k) moved_index = gather idx cols.
Proof.
  pose proof k_le_N as Hk.
  apply nth_ext with (d := 0) (d' := 0).
  - rewrite length_skipn, moved_length. unfold gather. rewrite length_map, cols_length. lia.
  - intros j Hj. rewrite length_skipn, moved_length in Hj.
    assert (Hjk : j < k) by lia.
    rewrite nth_skipn. rewrite <- (order_col j Hjk).
    assert (Hin : In (nth j cols 0) cols) by (apply nth_In; rewrite cols_length; exact Hjk).
    rewrite moved_at by (pose proof (cols_range _ Hin); lia).
    rewrite nth_gather by (rewrite cols_length; exact Hjk). reflexivity.
Qed.

Lemma state_index :
  operand_index (2 * N) ws (free_axes (2 * N) ws) s (skipn k contracted_index)
  = updated_index N idx ws s s2.
Proof.
  pose proof k_le_N as Hk.
  unfold operand_index, updated_index. apply map_ext_in. intros p Hp. apply in_seq in Hp.
  destruct (memn p ws) eqn:Ew; [reflexivity |]. apply memn_false in Ew.
  assert (Hwl : forall a, In a ws -> a < 2 * N) by (intros a Ha; pose proof (ws_lt a Ha); lia).
  rewrite (index_of_free (2 * N) p ws ws_NoDup ltac:(lia) Ew).
  pose proof (free_place p ws ws_NoDup Hwl ltac:(lia) Ew) as Hfree. fold k in Hfree.
  rewrite nth_skipn. rewrite contracted_at by lia.
  fold cols. destruct (Nat.lt_ge_cases p N) as [Hlow | Hhigh].
  - pose proof (free_row_place p Hlow Ew) as Hrow.
    assert (Hn : ~ In p cols) by (intros H; pose proof (cols_range p H); lia).
    assert (Hz : ~ In (k + (p - count_below p ws)) cols)
      by (intros H; pose proof (cols_range _ H); lia).
    rewrite (proj2 (memn_false _ _) Hn), (proj2 (memn_false _ _) Hz).
    rewrite count_cols_low by lia. rewrite Nat.sub_0_r.
    rewrite <- (moved_at p ltac:(lia)). f_equal.
    rewrite (order_other p ltac:(lia) Ew Hn), (count_cols_low p) by lia. lia.
  - rewrite (count_ws_high p Hhigh). replace (k + (p - k)) with p by lia.
    destruct (memn p cols) eqn:Ec; [reflexivity |]. apply memn_false in Ec.
    pose proof (count_cols_le p Hhigh).
    rewrite <- (moved_at p ltac:(lia)). f_equal.
    rewrite (order_other p ltac:(lia) Ew Ec), (count_ws_high p Hhigh). lia.
Qed.

End Transport.

End DirectAxes.

Section DirectContraction.
Context {Sc : Scalar}.

Add Ring scalar_ring_direct : (@scalar_ring_theory Sc).

Variable N : nat.
Variable ws : list nat.
Variable state : tensor.
Hypothesis ws_NoDup : NoDup ws.
Hypothesis ws_lt : forall w, In w ws -> w < N.
Hypothesis state_shape : shape state = repeat 2 (2 * N).

Let k := length ws.
Let cols := shifted N ws.

(** A Kraus operator reshaped to [2k] legs. *)
Definition legs (K : tensor) : tensor :=
  mkTensor (repeat 2 (k * 2))
    (fun idx => data K (unravel (shape K) (ravel (repeat 2 (k * 2)) idx))).

Lemma reshape_legs (K : tensor) :
  shape K = [2 ^ k; 2 ^ k] -> reshape K (repeat 2 (k * 2)) = Some (legs K).
Proof.
  intros HK. unfold reshape, legs. rewrite HK, prod_shape_repeat2.
  replace (prod_shape [2 ^ k; 2 ^ k]) with (2 ^ (k * 2)).
  - rewrite Nat.eqb_refl. reflexivity.
  - unfold prod_shape. cbn [fold_right]. rewrite Nat.mul_1_r, (Nat.mul_comm k 2).
    symmetry. apply pow2_square.
Qed.

Lemma legs_entry (K : tensor) (a b : list nat) :
  shape K = [2 ^ k; 2 ^ k] ->
  valid_index (repeat 2 k) a -> valid_index (repeat 2 k) b ->
  data (legs K) (a ++ b) = data K [ravel (repeat 2 k) a; ravel (repeat 2 k) b].
Proof.
  intros HK Ha Hb. unfold legs. cbn [data]. rewrite HK, (Nat.mul_comm k 2).
  rewrite (unravel_square k a b Ha Hb). reflexivity.
Qed.

Lemma index_of_seq (a n p : nat) : a <= p < a + n -> index_of p (seq a n) = p - a.
Proof.
  revert a; induction n as [| n IH]; intros a Hp; [lia |].
  cbn [seq index_of]. destruct (p =? a) eqn:E.
  - apply Nat.eqb_eq in E. lia.
  - apply Nat.eqb_neq in E. rewrite IH by lia. lia.
Qed.

Lemma free_legs : free_axes (k * 2) (seq k k) = seq 0 k.
Proof.
  unfold free_axes. replace (k * 2) with (k + k) by lia.
  rewrite seq_app, filter_app. cbn [Nat.add].
  rewrite filter_all, filter_none.
  - apply app_nil_r.
  - intros x Hx. apply negb_false_iff, memn_In. exact Hx.
  - intros x Hx. apply in_seq in Hx. apply negb_true_iff, memn_false.
    intros Hin. apply in_seq in Hin. lia.
Qed.

Lemma map_seq_from (A : Type) (f : nat -> A) (a n : nat) :
  map f (seq a n) = map (fun i => f (a + i)) (seq 0 n).
Proof. rewrite <- (map_add_seq a n), map_map. reflexivity. Qed.

(** The multi-index of an operator in a contraction over its column legs:
    its row legs come from the kept coordinates. *)
Lemma legs_index (summed kept : list nat) :
  length summed = k -> length kept = k ->
  operand_index (k * 2) (seq k k) (free_axes (k * 2) (seq k k)) summed kept
  = kept ++ summed.
Proof.
  intros Hs Hk. rewrite free_legs. unfold operand_index.
  replace (k * 2) with (k + k) by lia. rewrite seq_app, map_app. cbn [Nat.add].
  f_equal.
  - transitivity (map (fun i => nth i kept 0) (seq 0 (length kept)));
      [| apply map_nth_range].
    rewrite Hk. apply map_ext_in. intros p Hp. apply in_seq in Hp.
    replace (memn p (seq k k)) with false
      by (symmetry; apply memn_false; intros Hin; apply in_seq in Hin; lia).
    rewrite index_of_seq by lia. rewrite Nat.sub_0_r. reflexivity.
  - transitivity (map (fun i => nth i summed 0) (seq 0 (length summed)));
      [| apply map_nth_range].
    rewrite Hs, map_seq_from. apply map_ext_in.
    intros p Hp. apply in_seq in Hp.
    replace (memn (k + p) (seq k k)) with true
      by (symmetry; apply memn_In, in_seq; lia).
    rewrite index_of_seq by lia. f_equal. lia.
Qed.

(** [_conjugate_state_with]: two contractions, first over the operator's
    column legs and the row wires, then over the column wires and the
    conjugate operator's column legs. *)
Definition conjugate_state_with (Kt : tensor) : option tensor :=
  obind (tensordot Kt state (seq k k) ws) (fun ks =>
  tensordot ks (conj Kt) cols (seq k k)).

Definition conjugated_entry (K : tensor) (y : list nat) : C :=
  sum_list (all_indices (repeat 2 k)) (fun s2 =>
    let x := operand_index (2 * N) cols (free_axes (2 * N) cols) s2
               (firstn (2 * N - k) y) in
    cmul (sum_list (all_indices (repeat 2 k)) (fun s =>
            cmul (data (legs K) (firstn k x ++ s))
                 (data state (operand_index (2 * N) ws (free_axes (2 * N) ws) s
                                (skipn k x)))))
         (cconj (data (legs K) (skipn (2 * N - k) y ++ s2)))).

Lemma summed_length (s : list nat) : In s (all_indices (repeat 2 k)) -> length s = k.
Proof.
  intros H. apply all_indices_valid, valid_index_length in H.
  rewrite repeat_length in H. exact H.
Qed.

Lemma conjugate_legs (K : tensor) :
  exists T, conjugate_state_with (legs K) = Some T /\
            shape T = repeat 2 (2 * N) /\
            forall y, length y = 2 * N -> data T y = conjugated_entry K y.
Proof.
  pose proof (k_le_N N ws ws_NoDup ws_lt) as Hk. fold k in Hk.
  assert (Hseq : forall p, In p (seq k k) -> p < k * 2).
  { intros p Hp. apply in_seq in Hp. lia. }
  assert (Hws : forall p, In p ws -> p < 2 * N).
  { intros p Hp. apply ws_lt in Hp. lia. }
  assert (Hcols : forall p, In p cols -> p < 2 * N).
  { intros p Hp. apply (cols_range N ws ws_lt) in Hp. lia. }
  assert (Hlen : length cols = k) by apply shifted_length.
  destruct (@tensordot_qubits Sc (legs K) state (k * 2) (2 * N) (seq k k) ws)
    as (T1 & E1 & S1 & D1);
    [reflexivity | exact state_shape | apply length_seq | apply seq_NoDup
    | exact ws_NoDup | exact Hseq | exact Hws |].
  rewrite length_seq in S1, D1. fold k in S1.
  replace (k * 2 - k + (2 * N - k)) with (2 * N) in S1 by lia.
  replace (k * 2 - k) with k in D1 by lia.
  destruct (@tensordot_qubits Sc T1 (conj (legs K)) (2 * N) (k * 2) cols (seq k k))
    as (T2 & E2 & S2 & D2);
    [exact S1 | reflexivity | rewrite length_seq; exact Hlen
    | apply (cols_NoDup N ws ws_NoDup) | apply seq_NoDup | exact Hcols
    | exact Hseq |].
  rewrite Hlen in S2, D2. rewrite length_seq in S2.
  replace (2 * N - k + (k * 2 - k)) with (2 * N) in S2 by lia.
  exists T2. split; [| split].
  - unfold conjugate_state_with. rewrite E1. cbn [obind]. exact E2.
  - exact S2.
  - intros y Hy. rewrite D2. unfold conjugated_entry. apply sum_list_ext.
    intros s2 Hs2. cbv zeta. f_equal.
    + rewrite D1. apply sum_list_ext. intros s Hs. f_equal. f_equal.
      apply legs_index; [apply summed_length; exact Hs |].
      rewrite length_firstn. unfold operand_index.
      rewrite length_map, length_seq. lia.
    + cbn [conj data]. f_equal. f_equal.
      apply legs_index; [apply summed_length; exact Hs2 |].
      rewrite length_skipn. lia.
Qed.

(** The entry of one conjugated operator, read where the final
    [moveaxis] takes it from, is the operator's term of the channel. *)
Lemma conjugated_moved (K : tensor) (idx : list nat) :
  shape K = [2 ^ k; 2 ^ k] ->
  valid_index (repeat 2 (2 * N)) idx ->
  conjugated_entry K (moved_index N ws idx)
  = sum_list (all_indices (repeat 2 k)) (fun r =>
    sum_list (all_indices (repeat 2 k)) (fun c =>
      cmul (cmul (data K [ravel (repeat 2 k) (gather idx ws); ravel (repeat 2 k) r])
                 (data state (updated_index N idx ws r c)))
           (cconj (data K [ravel (repeat 2 k) (gather idx cols);
                           ravel (repeat 2 k) c])))).
Proof.
  intros HK Hidx.
  assert (Hlen : length idx = 2 * N).
  { apply valid_index_length in Hidx. rewrite repeat_length in Hidx. exact Hidx. }
  assert (Hrow : valid_index (repeat 2 k) (gather idx ws)).
  { apply (gather_valid (2 * N)); [exact Hidx |].
    intros w Hw. apply ws_lt in Hw. lia. }
  assert (Hcol : valid_index (repeat 2 k) (gather idx cols)).
  { replace k with (length cols) by apply shifted_length.
    apply (gather_valid (2 * N)); [exact Hidx |].
    intros w Hw. apply (cols_range N ws ws_lt) in Hw. lia. }
  unfold conjugated_entry. cbv zeta.
  transitivity
    (sum_list (all_indices (repeat 2 k)) (fun c =>
     sum_list (all_indices (repeat 2 k)) (fun r =>
      cmul (cmul (data K [ravel (repeat 2 k) (gather idx ws); ravel (repeat 2 k) r])
                 (data state (updated_index N idx ws r c)))
           (cconj (data K [ravel (repeat 2 k) (gather idx cols);
                           ravel (repeat 2 k) c])))));
    [apply sum_list_ext | apply sum_list_swap].
  intros c Hc. rewrite sum_list_mul_r. apply sum_list_ext. intros r' Hr'.
    change (operand_index (2 * N) cols (free_axes (2 * N) cols) c
              (firstn (2 * N - k) (moved_index N ws idx)))
      with (contracted_index N ws idx c).
    pose proof (contracted_head N ws ws_NoDup ws_lt idx c Hlen) as Hh.
    pose proof (state_index N ws ws_NoDup ws_lt idx r' c Hlen) as Hs.
    pose proof (moved_tail N ws ws_NoDup ws_lt idx Hlen) as Ht.
    fold k in Hh, Hs, Ht. fold cols in Ht. rewrite Hh, Hs, Ht.
    rewrite (legs_entry K _ _ HK Hrow (all_indices_valid _ _ Hr')).
    rewrite (legs_entry K _ _ HK Hcol (all_indices_valid _ _ Hc)).
    reflexivity.
Qed.

Lemma reshape_all_legs (ks : list tensor) :
  (forall K, In K ks -> shape K = [2 ^ k; 2 ^ k]) ->
  reshape_all ks (repeat 2 (k * 2)) = Some (map legs ks).
Proof.
  induction ks as [| K ks IH]; intros H; [reflexivity |].
  unfold reshape_all. cbn [fold_right]. fold (reshape_all ks (repeat 2 (k * 2))).
  rewrite (reshape_legs K (H K (or_introl eq_refl))). cbn [obind].
  rewrite IH by (intros K' HK'; apply H; right; exact HK'). reflexivity.
Qed.

Definition conjugated (K T : tensor) : Prop :=
  shape T = repeat 2 (2 * N) /\
  forall y, length y = 2 * N -> data T y = conjugated_entry K y.

Lemma conjugate_all_legs (ks : list tensor) :
  exists Ts, conjugate_all conjugate_state_with (map legs ks) = Some Ts /\
             Forall2 conjugated ks Ts.
Proof.
  induction ks as [| K ks (Ts & E & F)].
  - exists []. split; [reflexivity | constructor].
  - destruct (conjugate_legs K) as (T & ET & ST & DT).
    exists (T :: Ts). split.
    + cbn [map conjugate_all]. rewrite ET. cbn [obind]. rewrite E. reflexivity.
    + constructor; [split; assumption | exact F].
Qed.

Lemma sum_conjugated (ks Ts : list tensor) (y : list nat) :
  Forall2 conjugated ks Ts -> length y = 2 * N ->
  sum_list Ts (fun T => data T y) = sum_list ks (fun K => conjugated_entry K y).
Proof.
  intros F Hy. induction F as [| K T ks Ts [_ D] _ IH]; [reflexivity |].
  unfold sum_list in *. cbn [fold_right]. rewrite IH, (D y Hy). reflexivity.
Qed.

(** The sum over the Kraus operators: one operator is used as it is, several
    are stacked and summed along the new axis. *)
Definition conjugate_and_sum (kraus : list tensor) : option tensor :=
  match kraus with
  | [K] => conjugate_state_with K
  | _ => obind (conjugate_all conjugate_state_with kraus) (fun ts =>
         obind (stack ts) (fun st => Some (sum_axis0 st)))
  end.

Lemma conjugate_and_sum_legs (K0 : tensor) (Ks : list tensor) :
  exists S, conjugate_and_sum (map legs (K0 :: Ks)) = Some S /\
            shape S = repeat 2 (2 * N) /\
            forall y, length y = 2 * N ->
              data S y = sum_list (K0 :: Ks) (fun K => conjugated_entry K y).
Proof.
  destruct Ks as [| K1 Ks].
  - destruct (conjugate_legs K0) as (T & ET & ST & DT).
    exists T. split; [exact ET | split; [exact ST |]].
    intros y Hy. rewrite (DT y Hy). unfold sum_list. cbn [fold_right]. ring.
  - destruct (conjugate_all_legs (K0 :: K1 :: Ks)) as (Ts & E & F).
    destruct Ts as [| T0 Ts]; [inversion F |].
    assert (Hshape : forall u, In u (T0 :: Ts) -> shape u = repeat 2 (2 * N)).
    { clear E. revert F. generalize (K0 :: K1 :: Ks) (T0 :: Ts).
      intros l l' F. induction F as [| K T ks ts [S _] _ IH]; intros u Hu.
      - destruct Hu.
      - destruct Hu as [Hu | Hu]; [subst; exact S | apply IH; exact Hu]. }
    exists (sum_axis0 (mkTensor (length (T0 :: Ts) :: repeat 2 (2 * N))
              (fun idx => match idx with
                          | [] => c0
                          | i :: idx' => data (nth i (T0 :: Ts) T0) idx'
                          end))).
    split; [| split].
    + unfold conjugate_and_sum. cbn [map]. cbn [map] in E. rewrite E. cbn [obind].
      rewrite (stack_some Hshape). reflexivity.
    + reflexivity.
    + intros y Hy. unfold sum_axis0. cbn [data shape hd].
      rewrite (sum_range_nth (T0 :: Ts) T0 (fun T => data T y)).
      apply sum_conjugated; assumption.
Qed.

Lemma tensordot_method_unfold (kraus : list tensor) :
  apply_channel_tensordot N kraus ws state
  = obind (reshape_all kraus (repeat 2 (k * 2))) (fun kraus' =>
    obind (conjugate_and_sum kraus') (fun _state =>
    moveaxis _state
      (map Z.of_nat (seq 0 k)
       ++ map (fun i => (Z.of_nat i - Z.of_nat k)%Z) (seq 0 k))
      (map Z.of_nat ws ++ map Z.of_nat cols))).
Proof. reflexivity. Qed.

(** Every entry of the array [_apply_channel_tensordot] computes is the
    Kraus sum of the channel. *)
Theorem apply_channel_tensordot_entries (K0 : tensor) (Ks : list tensor) :
  (forall K, In K (K0 :: Ks) -> shape K = [2 ^ k; 2 ^ k]) ->
  exists t, apply_channel_tensordot N (K0 :: Ks) ws state = Some t /\
            shape t = repeat 2 (2 * N) /\
            forall idx, valid_index (repeat 2 (2 * N)) idx ->
              data t idx = kraus_conjugation (K0 :: Ks) state N ws idx.
Proof.
  intros HK.
  pose proof (k_le_N N ws ws_NoDup ws_lt) as Hk. fold k in Hk.
  destruct (conjugate_and_sum_legs K0 Ks) as (S & ES & SS & DS).
  destruct (@moveaxis_qubits Sc S (2 * N)
              (map Z.of_nat (seq 0 k)
               ++ map (fun i => (Z.of_nat i - Z.of_nat k)%Z) (seq 0 k))
              (map Z.of_nat ws ++ map Z.of_nat cols)
              (moved_from N ws) (moved_to N ws))
    as (R & ER & SR & DR).
  - exact SS.
  - unfold moved_from. fold k. apply normalize_axes_app.
    + apply normalize_axes_nonneg. intros p Hp. apply in_seq in Hp. lia.
    + rewrite <- (map_add_seq (2 * N - k) k).
      apply normalize_axes_negative; [lia |].
      intros i Hi. apply in_seq in Hi. lia.
  - unfold moved_to. fold cols. apply normalize_axes_app.
    + apply normalize_axes_nonneg. intros p Hp. apply ws_lt in Hp. lia.
    + apply normalize_axes_nonneg. intros p Hp.
      apply (cols_range N ws ws_lt) in Hp. lia.
  - apply moved_from_length.
  - apply (moved_from_NoDup N ws ws_NoDup ws_lt).
  - apply (moved_to_NoDup N ws ws_NoDup ws_lt).
  - apply (moved_from_lt N ws ws_NoDup ws_lt).
  - apply (moved_to_lt N ws ws_lt).
  - exists R. split; [| split].
    + rewrite tensordot_method_unfold, (reshape_all_legs _ HK). cbn [obind].
      rewrite ES. cbn [obind]. exact ER.
    + exact SR.
    + intros idx Hidx. rewrite DR.
      change (map (fun p => nth (index_of p (moveaxis_order (2 * N)
                (moved_from N ws) (moved_to N ws))) idx 0) (seq 0 (2 * N)))
        with (moved_index N ws idx).
      rewrite DS by apply moved_length.
      unfold kraus_conjugation. cbv zeta. fold k. apply sum_list_ext.
      intros K HKin. apply conjugated_moved; [apply HK; exact HKin | exact Hidx].
Qed.

End DirectContraction.

(** ** The two contraction strategies *)

Section Strategies.
Context {Sc : Scalar}.

Lemma tensordot_method_run (kraus : list tensor) (ws : Wires) (d : device)
    (device_wires : list nat) (state t : tensor) :
  map_labels (wires d) ws = Some device_wires ->
  _state d = Some state ->
  apply_channel_tensordot (num_wires d) kraus device_wires state = Some t ->
  _apply_channel_tensordot kraus ws d = (inr tt, set_state (Some t) d).
Proof.
  intros Hmap Hs Ht. unfold _apply_channel_tensordot.
  rewrite (bind_ok _ _ (map_wires_run _ _ Hmap)), (bind_ok _ _ (get_run d)).
  rewrite (bind_ok _ _ (current_state_run _ Hs)), Ht. reflexivity.
Qed.

Lemma einsum_method_run (kraus : list tensor) (ws : Wires) (d : device)
    (device_wires : list nat) (state t : tensor) :
  map_labels (wires d) ws = Some device_wires ->
  _state d = Some state ->
  apply_channel_einsum (num_wires d) kraus device_wires state = Some t ->
  _apply_channel kraus ws d = (inr tt, set_state (Some t) d).
Proof.
  intros Hmap Hs Ht. unfold _apply_channel.
  rewrite (bind_ok _ _ (map_wires_run _ _ Hmap)), (bind_ok _ _ (get_run d)).
  rewrite (bind_ok _ _ (current_state_run _ Hs)), Ht. reflexivity.
Qed.

(** The dispatcher runs one of the two strategies on a gate that is
    neither the identity nor diagonal. *)
Lemma dispatcher_choice (g : gate) (d : device) :
  String.eqb (g_name g) "Identity" = false ->
  (forall e, g_kind g <> Diagonal e) ->
  _apply_gate g d = _apply_channel (_get_kraus (g_kind g)) (g_wires g) d
  \/ _apply_gate g d = _apply_channel_tensordot (_get_kraus (g_kind g)) (g_wires g) d.
Proof.
  intros Hname Hkind. unfold _apply_gate. rewrite Hname.
  destruct (g_kind g) as [e | ks | m] eqn:E.
  - exfalso. apply (Hkind e). reflexivity.
  - rewrite (bind_ok _ _ (get_run d)).
    destruct ((2 <? length (g_wires g))
              && match dev_interface d with Autograd | Numpy => true | _ => false end
              || (7 <? length (g_wires g))); [right | left]; reflexivity.
  - rewrite (bind_ok _ _ (get_run d)).
    destruct ((2 <? length (g_wires g))
              && match dev_interface d with Autograd | Numpy => true | _ => false end
              || (7 <? length (g_wires g))); [right | left]; reflexivity.
Qed.

(** The part of C2 that holds: when the subscripts of the labelled
    contraction fit the 52 letters, the labelled (einsum) strategy and the
    direct-axis (tensordot) strategy return the same array, entry by entry,
    and the dispatcher, whichever of the two it selects, stores that
    array. *)
Theorem contraction_strategies_agree (g : gate) (d : device)
    (device_wires : list nat) (state : tensor) :
  2 * num_wires d + 2 * length (g_wires g) + 1 <= 52 ->
  NoDup (g_wires g) ->
  map_labels (wires d) (g_wires g) = Some device_wires ->
  _state d = Some state ->
  shape state = repeat 2 (2 * num_wires d) ->
  _get_kraus (g_kind g) <> [] ->
  (forall K, In K (_get_kraus (g_kind g)) ->
     shape K = [2 ^ length (g_wires g); 2 ^ length (g_wires g)]) ->
  String.eqb (g_name g) "Identity" = false ->
  (forall e, g_kind g <> Diagonal e) ->
  exists t1 t2,
    apply_channel_einsum (num_wires d) (_get_kraus (g_kind g)) device_wires state
      = Some t1
    /\ apply_channel_tensordot (num_wires d) (_get_kraus (g_kind g)) device_wires state
      = Some t2
    /\ tensor_eq t1 t2
    /\ _apply_channel (_get_kraus (g_kind g)) (g_wires g) d
       = (inr tt, set_state (Some t1) d)
    /\ _apply_channel_tensordot (_get_kraus (g_kind g)) (g_wires g) d
       = (inr tt, set_state (Some t2) d)
    /\ (_apply_gate g d = (inr tt, set_state (Some t1) d)
        \/ _apply_gate g d = (inr tt, set_state (Some t2) d)).
Proof.
  intros Hfit Hnd Hmap Hs Hshape Hne Hk Hname Hkind.
  pose proof (dispatcher_choice g d Hname Hkind) as Hchoice.
  destruct (_get_kraus (g_kind g)) as [| K0 Ks]; [contradiction |].
  destruct (map_labels_spec _ _ Hmap) as [Hlen _]. rewrite <- Hlen in Hfit, Hk.
  pose proof (@map_labels_NoDup (wires d) (g_wires g) device_wires Hmap Hnd) as Hnd'.
  pose proof (@map_labels_lt (wires d) (g_wires g) device_wires Hmap) as Hlt.
  destruct (apply_channel_einsum_entries (num_wires d) device_wires K0 Ks state
              Hnd' Hlt Hfit Hk Hshape) as (t1 & E1 & S1 & D1).
  destruct (apply_channel_tensordot_entries (num_wires d) device_wires state
              Hnd' Hlt Hshape K0 Ks Hk) as (t2 & E2 & S2 & D2).
  pose proof (einsum_method_run _ _ _ _ _ _ Hmap Hs E1) as R1.
  pose proof (tensordot_method_run _ _ _ _ _ _ Hmap Hs E2) as R2.
  exists t1, t2. repeat split; try assumption.
  - congruence.
  - intros idx Hidx. rewrite S1 in Hidx. rewrite (D1 idx Hidx), (D2 idx Hidx).
    reflexivity.
  - destruct Hchoice as [H | H]; [left | right]; rewrite H; assumption.
Qed.

End Strategies.

Lemma contraction_strategies_agree_witness :
  exists t1 t2,
    apply_channel_einsum 1 [PauliX_matrix] [0] plus_state = Some t1
    /\ apply_channel_tensordot 1 [PauliX_matrix] [0] plus_state = Some t2
    /\ tensor_eq t1 t2
    /\ _apply_channel [PauliX_matrix] [LInt 0] plus_device
       = (inr tt, set_state (Some t1) plus_device)
    /\ _apply_channel_tensordot [PauliX_matrix] [LInt 0] plus_device
       = (inr tt, set_state (Some t2) plus_device)
    /\ (_apply_gate (mkGate "PauliX" (Unitary PauliX_matrix) [LInt 0]) plus_device
          = (inr tt, set_state (Some t1) plus_device)
        \/ _apply_gate (mkGate "PauliX" (Unitary PauliX_matrix) [LInt 0]) plus_device
          = (inr tt, set_state (Some t2) plus_device)).
Proof.
  apply (@contraction_strategies_agree GaussScalar
           (mkGate "PauliX" (Unitary PauliX_matrix) [LInt 0]) plus_device [0]
           plus_state); try reflexivity.
  - cbn. lia.
  - repeat constructor. intros [].
  - discriminate.
  - intros K [<- | []]. reflexivity.
  - discriminate.
Defined.
(** The 23-wire device of above on the numpy interface, and the identity
    on its first three wires as a [QubitUnitary]. *)
Definition device23_numpy : @device GaussScalar :=
  mkDevice (map (fun i => LInt (Z.of_nat i)) (seq 0 23)) Numpy None
           (Some (basis_projector 23 0)) (Some (basis_projector 23 0)) [] None.

Definition identity_on_three : @gate GaussScalar :=
  mkGate "QubitUnitary" (Unitary (identity_matrix 8)) wires_0_1_2.

Lemma tensordot_on_23_wires :
  exists t, apply_channel_tensordot 23 [@identity_matrix GaussScalar 8] [0; 1; 2]
              (basis_projector 23 0) = Some t.
Proof.
  destruct (@apply_channel_tensordot_entries GaussScalar 23 [0; 1; 2]
              (basis_projector 23 0)) with (K0 := @identity_matrix GaussScalar 8)
              (Ks := @nil (@tensor GaussScalar)) as (t & Ht & _).
  - repeat constructor; cbn; intuition lia.
  - intros w Hw. cbn in Hw. lia.
  - reflexivity.
  - intros K [<- | []]. reflexivity.
  - exists t. exact Ht.
Qed.

(** C2 at its failing input: on 23 wires, for an operator on three wires,
    the rule of line 792 selects the labelled contraction on the torch
    interface and the direct-axis contraction on the numpy interface.
    With the same operator, wires and state the first raises, for want of
    a 53rd letter, and the second returns an array: the gate fails on the
    one interface and succeeds on the other. *)
Theorem strategy_choice_changes_result :
  wires device23_numpy = wires device23
  /\ _state device23_numpy = _state device23
  /\ apply_channel_einsum 23 (_get_kraus (g_kind identity_on_three)) [0; 1; 2]
       (basis_projector 23 0) = None
  /\ (exists t, apply_channel_tensordot 23 (_get_kraus (g_kind identity_on_three))
                  [0; 1; 2] (basis_projector 23 0) = Some t)
  /\ _apply_gate identity_on_three device23 = (inl ArrayError, device23)
  /\ exists t, _apply_gate identity_on_three device23_numpy
               = (inr tt, set_state (Some t) device23_numpy).
Proof.
  assert (Hmap : map_labels (wires device23) wires_0_1_2 = Some [0; 1; 2])
    by reflexivity.
  split; [reflexivity |]. split; [reflexivity |].
  split; [exact einsum_out_of_letters |].
  split; [exact tensordot_on_23_wires |]. split.
  - change (_apply_channel [identity_matrix 8] wires_0_1_2 device23
            = (inl ArrayError, device23)).
    unfold _apply_channel.
    rewrite (bind_ok _ _ (map_wires_run _ _ Hmap)), (bind_ok _ _ (get_run device23)).
    rewrite (bind_ok _ _ (current_state_run device23 eq_refl)).
    change (num_wires device23) with 23.
    rewrite einsum_out_of_letters. reflexivity.
  - destruct tensordot_on_23_wires as (t & Ht). exists t.
    change (_apply_channel_tensordot [identity_matrix 8] wires_0_1_2 device23_numpy
            = (inr tt, set_state (Some t) device23_numpy)).
    apply (@tensordot_method_run GaussScalar _ _ _ [0; 1; 2] (basis_projector 23 0));
      [exact Hmap | reflexivity | exact Ht].
Qed.

(** * Further properties of the device *)

(** ** Basis states *)

Section BasisStateFacts.
Context {Sc : Scalar}.

Add Ring scalar_ring_basis : (@scalar_ring_theory Sc).

Lemma sum_list_unselected (A : Type) (sel : A -> bool) (l : list A) (F : A -> C) :
  (forall x, In x l -> sel x = false) ->
  sum_list l (fun x => if sel x then F x else c0) = c0.
Proof.
  unfold sum_list. induction l as [| a l IH]; intros H; [reflexivity |].
  cbn [fold_right]. rewrite (H a (or_introl eq_refl)), IH; [ring |].
  intros x Hx. apply H. right. exact Hx.
Qed.

(** A sum that selects one element of a list without repetition. *)
Lemma sum_list_select (A : Type) (sel : A -> bool) (l : list A) (k : A) (F : A -> C) :
  NoDup l -> In k l ->
  (forall x, In x l -> (sel x = true <-> x = k)) ->
  sum_list l (fun x => if sel x then F x else c0) = F k.
Proof.
  induction l as [| a l IH]; intros Hnd Hin Hsel; [contradiction |].
  inversion Hnd as [| ? ? Ha Hl]; subst.
  change (cadd (if sel a then F a else c0)
               (sum_list l (fun x => if sel x then F x else c0)) = F k).
  destruct Hin as [-> | Hin].
  - rewrite (proj2 (Hsel k (or_introl eq_refl)) eq_refl).
    rewrite sum_list_unselected; [ring |].
    intros x Hx. destruct (sel x) eqn:Ex; [| reflexivity].
    exfalso. apply Ha. apply (Hsel x (or_intror Hx)) in Ex. subst x. exact Hx.
  - destruct (sel a) eqn:Ea.
    + exfalso. apply Ha. apply (Hsel a (or_introl eq_refl)) in Ea. subst a. exact Hin.
    + rewrite IH; [ring | exact Hl | exact Hin |].
      intros x Hx. apply Hsel. right. exact Hx.
Qed.

Lemma unravel_matrix_entry (N i j : nat) :
  i < 2 ^ N -> j < 2 ^ N ->
  unravel [2 ^ N; 2 ^ N]
    (ravel (repeat 2 (2 * N)) (unravel (repeat 2 (2 * N)) (ravel [2 ^ N; 2 ^ N] [i; j])))
  = [i; j].
Proof.
  intros Hi Hj.
  assert (Hlt : ravel [2 ^ N; 2 ^ N] [i; j] < prod_shape (repeat 2 (2 * N))).
  { rewrite prod_shape_repeat2, <- pow2_square. cbn [ravel prod_shape fold_right]. nia. }
  rewrite ravel_unravel by exact Hlt. apply unravel_ravel. cbn. lia.
Qed.

(** X1: [_create_basis_state(index)] raises exactly when [index] is not
    below [2^N]; otherwise it returns an array of shape [[2] * 2N] whose
    matrix form has the single entry 1 at row and column [index], and so
    has trace 1. *)
Theorem create_basis_state_unit_trace (N index : nat) :
  (2 ^ N <= index -> create_basis_state N index = None)
  /\ (index < 2 ^ N ->
      exists t m,
        create_basis_state N index = Some t
        /\ shape t = repeat 2 (2 * N)
        /\ reshape t [2 ^ N; 2 ^ N] = Some m
        /\ (forall i j, i < 2 ^ N -> j < 2 ^ N ->
              data m [i; j] = if (i =? index) && (j =? index) then c1 else c0)
        /\ trace m = c1).
Proof.
  split.
  - intros H. unfold create_basis_state. apply Nat.ltb_ge in H. rewrite H. reflexivity.
  - intros H. rewrite create_basis_state_eq by exact H.
    eexists. eexists. split; [reflexivity |]. split; [reflexivity |].
    split; [apply reshape_tensor_to_square; reflexivity |].
    assert (Hentry : forall i j, i < 2 ^ N -> j < 2 ^ N ->
      (let rc := unravel [2 ^ N; 2 ^ N]
                   (ravel (repeat 2 (2 * N))
                      (unravel (repeat 2 (2 * N)) (ravel [2 ^ N; 2 ^ N] [i; j]))) in
       if (nth 0 rc 0 =? index) && (nth 1 rc 0 =? index) then c1 else c0)
      = if (i =? index) && (j =? index) then c1 else c0).
    { intros i j Hi Hj. cbv zeta. rewrite (unravel_matrix_entry N i j Hi Hj).
      reflexivity. }
    split.
    + intros i j Hi Hj. cbn [data]. apply (Hentry i j Hi Hj).
    + unfold trace. cbn [shape data nth]. rewrite Nat.min_id. unfold sum_range.
      transitivity (sum_list (seq 0 (2 ^ N)) (fun i => if i =? index then c1 else c0)).
      * apply sum_list_ext. intros i Hi. apply in_seq in Hi.
        etransitivity; [apply (Hentry i i); lia |].
        destruct (i =? index); reflexivity.
      * apply (sum_list_select nat (fun i => i =? index) (seq 0 (2 ^ N)) index
                 (fun _ => c1)).
        -- apply seq_NoDup.
        -- apply in_seq. lia.
        -- intros x _. apply Nat.eqb_eq.
Qed.

(** The number of the basis state that [_apply_basis_state] prepares
    depends on which bit goes to which wire, not on the order in which the
    pairs are listed. *)
Theorem basis_number_order_independent (N : nat) (bitvals bitvals' : list Z)
    (ws ws' : list nat) :
  Permutation (combine bitvals ws) (combine bitvals' ws') ->
  basis_number N bitvals ws = basis_number N bitvals' ws'.
Proof.
  intros HP. unfold basis_number.
  generalize (Permutation_map (fun p : Z * nat => Z.to_nat (fst p) * 2 ^ (N - 1 - snd p)) HP).
  generalize (map (fun p : Z * nat => Z.to_nat (fst p) * 2 ^ (N - 1 - snd p))
                (combine bitvals ws)).
  generalize (map (fun p : Z * nat => Z.to_nat (fst p) * 2 ^ (N - 1 - snd p))
                (combine bitvals' ws')).
  intros l' l HPl. induction HPl; cbn [fold_right]; lia.
Qed.

End BasisStateFacts.

Lemma basis_number_order_independent_witness :
  basis_number 3 [1; 0]%Z [0; 2] = basis_number 3 [0; 1]%Z [2; 0].
Proof.
  apply (basis_number_order_independent 3 [1; 0]%Z [0; 1]%Z [0; 2] [2; 0]).
  cbn [combine]. apply perm_swap.
Defined.

(** ** Construction and reset *)

Section ConstructionFacts.
Context {Sc : Scalar}.

Lemma create_basis_state_zero (N : nat) :
  exists t, create_basis_state N 0 = Some t /\ tensor_eq t (basis_projector N 0).
Proof. apply create_basis_state_projector, pow2_pos. Qed.

Lemma create_basis_state_run (index : nat) (d : device) (t : tensor) :
  create_basis_state (num_wires d) index = Some t ->
  _create_basis_state index d = (inr t, d).
Proof.
  intros H. unfold _create_basis_state. rewrite (bind_ok _ _ (get_run d)), H.
  reflexivity.
Qed.

(** X3: a device that [DefaultMixed.__init__] returns holds the given
    interface and readout probability, no measured wires and no debugger;
    its state and its pre-rotated state are the same array, the projector
    on |0...0>, and [reset] leaves such a device as it is. *)
Theorem DefaultMixed_init_postcondition (w : wires_arg) (r : option pyval)
    (i : interface) (d : device) :
  DefaultMixed_init w r i = inr d ->
  make_wires w = Some (wires d)
  /\ dev_interface d = i /\ readout_err d = r
  /\ measured_wires d = [] /\ _debugger d = None
  /\ _pre_rotated_state d = _state d
  /\ (exists t, _state d = Some t /\ tensor_eq t (basis_projector (num_wires d) 0))
  /\ reset d = (inr tt, d).
Proof.
  unfold DefaultMixed_init. intros H.
  destruct (too_many_wires w); [discriminate |].
  destruct (check_readout r); [discriminate |].
  destruct (make_wires w) as [ws |]; [| discriminate].
  destruct (create_basis_state_zero (length ws)) as (t & Ht & Heq).
  rewrite Ht in H. injection H as <-. cbn [wires dev_interface readout_err
    measured_wires _debugger _pre_rotated_state _state].
  repeat split; try reflexivity.
  - exists t. split; [reflexivity | exact Heq].
  - unfold reset. erewrite bind_ok by (apply create_basis_state_run; exact Ht).
    reflexivity.
Qed.

(** X4: [reset] never fails; it replaces the state and the pre-rotated
    state by the projector on |0...0> and changes nothing else of the
    device: the measured wires and the debugger with its snapshots stay. *)
Theorem reset_spec (d : device) :
  exists t,
    reset d = (inr tt, mkDevice (wires d) (dev_interface d) (readout_err d)
                         (Some t) (Some t) (measured_wires d) (_debugger d))
    /\ create_basis_state (num_wires d) 0 = Some t
    /\ tensor_eq t (basis_projector (num_wires d) 0).
Proof.
  destruct (create_basis_state_zero (num_wires d)) as (t & Ht & Heq).
  exists t. split; [| split; assumption].
  unfold reset. rewrite (bind_ok _ _ (create_basis_state_run 0 d t Ht)).
  reflexivity.
Qed.

End ConstructionFacts.

(** X5: a readout probability is accepted exactly when it is the integer 0
    or 1, a finite floating-point number in the closed interval [0,1], both
    ends allowed, or the float [nan], on which both comparisons of the
    range test are false; the infinities and values of other types are
    rejected. *)
Theorem readout_prob_accepted_iff (v : pyval) :
  check_readout (Some v) = None
  <-> match v with
      | PyInt z => z = 0%Z \/ z = 1%Z
      | PyFloat q => QArith_base.Qle (QArith_base.Qmake 0 1) q
                     /\ QArith_base.Qle q (QArith_base.Qmake 1 1)
      | PyNaN => True
      | PyInf _ => False
      | PyOther _ => False
      end.
Proof.
  unfold check_readout.
  destruct v as [z | q | n | | b]; cbn [is_number negb outside_unit].
  - destruct ((z <? 0)%Z || (1 <? z)%Z) eqn:E.
    + split; [discriminate |]. intros H.
      apply orb_prop in E as [E | E]; [apply Z.ltb_lt in E | apply Z.ltb_lt in E]; lia.
    + split; [| reflexivity]. intros _.
      apply orb_false_elim in E as [E1 E2].
      apply Z.ltb_ge in E1. apply Z.ltb_ge in E2. lia.
  - unfold QArith_base.Qle. cbn [QArith_base.Qnum QArith_base.Qden].
    destruct ((QArith_base.Qnum q <? 0)%Z
              || (Z.pos (QArith_base.Qden q) <? QArith_base.Qnum q)%Z) eqn:E.
    + split; [discriminate |]. intros [H0 H1].
      apply orb_prop in E as [E | E]; apply Z.ltb_lt in E; lia.
    + split; [| reflexivity]. intros _.
      apply orb_false_elim in E as [E1 E2].
      apply Z.ltb_ge in E1. apply Z.ltb_ge in E2. lia.
  - split; [discriminate | contradiction].
  - split; [intros _; exact I | reflexivity].
  - split; [discriminate | contradiction].
Qed.

Lemma DefaultMixed_init_postcondition_witness :
  exists d : @device GaussScalar,
    DefaultMixed_init (WiresCount 2) (Some (PyInt 1)) Numpy = inr d
    /\ make_wires (WiresCount 2) = Some (wires d)
    /\ dev_interface d = Numpy /\ readout_err d = Some (PyInt 1)
    /\ measured_wires d = [] /\ _debugger d = None
    /\ _pre_rotated_state d = _state d
    /\ (exists t, _state d = Some t /\ tensor_eq t (basis_projector (num_wires d) 0))
    /\ reset d = (inr tt, d).
Proof.
  eexists. split; [reflexivity |].
  apply (@DefaultMixed_init_postcondition GaussScalar (WiresCount 2)
           (Some (PyInt 1)) Numpy). reflexivity.
Defined.

(** ** What the methods leave of the device *)

Section Frames.
Context {Sc : Scalar}.

(** [keeps R m]: whatever [m] returns or raises, the device it leaves is
    related by [R] to the device it started from. *)
Definition keeps {A : Type} (R : device -> device -> Prop) (m : M A) : Prop :=
  forall d r d', m d = (r, d') -> R d d'.

(** [safe m]: when [m] raises, the device is as it was. *)
Definition safe {A : Type} (m : M A) : Prop :=
  forall d e d', m d = (inl e, d') -> d' = d.

Section Relation.
Variable R : device -> device -> Prop.
Hypothesis R_refl : forall d, R d d.
Hypothesis R_trans : forall a b c, R a b -> R b c -> R a c.

Lemma keeps_ret (A : Type) (a : A) : keeps R (ret a).
Proof. intros d r d' H. injection H as _ <-. apply R_refl. Qed.

Lemma keeps_raise (A : Type) (e : exn) : keeps R (@raise Sc A e).
Proof. intros d r d' H. injection H as _ <-. apply R_refl. Qed.

Lemma keeps_get : keeps R get.
Proof. intros d r d' H. injection H as _ <-. apply R_refl. Qed.

Lemma keeps_lift (A : Type) (e : exn) (o : option A) : keeps R (lift e o).
Proof. destruct o; [apply keeps_ret | apply keeps_raise]. Qed.

Lemma keeps_when (b : bool) (e : exn) : keeps R (when b e).
Proof. destruct b; [apply keeps_raise | apply keeps_ret]. Qed.

Lemma keeps_bind (A B : Type) (m : M A) (f : A -> M B) :
  keeps R m -> (forall a, keeps R (f a)) -> keeps R (bind m f).
Proof.
  intros Hm Hf d r d' H. unfold bind in H.
  destruct (m d) as [[e | a] d1] eqn:E.
  - injection H as _ <-. apply (Hm _ _ _ E).
  - apply (R_trans _ d1); [apply (Hm _ _ _ E) | apply (Hf a _ _ _ H)].
Qed.

Lemma keeps_modify (f : device -> device) :
  (forall d, R d (f d)) -> keeps R (modify f).
Proof. intros Hf d r d' H. injection H as _ <-. apply Hf. Qed.

Lemma keeps_for_each (A : Type) (l : list A) (f : A -> M unit) :
  (forall a, In a l -> keeps R (f a)) -> keeps R (for_each l f).
Proof.
  induction l as [| a l IH]; intros H; cbn [for_each]; [apply keeps_ret |].
  apply keeps_bind; [apply H; left; reflexivity |].
  intros _. apply IH. intros b Hb. apply H. right. exact Hb.
Qed.

End Relation.

Lemma safe_ret (A : Type) (a : A) : safe (ret a).
Proof. intros d e d' H. discriminate. Qed.

Lemma safe_raise (A : Type) (e : exn) : safe (@raise Sc A e).
Proof. intros d e' d' H. injection H as _ <-. reflexivity. Qed.

Lemma safe_modify (f : device -> device) : safe (modify f).
Proof. intros d e d' H. discriminate. Qed.

Lemma safe_modify_twice (f g : device -> device) : safe (modify f ;;; modify g).
Proof. intros d e d' H. discriminate. Qed.

(** A method that reads and then runs a safe method is safe. *)
Lemma safe_bind (A B : Type) (m : M A) (f : A -> M B) :
  keeps eq m -> (forall a, safe (f a)) -> safe (bind m f).
Proof.
  intros Hm Hf d e d' H. unfold bind in H.
  destruct (m d) as [[e1 | a] d1] eqn:E.
  - injection H as _ <-. symmetry. apply (Hm _ _ _ E).
  - pose proof (Hm _ _ _ E) as ->. apply (Hf a _ _ _ H).
Qed.

End Frames.

(** The proofs below walk through a method: each bind is split, each test
    is taken both ways. *)
Ltac frame_step R_refl R_trans :=
  first
    [ apply (keeps_ret _ R_refl)
    | apply (keeps_raise _ R_refl)
    | apply (keeps_get _ R_refl)
    | apply (keeps_lift _ R_refl)
    | apply (keeps_when _ R_refl)
    | apply (keeps_bind _ R_trans); [| intro]
    | match goal with
      | |- keeps _ (if ?b then _ else _) => destruct b
      | |- keeps _ (match ?x with _ => _ end) => destruct x
      end ].

Ltac safe_step :=
  first
    [ apply safe_ret | apply safe_raise | apply safe_modify | apply safe_modify_twice
    | apply safe_bind; [| intro]
    | match goal with
      | |- safe (if ?b then _ else _) => destruct b
      | |- safe (match ?x with _ => _ end) => destruct x
      end ].

Section ReadOnly.
Context {Sc : Scalar}.

Lemma eq_trans_device (a b c : device) : a = b -> b = c -> a = c.
Proof. congruence. Qed.

Ltac readonly := repeat frame_step (@eq_refl device) eq_trans_device.

Lemma map_wires_readonly (ws : Wires) : keeps eq (map_wires ws).
Proof. unfold map_wires. readonly. Qed.

Lemma current_state_readonly : keeps eq current_state.
Proof. unfold current_state. readonly. Qed.

Lemma create_basis_state_readonly (index : nat) : keeps eq (_create_basis_state index).
Proof. unfold _create_basis_state. readonly. Qed.

Lemma state_readonly : keeps eq state.
Proof. unfold state. readonly. Qed.

Lemma density_matrix_readonly (ws : Wires) : keeps eq (density_matrix ws).
Proof.
  unfold density_matrix. apply (keeps_bind _ eq_trans_device); [apply state_readonly |].
  intro. apply (keeps_bind _ eq_trans_device); [apply map_wires_readonly |].
  intro. readonly.
Qed.

Lemma purity_readonly (ws : Wires) : keeps eq (purity ws).
Proof.
  unfold purity. apply (keeps_bind _ eq_trans_device); [apply state_readonly |].
  intro. apply (keeps_bind _ eq_trans_device); [apply map_wires_readonly |].
  intro. readonly.
Qed.

Lemma analytic_probability_readonly (ws : option Wires) :
  keeps eq (analytic_probability ws).
Proof.
  unfold analytic_probability. apply (keeps_bind _ eq_trans_device); [readonly |].
  intros d. destruct (_state d); [| readonly].
  apply (keeps_bind _ eq_trans_device); [readonly |]. intro.
  apply (keeps_bind _ eq_trans_device); [| intro; readonly].
  destruct ws; [| readonly].
  apply (keeps_bind _ eq_trans_device); [apply map_wires_readonly | intro; readonly].
Qed.

(** X6: reading the device does not change it: the [state] property,
    [density_matrix], [purity] and [analytic_probability] leave every field
    as it was, whether they return or raise. *)
Theorem measurements_are_read_only (ws : Wires) (ows : option Wires) (d : device) :
  snd (state d) = d
  /\ snd (density_matrix ws d) = d
  /\ snd (purity ws d) = d
  /\ snd (analytic_probability ows d) = d.
Proof.
  repeat split; symmetry.
  - apply (state_readonly d (fst (state d))). apply surjective_pairing.
  - apply (density_matrix_readonly ws d (fst (density_matrix ws d))).
    apply surjective_pairing.
  - apply (purity_readonly ws d (fst (purity ws d))). apply surjective_pairing.
  - apply (analytic_probability_readonly ows d (fst (analytic_probability ows d))).
    apply surjective_pairing.
Qed.

End ReadOnly.

Section OperationFrames.
Context {Sc : Scalar}.

Ltac readonly := repeat frame_step (@eq_refl device) eq_trans_device.

(** Everything but the working state. *)
Definition same_but_state (d d' : device) : Prop :=
  wires d' = wires d /\ readout_err d' = readout_err d
  /\ _pre_rotated_state d' = _pre_rotated_state d
  /\ measured_wires d' = measured_wires d /\ _debugger d' = _debugger d.

Lemma same_but_state_refl (d : device) : same_but_state d d.
Proof. repeat split. Qed.

Lemma same_but_state_trans (a b c : device) :
  same_but_state a b -> same_but_state b c -> same_but_state a c.
Proof. unfold same_but_state. intuition congruence. Qed.

Lemma same_but_state_set (t : option tensor) (d : device) :
  same_but_state d (set_state t d).
Proof. repeat split. Qed.

Ltac only_state :=
  repeat first [ apply keeps_modify; intro; apply same_but_state_set
               | frame_step same_but_state_refl same_but_state_trans ].

Lemma apply_channel_frame (kraus : list tensor) (ws : Wires) :
  keeps same_but_state (_apply_channel kraus ws).
Proof. unfold _apply_channel, map_wires, current_state. only_state. Qed.

Lemma apply_channel_tensordot_frame (kraus : list tensor) (ws : Wires) :
  keeps same_but_state (_apply_channel_tensordot kraus ws).
Proof. unfold _apply_channel_tensordot, map_wires, current_state. only_state. Qed.

Lemma apply_diagonal_unitary_frame (eigvals : tensor) (ws : Wires) :
  keeps same_but_state (_apply_diagonal_unitary eigvals ws).
Proof. unfold _apply_diagonal_unitary, map_wires, current_state. only_state. Qed.

Lemma apply_gate_frame (g : gate) : keeps same_but_state (_apply_gate g).
Proof.
  unfold _apply_gate.
  destruct (String.eqb (g_name g) "Identity");
    [apply (keeps_ret _ same_but_state_refl) |].
  destruct (g_kind g).
  - apply apply_diagonal_unitary_frame.
  - apply (keeps_bind _ same_but_state_trans);
      [apply (keeps_get _ same_but_state_refl) | intros d].
    destruct (_ || _);
      [apply apply_channel_tensordot_frame | apply apply_channel_frame].
  - apply (keeps_bind _ same_but_state_trans);
      [apply (keeps_get _ same_but_state_refl) | intros d].
    destruct (_ || _);
      [apply apply_channel_tensordot_frame | apply apply_channel_frame].
Qed.

Lemma apply_channel_safe (kraus : list tensor) (ws : Wires) :
  safe (_apply_channel kraus ws).
Proof.
  unfold _apply_channel.
  apply safe_bind; [apply map_wires_readonly | intro].
  apply safe_bind; [readonly | intro].
  apply safe_bind; [apply current_state_readonly | intro].
  apply safe_bind; [readonly | intro]. apply safe_modify.
Qed.

Lemma apply_channel_tensordot_safe (kraus : list tensor) (ws : Wires) :
  safe (_apply_channel_tensordot kraus ws).
Proof.
  unfold _apply_channel_tensordot.
  apply safe_bind; [apply map_wires_readonly | intro].
  apply safe_bind; [readonly | intro].
  apply safe_bind; [apply current_state_readonly | intro].
  apply safe_bind; [readonly | intro]. apply safe_modify.
Qed.

Lemma apply_diagonal_unitary_safe (eigvals : tensor) (ws : Wires) :
  safe (_apply_diagonal_unitary eigvals ws).
Proof.
  unfold _apply_diagonal_unitary.
  apply safe_bind; [apply map_wires_readonly | intro].
  apply safe_bind; [readonly | intro].
  apply safe_bind; [apply current_state_readonly | intro].
  apply safe_bind; [readonly | intro]. apply safe_modify.
Qed.

Lemma apply_gate_safe (g : gate) : safe (_apply_gate g).
Proof.
  unfold _apply_gate.
  destruct (String.eqb (g_name g) "Identity"); [apply safe_ret |].
  destruct (g_kind g).
  - apply apply_diagonal_unitary_safe.
  - apply safe_bind; [readonly | intros d].
    destruct (_ || _); [apply apply_channel_tensordot_safe | apply apply_channel_safe].
  - apply safe_bind; [readonly | intros d].
    destruct (_ || _); [apply apply_channel_tensordot_safe | apply apply_channel_safe].
Qed.

(** X7: a gate changes nothing of the device but its working state: the
    wires, the readout probability, the pre-rotated state, the measured
    wires and the debugger are as before, whether the gate returns or
    raises; and when it raises the working state is as before too. *)
Theorem gate_changes_only_the_state (g : gate) (d : device) :
  same_but_state d (snd (_apply_gate g d))
  /\ (forall e, fst (_apply_gate g d) = inl e -> snd (_apply_gate g d) = d).
Proof.
  split.
  - apply (apply_gate_frame g d (fst (_apply_gate g d))). apply surjective_pairing.
  - intros e He. apply (apply_gate_safe g d e). rewrite <- He.
    apply surjective_pairing.
Qed.

Lemma apply_basis_state_safe (bitvals : list Z) (ws : Wires) :
  safe (_apply_basis_state bitvals ws).
Proof.
  unfold _apply_basis_state.
  apply safe_bind; [apply map_wires_readonly | intro].
  destruct (negb _); [apply safe_raise |].
  destruct (negb _); [apply safe_raise |].
  apply safe_bind; [readonly | intro].
  apply safe_bind; [apply create_basis_state_readonly | intro]. apply safe_modify.
Qed.

Lemma apply_state_vector_safe (st : tensor) (ws : Wires) :
  safe (_apply_state_vector st ws).
Proof.
  unfold _apply_state_vector.
  apply safe_bind; [apply map_wires_readonly | intro].
  apply safe_bind; [readonly | intro].
  apply safe_bind; [readonly | intro].
  apply safe_bind; [readonly | intro].
  destruct (_ && _); (apply safe_bind; [readonly | intro]); apply safe_modify.
Qed.

Lemma apply_density_matrix_safe (st : tensor) (ws : Wires) :
  safe (_apply_density_matrix st ws).
Proof.
  unfold _apply_density_matrix.
  apply safe_bind; [apply map_wires_readonly | intro].
  apply safe_bind; [readonly | intro].
  apply safe_bind; [readonly | intro].
  apply safe_bind; [readonly | intro].
  apply safe_bind; [readonly | intro].
  destruct (_ && _).
  - apply safe_bind; [readonly | intro]. apply safe_modify_twice.
  - apply safe_bind; [apply density_matrix_readonly | intro].
    apply safe_bind; [readonly | intro].
    apply safe_bind; [readonly | intro].
    apply safe_bind; [readonly | intro].
    apply safe_bind; [readonly | intro]. apply safe_modify_twice.
Qed.

(** X8: an operation that is not a snapshot either succeeds or leaves the
    device untouched: a gate, [StatePrep], [BasisState] and
    [QubitDensityMatrix] test their arguments and do all their array work
    before they assign the state. *)
Theorem operations_fail_without_effect (o : operation) (d d' : device) (e : exn) :
  (forall tag m, o <> Snapshot tag m) ->
  _apply_operation o d = (inl e, d') -> d' = d.
Proof.
  intros Hsnap H. destruct o as [g | st ws | bitvals ws | st ws | tag m];
    cbn [_apply_operation] in H.
  - apply (apply_gate_safe g d e d' H).
  - apply (apply_state_vector_safe st ws d e d' H).
  - apply (apply_basis_state_safe bitvals ws d e d' H).
  - apply (apply_density_matrix_safe st ws d e d' H).
  - exfalso. apply (Hsnap tag m). reflexivity.
Qed.

End OperationFrames.

Lemma operations_fail_without_effect_witness :
  snd (_apply_operation (BasisState [2%Z] [LInt 0]) plus_device) = plus_device.
Proof.
  apply (@operations_fail_without_effect GaussScalar (BasisState [2%Z] [LInt 0])
           plus_device _ bits_error).
  - intros tag m. discriminate.
  - reflexivity.
Defined.

Section CircuitFrames.
Context {Sc : Scalar}.

Ltac readonly := repeat frame_step (@eq_refl device) eq_trans_device.

(** What no operation changes: the wires, the readout probability and the
    measured wires. *)
Definition same_configuration (d d' : device) : Prop :=
  wires d' = wires d /\ readout_err d' = readout_err d
  /\ measured_wires d' = measured_wires d.

Lemma same_configuration_refl (d : device) : same_configuration d d.
Proof. repeat split. Qed.

Lemma same_configuration_trans (a b c : device) :
  same_configuration a b -> same_configuration b c -> same_configuration a c.
Proof. unfold same_configuration. intuition congruence. Qed.

Lemma keeps_weaken (A : Type) (R R' : device -> device -> Prop) (m : M A) :
  (forall d d', R d d' -> R' d d') -> keeps R m -> keeps R' m.
Proof. intros HR Hm d r d' H. apply HR, (Hm _ _ _ H). Qed.

Lemma readonly_configuration (A : Type) (m : M A) :
  keeps eq m -> keeps same_configuration m.
Proof. apply keeps_weaken. intros d d' <-. apply same_configuration_refl. Qed.

Lemma frame_configuration (A : Type) (m : M A) :
  keeps same_but_state m -> keeps same_configuration m.
Proof.
  apply keeps_weaken. unfold same_but_state, same_configuration. intuition.
Qed.

Ltac configuration :=
  repeat first [ apply keeps_modify; intro; repeat split
               | frame_step same_configuration_refl same_configuration_trans ].

Lemma apply_gate_configuration (g : gate) : keeps same_configuration (_apply_gate g).
Proof. apply frame_configuration, apply_gate_frame. Qed.

Lemma snapshot_measurements_configuration (dm : tensor) (m : measurement) :
  keeps same_configuration (_snapshot_measurements dm m).
Proof.
  unfold _snapshot_measurements.
  apply (keeps_bind _ same_configuration_trans);
    [apply (keeps_get _ same_configuration_refl) | intros d].
  apply (keeps_bind _ same_configuration_trans).
  { destruct (isinstance_rotated (m_class m));
      [| apply (keeps_ret _ same_configuration_refl)].
    apply (keeps_for_each _ same_configuration_refl same_configuration_trans).
    intros g _. apply apply_gate_configuration. }
  intros _. apply (keeps_bind _ same_configuration_trans).
  { destruct (m_class m); unfold map_wires;
      try (apply (keeps_bind _ same_configuration_trans);
           [apply readonly_configuration, analytic_probability_readonly | intro]);
      configuration. }
  intros r. configuration.
Qed.

Lemma apply_snapshot_configuration (tag : option string) (m : measurement) :
  keeps same_configuration (_apply_snapshot tag m).
Proof.
  unfold _apply_snapshot.
  apply (keeps_bind _ same_configuration_trans);
    [apply (keeps_get _ same_configuration_refl) | intros d].
  destruct (_debugger d) as [dbg |]; [| apply (keeps_ret _ same_configuration_refl)].
  destruct (active dbg); [| apply (keeps_ret _ same_configuration_refl)].
  apply (keeps_bind _ same_configuration_trans);
    [apply readonly_configuration, current_state_readonly | intro].
  apply (keeps_bind _ same_configuration_trans);
    [apply (keeps_lift _ same_configuration_refl) | intro].
  apply (keeps_bind _ same_configuration_trans);
    [apply snapshot_measurements_configuration | intro].
  apply keeps_modify. intros d0. destruct (_debugger d0); repeat split.
Qed.

Lemma apply_operation_configuration (o : operation) :
  keeps same_configuration (_apply_operation o).
Proof.
  destruct o as [g | st ws | bitvals ws | st ws | tag m]; cbn [_apply_operation].
  - apply apply_gate_configuration.
  - unfold _apply_state_vector, map_wires. configuration.
  - unfold _apply_basis_state, map_wires, _create_basis_state. configuration.
  - unfold _apply_density_matrix.
    apply (keeps_bind _ same_configuration_trans);
      [apply readonly_configuration, map_wires_readonly | intro].
    do 4 (apply (keeps_bind _ same_configuration_trans); [configuration | intro]).
    destruct (_ && _); [configuration |].
    apply (keeps_bind _ same_configuration_trans);
      [apply readonly_configuration, density_matrix_readonly | intro].
    configuration.
  - apply apply_snapshot_configuration.
Qed.

Lemma check_order_readonly (ops : list operation) (i : nat) :
  keeps eq (check_order i ops).
Proof.
  revert i. induction ops as [| o ops IH]; intros i; cbn [check_order];
    [readonly |].
  destruct (_ && _); [readonly | apply IH].
Qed.

Lemma apply_configuration (BitFlip : pyval -> label -> operation)
    (ops rots : list operation) :
  keeps same_configuration (apply BitFlip ops rots).
Proof.
  unfold apply.
  apply (keeps_bind _ same_configuration_trans);
    [apply readonly_configuration, check_order_readonly | intro].
  apply (keeps_bind _ same_configuration_trans).
  { apply (keeps_for_each _ same_configuration_refl same_configuration_trans).
    intros o _. apply apply_operation_configuration. }
  intro. apply (keeps_bind _ same_configuration_trans); [configuration | intro].
  apply (keeps_bind _ same_configuration_trans).
  { apply (keeps_for_each _ same_configuration_refl same_configuration_trans).
    intros o _. apply apply_operation_configuration. }
  intro. apply (keeps_bind _ same_configuration_trans);
    [apply (keeps_get _ same_configuration_refl) | intros d].
  destruct (readout_err d) as [p |]; [| apply (keeps_ret _ same_configuration_refl)].
  destruct (truthy p); [| apply (keeps_ret _ same_configuration_refl)].
  apply (keeps_for_each _ same_configuration_refl same_configuration_trans).
  intros k _. apply apply_operation_configuration.
Qed.

(** X9: no circuit changes the configuration of the device: after
    [apply], with any operations, rotations and readout channel, whether it
    returns or raises part of the way, the wires, the readout probability
    and the measured wires are as before. *)
Theorem apply_keeps_configuration (BitFlip : pyval -> label -> operation)
    (ops rots : list operation) (d : device) :
  wires (snd (apply BitFlip ops rots d)) = wires d
  /\ readout_err (snd (apply BitFlip ops rots d)) = readout_err d
  /\ measured_wires (snd (apply BitFlip ops rots d)) = measured_wires d.
Proof.
  apply (apply_configuration BitFlip ops rots d (fst (apply BitFlip ops rots d))).
  apply surjective_pairing.
Qed.

End CircuitFrames.

Section CircuitComposition.
Context {Sc : Scalar}.

Variable BitFlip : pyval -> label -> operation.

Lemma bind_assoc (A B D : Type) (m : M A) (f : A -> M B) (g : B -> M D)
    (d : device) :
  bind (bind m f) g d = bind m (fun a => bind (f a) g) d.
Proof. unfold bind. destruct (m d) as [[e | a] d1]; reflexivity. Qed.

Lemma bind_ext (A B : Type) (m : M A) (f g : A -> M B) (d : device) :
  (forall a d', f a d' = g a d') -> bind m f d = bind m g d.
Proof.
  intros H. unfold bind. destruct (m d) as [[e | a] d1]; [reflexivity | apply H].
Qed.

Lemma bind_ext_run (A B : Type) (m : M A) (f g : A -> M B) (d : device) :
  (forall a d', m d = (inr a, d') -> f a d' = g a d') -> bind m f d = bind m g d.
Proof.
  intros H. unfold bind. destruct (m d) as [[e | a] d1]; [reflexivity |].
  apply H. reflexivity.
Qed.

Lemma for_each_app (A : Type) (l1 l2 : list A) (f : A -> M unit) (d : device) :
  for_each (l1 ++ l2) f d = (for_each l1 f ;;; for_each l2 f) d.
Proof.
  revert d. induction l1 as [| a l1 IH]; intros d; cbn [app for_each].
  - reflexivity.
  - rewrite bind_assoc. apply bind_ext. intros _ d'. apply IH.
Qed.

Lemma for_each_map (A B : Type) (g : A -> B) (l : list A) (f : B -> M unit)
    (d : device) :
  for_each (map g l) f d = for_each l (fun a => f (g a)) d.
Proof.
  revert d. induction l as [| a l IH]; intros d; cbn [map for_each];
    [reflexivity |].
  apply bind_ext. intros _ d'. apply IH.
Qed.

(** The readout channels of a device: a bit flip with the readout
    probability on every measured wire, none when the probability is
    [None] or zero. *)
Definition readout_channels (d : device) : list operation :=
  match readout_err d with
  | Some p => if truthy p then map (BitFlip p) (measured_wires d) else []
  | None => []
  end.

(** The circuit up to the point where the pre-rotated state is stored. *)
Definition run_operations (ops : list operation) : M unit :=
  check_order 0 ops ;;;
  for_each ops _apply_operation ;;;
  modify (fun d => set_pre_rotated_state (_state d) d).

Lemma run_operations_configuration (ops : list operation) :
  keeps same_configuration (run_operations ops).
Proof.
  unfold run_operations.
  apply (keeps_bind _ same_configuration_trans);
    [apply readonly_configuration, check_order_readonly | intro].
  apply (keeps_bind _ same_configuration_trans).
  { apply (keeps_for_each _ same_configuration_refl same_configuration_trans).
    intros o _. apply apply_operation_configuration. }
  intro. apply keeps_modify. intro. repeat split.
Qed.

(** [apply] as one sequence of operations. *)
Lemma apply_unfolded (ops rots : list operation) (d : device) :
  apply BitFlip ops rots d
  = (run_operations ops ;;;
     for_each (rots ++ readout_channels d) _apply_operation) d.
Proof.
  assert (E : apply BitFlip ops rots d
              = (run_operations ops ;;;
                 (for_each rots _apply_operation ;;;
                  d0 <- get ;;
                  match readout_err d0 with
                  | Some p =>
                      if truthy p
                      then for_each (measured_wires d0)
                             (fun k => _apply_operation (BitFlip p k))
                      else ret tt
                  | None => ret tt
                  end)) d).
  { unfold apply, run_operations. rewrite bind_assoc. apply bind_ext.
    intros _ d1. rewrite bind_assoc. reflexivity. }
  rewrite E. apply bind_ext_run. intros [] d1 E1.
  destruct (run_operations_configuration ops d _ _ E1) as (_ & Hr & Hm).
  rewrite for_each_app. apply bind_ext_run. intros [] d2 E2.
  assert (H2 : same_configuration d1 d2).
  { apply (keeps_for_each _ same_configuration_refl same_configuration_trans
             _ rots _apply_operation
             (fun o _ => apply_operation_configuration o) d1 _ _ E2). }
  destruct H2 as (_ & Hr2 & Hm2).
  rewrite (bind_ok _ _ (get_run d2)). unfold readout_channels.
  rewrite Hr2, Hr, Hm2, Hm.
  destruct (readout_err d) as [p |]; [| reflexivity].
  destruct (truthy p); [| reflexivity].
  rewrite for_each_map. reflexivity.
Qed.

(** X10: the readout error is applied as further rotations: [apply] is the
    operations, then the rotations followed by one bit flip per measured
    wire, in the order of the measured wires as they were when [apply] was
    called; a readout probability of zero or [None] adds nothing. *)
Theorem readout_error_follows_rotations (ops rots : list operation) (d : device) :
  apply BitFlip ops rots d
  = (run_operations ops ;;;
     for_each (rots ++ readout_channels d) _apply_operation) d.
Proof. exact (apply_unfolded ops rots d). Qed.

Lemma gates_keep_pre_rotated_state (l : list operation) (d d' : device)
    (r : exn + unit) :
  (forall o, In o l -> exists g, o = Gate g) ->
  for_each l _apply_operation d = (r, d') ->
  _pre_rotated_state d' = _pre_rotated_state d.
Proof.
  intros Hl H.
  assert (K : keeps same_but_state (for_each l _apply_operation)).
  { apply (keeps_for_each _ same_but_state_refl same_but_state_trans).
    intros o Ho. destruct (Hl o Ho) as (g & ->). apply apply_gate_frame. }
  apply (K _ _ _ H).
Qed.

(** X11: after [apply] the pre-rotated state is the state the operations
    left, before the rotations and the readout channels: the state
    [density_matrix] and [purity] read is not rotated into the measurement
    basis. *)
Theorem apply_stores_pre_rotated_state (ops rots : list operation)
    (d d' : device) (r : exn + unit) :
  (forall p k, exists g, BitFlip p k = Gate g) ->
  (forall o, In o rots -> exists g, o = Gate g) ->
  apply BitFlip ops rots d = (r, d') ->
  (exists e, run_operations ops d = (inl e, d') /\ r = inl e)
  \/ (exists d1, run_operations ops d = (inr tt, d1)
                 /\ _pre_rotated_state d1 = _state d1
                 /\ _pre_rotated_state d' = _state d1).
Proof.
  intros HB Hrots H. rewrite apply_unfolded in H.
  unfold bind in H.
  destruct (run_operations ops d) as [[e | []] d1] eqn:E1.
  - left. exists e. injection H as <- <-. split; reflexivity.
  - right. exists d1. split; [reflexivity |].
    assert (Hpre : _pre_rotated_state d1 = _state d1).
    { unfold run_operations, bind in E1.
      destruct (check_order 0 ops d) as [[e | []] d2]; [discriminate |].
      destruct (for_each ops _apply_operation d2) as [[e | []] d3]; [discriminate |].
      injection E1 as <-. reflexivity. }
    split; [exact Hpre |]. rewrite <- Hpre.
    apply (gates_keep_pre_rotated_state (rots ++ readout_channels d) d1 d' r);
      [| exact H].
    intros o Ho. apply in_app_or in Ho as [Ho | Ho]; [apply Hrots, Ho |].
    unfold readout_channels in Ho.
    destruct (readout_err d) as [p |]; [| contradiction].
    destruct (truthy p); [| contradiction].
    apply in_map_iff in Ho as (k & <- & _). apply HB.
Qed.

End CircuitComposition.

Lemma apply_stores_pre_rotated_state_witness :
  (exists e, run_operations [PauliX (LInt 0)] plus_device
             = (inl e, snd (apply no_BitFlip [PauliX (LInt 0)] [] plus_device))
             /\ fst (apply no_BitFlip [PauliX (LInt 0)] [] plus_device) = inl e)
  \/ (exists d1, run_operations [PauliX (LInt 0)] plus_device = (inr tt, d1)
                 /\ _pre_rotated_state d1 = _state d1
                 /\ _pre_rotated_state
                      (snd (apply no_BitFlip [PauliX (LInt 0)] [] plus_device))
                    = _state d1).
Proof.
  apply (@apply_stores_pre_rotated_state GaussScalar no_BitFlip
           [PauliX (LInt 0)] [] plus_device).
  - intros p k. eexists. reflexivity.
  - intros o [].
  - apply surjective_pairing.
Defined.

(** ** The snapshot dictionary *)

Section SnapshotKeys.
Context {Sc : Scalar}.

(** [d[k]] on the snapshot dictionary, [None] for a missing key. *)
Fixpoint dict_get (k : snap_key) (l : list (snap_key * snap_result))
  : option snap_result :=
  match l with
  | [] => None
  | (k', v) :: l' => if snap_key_eqb k k' then Some v else dict_get k l'
  end.

(** Every integer key is below the number of entries: what holds of a
    dictionary filled by snapshots only. *)
Definition indices_below (l : list (snap_key * snap_result)) : Prop :=
  forall n v, In (KeyIndex n, v) l -> n < length l.

Lemma snap_key_eqb_eq (a b : snap_key) : snap_key_eqb a b = true <-> a = b.
Proof.
  destruct a as [s | n], b as [t | m]; cbn [snap_key_eqb];
    try (split; [discriminate | intros H; discriminate H]).
  - rewrite String.eqb_eq. split; [intros -> | intros [= ->]]; reflexivity.
  - rewrite Nat.eqb_eq. split; [intros -> | intros [= ->]]; reflexivity.
Qed.

Lemma dict_get_set (k : snap_key) (v : snap_result)
    (l : list (snap_key * snap_result)) :
  dict_get k (dict_set k v l) = Some v.
Proof.
  induction l as [| [k' v'] l IH]; cbn [dict_set dict_get].
  - rewrite (proj2 (snap_key_eqb_eq k k) eq_refl). reflexivity.
  - destruct (snap_key_eqb k k') eqn:E; cbn [dict_get].
    + rewrite (proj2 (snap_key_eqb_eq k k) eq_refl). reflexivity.
    + rewrite E. exact IH.
Qed.

Lemma dict_get_set_other (k k0 : snap_key) (v : snap_result)
    (l : list (snap_key * snap_result)) :
  k0 <> k -> dict_get k0 (dict_set k v l) = dict_get k0 l.
Proof.
  intros Hne.
  assert (Hk : snap_key_eqb k0 k = false).
  { destruct (snap_key_eqb k0 k) eqn:E; [| reflexivity].
    apply snap_key_eqb_eq in E. contradiction. }
  induction l as [| [k' v'] l IH]; cbn [dict_set dict_get].
  - rewrite Hk. reflexivity.
  - destruct (snap_key_eqb k k') eqn:E; cbn [dict_get].
    + apply snap_key_eqb_eq in E. subst k'. rewrite Hk. reflexivity.
    + rewrite IH. reflexivity.
Qed.

Lemma dict_set_fresh (k : snap_key) (v : snap_result)
    (l : list (snap_key * snap_result)) :
  (forall v', ~ In (k, v') l) -> dict_set k v l = l ++ [(k, v)].
Proof.
  induction l as [| [k' v'] l IH]; intros H; cbn [dict_set app]; [reflexivity |].
  destruct (snap_key_eqb k k') eqn:E.
  - apply snap_key_eqb_eq in E. subst k'. exfalso. apply (H v'). left. reflexivity.
  - rewrite IH; [reflexivity |]. intros v0 Hin. apply (H v0). right. exact Hin.
Qed.

Lemma dict_set_length (k : snap_key) (v : snap_result)
    (l : list (snap_key * snap_result)) :
  length l <= length (dict_set k v l).
Proof.
  induction l as [| [k' v'] l IH]; cbn [dict_set length]; [lia |].
  destruct (snap_key_eqb k k'); cbn [length]; lia.
Qed.

Lemma dict_set_in (k k0 : snap_key) (v v0 : snap_result)
    (l : list (snap_key * snap_result)) :
  In (k0, v0) (dict_set k v l) -> k0 = k \/ In (k0, v0) l.
Proof.
  induction l as [| [k' v'] l IH]; cbn [dict_set].
  - intros [[= <- <-] | []]. left. reflexivity.
  - destruct (snap_key_eqb k k') eqn:E.
    + intros [[= <- <-] | H]; [left; reflexivity | right; right; exact H].
    + intros [H | H]; [right; left; exact H |].
      destruct (IH H) as [-> | Hin]; [left; reflexivity | right; right; exact Hin].
Qed.

(** The key under which [_apply_snapshot] files its result. *)
Definition snapshot_key (tag : option string) (g : debugger) : snap_key :=
  match tag with
  | Some t => if String.eqb t EmptyString then KeyIndex (length (snapshots g))
              else KeyTag t
  | None => KeyIndex (length (snapshots g))
  end.

Definition same_debugger (d d' : device) : Prop := _debugger d' = _debugger d.

Lemma same_debugger_refl (d : device) : same_debugger d d.
Proof. reflexivity. Qed.

Lemma same_debugger_trans (a b c : device) :
  same_debugger a b -> same_debugger b c -> same_debugger a c.
Proof. unfold same_debugger. congruence. Qed.

Lemma snapshot_measurements_debugger (dm : tensor) (m : measurement) :
  keeps same_debugger (_snapshot_measurements dm m).
Proof.
  unfold _snapshot_measurements.
  apply (keeps_bind _ same_debugger_trans);
    [apply (keeps_get _ same_debugger_refl) | intros d].
  apply (keeps_bind _ same_debugger_trans).
  { destruct (isinstance_rotated (m_class m));
      [| apply (keeps_ret _ same_debugger_refl)].
    apply (keeps_for_each _ same_debugger_refl same_debugger_trans).
    intros g _. apply (keeps_weaken _ same_but_state); [| apply apply_gate_frame].
    unfold same_but_state, same_debugger. intuition. }
  intros _. apply (keeps_bind _ same_debugger_trans).
  { apply (keeps_weaken _ eq); [intros a b <-; reflexivity |].
    destruct (m_class m);
      repeat first [ apply (keeps_bind _ eq_trans_device);
                       [first [ apply map_wires_readonly
                              | apply analytic_probability_readonly ] | intro]
                   | frame_step (@eq_refl device) eq_trans_device ]. }
  intros r.
  repeat first [ apply keeps_modify; intro; reflexivity
               | frame_step same_debugger_refl same_debugger_trans ].
Qed.

(** X12: with an active debugger, a snapshot that returns files exactly
    one result and keeps every other entry: under its tag if it has a
    non-empty one, replacing an earlier entry of that tag, and otherwise
    under the number of entries so far, which is a new key whenever the
    integer keys already there are below that number, as they are in a
    dictionary filled by snapshots. *)
Theorem snapshot_files_one_result (tag : option string) (m : measurement)
    (d d' : device) (g : debugger) :
  _debugger d = Some g -> active g = true ->
  indices_below (snapshots g) ->
  _apply_snapshot tag m d = (inr tt, d') ->
  exists r g',
    _debugger d' = Some g' /\ active g' = true
    /\ indices_below (snapshots g')
    /\ dict_get (snapshot_key tag g) (snapshots g') = Some r
    /\ (forall k, k <> snapshot_key tag g ->
          dict_get k (snapshots g') = dict_get k (snapshots g))
    /\ (forall n, snapshot_key tag g = KeyIndex n ->
          snapshots g' = snapshots g ++ [(KeyIndex n, r)]).
Proof.
  intros Hg Ha Hinv H. unfold _apply_snapshot in H.
  rewrite (bind_ok _ _ (get_run d)), Hg, Ha in H.
  apply bind_inv in H as (st & d1 & Hst & H).
  pose proof (current_state_readonly _ _ _ Hst) as <-.
  apply bind_inv in H as (dm & d1 & Hdm & H).
  apply lift_inv in Hdm as [_ ->].
  apply bind_inv in H as (r & d1 & Hsm & H).
  pose proof (snapshot_measurements_debugger dm m _ _ _ Hsm) as Hd.
  unfold same_debugger in Hd. rewrite Hg in Hd.
  unfold modify in H. rewrite Hd in H. injection H as <-.
  fold (snapshot_key tag g).
  exists r. eexists. split; [reflexivity |]. cbn [active snapshots].
  split; [exact Ha |]. split; [| split; [| split]].
  - intros n v Hin. apply dict_set_in in Hin as [Hk | Hin].
    + pose proof (dict_set_length (snapshot_key tag g) r (snapshots g)) as Hl.
      assert (Hn : n = length (snapshots g)).
      { unfold snapshot_key in Hk. destruct tag as [t |]; [destruct (String.eqb _ _) |];
          congruence. }
      subst n.
      rewrite dict_set_fresh in *.
      * rewrite length_app. cbn [length]. lia.
      * intros v' Hv'. rewrite <- Hk in Hv'. apply Hinv in Hv'. lia.
      * intros v' Hv'. rewrite <- Hk in Hv'. apply Hinv in Hv'. lia.
    + apply Hinv in Hin.
      pose proof (dict_set_length (snapshot_key tag g) r (snapshots g)). lia.
  - apply dict_get_set.
  - intros k Hk. apply dict_get_set_other. exact Hk.
  - intros n Hn. rewrite Hn. apply dict_set_fresh.
    intros v' Hv'. apply Hinv in Hv'.
    unfold snapshot_key in Hn. destruct tag as [t |]; [destruct (String.eqb _ _) |];
      try discriminate; injection Hn as <-; lia.
Qed.

End SnapshotKeys.

Lemma snapshot_files_one_result_witness :
  exists r g',
    _debugger (snd (_apply_snapshot None probs_snapshot debugged_device)) = Some g'
    /\ active g' = true
    /\ indices_below (snapshots g')
    /\ dict_get (snapshot_key None (mkDebugger true [])) (snapshots g') = Some r
    /\ (forall k, k <> snapshot_key None (mkDebugger true []) ->
          dict_get k (snapshots g') = dict_get k (snapshots (mkDebugger true [])))
    /\ (forall n, snapshot_key None (mkDebugger true []) = KeyIndex n ->
          snapshots g' = snapshots (mkDebugger true []) ++ [(KeyIndex n, r)]).
Proof.
  apply (@snapshot_files_one_result GaussScalar None probs_snapshot debugged_device
           _ (mkDebugger true [])).
  - reflexivity.
  - reflexivity.
  - intros n v [].
  - apply returned_pair. vm_compute. reflexivity.
Defined.

(** ** Gates through the dispatcher *)

Section GateResults.
Context {Sc : Scalar}.

Add Ring scalar_ring_gates : (@scalar_ring_theory Sc).

(** A gate that the contraction methods are written for: distinct wires
    of the device, a state of the device's shape, and a non-empty list of
    square matrices of the size of the wires; not the identity by name and
    not diagonal, which the dispatcher takes elsewhere. *)
Definition contracted_gate (g : gate) (d : device) (device_wires : list nat)
    (state : tensor) : Prop :=
  NoDup (g_wires g)
  /\ map_labels (wires d) (g_wires g) = Some device_wires
  /\ _state d = Some state
  /\ shape state = repeat 2 (2 * num_wires d)
  /\ _get_kraus (g_kind g) <> []
  /\ (forall K, In K (_get_kraus (g_kind g)) ->
        shape K = [2 ^ length (g_wires g); 2 ^ length (g_wires g)])
  /\ String.eqb (g_name g) "Identity" = false
  /\ (forall e, g_kind g <> Diagonal e).

(** The device sizes on which the dispatcher keeps the labelled contraction
    within its 52 letters. *)
Definition within_letters (d : device) : Prop :=
  ((dev_interface d = Numpy \/ dev_interface d = Autograd) /\ num_wires d <= 23)
  \/ num_wires d <= 18.

(** The state that the dispatcher leaves, entry by entry. *)
Lemma gate_entries (g : gate) (d : device)
    (device_wires : list nat) (state : tensor) :
  within_letters d ->
  contracted_gate g d device_wires state ->
  exists t,
    _apply_gate g d = (inr tt, set_state (Some t) d)
    /\ shape t = repeat 2 (2 * num_wires d)
    /\ forall idx, valid_index (repeat 2 (2 * num_wires d)) idx ->
         data t idx
         = kraus_conjugation (_get_kraus (g_kind g)) state (num_wires d)
             device_wires idx.
Proof.
  intros Hsize (Hnd & Hmap & Hs & Hshape & Hne & Hk & Hname & Hkind).
  destruct (map_labels_spec _ _ Hmap) as [Hlen _].
  pose proof (@map_labels_NoDup (wires d) (g_wires g) device_wires Hmap Hnd) as Hnd'.
  pose proof (@map_labels_lt (wires d) (g_wires g) device_wires Hmap) as Hlt.
  assert (Hrun :
    _apply_gate g d
    = (if ((2 <? length (g_wires g))
           && match dev_interface d with Autograd | Numpy => true | _ => false end)
          || (7 <? length (g_wires g))
       then _apply_channel_tensordot (_get_kraus (g_kind g)) (g_wires g) d
       else _apply_channel (_get_kraus (g_kind g)) (g_wires g) d)).
  { unfold _apply_gate. rewrite Hname.
    destruct (g_kind g) as [e | ks | m] eqn:E.
    - exfalso. apply (Hkind e). reflexivity.
    - rewrite (bind_ok _ _ (get_run d)). destruct (_ || _); reflexivity.
    - rewrite (bind_ok _ _ (get_run d)). destruct (_ || _); reflexivity. }
  rewrite Hrun. clear Hrun.
  destruct (_get_kraus (g_kind g)) as [| K0 Ks]; [contradiction |].
  rewrite <- Hlen in Hk.
  destruct ((2 <? length (g_wires g))
            && match dev_interface d with Autograd | Numpy => true | _ => false end
            || (7 <? length (g_wires g))) eqn:Etd.
  - destruct (apply_channel_tensordot_entries (num_wires d) device_wires state
                Hnd' Hlt Hshape K0 Ks Hk) as (t & E & S & D).
    exists t. split; [| split; assumption].
    apply (tensordot_method_run _ _ _ _ _ _ Hmap Hs E).
  - assert (Hfit : 2 * num_wires d + 2 * length device_wires + 1 <= 52).
    { apply orb_false_elim in Etd as [E1 E2]. apply Nat.ltb_ge in E2.
      rewrite Hlen. destruct Hsize as [[Hi HN] | HN]; [| lia].
      assert (Hk2 : (2 <? length (g_wires g)) = false).
      { destruct Hi as [Hi | Hi]; rewrite Hi in E1;
          rewrite andb_true_r in E1; exact E1. }
      apply Nat.ltb_ge in Hk2. lia. }
    destruct (apply_channel_einsum_entries (num_wires d) device_wires K0 Ks state
                Hnd' Hlt Hfit Hk Hshape) as (t & E & S & D).
    exists t. split; [| split; assumption].
    apply (einsum_method_run _ _ _ _ _ _ Hmap Hs E).
Qed.

(** X13: on a device of at most 18 wires, and of at most 23 wires on the
    numpy and autograd interfaces, the dispatcher never selects the
    labelled contraction beyond its 52 letters: every gate the contraction
    methods are written for is applied, whatever its number of wires, and
    the new state is [sum_i K_i rho K_i^dagger]. *)
Theorem dispatcher_stays_within_letters (g : gate) (d : device)
    (device_wires : list nat) (state : tensor) :
  within_letters d ->
  contracted_gate g d device_wires state ->
  exists t,
    _apply_gate g d = (inr tt, set_state (Some t) d)
    /\ shape t = repeat 2 (2 * num_wires d)
    /\ forall idx, valid_index (repeat 2 (2 * num_wires d)) idx ->
         data t idx
         = kraus_conjugation (_get_kraus (g_kind g)) state (num_wires d)
             device_wires idx.
Proof. exact (gate_entries g d device_wires state). Qed.

End GateResults.

Lemma dispatcher_stays_within_letters_witness :
  exists t,
    _apply_gate (mkGate "PauliX" (Unitary PauliX_matrix) [LInt 0]) plus_device
    = (inr tt, set_state (Some t) plus_device)
    /\ shape t = repeat 2 (2 * num_wires plus_device)
    /\ forall idx, valid_index (repeat 2 (2 * num_wires plus_device)) idx ->
         data t idx = kraus_conjugation [PauliX_matrix] plus_state 1 [0] idx.
Proof.
  apply (@dispatcher_stays_within_letters GaussScalar
           (mkGate "PauliX" (Unitary PauliX_matrix) [LInt 0]) plus_device [0]
           plus_state).
  - right. cbn. lia.
  - repeat split; try reflexivity.
    + repeat constructor. intros [].
    + discriminate.
    + intros K [<- | []]. reflexivity.
    + discriminate.
Defined.

(** ** Diagonal matrices through the general methods *)

Section DiagonalMatrices.
Context {Sc : Scalar}.

Add Ring scalar_ring_diagonal : (@scalar_ring_theory Sc).

Lemma cconj_zero : cconj c0 = c0.
Proof.
  assert (H : cconj c0 = cadd (cconj c0) (cconj c0)).
  { rewrite <- cconj_add. f_equal. ring. }
  assert (H' : csub (cconj c0) (cconj c0) = csub (cadd (cconj c0) (cconj c0)) (cconj c0))
    by (rewrite <- H; reflexivity).
  ring_simplify in H'. symmetry. exact H'.
Qed.

Lemma NoDup_flat_map (A B : Type) (f : A -> list B) (l : list A) :
  NoDup l -> (forall a, In a l -> NoDup (f a)) ->
  (forall a a' b, In a l -> In a' l -> In b (f a) -> In b (f a') -> a = a') ->
  NoDup (flat_map f l).
Proof.
  induction l as [| a l IH]; intros Hnd Hf Hdisj; cbn [flat_map]; [constructor |].
  inversion Hnd as [| ? ? Ha Hl]; subst.
  apply NoDup_app.
  - apply Hf. left. reflexivity.
  - apply IH; [exact Hl | |].
    + intros x Hx. apply Hf. right. exact Hx.
    + intros x x' b Hx Hx'. apply Hdisj; right; assumption.
  - intros b Hb Hb'. apply in_flat_map in Hb' as (x & Hx & Hbx).
    assert (a = x) by (apply (Hdisj a x b); [left; reflexivity | right; exact Hx | exact Hb | exact Hbx]).
    subst x. contradiction.
Qed.

Lemma all_indices_NoDup (s : list nat) : NoDup (all_indices s).
Proof.
  induction s as [| n s IH]; cbn [all_indices].
  - constructor; [intros [] | constructor].
  - apply NoDup_flat_map.
    + apply seq_NoDup.
    + intros i _. apply Finite.Injective_map_NoDup; [| exact IH].
      intros x y H. injection H as H. exact H.
    + intros i i' b _ _ Hb Hb'.
      apply in_map_iff in Hb as (x & <- & _).
      apply in_map_iff in Hb' as (y & E & _). injection E as E _. symmetry. exact E.
Qed.

(** Selecting the multi-index of a given flat position. *)
Lemma sum_indices_select (s g : list nat) (F : list nat -> C) :
  valid_index s g ->
  sum_list (all_indices s) (fun r => if ravel s g =? ravel s r then F r else c0)
  = F g.
Proof.
  intros Hg.
  apply (sum_list_select (list nat) (fun r => ravel s g =? ravel s r)
           (all_indices s) g F).
  - apply all_indices_NoDup.
  - apply in_all_indices. exact Hg.
  - intros r Hr. apply all_indices_valid in Hr. rewrite Nat.eqb_eq. split.
    + intros E. rewrite <- (unravel_ravel s r) by exact Hr.
      rewrite <- E. apply unravel_ravel. exact Hg.
    + intros ->. reflexivity.
Qed.

Section Wires.
Variable N : nat.
Variable ws : list nat.
Hypothesis ws_lt : forall w, In w ws -> w < N.

(** Putting the coordinates of a multi-index back where they were read is
    that multi-index. *)
Lemma updated_index_same (idx : list nat) :
  length idx = 2 * N ->
  updated_index N idx ws (gather idx ws) (gather idx (shifted N ws)) = idx.
Proof.
  intros Hlen. unfold updated_index.
  transitivity (map (fun p => nth p idx 0) (seq 0 (length idx)));
    [| apply map_nth_range].
  rewrite Hlen. apply map_ext_in. intros p Hp.
  destruct (memn p ws) eqn:E1.
  - apply memn_In in E1. unfold gather.
    rewrite (nth_indep _ 0 (nth 0 idx 0))
      by (rewrite length_map; apply index_of_lt; exact E1).
    rewrite map_nth with (f := fun w => nth w idx 0) (d := 0).
    rewrite nth_index_of by exact E1. reflexivity.
  - destruct (memn p (shifted N ws)) eqn:E2; [| reflexivity].
    apply memn_In in E2. unfold gather.
    rewrite (nth_indep _ 0 (nth 0 idx 0))
      by (rewrite length_map; apply index_of_lt; exact E2).
    rewrite map_nth with (f := fun w => nth w idx 0) (d := 0).
    rewrite nth_index_of by exact E2. reflexivity.
Qed.

(** A single Kraus operator that is diagonal multiplies every entry of
    the state by its diagonal entry at the row coordinates and the
    conjugate of its diagonal entry at the column coordinates. *)
Lemma diagonal_kraus_conjugation (K state : tensor) (f : nat -> C) (idx : list nat) :
  (forall a b, data K [a; b] = if a =? b then f a else c0) ->
  valid_index (repeat 2 (2 * N)) idx ->
  kraus_conjugation [K] state N ws idx
  = cmul (cmul (f (ravel (repeat 2 (length ws)) (gather idx ws))) (data state idx))
         (cconj (f (ravel (repeat 2 (length ws)) (gather idx (shifted N ws))))).
Proof.
  intros HK Hidx. set (k := length ws).
  assert (Hlen : length idx = 2 * N).
  { apply valid_index_length in Hidx. rewrite repeat_length in Hidx. exact Hidx. }
  assert (Hrow : valid_index (repeat 2 k) (gather idx ws)).
  { apply (gather_valid (2 * N)); [exact Hidx |].
    intros w Hw. apply ws_lt in Hw. lia. }
  assert (Hcol : valid_index (repeat 2 k) (gather idx (shifted N ws))).
  { unfold k. rewrite <- (shifted_length N ws).
    apply (gather_valid (2 * N)); [exact Hidx |].
    intros w Hw. apply (@shifted_ge N ws ws_lt) in Hw. lia. }
  unfold kraus_conjugation. cbv zeta. fold k.
  unfold sum_list at 1. cbn [fold_right].
  set (gr := gather idx ws) in *. set (gc := gather idx (shifted N ws)) in *.
  transitivity
    (sum_list (all_indices (repeat 2 k)) (fun r =>
       if ravel (repeat 2 k) gr =? ravel (repeat 2 k) r
       then cmul (cmul (f (ravel (repeat 2 k) gr))
                       (data state (updated_index N idx ws r gc)))
                 (cconj (f (ravel (repeat 2 k) gc)))
       else c0)).
  - transitivity
      (sum_list (all_indices (repeat 2 k)) (fun r =>
         sum_list (all_indices (repeat 2 k)) (fun c =>
           if ravel (repeat 2 k) gc =? ravel (repeat 2 k) c
           then cmul (cmul (data K [ravel (repeat 2 k) gr; ravel (repeat 2 k) r])
                           (data state (updated_index N idx ws r c)))
                     (cconj (f (ravel (repeat 2 k) gc)))
           else c0))).
    + match goal with |- cadd ?x c0 = _ => transitivity x; [ring |] end.
      apply sum_list_ext. intros r _. apply sum_list_ext. intros c _.
      rewrite (HK (ravel (repeat 2 k) gc) (ravel (repeat 2 k) c)).
      destruct (ravel (repeat 2 k) gc =? ravel (repeat 2 k) c); [reflexivity |].
      rewrite cconj_zero. ring.
    + apply sum_list_ext. intros r _.
      rewrite (sum_indices_select (repeat 2 k) gc _ Hcol).
      rewrite (HK (ravel (repeat 2 k) gr) (ravel (repeat 2 k) r)).
      destruct (ravel (repeat 2 k) gr =? ravel (repeat 2 k) r); [reflexivity | ring].
  - rewrite (sum_indices_select (repeat 2 k) gr _ Hrow).
    unfold gr, gc. rewrite (updated_index_same idx Hlen). reflexivity.
Qed.

End Wires.

(** [np.diag(eigvals)]: the matrix of a diagonal operator. *)
Definition diagonal_matrix (eigvals : tensor) : tensor :=
  mkTensor [hd 0 (shape eigvals); hd 0 (shape eigvals)]
    (fun idx => if nth 0 idx 0 =? nth 1 idx 0 then data eigvals [nth 0 idx 0] else c0).

(** X14: the diagonal fast path computes what the general methods compute
    for the matrix of the operator: for the eigenvalues [e] of a diagonal
    operator, [_apply_diagonal_unitary e] and [_apply_channel [diag e]]
    and [_apply_channel_tensordot [diag e]] return the same array. *)
Theorem diagonal_fast_path_agrees (eigvals state : tensor) (ws : Wires) (d : device)
    (device_wires : list nat) :
  2 * num_wires d + 2 * length ws + 1 <= 52 ->
  NoDup ws ->
  map_labels (wires d) ws = Some device_wires ->
  _state d = Some state ->
  shape state = repeat 2 (2 * num_wires d) ->
  shape eigvals = [2 ^ length ws] ->
  exists t t1 t2,
    _apply_diagonal_unitary eigvals ws d = (inr tt, set_state (Some t) d)
    /\ _apply_channel [diagonal_matrix eigvals] ws d = (inr tt, set_state (Some t1) d)
    /\ _apply_channel_tensordot [diagonal_matrix eigvals] ws d
       = (inr tt, set_state (Some t2) d)
    /\ tensor_eq t t1 /\ tensor_eq t t2.
Proof.
  intros Hfit Hnd Hmap Hs Hshape He.
  destruct (map_labels_spec _ _ Hmap) as [Hlen _].
  pose proof (@map_labels_NoDup (wires d) ws device_wires Hmap Hnd) as Hnd'.
  pose proof (@map_labels_lt (wires d) ws device_wires Hmap) as Hlt.
  rewrite <- Hlen in Hfit, He.
  assert (HK : forall K, In K [diagonal_matrix eigvals] ->
                 shape K = [2 ^ length device_wires; 2 ^ length device_wires]).
  { intros K [<- | []]. unfold diagonal_matrix. cbn [shape]. rewrite He. reflexivity. }
  destruct (@apply_diagonal_unitary_einsum_spec Sc (num_wires d) eigvals state
              device_wires ltac:(lia) Hlt He Hshape) as (t & E & S & D).
  destruct (apply_channel_einsum_entries (num_wires d) device_wires
              (diagonal_matrix eigvals) [] state Hnd' Hlt Hfit HK Hshape)
    as (t1 & E1 & S1 & D1).
  destruct (apply_channel_tensordot_entries (num_wires d) device_wires state
              Hnd' Hlt Hshape (diagonal_matrix eigvals) [] HK)
    as (t2 & E2 & S2 & D2).
  assert (Hsame : forall idx, valid_index (repeat 2 (2 * num_wires d)) idx ->
            kraus_conjugation [diagonal_matrix eigvals] state (num_wires d)
              device_wires idx
            = diagonal_conjugation eigvals state (num_wires d) device_wires idx).
  { intros idx Hidx.
    apply (diagonal_kraus_conjugation (num_wires d) device_wires Hlt
             (diagonal_matrix eigvals) state (fun a => data eigvals [a]) idx);
      [| exact Hidx].
    intros a b. reflexivity. }
  exists t, t1, t2.
  split; [| split; [| split; [| split]]].
  - unfold _apply_diagonal_unitary.
    rewrite (bind_ok _ _ (map_wires_run _ _ Hmap)), (bind_ok _ _ (get_run d)).
    rewrite (bind_ok _ _ (current_state_run _ Hs)), E. reflexivity.
  - apply (einsum_method_run _ _ _ _ _ _ Hmap Hs E1).
  - apply (tensordot_method_run _ _ _ _ _ _ Hmap Hs E2).
  - split; [congruence |]. intros idx Hidx. rewrite S in Hidx.
    rewrite (D idx Hidx), (D1 idx Hidx). symmetry. apply Hsame, Hidx.
  - split; [congruence |]. intros idx Hidx. rewrite S in Hidx.
    rewrite (D idx Hidx), (D2 idx Hidx). symmetry. apply Hsame, Hidx.
Qed.

(** X15: the identity matrix changes nothing: for scalars whose
    conjugation fixes 1, a gate whose matrix is the identity on its wires,
    applied through the dispatcher, stores a state with the entries it
    found. *)
Theorem identity_matrix_changes_nothing (g : gate) (d : device)
    (device_wires : list nat) (state : tensor) :
  cconj c1 = c1 ->
  within_letters d ->
  contracted_gate g d device_wires state ->
  g_kind g = Unitary (identity_matrix (2 ^ length (g_wires g))) ->
  exists t,
    _apply_gate g d = (inr tt, set_state (Some t) d) /\ tensor_eq t state.
Proof.
  intros Hone Hsize Hgate Hkind.
  destruct (gate_entries g d device_wires state Hsize Hgate)
    as (t & E & S & D).
  destruct Hgate as (Hnd & Hmap & Hs & Hshape & _).
  pose proof (@map_labels_NoDup (wires d) (g_wires g) device_wires Hmap Hnd) as Hnd'.
  pose proof (@map_labels_lt (wires d) (g_wires g) device_wires Hmap) as Hlt.
  exists t. split; [exact E |]. split; [congruence |].
  intros idx Hidx. rewrite S in Hidx. rewrite (D idx Hidx), Hkind.
  cbn [_get_kraus].
  rewrite (diagonal_kraus_conjugation (num_wires d) device_wires Hlt
             (identity_matrix (2 ^ length (g_wires g))) state (fun _ => c1) idx);
    [| intros a b; reflexivity | exact Hidx].
  rewrite Hone. ring.
Qed.

End DiagonalMatrices.

Lemma diagonal_fast_path_agrees_witness :
  exists t t1 t2,
    _apply_diagonal_unitary phase_eigvals [LInt 0] plus_device
    = (inr tt, set_state (Some t) plus_device)
    /\ _apply_channel [diagonal_matrix phase_eigvals] [LInt 0] plus_device
       = (inr tt, set_state (Some t1) plus_device)
    /\ _apply_channel_tensordot [diagonal_matrix phase_eigvals] [LInt 0] plus_device
       = (inr tt, set_state (Some t2) plus_device)
    /\ tensor_eq t t1 /\ tensor_eq t t2.
Proof.
  apply (@diagonal_fast_path_agrees GaussScalar phase_eigvals plus_state [LInt 0]
           plus_device [0]); try reflexivity.
  - cbn. lia.
  - repeat constructor. intros [].
Defined.

Definition identity_on_one : @gate GaussScalar :=
  mkGate "QubitUnitary" (Unitary (identity_matrix 2)) [LInt 0].

Lemma identity_matrix_changes_nothing_witness :
  exists t,
    _apply_gate identity_on_one plus_device = (inr tt, set_state (Some t) plus_device)
    /\ tensor_eq t plus_state.
Proof.
  apply (@identity_matrix_changes_nothing GaussScalar identity_on_one plus_device
           [0] plus_state).
  - reflexivity.
  - right. cbn. lia.
  - repeat split; try reflexivity.
    + repeat constructor. intros [].
    + discriminate.
    + intros K [<- | []]. reflexivity.
    + discriminate.
  - reflexivity.
Defined.

(** ** Lists of Kraus operators *)

Section KrausLists.
Context {Sc : Scalar}.

Add Ring scalar_ring_lists : (@scalar_ring_theory Sc).

Lemma sum_list_perm (A : Type) (l l' : list A) (f : A -> C) :
  Permutation l l' -> sum_list l f = sum_list l' f.
Proof.
  unfold sum_list. induction 1; cbn [fold_right].
  - reflexivity.
  - rewrite IHPermutation. reflexivity.
  - ring.
  - congruence.
Qed.

Lemma kraus_conjugation_perm (ks ks' : list tensor) (state : tensor) (N : nat)
    (ws idx : list nat) :
  Permutation ks ks' ->
  kraus_conjugation ks state N ws idx = kraus_conjugation ks' state N ws idx.
Proof. intros H. unfold kraus_conjugation. apply sum_list_perm, H. Qed.

Lemma kraus_conjugation_app (ks ks' : list tensor) (state : tensor) (N : nat)
    (ws idx : list nat) :
  kraus_conjugation (ks ++ ks') state N ws idx
  = cadd (kraus_conjugation ks state N ws idx) (kraus_conjugation ks' state N ws idx).
Proof. unfold kraus_conjugation. apply sum_list_app. Qed.

(** The same gate with another list of Kraus operators. *)
Definition with_kraus (g : gate) (ks : list tensor) : gate :=
  mkGate (g_name g) (Channel ks) (g_wires g).

Lemma contracted_with_kraus (g : gate) (ks : list tensor) (d : device)
    (device_wires : list nat) (state : tensor) :
  contracted_gate g d device_wires state ->
  ks <> [] ->
  (forall K, In K ks -> shape K = [2 ^ length (g_wires g); 2 ^ length (g_wires g)]) ->
  contracted_gate (with_kraus g ks) d device_wires state.
Proof.
  intros (Hnd & Hmap & Hs & Hshape & _ & _ & Hname & _) Hne Hk.
  unfold contracted_gate, with_kraus. cbn [g_wires g_kind g_name _get_kraus].
  repeat split; try assumption. intros e. discriminate.
Qed.

(** X16: the order of the Kraus operators of a channel does not matter:
    the dispatcher stores the same array for any rearrangement of the
    list. *)
Theorem kraus_order_is_irrelevant (g : gate) (ks ks' : list tensor) (d : device)
    (device_wires : list nat) (state : tensor) :
  within_letters d ->
  contracted_gate (with_kraus g ks) d device_wires state ->
  Permutation ks ks' ->
  exists t t',
    _apply_gate (with_kraus g ks) d = (inr tt, set_state (Some t) d)
    /\ _apply_gate (with_kraus g ks') d = (inr tt, set_state (Some t') d)
    /\ tensor_eq t t'.
Proof.
  intros Hsize Hg HP.
  assert (Hg' : contracted_gate (with_kraus g ks') d device_wires state).
  { destruct Hg as (Hnd & Hmap & Hs & Hshape & Hne & Hk & Hname & Hkind).
    cbn [with_kraus g_wires g_kind g_name _get_kraus] in *.
    unfold contracted_gate. cbn [with_kraus g_wires g_kind g_name _get_kraus].
    repeat split; try assumption.
    - intros E. subst ks'. apply Permutation_sym, Permutation_nil in HP. contradiction.
    - intros K HK. apply Hk. apply (Permutation_in K (Permutation_sym HP) HK).
    - intros e. discriminate. }
  destruct (gate_entries _ d device_wires state Hsize Hg)
    as (t & E & S & D).
  destruct (gate_entries _ d device_wires state Hsize Hg')
    as (t' & E' & S' & D').
  exists t, t'. split; [exact E |]. split; [exact E' |].
  split; [congruence |]. intros idx Hidx. rewrite S in Hidx.
  rewrite (D idx Hidx), (D' idx Hidx). cbn [with_kraus g_kind _get_kraus].
  apply kraus_conjugation_perm, HP.
Qed.

(** X17: a channel is the sum of its parts: for two gates on the same
    wires, the gate whose Kraus operators are those of both stores, entry
    by entry, the sum of the arrays the two gates store. *)
Theorem channel_of_joined_lists (g : gate) (ks1 ks2 : list tensor) (d : device)
    (device_wires : list nat) (state : tensor) :
  within_letters d ->
  contracted_gate (with_kraus g ks1) d device_wires state ->
  contracted_gate (with_kraus g ks2) d device_wires state ->
  exists t1 t2 t,
    _apply_gate (with_kraus g ks1) d = (inr tt, set_state (Some t1) d)
    /\ _apply_gate (with_kraus g ks2) d = (inr tt, set_state (Some t2) d)
    /\ _apply_gate (with_kraus g (ks1 ++ ks2)) d = (inr tt, set_state (Some t) d)
    /\ shape t = shape t1 /\ shape t = shape t2
    /\ forall idx, valid_index (shape t) idx ->
         data t idx = cadd (data t1 idx) (data t2 idx).
Proof.
  intros Hsize Hg1 Hg2.
  assert (Hg : contracted_gate (with_kraus g (ks1 ++ ks2)) d device_wires state).
  { destruct Hg1 as (Hnd & Hmap & Hs & Hshape & Hne & Hk & Hname & Hkind).
    destruct Hg2 as (_ & _ & _ & _ & _ & Hk2 & _ & _).
    cbn [with_kraus g_wires g_kind g_name _get_kraus] in *.
    unfold contracted_gate. cbn [with_kraus g_wires g_kind g_name _get_kraus].
    repeat split; try assumption.
    - intros E. apply app_eq_nil in E as [E _]. contradiction.
    - intros K HK. apply in_app_or in HK as [HK | HK]; [apply Hk | apply Hk2]; exact HK.
    - intros e. discriminate. }
  destruct (gate_entries _ d device_wires state Hsize Hg1)
    as (t1 & E1 & S1 & D1).
  destruct (gate_entries _ d device_wires state Hsize Hg2)
    as (t2 & E2 & S2 & D2).
  destruct (gate_entries _ d device_wires state Hsize Hg)
    as (t & E & S & D).
  exists t1, t2, t. repeat split; try assumption; try congruence.
  intros idx Hidx. rewrite S in Hidx.
  rewrite (D idx Hidx), (D1 idx Hidx), (D2 idx Hidx).
  cbn [with_kraus g_kind _get_kraus]. apply kraus_conjugation_app.
Qed.

Lemma map_wires_fails (ws : Wires) (d : device) :
  map_labels (wires d) ws = None -> map_wires ws d = (inl WireError, d).
Proof.
  intros H. unfold map_wires. rewrite (bind_ok _ _ (get_run d)), H. reflexivity.
Qed.

Lemma current_state_fails (d : device) :
  _state d = None -> current_state d = (inl (TypeError "NoneType"), d).
Proof.
  intros H. unfold current_state. rewrite (bind_ok _ _ (get_run d)), H. reflexivity.
Qed.

(** X18: a channel with no Kraus operator is never applied: whatever the
    device, its interface and the wires, a gate with an empty list of
    Kraus operators that is not the identity by name raises, and the
    device is as it was. *)
Theorem empty_channel_raises (g : gate) (d : device) :
  g_kind g = Channel [] ->
  String.eqb (g_name g) "Identity" = false ->
  exists e, _apply_gate g d = (inl e, d).
Proof.
  intros Hkind Hname. unfold _apply_gate. rewrite Hkind, Hname.
  rewrite (bind_ok _ _ (get_run d)). cbn [_get_kraus].
  assert (H1 : exists e, _apply_channel [] (g_wires g) d = (inl e, d)).
  { unfold _apply_channel.
    destruct (map_labels (wires d) (g_wires g)) as [cw |] eqn:Em.
    - rewrite (bind_ok _ _ (map_wires_run _ _ Em)), (bind_ok _ _ (get_run d)).
      destruct (_state d) as [st |] eqn:Es.
      + rewrite (bind_ok _ _ (current_state_run _ Es)). exists ArrayError. reflexivity.
      + rewrite (bind_err _ _ (current_state_fails _ Es)). eexists. reflexivity.
    - rewrite (bind_err _ _ (map_wires_fails _ _ Em)). eexists. reflexivity. }
  assert (H2 : exists e, _apply_channel_tensordot [] (g_wires g) d = (inl e, d)).
  { unfold _apply_channel_tensordot.
    destruct (map_labels (wires d) (g_wires g)) as [cw |] eqn:Em.
    - rewrite (bind_ok _ _ (map_wires_run _ _ Em)), (bind_ok _ _ (get_run d)).
      destruct (_state d) as [st |] eqn:Es.
      + rewrite (bind_ok _ _ (current_state_run _ Es)). exists ArrayError. reflexivity.
      + rewrite (bind_err _ _ (current_state_fails _ Es)). eexists. reflexivity.
    - rewrite (bind_err _ _ (map_wires_fails _ _ Em)). eexists. reflexivity. }
  destruct (_ || _); assumption.
Qed.

End KrausLists.

Definition one_wire_channel : @gate GaussScalar :=
  mkGate "QubitChannel" (Channel []) [LInt 0].

Lemma one_wire_channel_contracted (ks : list tensor) :
  ks <> [] -> (forall K, In K ks -> shape K = [2; 2]) ->
  contracted_gate (with_kraus one_wire_channel ks) plus_device [0] plus_state.
Proof.
  intros Hne Hk. repeat split; try reflexivity; try assumption.
  - repeat constructor. intros [].
  - discriminate.
Qed.

Lemma kraus_order_is_irrelevant_witness :
  exists t t',
    _apply_gate (with_kraus one_wire_channel [PauliX_matrix; identity_matrix 2])
      plus_device = (inr tt, set_state (Some t) plus_device)
    /\ _apply_gate (with_kraus one_wire_channel [identity_matrix 2; PauliX_matrix])
         plus_device = (inr tt, set_state (Some t') plus_device)
    /\ tensor_eq t t'.
Proof.
  apply (@kraus_order_is_irrelevant GaussScalar one_wire_channel
           [PauliX_matrix; identity_matrix 2] [identity_matrix 2; PauliX_matrix]
           plus_device [0] plus_state).
  - right. cbn. lia.
  - apply one_wire_channel_contracted; [discriminate |].
    intros K [<- | [<- | []]]; reflexivity.
  - apply perm_swap.
Defined.

Lemma channel_of_joined_lists_witness :
  exists t1 t2 t,
    _apply_gate (with_kraus one_wire_channel [PauliX_matrix]) plus_device
    = (inr tt, set_state (Some t1) plus_device)
    /\ _apply_gate (with_kraus one_wire_channel [identity_matrix 2]) plus_device
       = (inr tt, set_state (Some t2) plus_device)
    /\ _apply_gate (with_kraus one_wire_channel ([PauliX_matrix] ++ [identity_matrix 2]))
         plus_device = (inr tt, set_state (Some t) plus_device)
    /\ shape t = shape t1 /\ shape t = shape t2
    /\ forall idx, valid_index (shape t) idx ->
         data t idx = Gauss.add (data t1 idx) (data t2 idx).
Proof.
  apply (@channel_of_joined_lists GaussScalar one_wire_channel
           [PauliX_matrix] [identity_matrix 2] plus_device [0] plus_state).
  - right. cbn. lia.
  - apply one_wire_channel_contracted; [discriminate |].
    intros K [<- | []]; reflexivity.
  - apply one_wire_channel_contracted; [discriminate |].
    intros K [<- | []]; reflexivity.
Defined.

Lemma empty_channel_raises_witness :
  exists e, _apply_gate one_wire_channel plus_device = (inl e, plus_device).
Proof.
  apply (@empty_channel_raises GaussScalar one_wire_channel plus_device);
    reflexivity.
Defined.

(** ** State preparation *)

Section Enumeration.
Context {Sc : Scalar}.

Lemma seq_blocks (d P : nat) :
  seq 0 (d * P) = flat_map (fun i => map (fun m => i * P + m) (seq 0 P)) (seq 0 d).
Proof.
  induction d as [| d IH]; [reflexivity |].
  replace (S d * P) with (d * P + P) by lia.
  rewrite seq_app, IH, seq_S, flat_map_app. cbn [flat_map Nat.add].
  rewrite app_nil_r. f_equal.
  rewrite <- (map_add_seq (d * P) P). reflexivity.
Qed.

Lemma map_flat_map (A B D : Type) (f : B -> D) (g : A -> list B) (l : list A) :
  map f (flat_map g l) = flat_map (fun x => map f (g x)) l.
Proof.
  induction l as [| a l IH]; [reflexivity |].
  cbn [flat_map]. rewrite map_app, IH. reflexivity.
Qed.

(** The multi-indices of a shape are listed in the order of their flat
    positions. *)
Lemma all_indices_unravel (s : list nat) :
  all_indices s = map (unravel s) (seq 0 (prod_shape s)).
Proof.
  induction s as [| d s IH]; [reflexivity |].
  cbn [all_indices]. change (prod_shape (d :: s)) with (d * prod_shape s).
  rewrite seq_blocks, IH, map_flat_map. apply flat_map_ext. intros i.
  rewrite !map_map. apply map_ext_in. intros m Hm. apply in_seq in Hm.
  cbn [unravel]. fold (prod_shape s).
  rewrite Nat.div_add_l by lia. rewrite Nat.div_small by lia.
  rewrite Nat.add_0_r. f_equal.
  rewrite Nat.add_comm, Nat.Div0.mod_add, Nat.mod_small by lia. reflexivity.
Qed.

Lemma find_position (indices : list nat) (a i : nat) :
  match find (fun p => snd p =? i) (combine (seq a (length indices)) indices) with
  | Some p => a <= fst p /\ nth_error indices (fst p - a) = Some i
  | None => ~ In i indices
  end.
Proof.
  revert a. induction indices as [| x l IH]; intros a; cbn [length seq combine find].
  - intros [].
  - cbn [snd]. destruct (x =? i) eqn:E.
    + apply Nat.eqb_eq in E. subst x. cbn [fst]. rewrite Nat.sub_diag. split; [lia | reflexivity].
    + apply Nat.eqb_neq in E. specialize (IH (S a)).
      destruct (find _ _) as [p |].
      * destruct IH as [Ha Hn]. split; [lia |].
        replace (fst p - a) with (S (fst p - S a)) by lia. exact Hn.
      * intros [H | H]; [contradiction | exact (IH H)].
Qed.

(** [scatter] at a position that is written once. *)
Lemma scatter_written (indices : list nat) (updates : tensor) (n j : nat) :
  NoDup indices -> j < length indices ->
  data (scatter indices updates n) [nth j indices 0] = data updates [j].
Proof.
  intros Hnd Hj. unfold scatter. cbn [data nth].
  pose proof (find_position indices 0 (nth j indices 0)) as H.
  destruct (find _ _) as [p |].
  - destruct H as [_ Hn]. rewrite Nat.sub_0_r in Hn.
    f_equal. f_equal.
    assert (Hp : fst p < length indices).
    { apply nth_error_Some. rewrite Hn. discriminate. }
    apply (proj1 (NoDup_nth indices 0) Hnd (fst p) j Hp Hj).
    apply nth_error_nth with (d := 0) in Hn. exact Hn.
  - exfalso. apply H. apply nth_In. exact Hj.
Qed.

Lemma scatter_unwritten (indices : list nat) (updates : tensor) (n i : nat) :
  ~ In i indices -> data (scatter indices updates n) [i] = c0.
Proof.
  intros Hi. unfold scatter. cbn [data nth].
  pose proof (find_position indices 0 i) as H.
  destruct (find _ _) as [p |]; [| reflexivity].
  destruct H as [_ Hn]. exfalso. apply Hi. apply nth_error_In in Hn. exact Hn.
Qed.

Lemma is_sorted_seq (a n : nat) : is_sorted (seq a n) = true.
Proof.
  revert a. induction n as [| n IH]; intros a; [reflexivity |].
  cbn [seq is_sorted]. specialize (IH (S a)).
  destruct n as [| n]; [reflexivity |].
  cbn [seq] in *. rewrite IH, andb_true_r. apply Nat.leb_le. lia.
Qed.

(** A sorted list without repetition of [n] numbers from [b] to
    [b + n - 1] is the list of these numbers. *)
Lemma sorted_range (l : list nat) (b : nat) :
  is_sorted l = true -> NoDup l ->
  (forall x, In x l -> b <= x < b + length l) ->
  l = seq b (length l).
Proof.
  revert b. induction l as [| x l IH]; intros b Hs Hnd Hr; [reflexivity |].
  inversion Hnd as [| ? ? Hx Hl]; subst.
  assert (Hs' : is_sorted l = true).
  { cbn [is_sorted] in Hs. destruct l as [| y l']; [reflexivity |].
    apply andb_prop in Hs as [_ Hs]. exact Hs. }
  assert (Hhead : forall y l', l = y :: l' -> x <= y).
  { intros y l' ->. cbn [is_sorted] in Hs. apply andb_prop in Hs as [Hs _].
    apply Nat.leb_le in Hs. exact Hs. }
  assert (Htail : l = seq (S b) (length l)).
  { apply IH; [exact Hs' | exact Hl |].
    intros y Hy. pose proof (Hr y (or_intror Hy)) as Hy'. cbn [length] in Hy'.
    assert (x <> y) by (intros ->; contradiction).
    pose proof (Hr x (or_introl eq_refl)) as Hxb.
    destruct l as [| z l']; [contradiction |].
    pose proof (Hhead z l' eq_refl) as Hxz.
    assert (Hzy : z <= y).
    { clear - Hs' Hy. revert z Hs' Hy. induction l' as [| w l'' IHl]; intros z Hs' Hy.
      - destruct Hy as [-> | []]. lia.
      - cbn [is_sorted] in Hs'. apply andb_prop in Hs' as [Hzw Hs''].
        apply Nat.leb_le in Hzw. destruct Hy as [-> | Hy]; [lia |].
        specialize (IHl w Hs'' Hy). lia. }
    assert (x <> z) by (intros ->; apply Hx; left; reflexivity).
    lia. }
  cbn [length seq]. f_equal; [| exact Htail].
  pose proof (Hr x (or_introl eq_refl)) as Hxb. cbn [length] in Hxb.
  destruct l as [| z l']; [cbn [length] in Hxb; lia |].
  pose proof (Hhead z l' eq_refl) as Hxz.
  cbn [length seq] in Htail. injection Htail as Hz _.
  assert (x <> z) by (intros ->; apply Hx; left; reflexivity).
  lia.
Qed.

End Enumeration.

Section Embedding.
Context {Sc : Scalar}.

Variable N : nat.
Variable ws : list nat.
Hypothesis ws_NoDup : NoDup ws.
Hypothesis ws_lt : forall w, In w ws -> w < N.

(** The basis state of all wires that has the bits [b] on the wires [ws]
    and 0 elsewhere: a row of [unravelled_indices]. *)
Definition place (b : list nat) : list nat := operand_index N ws [] b [].

(** Whether a basis state of all wires is 0 outside the wires [ws]. *)
Definition zero_outside (r : list nat) : bool :=
  forallb (fun p => memn p ws || (nth p r 0 =? 0)) (seq 0 N).

Lemma place_at (b : list nat) (p : nat) :
  p < N ->
  nth p (place b) 0 = if memn p ws then nth (index_of p ws) b 0 else 0.
Proof.
  intros Hp. unfold place, operand_index. rewrite nth_map_seq by exact Hp.
  destruct (memn p ws); reflexivity.
Qed.

Lemma place_length (b : list nat) : length (place b) = N.
Proof. unfold place, operand_index. rewrite length_map, length_seq. reflexivity. Qed.

Lemma valid_bits (n : nat) (l : list nat) :
  length l = n -> (forall p, p < n -> nth p l 0 < 2) -> valid_index (repeat 2 n) l.
Proof.
  revert l. induction n as [| n IH]; intros [| x l] Hl H; try discriminate;
    [exact I |].
  cbn [repeat valid_index]. split.
  - apply (H 0). lia.
  - apply IH; [cbn in Hl; lia |]. intros p Hp. apply (H (S p)). lia.
Qed.

Lemma place_valid (b : list nat) :
  valid_index (repeat 2 (length ws)) b -> valid_index (repeat 2 N) (place b).
Proof.
  intros Hb. apply valid_bits; [apply place_length |].
  intros p Hp. rewrite place_at by exact Hp.
  destruct (memn p ws) eqn:E; [| lia].
  apply memn_In in E. apply (valid_nth (length ws)); [exact Hb |].
  apply index_of_lt. exact E.
Qed.

Lemma gather_place (b : list nat) :
  valid_index (repeat 2 (length ws)) b -> gather (place b) ws = b.
Proof.
  intros Hb. pose proof (valid_index_length _ _ Hb) as Hl.
  rewrite repeat_length in Hl.
  apply map_nth_values; [exact Hl |].
  intros j Hj.
  assert (Hin : In (nth j ws 0) ws) by (apply nth_In; exact Hj).
  rewrite place_at by (apply ws_lt; exact Hin).
  rewrite (proj2 (memn_In _ _) Hin), index_of_nth by assumption. reflexivity.
Qed.

Lemma place_zero_outside (b : list nat) : zero_outside (place b) = true.
Proof.
  unfold zero_outside. apply forallb_forall. intros p Hp. apply in_seq in Hp.
  rewrite place_at by lia. destruct (memn p ws); [reflexivity |].
  rewrite orb_false_l. reflexivity.
Qed.

Lemma place_gather (r : list nat) :
  length r = N -> zero_outside r = true -> place (gather r ws) = r.
Proof.
  intros Hl Hz. apply nth_ext with (d := 0) (d' := 0).
  - rewrite place_length. symmetry. exact Hl.
  - intros p Hp. rewrite place_length in Hp. rewrite place_at by exact Hp.
    destruct (memn p ws) eqn:E.
    + apply memn_In in E. rewrite nth_gather by (apply index_of_lt; exact E).
      rewrite nth_index_of by exact E. reflexivity.
    + unfold zero_outside in Hz.
      assert (Hin : In p (seq 0 N)) by (apply in_seq; lia).
      pose proof (proj1 (forallb_forall _ _) Hz p Hin) as H. cbv beta in H.
      rewrite E, orb_false_l in H. symmetry. apply Nat.eqb_eq, H.
Qed.

(** The flat positions that [scatter] writes. *)
Definition ravelled_indices : list nat :=
  map (ravel (bits N)) (map place (all_indices (bits (length ws)))).

Lemma ravelled_indices_length : length ravelled_indices = 2 ^ length ws.
Proof.
  unfold ravelled_indices, bits.
  rewrite !length_map, all_indices_unravel, length_map, length_seq.
  apply prod_shape_repeat2.
Qed.

Lemma ravelled_indices_NoDup : NoDup ravelled_indices.
Proof.
  unfold ravelled_indices. rewrite map_map.
  apply Finite.Injective_map_NoDup_in; [| apply all_indices_NoDup].
  intros b b' Hb Hb' E.
  apply all_indices_valid in Hb. apply all_indices_valid in Hb'.
  rewrite <- (gather_place b Hb), <- (gather_place b' Hb'). f_equal.
  rewrite <- (unravel_ravel (bits N) (place b)) by (apply place_valid; exact Hb).
  rewrite E. apply unravel_ravel, place_valid, Hb'.
Qed.

Lemma nth_ravelled_indices (g : list nat) :
  valid_index (repeat 2 (length ws)) g ->
  nth (ravel (repeat 2 (length ws)) g) ravelled_indices 0
  = ravel (bits N) (place g).
Proof.
  intros Hg. pose proof (ravel_lt _ _ Hg) as Hlt.
  unfold ravelled_indices, bits. rewrite map_map, all_indices_unravel, map_map.
  rewrite nth_map_seq by exact Hlt.
  rewrite unravel_ravel by exact Hg. reflexivity.
Qed.

(** The amplitude of the embedded state vector at a basis state of all
    wires: the given amplitude at the bits of the wires [ws] when every
    other wire is 0, and 0 otherwise. *)
Definition embedded_amplitude (st : tensor) (r : list nat) : C :=
  if zero_outside r then data st [ravel (repeat 2 (length ws)) (gather r ws)]
  else c0.

Lemma scatter_embeds (st : tensor) (r : list nat) :
  valid_index (repeat 2 N) r ->
  data (scatter ravelled_indices st (2 ^ N)) [ravel (bits N) r]
  = embedded_amplitude st r.
Proof.
  intros Hr. pose proof (valid_index_length _ _ Hr) as Hl.
  rewrite repeat_length in Hl. unfold embedded_amplitude.
  destruct (zero_outside r) eqn:Ez.
  - assert (Hg : valid_index (repeat 2 (length ws)) (gather r ws))
      by (apply (gather_valid N); assumption).
    rewrite <- (place_gather r Hl Ez) at 1.
    rewrite <- (nth_ravelled_indices _ Hg).
    apply scatter_written; [apply ravelled_indices_NoDup |].
    rewrite ravelled_indices_length, <- prod_shape_repeat2. apply ravel_lt, Hg.
  - apply scatter_unwritten. intros Hin.
    unfold ravelled_indices in Hin. rewrite map_map in Hin.
    apply in_map_iff in Hin as (b & E & Hb). apply all_indices_valid in Hb.
    assert (Hp : place b = r).
    { rewrite <- (unravel_ravel (bits N) (place b)) by (apply place_valid; exact Hb).
      rewrite E. apply unravel_ravel, Hr. }
    rewrite <- Hp, place_zero_outside in Ez. discriminate.
Qed.

End Embedding.

Section StateVector.
Context {Sc : Scalar}.

Lemma ret_run (A : Type) (a : A) (d : device) : ret a d = (inr a, d).
Proof. reflexivity. Qed.

Lemma outer_entry (N : nat) (a : tensor) :
  shape a = [2 ^ N] ->
  exists t,
    reshape (outer a (conj a)) (repeat 2 (2 * N)) = Some t
    /\ shape t = repeat 2 (2 * N)
    /\ forall r c,
         valid_index (repeat 2 N) r -> valid_index (repeat 2 N) c ->
         data t (r ++ c)
         = cmul (data a [ravel (repeat 2 N) r])
                (cconj (data a [ravel (repeat 2 N) c])).
Proof.
  intros Ha.
  assert (Ho : outer a (conj a)
               = mkTensor [2 ^ N; 2 ^ N]
                   (fun idx => cmul (data a [nth 0 idx 0])
                                    (data (conj a) [nth 1 idx 0]))).
  { unfold outer. cbn [conj shape]. rewrite Ha. reflexivity. }
  rewrite Ho, reshape_square_to_tensor. eexists. split; [reflexivity |].
  split; [reflexivity |]. intros r c Hr Hc. cbn [data].
  rewrite (unravel_square N r c Hr Hc). reflexivity.
Qed.

Lemma full_wires_amplitude (N : nat) (st : tensor) (r : list nat) :
  valid_index (repeat 2 N) r ->
  embedded_amplitude N (seq 0 N) st r = data st [ravel (repeat 2 N) r].
Proof.
  intros Hr. pose proof (valid_index_length _ _ Hr) as Hl.
  rewrite repeat_length in Hl. unfold embedded_amplitude.
  assert (Hz : zero_outside N (seq 0 N) r = true).
  { unfold zero_outside. apply forallb_forall. intros p Hp.
    rewrite (proj2 (memn_In p (seq 0 N)) Hp). reflexivity. }
  rewrite Hz, length_seq. rewrite <- Hl at 2. rewrite gather_seq. reflexivity.
Qed.

(** X19: [StatePrep] of a normalized vector of [2^k] amplitudes on [k]
    distinct wires stores the outer product of the vector embedded in all
    wires: the amplitude of a basis state is the given amplitude at the
    bits of the [k] wires when every other wire is 0, and 0 otherwise.
    Nothing of the previous state remains; the wires that are not named
    are put in |0>; and the direct assignment for all wires in order is the
    same embedding. *)
Theorem state_vector_preparation (st : tensor) (ws : Wires) (d : device)
    (device_wires : list nat) :
  NoDup ws ->
  map_labels (wires d) ws = Some device_wires ->
  shape st = [2 ^ length ws] ->
  close_to_one (sum_range (2 ^ length ws)
                  (fun i => cmul (data st [i]) (cconj (data st [i])))) = true ->
  exists t,
    _apply_state_vector st ws d = (inr tt, set_state (Some t) d)
    /\ shape t = repeat 2 (2 * num_wires d)
    /\ forall r c,
         valid_index (repeat 2 (num_wires d)) r ->
         valid_index (repeat 2 (num_wires d)) c ->
         data t (r ++ c)
         = cmul (embedded_amplitude (num_wires d) device_wires st r)
                (cconj (embedded_amplitude (num_wires d) device_wires st c)).
Proof.
  intros Hnd Hmap Hshape Hnorm.
  destruct (map_labels_spec _ _ Hmap) as [Hlen _].
  pose proof (@map_labels_NoDup (wires d) ws device_wires Hmap Hnd) as Hnd'.
  pose proof (@map_labels_lt (wires d) ws device_wires Hmap) as Hlt.
  fold (num_wires d) in Hlt. rewrite <- Hlen in Hshape, Hnorm.
  unfold _apply_state_vector.
  rewrite (bind_ok _ _ (map_wires_run _ _ Hmap)), (bind_ok _ _ (get_run d)).
  unfold ndim. rewrite Hshape. cbn [length hd].
  rewrite !Nat.eqb_refl. cbn [negb orb when].
  rewrite (bind_ok _ _ (ret_run _ tt d)), Hnorm. cbn [negb when].
  rewrite (bind_ok _ _ (ret_run _ tt d)).
  destruct ((length device_wires =? num_wires d) && is_sorted device_wires) eqn:Eb.
  - apply andb_prop in Eb as [Ek Es]. apply Nat.eqb_eq in Ek.
    assert (Hdw : device_wires = seq 0 (num_wires d)).
    { rewrite <- Ek. apply sorted_range; [exact Es | exact Hnd' |].
      intros x Hx. apply Hlt in Hx. lia. }
    rewrite Ek in Hshape.
    destruct (outer_entry (num_wires d) st Hshape) as (t & E & S & D).
    exists t. rewrite E. split; [reflexivity |]. split; [exact S |].
    intros r c Hr Hc.
    rewrite (D r c Hr Hc), Hdw, !full_wires_amplitude by assumption. reflexivity.
  - set (st' := scatter (ravelled_indices (num_wires d) device_wires) st
                  (2 ^ num_wires d)).
    assert (Hst' : shape st' = [2 ^ num_wires d]) by reflexivity.
    destruct (outer_entry (num_wires d) st' Hst') as (t & E & S & D).
    exists t.
    change (map (ravel (bits (num_wires d)))
              (map (fun b => operand_index (num_wires d) device_wires [] b [])
                 (all_indices (bits (length device_wires)))))
      with (ravelled_indices (num_wires d) device_wires).
    fold st'. rewrite E. split; [reflexivity |]. split; [exact S |].
    intros r c Hr Hc. rewrite (D r c Hr Hc). unfold st'.
    change (repeat 2 (num_wires d)) with (bits (num_wires d)) at 1 2.
    rewrite !(scatter_embeds (num_wires d) device_wires Hnd' Hlt) by assumption.
    reflexivity.
Qed.

End StateVector.

(** The state vector |1>, as amplitudes. *)
Definition ket1_vector : @tensor GaussScalar :=
  mkTensor [2] (fun idx => if nth 0 idx 0 =? 1 then Gauss.one else Gauss.zero).

Lemma state_vector_preparation_witness :
  exists t,
    _apply_state_vector ket1_vector [LInt 1] two_wire_device
    = (inr tt, set_state (Some t) two_wire_device)
    /\ shape t = repeat 2 (2 * num_wires two_wire_device)
    /\ forall r c,
         valid_index (repeat 2 (num_wires two_wire_device)) r ->
         valid_index (repeat 2 (num_wires two_wire_device)) c ->
         data t (r ++ c)
         = Gauss.mul (embedded_amplitude (num_wires two_wire_device) [1] ket1_vector r)
             (Gauss.conj
                (embedded_amplitude (num_wires two_wire_device) [1] ket1_vector c)).
Proof.
  apply (@state_vector_preparation GaussScalar ket1_vector [LInt 1]
           two_wire_device [1]).
  - repeat constructor. intros [].
  - reflexivity.
  - reflexivity.
  - vm_compute. reflexivity.
Defined.

Section DensityMatrix.
Context {Sc : Scalar}.

Lemma flatten_square (D : nat) (st : tensor) :
  shape st = [D; D] ->
  exists m,
    reshape (flatten st) [D; D] = Some m
    /\ shape m = [D; D]
    /\ forall i j, i < D -> j < D -> data m [i; j] = data st [i; j].
Proof.
  intros Hs. unfold reshape, flatten. cbn [shape data]. rewrite Hs.
  replace (prod_shape [prod_shape [D; D]]) with (prod_shape [D; D])
    by (unfold prod_shape; cbn [fold_right]; lia).
  rewrite Nat.eqb_refl. eexists. split; [reflexivity |]. split; [reflexivity |].
  intros i j Hi Hj. cbn [data]. rewrite unravel_vector. cbn [nth].
  rewrite unravel_ravel by (cbn; lia). reflexivity.
Qed.

(** X20: [QubitDensityMatrix] on all wires in the order of the device, with
    a matrix of the size of the device and trace 1, stores the matrix entry
    by entry, row axes first, and, unlike the other state preparations,
    assigns it to the pre-rotated state too. *)
Theorem density_matrix_preparation_on_all_wires (st : tensor) (ws : Wires)
    (d : device) :
  map_labels (wires d) ws = Some (seq 0 (num_wires d)) ->
  shape st = [2 ^ num_wires d; 2 ^ num_wires d] ->
  close_to_one (trace st) = true ->
  exists t,
    _apply_density_matrix st ws d
    = (inr tt, set_pre_rotated_state (Some t) (set_state (Some t) d))
    /\ shape t = repeat 2 (2 * num_wires d)
    /\ forall r c,
         valid_index (repeat 2 (num_wires d)) r ->
         valid_index (repeat 2 (num_wires d)) c ->
         data t (r ++ c)
         = data st [ravel (repeat 2 (num_wires d)) r; ravel (repeat 2 (num_wires d)) c].
Proof.
  intros Hmap Hshape Htrace. set (N := num_wires d) in *.
  destruct (flatten_square (2 ^ N) st Hshape) as (m & Em & Sm & Dm).
  assert (Htr : trace m = trace st).
  { unfold trace. rewrite Sm, Hshape. cbn [nth]. rewrite Nat.min_id.
    unfold sum_range. apply sum_list_ext. intros i Hi. apply in_seq in Hi.
    apply Dm; lia. }
  unfold _apply_density_matrix.
  rewrite (bind_ok _ _ (map_wires_run _ _ Hmap)), (bind_ok _ _ (get_run d)).
  fold N. rewrite length_seq.
  assert (Hflat : hd 0 (shape (flatten st)) = (2 ^ N) ^ 2).
  { unfold flatten. cbn [shape hd]. rewrite Hshape. unfold prod_shape.
    cbn [fold_right]. cbn [Nat.pow]. lia. }
  rewrite Hflat, Nat.eqb_refl. cbn [negb when].
  rewrite (bind_ok _ _ (ret_run _ tt d)), Em. cbn [lift].
  rewrite (bind_ok _ _ (ret_run _ m d)), Htr, Htrace. cbn [negb when].
  rewrite (bind_ok _ _ (ret_run _ tt d)).
  rewrite Nat.eqb_refl, is_sorted_seq. cbn [andb].
  assert (Er : reshape (flatten st) (repeat 2 (2 * N))
               = Some (mkTensor (repeat 2 (2 * N))
                   (fun idx => data (flatten st)
                      (unravel (shape (flatten st)) (ravel (repeat 2 (2 * N)) idx))))).
  { unfold reshape. replace (prod_shape (shape (flatten st))) with (prod_shape (repeat 2 (2 * N))).
    - rewrite Nat.eqb_refl. reflexivity.
    - rewrite prod_shape_repeat2, <- pow2_square. unfold flatten. cbn [shape].
      rewrite Hshape. unfold prod_shape. cbn [fold_right]. lia. }
  rewrite Er. eexists. split; [reflexivity |]. split; [reflexivity |].
  intros r c Hr Hc. cbn [data]. unfold flatten at 1. cbn [data].
  unfold flatten at 1. cbn [shape]. rewrite unravel_vector. cbn [nth].
  rewrite Hshape, (unravel_square N r c Hr Hc). reflexivity.
Qed.

End DensityMatrix.

Lemma density_matrix_preparation_on_all_wires_witness :
  exists t,
    _apply_density_matrix ket1_matrix [LInt 0] plus_device
    = (inr tt, set_pre_rotated_state (Some t) (set_state (Some t) plus_device))
    /\ shape t = repeat 2 (2 * num_wires plus_device)
    /\ forall r c,
         valid_index (repeat 2 (num_wires plus_device)) r ->
         valid_index (repeat 2 (num_wires plus_device)) c ->
         data t (r ++ c)
         = data ket1_matrix [ravel (repeat 2 (num_wires plus_device)) r;
                             ravel (repeat 2 (num_wires plus_device)) c].
Proof.
  apply (@density_matrix_preparation_on_all_wires GaussScalar ket1_matrix [LInt 0]
           plus_device).
  - reflexivity.
  - reflexivity.
  - vm_compute. reflexivity.
Defined.

(** ** The execution configuration of the new device *)

Section ExecutionSetup.

Variable V : Type.
Variable rng prng_key : V.
Variable text : string.

(** [d.get(option)] on a dictionary of options. *)
Definition get_option (opt : string) (d : list (string * V)) : option V :=
  option_map snd (find (fun p => String.eqb opt (fst p)) d).

Lemma get_option_app (opt : string) (l l' : list (string * V)) :
  get_option opt (l ++ l')
  = match get_option opt l with Some v => Some v | None => get_option opt l' end.
Proof.
  unfold get_option. induction l as [| p l IH]; cbn [app find]; [reflexivity |].
  destruct (String.eqb opt (fst p)); [reflexivity | exact IH].
Qed.

Lemma has_option_get (opt : string) (l : list (string * V)) :
  has_option opt l = match get_option opt l with Some _ => true | None => false end.
Proof.
  unfold has_option, get_option. induction l as [| p l IH]; cbn [existsb find];
    [reflexivity |].
  destruct (String.eqb opt (fst p)); [reflexivity | exact IH].
Qed.

(** The options after the device has added its own. *)
Definition completed_options (opts : list (string * V)) : list (string * V) :=
  fold_left (fun acc opt =>
               if has_option opt acc then acc
               else acc ++ [(opt, device_attribute rng prng_key opt)])
            _device_options opts.

Lemma setup_result (c : ExecutionConfig V) :
  _setup_execution_config rng prng_key text c
  = match find (fun p => negb (name_in (fst p) _device_options)) (device_options c) with
    | Some p => inl (DeviceError ("device option " ++ fst p ++ " not present on " ++ text))
    | None =>
        inr (mkConfig
               (match gradient_method c with
                | Some m => if String.eqb m "best" then Some "backprop"%string
                            else gradient_method c
                | None => gradient_method c
                end)
               (Some (match gradient_method c with
                      | Some m => name_in m ["backprop"; "best"]%string
                      | None => false
                      end))
               (Some false)
               (match gradient_method c with
                | Some m => if name_in m ["best"; "backprop"]%string
                            then config_interface c else None
                | None => config_interface c
                end)
               (completed_options (device_options c)))
    end.
Proof. reflexivity. Qed.

Lemma find_first (A : Type) (P : A -> bool) (l : list A) (p : A) :
  find P l = Some p ->
  exists before after,
    l = before ++ p :: after /\ (forall q, In q before -> P q = false) /\ P p = true.
Proof.
  induction l as [| q l IH]; cbn [find]; [discriminate |].
  destruct (P q) eqn:Eq.
  - intros [= <-]. exists [], l. split; [reflexivity |]. split; [intros ? [] | exact Eq].
  - intros H. destruct (IH H) as (before & after & -> & Hb & Hp).
    exists (q :: before), after. split; [reflexivity |]. split; [| exact Hp].
    intros r [<- | Hr]; [exact Eq | apply Hb, Hr].
Qed.

(** X21: [_setup_execution_config] raises exactly when the configuration
    names a device option other than [rng] and [prng_key], and the
    [DeviceError] names the first such option. *)
Theorem setup_rejects_foreign_options (c : ExecutionConfig V) :
  ((exists c', _setup_execution_config rng prng_key text c = inr c')
   <-> forall p, In p (device_options c) -> fst p = "rng"%string \/ fst p = "prng_key"%string)
  /\ (forall e, _setup_execution_config rng prng_key text c = inl e ->
        exists before p after,
          device_options c = before ++ p :: after
          /\ (forall q, In q before -> fst q = "rng"%string \/ fst q = "prng_key"%string)
          /\ fst p <> "rng"%string /\ fst p <> "prng_key"%string
          /\ e = DeviceError ("device option " ++ fst p ++ " not present on " ++ text)).
Proof.
  rewrite setup_result.
  assert (Hname : forall n, name_in n _device_options = true
                            <-> n = "rng"%string \/ n = "prng_key"%string).
  { intros n. unfold name_in, _device_options. cbn [existsb].
    rewrite orb_false_r, orb_true_iff, !String.eqb_eq. reflexivity. }
  split.
  - destruct (find _ _) as [p |] eqn:E.
    + apply find_some in E as [Hin Hp]. apply negb_true_iff in Hp. split.
      * intros (c' & H). discriminate.
      * intros H. apply H, Hname in Hin. congruence.
    + split; [| intros _; eexists; reflexivity].
      intros _ p Hin. apply Hname.
      pose proof (find_none _ _ E p Hin) as Hp. apply negb_false_iff in Hp. exact Hp.
  - intros e He. destruct (find _ _) as [p |] eqn:E; [| discriminate].
    injection He as <-.
    apply find_first in E as (before & after & Hl & Hb & Hp).
    exists before, p, after. split; [exact Hl |].
    assert (Hnot : forall q : string * V,
                     negb (name_in (fst q) _device_options) = true ->
                     ~ (fst q = "rng"%string \/ fst q = "prng_key"%string)).
    { intros q Hq H. apply Hname in H. rewrite H in Hq. discriminate. }
    split.
    + intros q Hq. apply Hname. specialize (Hb q Hq).
      apply negb_false_iff in Hb. exact Hb.
    + repeat split; try reflexivity; intros H; apply (Hnot p Hp); [left | right]; exact H.
Qed.

Lemma completed_options_get (opts : list (string * V)) (opt : string) :
  get_option opt (completed_options opts)
  = match get_option opt opts with
    | Some v => Some v
    | None => if name_in opt _device_options
              then Some (device_attribute rng prng_key opt) else None
    end.
Proof.
  unfold completed_options, _device_options. cbn [fold_left].
  set (o1 := if has_option "rng" opts then opts
             else opts ++ [("rng"%string, device_attribute rng prng_key "rng")]).
  assert (H1 : get_option opt o1
               = match get_option opt opts with
                 | Some v => Some v
                 | None => if String.eqb opt "rng"
                           then Some (device_attribute rng prng_key opt) else None
                 end).
  { unfold o1. rewrite (has_option_get "rng" opts).
    destruct (get_option "rng" opts) as [v |] eqn:E.
    - destruct (get_option opt opts) eqn:E'; [reflexivity |].
      destruct (String.eqb opt "rng") eqn:Eo; [| reflexivity].
      apply String.eqb_eq in Eo. subst opt. congruence.
    - rewrite get_option_app. destruct (get_option opt opts); [reflexivity |].
      unfold get_option. cbn [find fst snd option_map].
      destruct (String.eqb opt "rng") eqn:Eo; [| reflexivity].
      apply String.eqb_eq in Eo. subst opt. reflexivity. }
  rewrite (has_option_get "prng_key" o1).
  unfold name_in. cbn [existsb]. rewrite orb_false_r.
  destruct (get_option "prng_key" o1) as [v |] eqn:E.
  - rewrite H1. destruct (get_option opt opts); [reflexivity |].
    destruct (String.eqb opt "rng") eqn:Eo; [reflexivity |]. cbn [orb].
    destruct (String.eqb opt "prng_key") eqn:Ep; [| reflexivity].
    apply String.eqb_eq in Ep. subst opt. rewrite H1 in E.
    destruct (get_option "prng_key" opts); [discriminate |].
    cbn in E. discriminate.
  - rewrite get_option_app, H1. destruct (get_option opt opts); [reflexivity |].
    destruct (String.eqb opt "rng") eqn:Eo; [reflexivity |]. cbn [orb].
    unfold get_option. cbn [find fst snd option_map].
    destruct (String.eqb opt "prng_key") eqn:Ep; [| reflexivity].
    apply String.eqb_eq in Ep. subst opt. reflexivity.
Qed.

Lemma completed_options_extend (opts : list (string * V)) :
  exists added, completed_options opts = opts ++ added.
Proof.
  unfold completed_options, _device_options. cbn [fold_left].
  destruct (has_option "rng" opts).
  - destruct (has_option "prng_key" opts); [exists []; symmetry; apply app_nil_r |].
    eexists. reflexivity.
  - destruct (has_option "prng_key" (opts ++ _)).
    + eexists. reflexivity.
    + rewrite <- app_assoc. eexists. reflexivity.
Qed.

(** X22: a configuration that [_setup_execution_config] returns has both
    device options: an option the user gave keeps the user's value, an
    option the user did not give gets the device's own generator or key;
    the user's entries stay in front, in their order. *)
Theorem setup_completes_device_options (c c' : ExecutionConfig V) :
  _setup_execution_config rng prng_key text c = inr c' ->
  (exists added, device_options c' = device_options c ++ added)
  /\ get_option "rng" (device_options c')
     = Some (match get_option "rng" (device_options c) with
             | Some v => v | None => rng end)
  /\ get_option "prng_key" (device_options c')
     = Some (match get_option "prng_key" (device_options c) with
             | Some v => v | None => prng_key end).
Proof.
  rewrite setup_result. destruct (find _ _); [discriminate |].
  intros [= <-]. cbn [device_options]. split; [apply completed_options_extend |].
  rewrite !completed_options_get. split.
  - destruct (get_option "rng" (device_options c)); reflexivity.
  - destruct (get_option "prng_key" (device_options c)); reflexivity.
Qed.

(** The gradient fields of a configuration that the setup returns. *)
Lemma setup_fields (c c' : ExecutionConfig V) :
  _setup_execution_config rng prng_key text c = inr c' ->
  gradient_method c' <> Some "best"%string
  /\ use_device_gradient c' = Some (supports_derivatives (Some c) None)
  /\ (gradient_method c' = Some "backprop"%string
      <-> supports_derivatives (Some c) None = true)
  /\ grad_on_execution c' = Some false.
Proof.
  rewrite setup_result. destruct (find _ _); [discriminate |].
  intros [= <-]. cbn [gradient_method use_device_gradient grad_on_execution].
  unfold supports_derivatives.
  destruct (gradient_method c) as [m |]; [| repeat split; try discriminate].
  unfold name_in. cbn [existsb]. rewrite orb_false_r.
  destruct (String.eqb m "best") eqn:Eb.
  - apply String.eqb_eq in Eb. subst m. cbn.
    repeat split; try discriminate; reflexivity.
  - destruct (String.eqb m "backprop") eqn:Ep; cbn [orb].
    + apply String.eqb_eq in Ep. subst m.
      repeat split; try discriminate; reflexivity.
    + apply String.eqb_neq in Eb. apply String.eqb_neq in Ep.
      repeat split; try congruence; try discriminate.
Qed.

(** X23: in a configuration that [_setup_execution_config] returns the
    gradient method is never [best]; the device gradient is used exactly
    when [supports_derivatives] holds for the given configuration, which is
    exactly when the returned gradient method is [backprop]; and gradients
    are not computed on execution. *)
Theorem setup_gradient_fields (c c' : ExecutionConfig V) :
  _setup_execution_config rng prng_key text c = inr c' ->
  gradient_method c' <> Some "best"%string
  /\ use_device_gradient c' = Some (supports_derivatives (Some c) None)
  /\ (gradient_method c' = Some "backprop"%string
      <-> supports_derivatives (Some c) None = true)
  /\ grad_on_execution c' = Some false.
Proof. exact (setup_fields c c'). Qed.

Lemma completed_options_fixed (opts : list (string * V)) :
  completed_options (completed_options opts) = completed_options opts.
Proof.
  unfold completed_options at 1. unfold _device_options. cbn [fold_left].
  assert (H1 : has_option "rng" (completed_options opts) = true).
  { rewrite has_option_get, completed_options_get.
    destruct (get_option "rng" opts); reflexivity. }
  assert (H2 : has_option "prng_key" (completed_options opts) = true).
  { rewrite has_option_get, completed_options_get.
    destruct (get_option "prng_key" opts); reflexivity. }
  rewrite H1, H2. reflexivity.
Qed.

Lemma completed_options_names (opts : list (string * V)) :
  (forall p, In p opts -> name_in (fst p) _device_options = true) ->
  forall p, In p (completed_options opts) -> name_in (fst p) _device_options = true.
Proof.
  intros H p. unfold completed_options, _device_options. cbn [fold_left].
  destruct (has_option "rng" opts).
  - destruct (has_option "prng_key" opts); [apply H |].
    intros Hin. apply in_app_or in Hin as [Hin | [<- | []]]; [apply H, Hin | reflexivity].
  - destruct (has_option "prng_key" (opts ++ _)); intros Hin.
    + apply in_app_or in Hin as [Hin | [<- | []]]; [apply H, Hin | reflexivity].
    + apply in_app_or in Hin as [Hin | [<- | []]]; [| reflexivity].
      apply in_app_or in Hin as [Hin | [<- | []]]; [apply H, Hin | reflexivity].
Qed.

(** X24: setting up a configuration twice is setting it up once:
    [_setup_execution_config] returns a configuration that it accepts and
    returns unchanged. *)
Theorem setup_is_idempotent (c c' : ExecutionConfig V) :
  _setup_execution_config rng prng_key text c = inr c' ->
  _setup_execution_config rng prng_key text c' = inr c'.
Proof.
  rewrite (setup_result c).
  destruct (find _ (device_options c)) eqn:E; [discriminate |].
  intros [= <-]. rewrite setup_result.
  cbn [gradient_method use_device_gradient grad_on_execution config_interface
       device_options].
  assert (Hfind : find (fun p => negb (name_in (fst p) _device_options))
                    (completed_options (device_options c)) = None).
  { destruct (find _ (completed_options _)) as [p |] eqn:E'; [| reflexivity].
    apply find_some in E' as [Hin Hp].
    rewrite (completed_options_names (device_options c)) in Hp; [discriminate | | exact Hin].
    intros q Hq. pose proof (find_none _ _ E q Hq) as Hn.
    apply negb_false_iff in Hn. exact Hn. }
  rewrite Hfind, completed_options_fixed.
  destruct (gradient_method c) as [m |]; [| reflexivity].
  unfold name_in. cbn [existsb]. rewrite !orb_false_r.
  destruct (String.eqb m "best") eqn:Eb.
  - apply String.eqb_eq in Eb. subst m. reflexivity.
  - rewrite Eb. destruct (String.eqb m "backprop") eqn:Ep; cbn [orb];
      rewrite ?Eb, ?Ep; reflexivity.
Qed.

End ExecutionSetup.

(** A configuration that asks for the best gradient method and brings its
    own generator. *)
Definition best_config : ExecutionConfig nat :=
  mkConfig (Some "best"%string) None None (Some "numpy"%string) [("rng"%string, 7)].

Lemma setup_completes_device_options_witness :
  exists c',
    _setup_execution_config 1 2 "default.mixed" best_config = inr c'
    /\ (exists added, device_options c' = device_options best_config ++ added)
    /\ get_option nat "rng" (device_options c')
       = Some (match get_option nat "rng" (device_options best_config) with
               | Some v => v | None => 1 end)
    /\ get_option nat "prng_key" (device_options c')
       = Some (match get_option nat "prng_key" (device_options best_config) with
               | Some v => v | None => 2 end).
Proof.
  eexists. split; [reflexivity |].
  apply (setup_completes_device_options nat 1 2 "default.mixed" best_config).
  reflexivity.
Defined.

Lemma setup_gradient_fields_witness :
  exists c',
    _setup_execution_config 1 2 "default.mixed" best_config = inr c'
    /\ gradient_method c' <> Some "best"%string
    /\ use_device_gradient c' = Some (supports_derivatives (Some best_config) None)
    /\ (gradient_method c' = Some "backprop"%string
        <-> supports_derivatives (Some best_config) None = true)
    /\ grad_on_execution c' = Some false.
Proof.
  eexists. split; [reflexivity |].
  apply (setup_gradient_fields nat 1 2 "default.mixed" best_config).
  reflexivity.
Defined.

Lemma setup_is_idempotent_witness :
  exists c',
    _setup_execution_config 1 2 "default.mixed" best_config = inr c'
    /\ _setup_execution_config 1 2 "default.mixed" c' = inr c'.
Proof.
  eexists. split; [reflexivity |].
  apply (setup_is_idempotent nat 1 2 "default.mixed" best_config).
  reflexivity.
Defined.

(** ** The transform program *)

Section Program.

Variable V : Type.
Variable rng prng_key : V.
Variable text : string.
Variable default_config : ExecutionConfig V.

(** X25: [preprocess] raises what [_setup_execution_config] raises for
    the given configuration, or for [ExecutionConfig()] when none is
    given.  Otherwise the program is: deferred measurements and the
    decomposition first; then [no_sampling] exactly when
    [supports_derivatives] holds of the configuration, which includes the
    method [best]; then the readout warning exactly when a readout
    probability was given, be it zero; and the three validations last. *)
Theorem preprocess_program (self : new_api_device)
    (execution_config : option (ExecutionConfig V)) :
  let given := match execution_config with
               | Some c => c | None => default_config end in
  match preprocess rng prng_key text default_config self execution_config with
  | inl e => _setup_execution_config rng prng_key text given = inl e
  | inr (program, config) =>
      _setup_execution_config rng prng_key text given = inr config
      /\ program
         = [defer_measurements false; decompose "default.mixed"]
           ++ (if supports_derivatives (Some given) None
               then [no_sampling "backprop + default.mixed"] else [])
           ++ (match new_readout_err self with
               | Some _ => [warn_readout_error_state] | None => [] end)
           ++ [validate_device_wires (new_wires self) "default.mixed";
               validate_measurements "default.mixed";
               validate_observables "default.mixed"]
  end.
Proof.
  intros given. unfold preprocess. fold given.
  destruct (_setup_execution_config rng prng_key text given) as [e | config] eqn:E;
    [reflexivity |].
  split; [reflexivity |].
  destruct (setup_fields V rng prng_key text given config E)
    as (_ & _ & Hb & _).
  destruct (supports_derivatives (Some given) None).
  - rewrite (proj2 Hb eq_refl). cbn [String.eqb Ascii.eqb Bool.eqb].
    destruct (new_readout_err self); reflexivity.
  - destruct (gradient_method config) as [m |] eqn:Em.
    + destruct (String.eqb m "backprop") eqn:Eb.
      * apply String.eqb_eq in Eb. subst m.
        pose proof (proj1 Hb eq_refl). discriminate.
      * destruct (new_readout_err self); reflexivity.
    + destruct (new_readout_err self); reflexivity.
Qed.

End Program.

(** ** Supported operations and observables *)

Section Support.

Lemma name_in_app (n : string) (a b : list string) :
  name_in n (a ++ b) = name_in n a || name_in n b.
Proof. unfold name_in. apply existsb_app. Qed.

(** X26: the new device accepts every operation of the legacy device: a
    name in [DefaultMixed.operations] passes [stopping_condition],
    whatever the set of channels; the set accepted is that of the legacy
    operations together with the channels, the separate [Snapshot] adding
    nothing. *)
Theorem stopping_condition_accepts_legacy_operations (channels : list string)
    (name : string) :
  stopping_condition channels name
  = name_in name operations_mixed || name_in name channels.
Proof.
  unfold stopping_condition. cbv zeta. rewrite !name_in_app.
  destruct (name_in name operations_mixed) eqn:E; [reflexivity |].
  cbn [orb]. unfold name_in at 1. cbn [existsb]. rewrite orb_false_r.
  destruct (String.eqb name "Snapshot") eqn:Es; [| reflexivity].
  apply String.eqb_eq in Es. subst name. vm_compute in E. discriminate.
Qed.

(** The operators a compound observable is made of, as far as the names
    [Prod], [Sum], [LinearCombination] and [SProd] lead: the names at the
    leaves. *)
Fixpoint leaves (obs : operator) : list string :=
  match obs with
  | Operator name operands terms base =>
      if name_in name ["Prod"; "Sum"]%string then
        match operands with Some l => flat_map leaves l | None => [] end
      else if String.eqb name "LinearCombination" then
        match terms with Some l => flat_map leaves l | None => [] end
      else if String.eqb name "SProd" then
        match base with Some b => leaves b | None => [] end
      else [name]
  end.

(** Every attribute that is read exists. *)
Fixpoint well_formed (obs : operator) : bool :=
  match obs with
  | Operator name operands terms base =>
      if name_in name ["Prod"; "Sum"]%string then
        match operands with Some l => forallb well_formed l | None => false end
      else if String.eqb name "LinearCombination" then
        match terms with Some l => forallb well_formed l | None => false end
      else if String.eqb name "SProd" then
        match base with Some b => well_formed b | None => false end
      else true
  end.

(** [all(observable_stopping_condition(o) for o in l)]. *)
Fixpoint all_accepted (l : list operator) : option bool :=
  match l with
  | [] => Some true
  | o :: l' =>
      match observable_stopping_condition o with
      | Some true => all_accepted l'
      | other => other
      end
  end.

Lemma observable_stopping_condition_eq (name : string)
    (operands terms : option (list operator)) (base : option operator) :
  observable_stopping_condition (Operator name operands terms base)
  = if name_in name ["Prod"; "Sum"]%string then
      match operands with Some l => all_accepted l | None => None end
    else if String.eqb name "LinearCombination" then
      match terms with Some l => all_accepted l | None => None end
    else if String.eqb name "SProd" then
      match base with
      | Some b => observable_stopping_condition b
      | None => None
      end
    else Some (name_in name observables).
Proof. reflexivity. Qed.

(** Induction on an operator and the operators it is made of. *)
Fixpoint operator_induction (P : operator -> Prop)
    (H : forall name operands terms base,
        match operands with Some l => Forall P l | None => True end ->
        match terms with Some l => Forall P l | None => True end ->
        match base with Some b => P b | None => True end ->
        P (Operator name operands terms base))
    (obs : operator) : P obs :=
  match obs with
  | Operator name operands terms base =>
      let all_of :=
        fix all_of (l : list operator) : Forall P l :=
          match l with
          | [] => Forall_nil P
          | o :: l' => Forall_cons o (operator_induction P H o) (all_of l')
          end in
      H name operands terms base
        (match operands with Some l => all_of l | None => I end)
        (match terms with Some l => all_of l | None => I end)
        (match base with Some b => operator_induction P H b | None => I end)
  end.

Definition accepted_name (n : string) : bool := name_in n observables.

Lemma all_accepted_leaves (l : list operator) :
  Forall (fun o => well_formed o = true ->
                   observable_stopping_condition o
                   = Some (forallb accepted_name (leaves o))) l ->
  forallb well_formed l = true ->
  all_accepted l = Some (forallb accepted_name (flat_map leaves l)).
Proof.
  induction 1 as [| o l Ho _ IH]; intros Hw; [reflexivity |].
  cbn [forallb] in Hw. apply andb_prop in Hw as [Hwo Hwl].
  cbn [all_accepted flat_map]. rewrite (Ho Hwo), forallb_app.
  destruct (forallb accepted_name (leaves o)); [apply IH, Hwl | reflexivity].
Qed.

(** X27: whether a compound observable is accepted depends on its leaves
    only: when every attribute that is read exists,
    [observable_stopping_condition] returns whether every name at a leaf
    is in [observables], however the products, sums, linear combinations
    and scalar products are nested; so a linear combination of accepted
    observables is accepted although its own name is not in the set. *)
Theorem observable_accepted_by_leaves (obs : operator) :
  well_formed obs = true ->
  observable_stopping_condition obs = Some (forallb accepted_name (leaves obs)).
Proof.
  induction obs as [name operands terms base Hops Hterms Hbase]
    using operator_induction.
  rewrite observable_stopping_condition_eq. cbn [well_formed leaves].
  destruct (name_in name ["Prod"; "Sum"]%string).
  - destruct operands as [l |]; [| discriminate]. apply all_accepted_leaves, Hops.
  - destruct (String.eqb name "LinearCombination").
    + destruct terms as [l |]; [| discriminate]. apply all_accepted_leaves, Hterms.
    + destruct (String.eqb name "SProd").
      * destruct base as [b |]; [exact Hbase | discriminate].
      * intros _. cbn [forallb]. unfold accepted_name. rewrite andb_true_r.
        reflexivity.
Qed.

End Support.

(** The observable [0.5 * (X @ Z) + 2 * Y] as a linear combination. *)
Definition sample_observable : operator :=
  Operator "LinearCombination" None
    (Some [Operator "Prod"
             (Some [Operator "PauliX" None None None;
                    Operator "PauliZ" None None None]) None None;
           Operator "SProd" None None (Some (Operator "PauliY" None None None))])
    None.

Lemma observable_accepted_by_leaves_witness :
  observable_stopping_condition sample_observable
  = Some (forallb accepted_name (leaves sample_observable)).
Proof.
  apply (observable_accepted_by_leaves sample_observable). reflexivity.
Defined.

(** ** Channels that preserve the trace *)

Section Splitting.
Context {Sc : Scalar}.

Variable N : nat.
Variable ws : list nat.
Hypothesis ws_NoDup : NoDup ws.
Hypothesis ws_lt : forall w, In w ws -> w < N.

Let k := length ws.
Let rest := free_axes N ws.

(** The basis state with the bits [a] on the wires [ws] and the bits [e]
    on the other wires. *)
Definition merge (a e : list nat) : list nat := operand_index N ws rest a e.

Lemma rest_NoDup : NoDup rest.
Proof. unfold rest, free_axes. apply NoDup_filter, seq_NoDup. Qed.

Lemma rest_length : length rest = N - k.
Proof. apply free_axes_length; assumption. Qed.

Lemma merge_at (a e : list nat) (p : nat) :
  p < N ->
  nth p (merge a e) 0
  = if memn p ws then nth (index_of p ws) a 0 else nth (index_of p rest) e 0.
Proof.
  intros Hp. unfold merge, operand_index. apply nth_map_seq. exact Hp.
Qed.

Lemma merge_length (a e : list nat) : length (merge a e) = N.
Proof. unfold merge, operand_index. rewrite length_map, length_seq. reflexivity. Qed.

Lemma merge_valid (a e : list nat) :
  valid_index (repeat 2 k) a -> valid_index (repeat 2 (N - k)) e ->
  valid_index (repeat 2 N) (merge a e).
Proof.
  intros Ha He. apply valid_bits; [apply merge_length |].
  intros p Hp. rewrite merge_at by exact Hp.
  destruct (memn p ws) eqn:E.
  - apply memn_In in E. apply (valid_nth k); [exact Ha | apply index_of_lt, E].
  - apply memn_false in E. apply (valid_nth (N - k)); [exact He |].
    rewrite <- rest_length. apply index_of_lt, in_free_axes. split; assumption.
Qed.

Lemma gather_merge_ws (a e : list nat) :
  length a = k -> gather (merge a e) ws = a.
Proof.
  intros Hl. apply map_nth_values; [exact Hl |].
  intros j Hj.
  assert (Hin : In (nth j ws 0) ws) by (apply nth_In; exact Hj).
  rewrite merge_at by (apply ws_lt; exact Hin).
  rewrite (proj2 (memn_In _ _) Hin), index_of_nth by assumption. reflexivity.
Qed.

Lemma gather_merge_rest (a e : list nat) :
  length e = N - k -> gather (merge a e) rest = e.
Proof.
  intros Hl. apply map_nth_values; [rewrite rest_length; exact Hl |].
  intros j Hj.
  assert (Hin : In (nth j rest 0) rest) by (apply nth_In; exact Hj).
  pose proof (proj1 (in_free_axes _ _ _) Hin) as [Hp Hn].
  rewrite merge_at by exact Hp.
  rewrite (proj2 (memn_false _ _) Hn), index_of_nth by (apply rest_NoDup || exact Hj).
  reflexivity.
Qed.

Lemma merge_gather (x : list nat) :
  length x = N -> merge (gather x ws) (gather x rest) = x.
Proof.
  intros Hl. apply nth_ext with (d := 0) (d' := 0).
  - rewrite merge_length. symmetry. exact Hl.
  - intros p Hp. rewrite merge_length in Hp. rewrite merge_at by exact Hp.
    destruct (memn p ws) eqn:E.
    + apply memn_In in E. rewrite nth_gather by (apply index_of_lt; exact E).
      rewrite nth_index_of by exact E. reflexivity.
    + apply memn_false in E.
      assert (Hin : In p rest) by (apply in_free_axes; split; assumption).
      rewrite nth_gather by (apply index_of_lt; exact Hin).
      rewrite nth_index_of by exact Hin. reflexivity.
Qed.

(** The basis states of all wires, each once: those of the other wires
    combined with those of the wires [ws]. *)
Lemma basis_states_split :
  Permutation (all_indices (repeat 2 N))
    (flat_map (fun e => map (fun a => merge a e) (all_indices (repeat 2 k)))
       (all_indices (repeat 2 (N - k)))).
Proof.
  apply NoDup_Permutation.
  - apply all_indices_NoDup.
  - apply NoDup_flat_map.
    + apply all_indices_NoDup.
    + intros e _. apply Finite.Injective_map_NoDup_in; [| apply all_indices_NoDup].
      intros a a' Ha Ha' E.
      apply all_indices_valid, valid_index_length in Ha.
      apply all_indices_valid, valid_index_length in Ha'.
      rewrite repeat_length in Ha, Ha'.
      rewrite <- (gather_merge_ws a e Ha), <- (gather_merge_ws a' e Ha'), E.
      reflexivity.
    + intros e e' x He He' Hx Hx'.
      apply in_map_iff in Hx as (a & <- & _).
      apply in_map_iff in Hx' as (a' & E & _).
      apply all_indices_valid, valid_index_length in He.
      apply all_indices_valid, valid_index_length in He'.
      rewrite repeat_length in He, He'.
      rewrite <- (gather_merge_rest a e He), <- (gather_merge_rest a' e' He'), E.
      reflexivity.
  - intros x. split.
    + intros Hx. apply all_indices_valid in Hx.
      pose proof (valid_index_length _ _ Hx) as Hl. rewrite repeat_length in Hl.
      apply in_flat_map. exists (gather x rest). split.
      * apply in_all_indices. rewrite <- rest_length.
        apply (gather_valid N); [exact Hx |].
        intros w Hw. apply in_free_axes in Hw. tauto.
      * apply in_map_iff. exists (gather x ws). split; [apply merge_gather, Hl |].
        apply in_all_indices, (gather_valid N); assumption.
    + intros Hx. apply in_flat_map in Hx as (e & He & Hx).
      apply in_map_iff in Hx as (a & <- & Ha).
      apply in_all_indices, merge_valid; apply all_indices_valid; assumption.
Qed.

End Splitting.

Section TraceSums.
Context {Sc : Scalar}.

Add Ring scalar_ring_trace : (@scalar_ring_theory Sc).

Lemma sum_rearrange (A B D E : Type) (la : list A) (lb : list B) (ld : list D)
    (le : list E) (T : A -> B -> D -> E -> C) :
  sum_list la (fun a => sum_list lb (fun b => sum_list ld (fun d =>
    sum_list le (fun e => T a b d e))))
  = sum_list ld (fun d => sum_list le (fun e => sum_list lb (fun b =>
      sum_list la (fun a => T a b d e)))).
Proof.
  transitivity
    (sum_list la (fun a => sum_list ld (fun d => sum_list lb (fun b =>
       sum_list le (fun e => T a b d e))))).
  { apply sum_list_ext. intros a _.
    apply (@sum_list_swap Sc _ _ lb ld (fun b d => sum_list le (fun e => T a b d e))). }
  transitivity
    (sum_list ld (fun d => sum_list la (fun a => sum_list lb (fun b =>
       sum_list le (fun e => T a b d e))))).
  { apply (@sum_list_swap Sc _ _ la ld
             (fun a d => sum_list lb (fun b => sum_list le (fun e => T a b d e)))). }
  apply sum_list_ext. intros d _.
  transitivity
    (sum_list la (fun a => sum_list le (fun e => sum_list lb (fun b => T a b d e)))).
  { apply sum_list_ext. intros a _.
    apply (@sum_list_swap Sc _ _ lb le (fun b e => T a b d e)). }
  transitivity
    (sum_list le (fun e => sum_list la (fun a => sum_list lb (fun b => T a b d e)))).
  { apply (@sum_list_swap Sc _ _ la le (fun a e => sum_list lb (fun b => T a b d e))). }
  apply sum_list_ext. intros e _.
  apply (@sum_list_swap Sc _ _ la lb (fun a b => T a b d e)).
Qed.

(** A sum over the multi-indices of [k] qubits, by flat position. *)
Lemma sum_indices_flat (k : nat) (h : nat -> C) :
  sum_list (all_indices (repeat 2 k)) (fun a => h (ravel (repeat 2 k) a))
  = sum_range (2 ^ k) h.
Proof.
  rewrite all_indices_unravel, sum_list_map, prod_shape_repeat2.
  unfold sum_range. apply sum_list_ext. intros i Hi. apply in_seq in Hi.
  rewrite ravel_unravel by (rewrite prod_shape_repeat2; lia). reflexivity.
Qed.

(** The sum of the diagonal entries of a state, read on the tensor. *)
Definition diagonal_sum (N : nat) (t : tensor) : C :=
  sum_list (all_indices (repeat 2 N)) (fun x => data t (x ++ x)).

Lemma trace_diagonal_sum (N : nat) (t m : tensor) :
  shape t = repeat 2 (2 * N) ->
  reshape t [2 ^ N; 2 ^ N] = Some m ->
  trace m = diagonal_sum N t.
Proof.
  intros Hs Hm. rewrite (reshape_tensor_to_square N t Hs) in Hm.
  injection Hm as <-. unfold trace, diagonal_sum. cbn [shape data nth].
  rewrite Nat.min_id, all_indices_unravel, sum_list_map, prod_shape_repeat2.
  unfold sum_range. apply sum_list_ext. intros i Hi. apply in_seq in Hi.
  f_equal.
  assert (Hv : valid_index (repeat 2 N) (unravel (repeat 2 N) i))
    by (apply valid_unravel; rewrite prod_shape_repeat2; lia).
  assert (Hvv : valid_index (repeat 2 (2 * N))
                  (unravel (repeat 2 N) i ++ unravel (repeat 2 N) i)).
  { replace (2 * N) with (N + N) by lia. rewrite repeat_app.
    apply valid_index_app; exact Hv. }
  transitivity
    (unravel (repeat 2 (2 * N))
       (ravel (repeat 2 (2 * N))
          (unravel (repeat 2 N) i ++ unravel (repeat 2 N) i)));
    [| apply unravel_ravel, Hvv].
  f_equal. replace (2 * N) with (N + N) by lia. rewrite repeat_app.
  rewrite ravel_app by (rewrite (valid_index_length _ _ Hv); reflexivity).
  rewrite ravel_unravel by (rewrite prod_shape_repeat2; lia).
  rewrite prod_shape_repeat2. cbn [ravel prod_shape fold_right]. lia.
Qed.

End TraceSums.

Section TracePreservation.
Context {Sc : Scalar}.

Add Ring scalar_ring_preservation : (@scalar_ring_theory Sc).

(** [sum_i K_i^dagger K_i] is the identity matrix of [n] rows. *)
Definition trace_preserving (ks : list tensor) (n : nat) : Prop :=
  forall i j, i < n -> j < n ->
    sum_list ks (fun K =>
      sum_range n (fun a => cmul (data K [a; i]) (cconj (data K [a; j]))))
    = if i =? j then c1 else c0.

Lemma index_of_shifted (N : nat) (l : list nat) (p : nat) :
  index_of (N + p) (shifted N l) = index_of p l.
Proof.
  unfold shifted. induction l as [| w l IH]; [reflexivity |].
  cbn [map index_of]. rewrite IH.
  destruct (p =? w) eqn:E.
  - apply Nat.eqb_eq in E. subst w. rewrite (Nat.add_comm p N), Nat.eqb_refl.
    reflexivity.
  - apply Nat.eqb_neq in E.
    replace (N + p =? w + N) with false by (symmetry; apply Nat.eqb_neq; lia).
    reflexivity.
Qed.

Lemma memn_shifted (N : nat) (l : list nat) (p : nat) :
  memn (N + p) (shifted N l) = memn p l.
Proof.
  unfold shifted, memn. induction l as [| w l IH]; [reflexivity |].
  cbn [map existsb]. rewrite IH. f_equal.
  destruct (p =? w) eqn:E.
  - apply Nat.eqb_eq in E. subst w. rewrite (Nat.add_comm p N). apply Nat.eqb_refl.
  - apply Nat.eqb_neq in E. apply Nat.eqb_neq. lia.
Qed.

Variable N : nat.
Variable ws : list nat.
Hypothesis ws_NoDup : NoDup ws.
Hypothesis ws_lt : forall w, In w ws -> w < N.

Let k := length ws.
Let rest := free_axes N ws.

Lemma gather_rows (x y : list nat) :
  length x = N -> gather (x ++ y) ws = gather x ws.
Proof.
  intros Hl. unfold gather. apply map_ext_in. intros w Hw.
  apply app_nth1. rewrite Hl. apply ws_lt, Hw.
Qed.

Lemma gather_columns (x y : list nat) :
  length x = N -> gather (x ++ y) (shifted N ws) = gather y ws.
Proof.
  intros Hl. unfold gather, shifted. rewrite map_map. apply map_ext. intros w.
  rewrite app_nth2 by lia. f_equal. lia.
Qed.

(** Replacing the bits of the wires in the row and in the column of a
    diagonal position. *)
Lemma updated_diagonal (x r c : list nat) :
  length x = N ->
  updated_index N (x ++ x) ws r c
  = merge N ws r (gather x rest) ++ merge N ws c (gather x rest).
Proof.
  intros Hl. unfold updated_index, merge, operand_index.
  replace (2 * N) with (N + N) by lia. rewrite seq_app, map_app. cbn [Nat.add].
  f_equal.
  - apply map_ext_in. intros p Hp. apply in_seq in Hp.
    destruct (memn p ws) eqn:E; [reflexivity |].
    assert (Hs : memn p (shifted N ws) = false).
    { apply memn_false. intros Hin. apply (@shifted_ge N ws ws_lt) in Hin. lia. }
    rewrite Hs. apply memn_false in E.
    assert (Hin : In p (free_axes N ws)) by (apply in_free_axes; split; [lia | exact E]).
    fold rest in Hin |- *.
    rewrite nth_gather by (apply index_of_lt; exact Hin).
    rewrite nth_index_of by exact Hin. apply app_nth1. lia.
  - rewrite (map_seq_from _ _ N N). apply map_ext_in. intros p Hp. apply in_seq in Hp.
    assert (Hw : memn (N + p) ws = false).
    { apply memn_false. intros Hin. apply ws_lt in Hin. lia. }
    rewrite Hw, memn_shifted, index_of_shifted.
    destruct (memn p ws) eqn:E; [reflexivity |]. apply memn_false in E.
    assert (Hin : In p (free_axes N ws)) by (apply in_free_axes; split; [lia | exact E]).
    fold rest in Hin |- *.
    rewrite nth_gather by (apply index_of_lt; exact Hin).
    rewrite nth_index_of by exact Hin.
    rewrite app_nth2 by lia. f_equal. lia.
Qed.

Lemma diagonal_sum_split (t : tensor) :
  diagonal_sum N t
  = sum_list (all_indices (repeat 2 (N - k))) (fun e =>
    sum_list (all_indices (repeat 2 k)) (fun a =>
      data t (merge N ws a e ++ merge N ws a e))).
Proof.
  unfold diagonal_sum.
  rewrite (sum_list_perm _ _ _ (fun x => data t (x ++ x))
             (basis_states_split N ws ws_NoDup ws_lt)).
  rewrite sum_list_flat_map. apply sum_list_ext. intros e _.
  rewrite sum_list_map. reflexivity.
Qed.

Variable state : tensor.
Variable ks : list tensor.
Hypothesis ks_preserve : trace_preserving ks (2 ^ k).

(** The channel of Kraus operators with [sum_i K_i^dagger K_i = 1] keeps
    the sum of the diagonal entries. *)
Lemma kraus_conjugation_diagonal_sum (t : tensor) :
  (forall idx, valid_index (repeat 2 (2 * N)) idx ->
     data t idx = kraus_conjugation ks state N ws idx) ->
  diagonal_sum N t = diagonal_sum N state.
Proof.
  intros Ht. rewrite !diagonal_sum_split.
  apply sum_list_ext. intros e He. apply all_indices_valid in He.
  pose proof (valid_index_length _ _ He) as Hel. rewrite repeat_length in Hel.
  set (A := all_indices (repeat 2 k)).
  set (S := fun r c => data state (merge N ws r e ++ merge N ws c e)).
  transitivity
    (sum_list A (fun a => sum_list ks (fun K => sum_list A (fun r =>
       sum_list A (fun c =>
         cmul (cmul (data K [ravel (repeat 2 k) a; ravel (repeat 2 k) r]) (S r c))
              (cconj (data K [ravel (repeat 2 k) a; ravel (repeat 2 k) c]))))))).
  { apply sum_list_ext. intros a Ha. apply all_indices_valid in Ha.
    pose proof (valid_index_length _ _ Ha) as Hal. rewrite repeat_length in Hal.
    pose proof (merge_valid N ws ws_NoDup ws_lt a e Ha He) as Hx.
    pose proof (merge_length N ws a e) as Hxl.
    rewrite Ht.
    - unfold kraus_conjugation. cbv zeta. fold k. fold A.
      apply sum_list_ext. intros K _. apply sum_list_ext. intros r _.
      apply sum_list_ext. intros c _.
      rewrite (gather_rows _ _ Hxl), (gather_columns _ _ Hxl).
      rewrite (gather_merge_ws N ws ws_NoDup ws_lt a e Hal).
      rewrite (updated_diagonal _ r c Hxl).
      unfold rest. rewrite (gather_merge_rest N ws ws_NoDup ws_lt a e Hel).
      reflexivity.
    - replace (2 * N) with (N + N) by lia. rewrite repeat_app.
      apply valid_index_app; exact Hx. }
  rewrite (sum_rearrange _ _ _ _ A ks A A
             (fun a K r c =>
                cmul (cmul (data K [ravel (repeat 2 k) a; ravel (repeat 2 k) r]) (S r c))
                     (cconj (data K [ravel (repeat 2 k) a; ravel (repeat 2 k) c])))).
  apply sum_list_ext. intros r Hr. apply all_indices_valid in Hr.
  transitivity
    (sum_list A (fun c =>
       if ravel (repeat 2 k) r =? ravel (repeat 2 k) c then S r c else c0)).
  - apply sum_list_ext. intros c Hc. apply all_indices_valid in Hc.
    transitivity
      (cmul (S r c)
         (sum_list ks (fun K => sum_range (2 ^ k) (fun a =>
            cmul (data K [a; ravel (repeat 2 k) r])
                 (cconj (data K [a; ravel (repeat 2 k) c])))))).
    + rewrite sum_list_mul_l. apply sum_list_ext. intros K _.
      rewrite <- (sum_indices_flat k
                    (fun a => cmul (data K [a; ravel (repeat 2 k) r])
                                   (cconj (data K [a; ravel (repeat 2 k) c])))).
      fold A. rewrite sum_list_mul_l. apply sum_list_ext. intros a _. ring.
    + pose proof (ravel_lt _ _ Hr) as Hrl. pose proof (ravel_lt _ _ Hc) as Hcl.
      rewrite prod_shape_repeat2 in Hrl, Hcl.
      rewrite (ks_preserve _ _ Hrl Hcl).
      destruct (ravel (repeat 2 k) r =? ravel (repeat 2 k) c); ring.
  - apply (sum_indices_select (repeat 2 k) r (fun c => S r c) Hr).
Qed.

End TracePreservation.

Section TraceOfGates.
Context {Sc : Scalar}.

(** X28: a gate whose Kraus operators satisfy
    [sum_i K_i^dagger K_i = 1], a unitary or a channel, keeps the trace of
    the state: the matrix forms of the state before and after the gate,
    applied through the dispatcher, have the same trace. *)
Theorem gates_keep_the_trace (g : gate) (d : device)
    (device_wires : list nat) (state : tensor) :
  within_letters d ->
  contracted_gate g d device_wires state ->
  trace_preserving (_get_kraus (g_kind g)) (2 ^ length (g_wires g)) ->
  exists t m m0,
    _apply_gate g d = (inr tt, set_state (Some t) d)
    /\ reshape t [2 ^ num_wires d; 2 ^ num_wires d] = Some m
    /\ reshape state [2 ^ num_wires d; 2 ^ num_wires d] = Some m0
    /\ trace m = trace m0.
Proof.
  intros Hsize Hgate Htp.
  destruct (gate_entries g d device_wires state Hsize Hgate)
    as (t & E & S & D).
  destruct Hgate as (Hnd & Hmap & Hs & Hshape & _).
  destruct (map_labels_spec _ _ Hmap) as [Hlen _].
  pose proof (@map_labels_NoDup (wires d) (g_wires g) device_wires Hmap Hnd) as Hnd'.
  pose proof (@map_labels_lt (wires d) (g_wires g) device_wires Hmap) as Hlt.
  rewrite <- Hlen in Htp.
  eexists t, _, _. split; [exact E |].
  split; [apply reshape_tensor_to_square, S |].
  split; [apply reshape_tensor_to_square, Hshape |].
  rewrite (trace_diagonal_sum (num_wires d) t _ S
             (reshape_tensor_to_square (num_wires d) t S)).
  rewrite (trace_diagonal_sum (num_wires d) state _ Hshape
             (reshape_tensor_to_square (num_wires d) state Hshape)).
  apply (kraus_conjugation_diagonal_sum (num_wires d) device_wires Hnd' Hlt state
           (_get_kraus (g_kind g)) Htp t D).
Qed.

End TraceOfGates.

Lemma gates_keep_the_trace_witness :
  exists t m m0,
    _apply_gate (mkGate "PauliX" (Unitary PauliX_matrix) [LInt 0]) plus_device
    = (inr tt, set_state (Some t) plus_device)
    /\ reshape t [2 ^ num_wires plus_device; 2 ^ num_wires plus_device] = Some m
    /\ reshape plus_state [2 ^ num_wires plus_device; 2 ^ num_wires plus_device]
       = Some m0
    /\ trace m = trace m0.
Proof.
  apply (@gates_keep_the_trace GaussScalar
           (mkGate "PauliX" (Unitary PauliX_matrix) [LInt 0]) plus_device [0]
           plus_state).
  - right. cbn. lia.
  - repeat split; try reflexivity.
    + repeat constructor. intros [].
    + discriminate.
    + intros K [<- | []]. reflexivity.
    + discriminate.
  - intros i j Hi Hj. cbn in Hi, Hj.
    destruct i as [| [| i]]; [| | lia]; destruct j as [| [| j]]; try lia;
      vm_compute; reflexivity.
Defined.

(** ** Gates in sequence *)

Section UpdatedIndices.
Context {Sc : Scalar}.

Variable N : nat.
Variable ws : list nat.
Hypothesis ws_NoDup : NoDup ws.
Hypothesis ws_lt : forall w, In w ws -> w < N.

Let k := length ws.

Lemma updated_at (idx r c : list nat) (p : nat) :
  p < 2 * N ->
  nth p (updated_index N idx ws r c) 0
  = if memn p ws then nth (index_of p ws) r 0
    else if memn p (shifted N ws) then nth (index_of p (shifted N ws)) c 0
    else nth p idx 0.
Proof. intros Hp. unfold updated_index. apply nth_map_seq. exact Hp. Qed.

Lemma updated_length (idx r c : list nat) :
  length (updated_index N idx ws r c) = 2 * N.
Proof. unfold updated_index. rewrite length_map, length_seq. reflexivity. Qed.

Lemma updated_valid (idx r c : list nat) :
  valid_index (repeat 2 (2 * N)) idx ->
  valid_index (repeat 2 k) r -> valid_index (repeat 2 k) c ->
  valid_index (repeat 2 (2 * N)) (updated_index N idx ws r c).
Proof.
  intros Hidx Hr Hc. apply valid_bits; [apply updated_length |].
  intros p Hp. rewrite updated_at by exact Hp.
  destruct (memn p ws) eqn:E1.
  - apply memn_In in E1. apply (valid_nth k); [exact Hr | apply index_of_lt, E1].
  - destruct (memn p (shifted N ws)) eqn:E2.
    + apply memn_In in E2. apply (valid_nth k); [exact Hc |].
      unfold k. rewrite <- (shifted_length N ws). apply index_of_lt, E2.
    + apply (valid_nth (2 * N)); assumption.
Qed.

Lemma gather_updated_rows (idx r c : list nat) :
  length r = k -> gather (updated_index N idx ws r c) ws = r.
Proof.
  intros Hl. apply map_nth_values; [exact Hl |].
  intros j Hj.
  assert (Hin : In (nth j ws 0) ws) by (apply nth_In; exact Hj).
  rewrite updated_at by (apply ws_lt in Hin; lia).
  rewrite (proj2 (memn_In _ _) Hin), index_of_nth by assumption. reflexivity.
Qed.

Lemma gather_updated_columns (idx r c : list nat) :
  length c = k -> gather (updated_index N idx ws r c) (shifted N ws) = c.
Proof.
  intros Hl. apply map_nth_values; [rewrite shifted_length; exact Hl |].
  intros j Hj.
  assert (Hin : In (nth j (shifted N ws) 0) (shifted N ws)) by (apply nth_In; exact Hj).
  pose proof (@shifted_ge N ws ws_lt _ Hin) as Hge.
  rewrite updated_at by lia.
  assert (Hw : memn (nth j (shifted N ws) 0) ws = false).
  { apply memn_false. intros H. apply ws_lt in H. lia. }
  rewrite Hw, (proj2 (memn_In _ _) Hin).
  rewrite index_of_nth by (apply (@shifted_NoDup N ws ws_NoDup) || exact Hj).
  reflexivity.
Qed.

Lemma updated_twice (idx r c r' c' : list nat) :
  updated_index N (updated_index N idx ws r c) ws r' c'
  = updated_index N idx ws r' c'.
Proof.
  unfold updated_index at 1 3. apply map_ext_in. intros p Hp. apply in_seq in Hp.
  destruct (memn p ws) eqn:E1; [reflexivity |].
  destruct (memn p (shifted N ws)) eqn:E2; [reflexivity |].
  rewrite updated_at by lia. rewrite E1, E2. reflexivity.
Qed.

End UpdatedIndices.

Section MatrixProducts.
Context {Sc : Scalar}.

Add Ring scalar_ring_products : (@scalar_ring_theory Sc).

(** The product [B A] of two square matrices of size [n]. *)
Definition matmul (n : nat) (B A : tensor) : tensor :=
  mkTensor [n; n]
    (fun idx => sum_range n (fun m =>
       cmul (data B [nth 0 idx 0; m]) (data A [m; nth 1 idx 0]))).

(** The Kraus operators of a channel [As] followed by a channel [Bs]. *)
Definition kraus_products (n : nat) (Bs As : list tensor) : list tensor :=
  flat_map (fun B => map (fun A => matmul n B A) As) Bs.

Lemma cconj_sum_list (A : Type) (l : list A) (f : A -> C) :
  cconj (sum_list l f) = sum_list l (fun x => cconj (f x)).
Proof.
  unfold sum_list. induction l as [| x l IH]; cbn [fold_right].
  - apply cconj_zero.
  - rewrite cconj_add, IH. reflexivity.
Qed.

Lemma sum_list_product (A B : Type) (la : list A) (lb : list B)
    (X : A -> C) (Y : B -> C) (s : C) :
  cmul (cmul (sum_list la X) s) (sum_list lb Y)
  = sum_list la (fun a => sum_list lb (fun b => cmul (cmul (X a) s) (Y b))).
Proof.
  rewrite !sum_list_mul_r.
  apply sum_list_ext. intros a _.
  apply sum_list_mul_l.
Qed.

Lemma sum_blocks_swap (A B D E F : Type) (la : list A) (lb : list B)
    (ld : list D) (le : list E) (lf : list F) (T : A -> B -> D -> E -> F -> C) :
  sum_list la (fun a => sum_list lb (fun b => sum_list ld (fun d =>
    sum_list le (fun e => sum_list lf (fun f => T a b d e f)))))
  = sum_list ld (fun d => sum_list le (fun e => sum_list lf (fun f =>
      sum_list la (fun a => sum_list lb (fun b => T a b d e f))))).
Proof.
  transitivity
    (sum_list la (fun a => sum_list ld (fun d => sum_list lb (fun b =>
       sum_list le (fun e => sum_list lf (fun f => T a b d e f)))))).
  { apply sum_list_ext. intros a _.
    apply (@sum_list_swap Sc _ _ lb ld
             (fun b d => sum_list le (fun e => sum_list lf (fun f => T a b d e f)))). }
  transitivity
    (sum_list ld (fun d => sum_list la (fun a => sum_list lb (fun b =>
       sum_list le (fun e => sum_list lf (fun f => T a b d e f)))))).
  { apply (@sum_list_swap Sc _ _ la ld
             (fun a d => sum_list lb (fun b => sum_list le (fun e =>
                sum_list lf (fun f => T a b d e f))))). }
  apply sum_list_ext. intros d _.
  rewrite (@sum_rearrange Sc _ _ _ _ la lb le lf (fun a b e f => T a b d e f)).
  apply sum_list_ext. intros e _. apply sum_list_ext. intros f _.
  apply (@sum_list_swap Sc _ _ lb la (fun b a => T a b d e f)).
Qed.

Variable N : nat.
Variable ws : list nat.
Hypothesis ws_NoDup : NoDup ws.
Hypothesis ws_lt : forall w, In w ws -> w < N.

Let k := length ws.

(** A channel after a channel is the channel of the products. *)
Lemma kraus_conjugation_compose (As Bs : list tensor) (state t1 : tensor)
    (idx : list nat) :
  valid_index (repeat 2 (2 * N)) idx ->
  (forall i, valid_index (repeat 2 (2 * N)) i ->
     data t1 i = kraus_conjugation As state N ws i) ->
  kraus_conjugation Bs t1 N ws idx
  = kraus_conjugation (kraus_products (2 ^ k) Bs As) state N ws idx.
Proof.
  intros Hidx Ht1. unfold kraus_conjugation at 1 2. cbv zeta. fold k.
  unfold kraus_products. rewrite sum_list_flat_map.
  apply sum_list_ext. intros B _. rewrite sum_list_map.
  set (a := ravel (repeat 2 k) (gather idx ws)).
  set (b := ravel (repeat 2 k) (gather idx (shifted N ws))).
  set (L := all_indices (repeat 2 k)).
  set (T := fun (r c : list nat) (A : tensor) (p q : list nat) =>
              cmul (cmul (data B [a; ravel (repeat 2 k) r])
                      (cmul (cmul (data A [ravel (repeat 2 k) r; ravel (repeat 2 k) p])
                                  (data state (updated_index N idx ws p q)))
                            (cconj (data A [ravel (repeat 2 k) c; ravel (repeat 2 k) q]))))
                   (cconj (data B [b; ravel (repeat 2 k) c]))).
  transitivity
    (sum_list L (fun r => sum_list L (fun c => sum_list As (fun A =>
       sum_list L (fun p => sum_list L (fun q => T r c A p q)))))).
  { apply sum_list_ext. intros r Hr. apply sum_list_ext. intros c Hc.
    apply all_indices_valid in Hr, Hc.
    pose proof (valid_index_length _ _ Hr) as Lr.
    pose proof (valid_index_length _ _ Hc) as Lc.
    rewrite repeat_length in Lr, Lc.
    rewrite Ht1 by (apply updated_valid; assumption).
    unfold kraus_conjugation. cbv zeta. fold k.
    rewrite sum_list_mul_l, sum_list_mul_r.
    apply sum_list_ext. intros A _.
    rewrite sum_list_mul_l, sum_list_mul_r.
    apply sum_list_ext. intros p _.
    rewrite sum_list_mul_l, sum_list_mul_r.
    apply sum_list_ext. intros q _.
    rewrite gather_updated_rows, gather_updated_columns, updated_twice
      by assumption.
    reflexivity. }
  rewrite sum_blocks_swap.
  apply sum_list_ext. intros A _. apply sum_list_ext. intros p _.
  apply sum_list_ext. intros q _.
  cbn [matmul data nth].
  rewrite <- !sum_indices_flat, cconj_sum_list, sum_list_product.
  apply sum_list_ext. intros r _. apply sum_list_ext. intros c _.
  unfold T. rewrite cconj_mul. ring.
Qed.

End MatrixProducts.

Section GatesInSequence.
Context {Sc : Scalar}.

Lemma kraus_products_shape (n : nat) (Bs As : list tensor) (K : tensor) :
  In K (kraus_products n Bs As) -> shape K = [n; n].
Proof.
  unfold kraus_products. intros H. apply in_flat_map in H as (B & _ & H).
  apply in_map_iff in H as (A & <- & _). reflexivity.
Qed.

Lemma kraus_products_inhabited (n : nat) (Bs As : list tensor) :
  Bs <> [] -> As <> [] -> kraus_products n Bs As <> [].
Proof.
  destruct Bs as [| B Bs]; [contradiction |].
  destruct As as [| A As]; [contradiction |]. discriminate.
Qed.

Lemma contracted_after (g : gate) (d : device) (device_wires : list nat)
    (state t : tensor) :
  contracted_gate g d device_wires state ->
  shape t = repeat 2 (2 * num_wires d) ->
  contracted_gate g (set_state (Some t) d) device_wires t.
Proof.
  intros (Hnd & Hmap & Hs & Hshape & Hne & Hk & Hname & Hkind) Ht.
  repeat split; assumption.
Qed.

(** X29: gates on the same wires compose as their matrices multiply:
    applying a gate with Kraus operators [A_i] and then a gate with Kraus
    operators [B_j] leaves the state that the single channel with the
    operators [B_j A_i] leaves. *)
Theorem gates_compose_as_products (gA gB : gate) (d : device)
    (device_wires : list nat) (state : tensor) :
  within_letters d ->
  contracted_gate gA d device_wires state ->
  contracted_gate gB d device_wires state ->
  exists t2 t,
    (_apply_gate gA ;;; _apply_gate gB) d = (inr tt, set_state (Some t2) d)
    /\ _apply_gate
         (with_kraus gB (kraus_products (2 ^ length device_wires)
                           (_get_kraus (g_kind gB)) (_get_kraus (g_kind gA)))) d
       = (inr tt, set_state (Some t) d)
    /\ tensor_eq t2 t.
Proof.
  intros Hsize HA HB.
  destruct (gate_entries gA d device_wires state Hsize HA) as (t1 & E1 & S1 & D1).
  pose proof (contracted_after gB d device_wires state t1 HB S1) as HB'.
  assert (Hsize' : within_letters (set_state (Some t1) d)) by exact Hsize.
  destruct (gate_entries gB _ device_wires t1 Hsize' HB') as (t2 & E2 & S2 & D2).
  assert (HAB : contracted_gate
                  (with_kraus gB (kraus_products (2 ^ length device_wires)
                     (_get_kraus (g_kind gB)) (_get_kraus (g_kind gA))))
                  d device_wires state).
  { apply contracted_with_kraus; [exact HB | |].
    - apply kraus_products_inhabited; [apply HB | apply HA].
    - destruct HB as (_ & Hmap & _). destruct (map_labels_spec _ _ Hmap) as [Hlen _].
      rewrite <- Hlen. apply kraus_products_shape. }
  destruct (gate_entries _ d device_wires state Hsize HAB) as (t & E & S & D).
  exists t2, t. split; [| split].
  - rewrite (bind_ok _ _ E1). rewrite E2. reflexivity.
  - exact E.
  - change (num_wires (set_state (Some t1) d)) with (num_wires d) in *.
    split; [rewrite S2, S; reflexivity |].
    intros idx Hidx. rewrite S2 in Hidx.
    rewrite D2, D by exact Hidx.
    cbn [with_kraus g_kind _get_kraus].
    destruct HA as (HndA & HmapA & _).
    apply kraus_conjugation_compose; try assumption.
    + apply (@map_labels_NoDup (wires d) (g_wires gA) device_wires HmapA HndA).
    + apply (@map_labels_lt (wires d) (g_wires gA) device_wires HmapA).
Qed.

End GatesInSequence.

Lemma gates_compose_as_products_witness :
  exists t2 t,
    (_apply_gate (mkGate "PauliX" (Unitary PauliX_matrix) [LInt 0]) ;;;
     _apply_gate (mkGate "PauliX" (Unitary PauliX_matrix) [LInt 0])) plus_device
    = (inr tt, set_state (Some t2) plus_device)
    /\ _apply_gate
         (with_kraus (mkGate "PauliX" (Unitary PauliX_matrix) [LInt 0])
            (kraus_products (2 ^ 1) [PauliX_matrix] [PauliX_matrix])) plus_device
       = (inr tt, set_state (Some t) plus_device)
    /\ tensor_eq t2 t.
Proof.
  apply (@gates_compose_as_products GaussScalar
           (mkGate "PauliX" (Unitary PauliX_matrix) [LInt 0])
           (mkGate "PauliX" (Unitary PauliX_matrix) [LInt 0]) plus_device [0]
           plus_state).
  - right. cbn. lia.
  - repeat split; try reflexivity.
    + repeat constructor. intros [].
    + discriminate.
    + intros K [<- | []]. reflexivity.
    + discriminate.
  - repeat split; try reflexivity.
    + repeat constructor. intros [].
    + discriminate.
    + intros K [<- | []]. reflexivity.
    + discriminate.
Defined.

(** ** A density matrix on some of the wires *)

Lemma index_of_map (f : nat -> nat) (l : list nat) (i : nat) :
  (forall j, In j l -> f j = f i -> j = i) ->
  index_of (f i) (map f l) = index_of i l.
Proof.
  induction l as [| x l IH]; intros Hinj; [reflexivity |].
  cbn [map index_of]. destruct (i =? x) eqn:E.
  - apply Nat.eqb_eq in E. subst. rewrite Nat.eqb_refl. reflexivity.
  - apply Nat.eqb_neq in E. destruct (f i =? f x) eqn:E'.
    + apply Nat.eqb_eq in E'. exfalso. apply E. symmetry.
      apply Hinj; [left; reflexivity | congruence].
    + f_equal. apply IH. intros j Hj. apply Hinj. right. exact Hj.
Qed.

Section SubsetAxes.

Variable N : nat.
Variable ws : list nat.
Hypothesis ws_NoDup : NoDup ws.
Hypothesis ws_lt : forall w, In w ws -> w < N.

Let k := length ws.
Let comp := free_axes N ws.
Let c := length comp.

(** The axis of the product [sigma (x) rho_in] that holds wire [i]. *)
Definition product_axis (i : nat) : nat :=
  if memn i ws then c + index_of i ws else index_of i comp.

Lemma comp_In (i : nat) : In i comp <-> i < N /\ ~ In i ws.
Proof.
  unfold comp, free_axes. rewrite filter_In, in_seq, negb_true_iff, memn_false. intuition lia.
Qed.

Lemma comp_NoDup : NoDup comp.
Proof. unfold comp, free_axes. apply NoDup_filter, seq_NoDup. Qed.

Lemma wires_count : c + k = N.
Proof.
  unfold c, comp, k. rewrite free_axes_length by assumption.
  assert (length ws <= N); [| lia].
  rewrite <- (length_seq N 0). apply NoDup_incl_length; [exact ws_NoDup |].
  intros w Hw. apply in_seq. apply ws_lt in Hw. lia.
Qed.

Lemma transpose_axes_eq :
  transpose_axes N ws comp
  = map product_axis (seq 0 N) ++ map (fun i => product_axis i + N) (seq 0 N).
Proof.
  unfold transpose_axes. fold c.
  set (step := fun (acc : list nat * list nat) (i : nat) => _).
  assert (H : forall l a b, (forall i, In i l -> i < N) ->
            fold_left step l (a, b)
            = (a ++ map product_axis l, b ++ map (fun i => product_axis i + N) l)).
  { induction l as [| i l IH]; intros a b Hl.
    - cbn. rewrite !app_nil_r. reflexivity.
    - cbn [fold_left map]. unfold step at 2. cbn [fst snd].
      assert (Hi : i < N) by (apply Hl; left; reflexivity).
      unfold product_axis at 1 3.
      destruct (memn i ws) eqn:E.
      + rewrite IH by (intros j Hj; apply Hl; right; exact Hj).
        rewrite <- !app_assoc. reflexivity.
      + apply memn_false in E.
        rewrite (proj2 (memn_In i comp) (proj2 (comp_In i) (Logic.conj Hi E))).
        rewrite IH by (intros j Hj; apply Hl; right; exact Hj).
        rewrite <- !app_assoc. reflexivity. }
  rewrite H by (intros i Hi; apply in_seq in Hi; lia). reflexivity.
Qed.

Lemma product_axis_lt (i : nat) : i < N -> product_axis i < N.
Proof.
  intros Hi. unfold product_axis. pose proof wires_count.
  destruct (memn i ws) eqn:E.
  - apply memn_In, index_of_lt in E. fold k in E. lia.
  - apply memn_false in E.
    pose proof (index_of_lt i comp (proj2 (comp_In i) (Logic.conj Hi E))). fold c in H0. lia.
Qed.

Lemma product_axis_injective (i j : nat) :
  i < N -> j < N -> product_axis i = product_axis j -> i = j.
Proof.
  intros Hi Hj. unfold product_axis.
  destruct (memn i ws) eqn:Ei, (memn j ws) eqn:Ej; intros H.
  - apply memn_In in Ei, Ej.
    rewrite <- (nth_index_of i 0 ws Ei), <- (nth_index_of j 0 ws Ej).
    f_equal. lia.
  - apply memn_false in Ej.
    pose proof (index_of_lt j comp (proj2 (comp_In j) (Logic.conj Hj Ej))). fold c in H0. lia.
  - apply memn_false in Ei.
    pose proof (index_of_lt i comp (proj2 (comp_In i) (Logic.conj Hi Ei))). fold c in H0. lia.
  - apply memn_false in Ei, Ej.
    rewrite <- (nth_index_of i 0 comp (proj2 (comp_In i) (Logic.conj Hi Ei))),
            <- (nth_index_of j 0 comp (proj2 (comp_In j) (Logic.conj Hj Ej))).
    f_equal. exact H.
Qed.

(** The wire that axis [p] of the product holds. *)
Lemma product_axis_of (p : nat) :
  p < N -> nth p (comp ++ ws) 0 < N /\ product_axis (nth p (comp ++ ws) 0) = p.
Proof.
  intros Hp. pose proof wires_count. destruct (Nat.lt_ge_cases p c) as [Hc | Hc].
  - rewrite app_nth1 by exact Hc.
    assert (Hin : In (nth p comp 0) comp) by (apply nth_In; exact Hc).
    pose proof (proj1 (comp_In _) Hin) as [Hlt Hn]. split; [exact Hlt |].
    unfold product_axis. rewrite (proj2 (memn_false _ _) Hn).
    apply index_of_nth; [apply comp_NoDup | exact Hc].
  - rewrite app_nth2 by exact Hc. fold c.
    assert (Hin : In (nth (p - c) ws 0) ws) by (apply nth_In; fold k; lia).
    split; [apply ws_lt, Hin |].
    unfold product_axis. rewrite (proj2 (memn_In _ _) Hin).
    rewrite index_of_nth by (assumption || (fold k; lia)). lia.
Qed.

Lemma index_of_product_axis (i : nat) :
  i < N -> index_of (product_axis i) (map product_axis (seq 0 N)) = i.
Proof.
  intros Hi. rewrite index_of_map.
  - rewrite (index_of_seq [] 0 N i) by lia. lia.
  - intros j Hj. apply in_seq in Hj. apply product_axis_injective; lia.
Qed.

Lemma transpose_axes_permutation :
  is_permutation_of_range (transpose_axes N ws comp) (2 * N) = true.
Proof.
  unfold is_permutation_of_range. rewrite transpose_axes_eq.
  rewrite length_app, !length_map, length_seq.
  replace (N + N =? 2 * N) with true by (symmetry; apply Nat.eqb_eq; lia).
  cbn [andb]. apply forallb_forall. intros p Hp. apply in_seq in Hp.
  apply memn_In, in_or_app.
  destruct (Nat.lt_ge_cases p N) as [H | H].
  - left. destruct (product_axis_of p H) as [Hlt E].
    apply in_map_iff. eexists. split; [exact E |]. apply in_seq. lia.
  - right. destruct (product_axis_of (p - N) ltac:(lia)) as [Hlt E].
    apply in_map_iff. eexists. split; [| apply in_seq; split; [lia | exact Hlt]].
    cbn beta. rewrite E. lia.
Qed.

(** The entry of the product that the transposition reads at [idx]. *)
Lemma transposed_index (idx : list nat) :
  map (fun p => nth (index_of p (transpose_axes N ws comp)) idx 0) (seq 0 (2 * N))
  = gather idx (comp ++ ws) ++ gather idx (shifted N (comp ++ ws)).
Proof.
  pose proof wires_count as Hc.
  assert (Hl : length (comp ++ ws) = N) by (rewrite length_app; fold c k; lia).
  replace (2 * N) with (N + N) by lia. rewrite seq_app, map_app. f_equal.
  - symmetry. unfold gather. rewrite <- (map_nth_range (comp ++ ws) 0) at 1.
    rewrite map_map, Hl. apply map_ext_in. intros p Hp. apply in_seq in Hp.
    destruct (product_axis_of p ltac:(lia)) as [Hlt E].
    rewrite transpose_axes_eq, index_of_app_l.
    + rewrite <- E at 2. rewrite index_of_product_axis by exact Hlt. reflexivity.
    + apply in_map_iff. eexists. split; [exact E |]. apply in_seq. lia.
  - symmetry. unfold gather, shifted. rewrite map_map.
    rewrite <- (map_nth_range (comp ++ ws) 0) at 1.
    rewrite map_map, Hl, (map_seq_from _ _ N N).
    apply map_ext_in. intros p Hp. apply in_seq in Hp.
    destruct (product_axis_of p ltac:(lia)) as [Hlt E].
    rewrite transpose_axes_eq, index_of_app_r.
    + rewrite length_map, length_seq.
      replace (N + p) with (product_axis (nth p (comp ++ ws) 0) + N) by lia.
      rewrite (index_of_map (fun i => product_axis i + N)).
      * rewrite (index_of_seq [] 0 N _) by lia. f_equal. lia.
      * intros j Hj Hq. apply in_seq in Hj.
        apply product_axis_injective; lia.
    + intros Hin. apply in_map_iff in Hin as (j & Hj & Hjn). apply in_seq in Hjn.
      pose proof (product_axis_lt j ltac:(lia)). lia.
Qed.

End SubsetAxes.

Section ProductState.
Context {Sc : Scalar}.

Variable N : nat.
Variable ws : list nat.
Hypothesis ws_NoDup : NoDup ws.
Hypothesis ws_lt : forall w, In w ws -> w < N.

Let k := length ws.
Let comp := free_axes N ws.
Let c := length comp.

Lemma ravel_pair (x y : list nat) :
  valid_index (repeat 2 c) x -> valid_index (repeat 2 k) y ->
  ravel (repeat 2 N) (x ++ y) / 2 ^ k = ravel (repeat 2 c) x
  /\ ravel (repeat 2 N) (x ++ y) mod 2 ^ k = ravel (repeat 2 k) y.
Proof.
  intros Hx Hy. assert (Hc : c + k = N) by (apply wires_count; assumption).
  rewrite <- Hc, repeat_app.
  rewrite ravel_app by (rewrite (valid_index_length _ _ Hx); reflexivity).
  rewrite prod_shape_repeat2.
  pose proof (ravel_lt _ _ Hy) as Hlt. rewrite prod_shape_repeat2 in Hlt.
  split.
  - rewrite Nat.div_add_l by (apply Nat.pow_nonzero; discriminate). rewrite Nat.div_small by exact Hlt. apply Nat.add_0_r.
  - rewrite Nat.add_comm, Nat.Div0.mod_add. apply Nat.mod_small, Hlt.
Qed.

Lemma transposed_shape :
  map (fun a => nth a (repeat 2 (2 * N)) 0) (transpose_axes N ws comp)
  = repeat 2 (2 * N).
Proof.
  unfold comp. rewrite transpose_axes_eq by assumption.
  assert (H : forall (l : list nat),
            (forall a, In a l -> a < 2 * N) ->
            map (fun a => nth a (repeat 2 (2 * N)) 0) l = repeat 2 (length l)).
  { induction l as [| a l IH]; intros Hl; [reflexivity |].
    cbn [map length repeat]. f_equal.
    - apply nth_repeat_lt. apply Hl. left. reflexivity.
    - apply IH. intros b Hb. apply Hl. right. exact Hb. }
  rewrite H.
  - rewrite length_app, !length_map, length_seq. f_equal. lia.
  - intros a Ha. apply in_app_or in Ha as [Ha | Ha];
      apply in_map_iff in Ha as (i & <- & Hi); apply in_seq in Hi;
      pose proof (product_axis_lt N ws ws_NoDup ws_lt i ltac:(lia)); lia.
Qed.

(** The array that lines 652-672 build from the reduced state [sigma] of
    the other wires and the given matrix [m]: the entry at [idx] is the
    entry of [sigma] at the coordinates of the other wires times the entry
    of [m] at the coordinates of the wires [ws]. *)
Lemma product_state_entries (sigma m : tensor) :
  shape sigma = [2 ^ c; 2 ^ c] ->
  shape m = [2 ^ k; 2 ^ k] ->
  exists r rho,
    reshape (kron sigma m) (repeat 2 (2 * N)) = Some r
    /\ transpose r (transpose_axes N ws comp) = Some rho
    /\ shape rho = repeat 2 (2 * N)
    /\ forall idx, valid_index (repeat 2 (2 * N)) idx ->
         data rho idx
         = cmul (data sigma [ravel (repeat 2 c) (gather idx comp);
                             ravel (repeat 2 c) (gather idx (shifted N comp))])
                (data m [ravel (repeat 2 k) (gather idx ws);
                         ravel (repeat 2 k) (gather idx (shifted N ws))]).
Proof.
  intros Hsig Hm. assert (Hc : c + k = N) by (apply wires_count; assumption).
  unfold kron. rewrite Hsig, Hm. cbn [nth].
  rewrite <- Nat.pow_add_r, Hc, reshape_square_to_tensor.
  eexists. eexists. split; [reflexivity |].
  unfold transpose, ndim. cbn [shape]. rewrite repeat_length.
  unfold comp. rewrite transpose_axes_permutation by assumption. fold comp.
  split; [reflexivity |]. cbn [shape data]. split; [apply transposed_shape |].
  intros idx Hidx. unfold comp.
  rewrite transposed_index by assumption. fold comp.
  assert (E : gather idx (comp ++ ws) ++ gather idx (shifted N (comp ++ ws))
              = (gather idx comp ++ gather idx ws)
                ++ (gather idx (shifted N comp) ++ gather idx (shifted N ws))).
  { unfold shifted, gather. rewrite !map_app. reflexivity. }
  rewrite E. clear E.
  assert (Hcl : forall w, In w comp -> w < 2 * N).
  { intros w Hw. apply (comp_In N ws) in Hw. lia. }
  assert (Hwl : forall w, In w ws -> w < 2 * N).
  { intros w Hw. apply ws_lt in Hw. lia. }
  assert (Hsl : forall l w, (forall v, In v l -> v < N) -> In w (shifted N l) -> w < 2 * N).
  { intros l w Hl Hw. apply in_map_iff in Hw as (v & <- & Hv). apply Hl in Hv. lia. }
  pose proof (gather_valid (2 * N) idx comp Hidx Hcl) as V1.
  pose proof (gather_valid (2 * N) idx ws Hidx Hwl) as V2.
  pose proof (gather_valid (2 * N) idx (shifted N comp) Hidx
                (fun w => Hsl comp w (fun v Hv => proj1 (proj1 (comp_In N ws v) Hv)))) as V3.
  pose proof (gather_valid (2 * N) idx (shifted N ws) Hidx
                (fun w => Hsl ws w ws_lt)) as V4.
  unfold shifted in V3, V4. rewrite length_map in V3, V4.
  fold (shifted N comp) in V3. fold (shifted N ws) in V4. fold c in V1, V3. fold k in V2, V4.
  rewrite unravel_square.
  - cbn [nth].
    destruct (ravel_pair _ _ V1 V2) as [-> ->].
    destruct (ravel_pair _ _ V3 V4) as [-> ->]. reflexivity.
  - rewrite <- Hc, repeat_app. apply valid_index_app; assumption.
  - replace (repeat 2 N) with (repeat 2 c ++ repeat 2 k)
      by (rewrite <- repeat_app, Hc; reflexivity).
    apply valid_index_app; assumption.
Qed.

End ProductState.

Section SubsetPreparation.
Context {Sc : Scalar}.

Lemma density_matrix_shape (ws : Wires) (d d' : device) (sigma : tensor) :
  density_matrix ws d = (inr sigma, d') ->
  shape sigma = [2 ^ length ws; 2 ^ length ws].
Proof.
  unfold density_matrix. intros H.
  apply bind_inv in H as (stm & d1 & _ & H).
  apply bind_inv in H as (mapped & d2 & Hm & H).
  apply bind_inv in H as (d3 & d4 & _ & H).
  unfold map_wires in Hm. apply bind_inv in Hm as (d5 & d6 & Hg & Hm).
  apply lift_inv in Hm as [Hm _].
  destruct (map_labels_spec _ _ Hm) as [Hlen _].
  unfold ret in H. injection H as <- _. cbn [reduce_dm shape].
  rewrite Hlen. reflexivity.
Qed.

(** X30: [QubitDensityMatrix] on some of the wires, or on all of them out
    of order, with a matrix [st] of the size of its wires and trace 1.
    With [sigma] what [density_matrix] returns for the complement (the
    positions of the other wires, looked up as wire labels), the new state
    is the product of [sigma] on the other wires and [st] on the given
    wires, each coordinate back on the axis of its wire; it is stored as
    state and as pre-rotated state when its trace is 1, and the method
    raises [AssertionError], the device unchanged, when it is not. *)
Theorem density_matrix_preparation_on_some_wires (st : tensor) (ws : Wires)
    (d : device) (device_wires : list nat) (sigma : tensor) :
  NoDup ws ->
  map_labels (wires d) ws = Some device_wires ->
  (length device_wires =? num_wires d) && is_sorted device_wires = false ->
  shape st = [2 ^ length device_wires; 2 ^ length device_wires] ->
  close_to_one (trace st) = true ->
  density_matrix (map (fun i => LInt (Z.of_nat i))
                    (free_axes (num_wires d) device_wires)) d
  = (inr sigma, d) ->
  exists t flat,
    shape t = repeat 2 (2 * num_wires d)
    /\ (forall idx, valid_index (repeat 2 (2 * num_wires d)) idx ->
          let others := free_axes (num_wires d) device_wires in
          data t idx
          = cmul (data sigma
                    [ravel (repeat 2 (length others)) (gather idx others);
                     ravel (repeat 2 (length others))
                       (gather idx (shifted (num_wires d) others))])
                 (data st
                    [ravel (repeat 2 (length device_wires)) (gather idx device_wires);
                     ravel (repeat 2 (length device_wires))
                       (gather idx (shifted (num_wires d) device_wires))]))
    /\ reshape t [2 ^ num_wires d; 2 ^ num_wires d] = Some flat
    /\ _apply_density_matrix st ws d
       = if close_to_one (trace flat)
         then (inr tt, set_pre_rotated_state (Some t) (set_state (Some t) d))
         else (inl AssertionError, d).
Proof.
  intros Hnd Hmap Hpath Hshape Htrace Hsigma. set (N := num_wires d) in *.
  pose proof (@map_labels_NoDup (wires d) ws device_wires Hmap Hnd) as Hnd'.
  pose proof (@map_labels_lt (wires d) ws device_wires Hmap) as Hlt.
  fold (num_wires d) in Hlt. fold N in Hlt.
  set (k := length device_wires) in *.
  destruct (flatten_square (2 ^ k) st Hshape) as (m & Em & Sm & Dm).
  assert (Htr : trace m = trace st).
  { unfold trace. rewrite Sm, Hshape. cbn [nth]. rewrite Nat.min_id.
    unfold sum_range. apply sum_list_ext. intros i Hi. apply in_seq in Hi.
    apply Dm; lia. }
  pose proof (density_matrix_shape _ _ _ _ Hsigma) as Ss. rewrite length_map in Ss.
  destruct (product_state_entries N device_wires Hnd' Hlt sigma m Ss Sm)
    as (r & rho & Er & Et & Sr & Dr).
  pose proof (reshape_tensor_to_square N rho Sr) as Ef.
  eexists rho, _. split; [exact Sr |]. split; [| split; [exact Ef |]].
  - intros idx Hidx others. rewrite (Dr idx Hidx). fold k. f_equal.
    apply Dm; rewrite <- (prod_shape_repeat2 k); apply ravel_lt.
    + apply (gather_valid (2 * N)); [exact Hidx |].
      intros w Hw. apply Hlt in Hw. lia.
    + pose proof (gather_valid (2 * N) idx (shifted N device_wires) Hidx) as V.
      rewrite shifted_length in V. apply V.
      intros w Hw. apply in_map_iff in Hw as (v & <- & Hv). apply Hlt in Hv. lia.
  - unfold _apply_density_matrix.
    rewrite (bind_ok _ _ (map_wires_run _ _ Hmap)), (bind_ok _ _ (get_run d)).
    fold N k.
    assert (Hflat : hd 0 (shape (flatten st)) = (2 ^ k) ^ 2).
    { unfold flatten. cbn [shape hd]. rewrite Hshape. unfold prod_shape.
      cbn [fold_right]. cbn [Nat.pow]. lia. }
    rewrite Hflat, Nat.eqb_refl. cbn [negb when].
    rewrite (bind_ok _ _ (ret_run _ tt d)), Em. cbn [lift].
    rewrite (bind_ok _ _ (ret_run _ m d)), Htr, Htrace. cbn [negb when].
    rewrite (bind_ok _ _ (ret_run _ tt d)).
    rewrite Hpath.
    rewrite (bind_ok _ _ Hsigma), Er. cbn [lift].
    rewrite (bind_ok _ _ (ret_run _ r d)), Et. cbn [lift].
    rewrite (bind_ok _ _ (ret_run _ rho d)), Ef. cbn [lift].
    erewrite (bind_ok (ret _)) by apply ret_run.
    match goal with |- _ = if ?b then _ else _ => destruct b end; reflexivity.
Qed.

End SubsetPreparation.

(** Two wires in |00>. *)
Definition pair_state : @tensor GaussScalar :=
  mkTensor [2; 2; 2; 2]
    (fun idx => if forallb (Nat.eqb 0) idx then Gauss.one else Gauss.zero).

Definition pair_device : @device GaussScalar :=
  mkDevice [LInt 0; LInt 1] Numpy None (Some pair_state) (Some pair_state) [] None.

(** The reduced state of wire 1 of [pair_device]. *)
Definition pair_sigma : @tensor GaussScalar :=
  reduce_dm 2
    (mkTensor [4; 4]
       (fun idx => data pair_state (unravel [2; 2; 2; 2] (ravel [4; 4] idx))))
    [1].

Lemma density_matrix_preparation_on_some_wires_witness :
  exists t flat,
    shape t = repeat 2 (2 * num_wires pair_device)
    /\ (forall idx, valid_index (repeat 2 (2 * num_wires pair_device)) idx ->
          let others := free_axes (num_wires pair_device) [0] in
          data t idx
          = cmul (data pair_sigma
                    [ravel (repeat 2 (length others)) (gather idx others);
                     ravel (repeat 2 (length others))
                       (gather idx (shifted (num_wires pair_device) others))])
                 (data ket1_matrix
                    [ravel (repeat 2 (length [0])) (gather idx [0]);
                     ravel (repeat 2 (length [0]))
                       (gather idx (shifted (num_wires pair_device) [0]))]))
    /\ reshape t [2 ^ num_wires pair_device; 2 ^ num_wires pair_device] = Some flat
    /\ _apply_density_matrix ket1_matrix [LInt 0] pair_device
       = if close_to_one (trace flat)
         then (inr tt, set_pre_rotated_state (Some t) (set_state (Some t) pair_device))
         else (inl AssertionError, pair_device).
Proof.
  apply (@density_matrix_preparation_on_some_wires GaussScalar ket1_matrix [LInt 0]
           pair_device [0] pair_sigma).
  - repeat constructor. intros [].
  - reflexivity.
  - reflexivity.
  - reflexivity.
  - vm_compute. reflexivity.
  - reflexivity.
Defined.

(** * Basis-state preparation (C9) *)

Section BasisIndex.

Lemma list_sum_map_add (A : Type) (f g : A -> nat) (l : list A) :
  list_sum (map (fun p => f p + g p) l) = list_sum (map f l) + list_sum (map g l).
Proof.
  unfold list_sum. induction l as [| x l IH]; cbn [map fold_right]; lia.
Qed.

Lemma list_sum_map_ext (A : Type) (f g : A -> nat) (l : list A) :
  (forall x, In x l -> f x = g x) -> list_sum (map f l) = list_sum (map g l).
Proof. intros H. f_equal. apply map_ext_in, H. Qed.

Lemma list_sum_zero (A : Type) (l : list A) :
  list_sum (map (fun _ => 0) l) = 0.
Proof. unfold list_sum. induction l as [| x l IH]; cbn [map fold_right]; lia. Qed.

Lemma list_sum_one_term (w c a n : nat) :
  a <= w < a + n ->
  list_sum (map (fun p => if p =? w then c else 0) (seq a n)) = c.
Proof.
  revert a. induction n as [| n IH]; intros a H; [lia |].
  cbn [seq map]. change (list_sum (?x :: ?l)) with (x + list_sum l).
  destruct (a =? w) eqn:E.
  - apply Nat.eqb_eq in E. subst a.
    rewrite (list_sum_map_ext _ _ (fun _ => 0)).
    + rewrite list_sum_zero. lia.
    + intros x Hx. apply in_seq in Hx.
      destruct (x =? w) eqn:E; [apply Nat.eqb_eq in E; lia | reflexivity].
  - apply Nat.eqb_neq in E. rewrite IH by lia. reflexivity.
Qed.

(** The row-major index of a list of [N] bits, position by position: the
    bit at position [p] has the weight [2^(N-1-p)]. *)
Lemma ravel_positional (N : nat) (x : list nat) :
  length x = N ->
  ravel (repeat 2 N) x
  = list_sum (map (fun p => nth p x 0 * 2 ^ (N - 1 - p)) (seq 0 N)).
Proof.
  revert x. induction N as [| N IH]; intros x Hx.
  - destruct x; [reflexivity | discriminate].
  - destruct x as [| a x]; [discriminate |]. injection Hx as Hx.
    cbn [repeat ravel seq map nth].
    change (list_sum (?y :: ?l)) with (y + list_sum l).
    rewrite prod_shape_repeat2, (IH x Hx), <- seq_shift, map_map.
    replace (S N - 1 - 0) with N by lia. f_equal.
    apply list_sum_map_ext. intros p Hp. apply in_seq in Hp.
    replace (S N - 1 - S p) with (N - 1 - p) by lia. reflexivity.
Qed.

(** The number that [_apply_basis_state] computes is the row-major index
    of the basis state with the given bits on the given wires and 0 on
    every other wire. *)
Lemma basis_number_placed (N : nat) (bitvals : list Z) (ws : list nat) :
  length bitvals = length ws -> NoDup ws -> (forall w, In w ws -> w < N) ->
  basis_number N bitvals ws
  = ravel (repeat 2 N) (place N ws (map Z.to_nat bitvals)).
Proof.
  intros Hl Hnd Hlt.
  rewrite ravel_positional by apply place_length.
  rewrite (list_sum_map_ext _ _
             (fun p => (if memn p ws
                        then nth (index_of p ws) (map Z.to_nat bitvals) 0 else 0)
                       * 2 ^ (N - 1 - p)))
    by (intros p Hp; apply in_seq in Hp; rewrite place_at by lia; reflexivity).
  unfold basis_number. fold (list_sum (map (fun p : Z * nat =>
    Z.to_nat (fst p) * 2 ^ (N - 1 - snd p)) (combine bitvals ws))).
  revert bitvals Hl. induction ws as [| w ws IH]; intros bitvals Hl.
  - destruct bitvals; [| discriminate]. cbn [combine map memn existsb].
    rewrite (list_sum_map_ext _ _ (fun _ => 0)) by reflexivity.
    rewrite list_sum_zero. reflexivity.
  - destruct bitvals as [| b bs]; [discriminate |]. injection Hl as Hl.
    inversion Hnd as [| ? ? Hw Hws]; subst.
    cbn [combine map fst snd].
    change (list_sum (?y :: ?l)) with (y + list_sum l).
    rewrite (IH Hws (fun v Hv => Hlt v (or_intror Hv)) bs Hl).
    rewrite <- (list_sum_one_term w (Z.to_nat b * 2 ^ (N - 1 - w)) 0 N)
      by (specialize (Hlt w (or_introl eq_refl)); lia).
    rewrite <- list_sum_map_add. apply list_sum_map_ext.
    intros p Hp. unfold memn. cbn [existsb index_of].
    destruct (p =? w) eqn:E.
    + apply Nat.eqb_eq in E. subst p. cbn [orb nth].
      fold (memn w ws). rewrite (proj2 (memn_false w ws) Hw). lia.
    + cbn [orb]. fold (memn p ws). destruct (memn p ws); cbn [nth]; lia.
Qed.

Lemma binary_bits (bitvals : list Z) :
  binary bitvals = true ->
  valid_index (repeat 2 (length bitvals)) (map Z.to_nat bitvals).
Proof.
  induction bitvals as [| b bs IH]; intros H; [exact I |].
  cbn in H. apply andb_prop in H as [Hb Hbs].
  cbn [length repeat map valid_index]. split; [| apply IH, Hbs].
  apply orb_prop in Hb as [Hb | Hb]; apply Z.eqb_eq in Hb; subst b; cbn; lia.
Qed.

End BasisIndex.

Section BasisStateRoundTrip.
Context {Sc : Scalar}.

(** Nothing that [density_matrix] reads is the working tensor. *)
Lemma density_matrix_ignores_state (ws : Wires) (t : option tensor) (d : device) :
  fst (density_matrix ws (set_state t d)) = fst (density_matrix ws d).
Proof.
  destruct d as [w i r st pre mw dbg].
  unfold density_matrix, state, map_wires, bind, get, lift, ret, raise, set_state,
    num_wires.
  cbn - [reshape reduce_dm map_labels Nat.pow].
  destruct pre as [pre |]; [| reflexivity].
  destruct (reshape pre _); [| reflexivity].
  cbv beta iota delta [wires].
  destruct (map_labels w ws); reflexivity.
Qed.

(** C9 (as amended): for wires on the device, basis-state preparation
    raises a [ValueError] for a bit outside {0,1} or for lengths that
    differ.  Otherwise it stores, as the working tensor, the array whose
    matrix form is 1 at row and column [index] and 0 elsewhere, where
    [index = sum_i bits[i] * 2^(N-1-device_wire[i])] is the number whose
    binary digit at each given wire is the bit given for that wire, the
    first wire being the most significant, and 0 at every other wire.  The
    method assigns the working tensor only: what [density_matrix] returns
    is not changed by it.  Through [apply], which stores the pre-rotated
    state, [BasisState(b)] on the three wires of a new device followed by
    [density_matrix] gives the projector on |b>, so |101><101| for
    [[1,0,1]] and |110><110| for [[1,1,0]]. *)
Theorem apply_basis_state_spec (bitvals : list Z) (ws : Wires) (d : device)
    (device_wires : list nat) :
  map_labels (wires d) ws = Some device_wires ->
  (binary bitvals = false -> _apply_basis_state bitvals ws d = (inl bits_error, d))
  /\ (binary bitvals = true -> length bitvals <> length ws ->
      _apply_basis_state bitvals ws d = (inl length_error, d))
  /\ (binary bitvals = true -> length bitvals = length ws -> NoDup ws ->
      let N := num_wires d in
      let index :=
        list_sum (map (fun p => Z.to_nat (fst p) * 2 ^ (N - 1 - snd p))
                      (combine bitvals device_wires)) in
      exists t m,
        _apply_basis_state bitvals ws d = (inr tt, set_state (Some t) d)
        /\ index < 2 ^ N
        /\ (forall i, i < length device_wires ->
              nth (nth i device_wires 0) (unravel (repeat 2 N) index) 0
              = Z.to_nat (nth i bitvals 0%Z))
        /\ (forall p, p < N -> ~ In p device_wires ->
              nth p (unravel (repeat 2 N) index) 0 = 0)
        /\ shape t = repeat 2 (2 * N)
        /\ reshape t [2 ^ N; 2 ^ N] = Some m
        /\ (forall r c, r < 2 ^ N -> c < 2 ^ N ->
              data m [r; c] = if (r =? index) && (c =? index) then c1 else c0)
        /\ (forall ws', fst (density_matrix ws' (set_state (Some t) d))
                        = fst (density_matrix ws' d)))
  /\ (forall d3 i b0 b1 b2,
        DefaultMixed_init (WiresCount 3) None i = inr d3 ->
        binary [b0; b1; b2] = true ->
        exists dm d',
          (apply no_BitFlip [BasisState [b0; b1; b2] wires012] [] ;;;
           density_matrix wires012) d3 = (inr dm, d')
          /\ shape dm = [8; 8]
          /\ forall r c, r < 8 -> c < 8 ->
               data dm [r; c]
               = if (r =? Z.to_nat (4 * b0 + 2 * b1 + b2))
                    && (c =? Z.to_nat (4 * b0 + 2 * b1 + b2))
                 then c1 else c0).
Proof.
  intros Hmap.
  destruct (@apply_basis_state_run _ bitvals ws d device_wires Hmap) as (H1 & H2 & H3).
  split; [exact H1 |]. split; [exact H2 |]. split.
  - intros Hb He Hnd N index.
    destruct (H3 Hb He Hnd) as (t & Hc & Hrun & _).
    destruct (map_labels_spec _ _ Hmap) as [Hlen _].
    pose proof (@map_labels_NoDup (wires d) ws device_wires Hmap Hnd) as Hnd'.
    pose proof (@map_labels_lt (wires d) ws device_wires Hmap) as Hlt.
    fold (num_wires d) in Hlt. fold N in Hlt, Hc.
    assert (Ei : index = basis_number N bitvals device_wires) by reflexivity.
    assert (Hnum : index < 2 ^ N)
      by (rewrite Ei; apply basis_number_lt; assumption).
    assert (Eu : unravel (repeat 2 N) index
                 = place N device_wires (map Z.to_nat bitvals)).
    { rewrite Ei, basis_number_placed by (assumption || congruence).
      apply unravel_ravel, place_valid.
      rewrite Hlen, <- He. apply binary_bits, Hb. }
    rewrite <- Ei in Hc. rewrite (create_basis_state_eq N Hnum) in Hc.
    injection Hc as Ht.
    assert (Hentry : forall r c, r < 2 ^ N -> c < 2 ^ N ->
      (let rc := unravel [2 ^ N; 2 ^ N]
                   (ravel (repeat 2 (2 * N))
                      (unravel (repeat 2 (2 * N)) (ravel [2 ^ N; 2 ^ N] [r; c]))) in
       if (nth 0 rc 0 =? index) && (nth 1 rc 0 =? index) then c1 else c0)
      = if (r =? index) && (c =? index) then c1 else c0).
    { intros r c Hr Hcc. cbv zeta. rewrite (unravel_matrix_entry N r c Hr Hcc).
      reflexivity. }
    exists t. eexists. split; [exact Hrun |]. split; [exact Hnum |].
    split; [| split; [| split; [| split; [| split]]]].
    + intros i Hi. rewrite Eu.
      assert (Hin : In (nth i device_wires 0) device_wires) by (apply nth_In, Hi).
      rewrite place_at by (apply Hlt, Hin).
      rewrite (proj2 (memn_In _ _) Hin), index_of_nth by assumption.
      change 0 with (Z.to_nat 0) at 1. apply map_nth.
    + intros p Hp Hn. rewrite Eu, place_at by exact Hp.
      rewrite (proj2 (memn_false _ _) Hn). reflexivity.
    + rewrite <- Ht. reflexivity.
    + apply reshape_tensor_to_square. rewrite <- Ht. reflexivity.
    + intros r c Hr Hcc. rewrite <- Ht.
      etransitivity; [| apply (Hentry r c Hr Hcc)]. reflexivity.
    + intros ws'. apply density_matrix_ignores_state.
  - intros d3 i b0 b1 b2 Hd3 Hb.
    assert (Hd : d3 = match DefaultMixed_init (WiresCount 3) None i with
                      | inr x => x | inl _ => d3 end) by (rewrite Hd3; reflexivity).
    set (run := (apply no_BitFlip [BasisState [b0; b1; b2] wires012] [] ;;;
                 density_matrix wires012) d3).
    set (num := Z.to_nat (4 * b0 + 2 * b1 + b2)).
    assert (H : match run with
                | (inr t, _) => Some (shape t, map (data t) (all_indices [8; 8]))
                | _ => None
                end
                = Some ([8; 8],
                        map (fun idx => cadd (if (nth 0 idx 0 =? num) && (nth 1 idx 0 =? num)
                                              then c1 else c0) c0)
                            (all_indices [8; 8]))).
    { unfold run, num. rewrite Hd. clear Hd Hd3 run num.
      cbn in Hb. rewrite andb_true_r in Hb.
      apply andb_prop in Hb as [Hb0 Hb]. apply andb_prop in Hb as [Hb1 Hb2].
      apply orb_prop in Hb0 as [E0 | E0]; apply Z.eqb_eq in E0; subst b0;
        apply orb_prop in Hb1 as [E1 | E1]; apply Z.eqb_eq in E1; subst b1;
        apply orb_prop in Hb2 as [E2 | E2]; apply Z.eqb_eq in E2; subst b2;
        destruct i; vm_compute; reflexivity. }
    destruct run as [[e | dm] d']; [discriminate |].
    exists dm, d'. split; [reflexivity |].
    pose proof (f_equal (option_map fst) H) as Hs.
    pose proof (f_equal (option_map snd) H) as Hdata.
    cbn [option_map fst snd] in Hs, Hdata. clear H.
    apply (f_equal (fun o => match o with Some x => x | None => [] end)) in Hs.
    apply (f_equal (fun o => match o with Some x => x | None => [] end)) in Hdata.
    split; [exact Hs |]. intros r c Hr Hc.
    assert (Hin : In [r; c] (all_indices [8; 8]))
      by (apply in_all_indices; cbn; auto).
    pose proof (proj1 (@map_ext_in_iff _ _ _ _ _) Hdata _ Hin) as E.
    rewrite E. cbn [nth].
    rewrite (Radd_comm C_ring). apply (Radd_0_l C_ring).
Qed.

End BasisStateRoundTrip.

Lemma apply_basis_state_spec_witness :
  _apply_basis_state [2%Z] [LInt 0] device3 = (inl bits_error, device3)
  /\ _apply_basis_state [1%Z; 0%Z] wires012 device3 = (inl length_error, device3)
  /\ exists t m,
       _apply_basis_state [1%Z; 1%Z; 0%Z] wires012 device3
       = (inr tt, set_state (Some t) device3)
       /\ reshape t [8; 8] = Some m
       /\ forall r c, r < 8 -> c < 8 ->
            data m [r; c] = if (r =? 6) && (c =? 6) then c1 else c0.
Proof.
  split; [| split].
  - apply (proj1 (@apply_basis_state_spec GaussScalar [2%Z] [LInt 0] device3 [0] eq_refl)).
    reflexivity.
  - apply (proj1 (proj2 (@apply_basis_state_spec GaussScalar [1%Z; 0%Z] wires012
                           device3 [0; 1; 2] eq_refl))).
    + reflexivity.
    + cbn. discriminate.
  - destruct (proj1 (proj2 (proj2 (@apply_basis_state_spec GaussScalar
                                     [1%Z; 1%Z; 0%Z] wires012 device3 [0; 1; 2]
                                     eq_refl)))
                eq_refl eq_refl NoDup_wires012)
      as (t & m & Hrun & _ & _ & _ & _ & Hm & He & _).
    exists t, m. split; [exact Hrun |]. split; [exact Hm |]. exact He.
Defined.

(** A new device of three wires. *)
Definition three_wire_device : @device GaussScalar :=
  match fresh_device 3 None with Some d => d | None => bare_device [] end.

(** C9 as stated fails: after the preparation method alone the working
    tensor is |101><101|, but [density_matrix], which reads the pre-rotated
    state, still returns |000><000|, with its 1 at row and column 0 and a
    0 at row and column 5. *)
Lemma basis_state_method_then_density_matrix :
  let run := (_apply_basis_state [1; 0; 1]%Z wires012 ;;; density_matrix wires012)
               three_wire_device in
  option_map (fun t => data t [1; 0; 1; 1; 0; 1])
    (_state (snd (_apply_basis_state [1; 0; 1]%Z wires012 three_wire_device)))
  = Some Gauss.one
  /\ match fst run with
     | inr dm => Some (shape dm, data dm [0; 0], data dm [5; 5])
     | inl _ => None
     end = Some ([8; 8], Gauss.one, Gauss.zero).
Proof. split; vm_compute; reflexivity. Qed.

(** * Analytic probabilities (C10) *)

Section ProbabilityEntries.
Context {Sc : Scalar}.

(** The diagonal entry of the matrix form at the row and column of the
    basis state [x] is the entry of the state tensor at [x ++ x]. *)
Lemma matrix_form_diagonal (N : nat) (st : tensor) (x : list nat) :
  valid_index (repeat 2 N) x ->
  data (diagonal (matrix_form N st)) [ravel (repeat 2 N) x] = data st (x ++ x).
Proof.
  intros Hx. unfold diagonal, matrix_form. cbn [data nth]. f_equal.
  assert (E : ravel [2 ^ N; 2 ^ N] [ravel (repeat 2 N) x; ravel (repeat 2 N) x]
              = ravel (repeat 2 (2 * N)) (x ++ x)).
  { replace (2 * N) with (N + N) by lia. rewrite repeat_app.
    rewrite ravel_app by (rewrite (valid_index_length _ _ Hx); reflexivity).
    rewrite prod_shape_repeat2. cbn [ravel]. unfold prod_shape. cbn [fold_right].
    lia. }
  rewrite E. apply unravel_ravel.
  replace (2 * N) with (N + N) by lia. rewrite repeat_app.
  apply valid_index_app; exact Hx.
Qed.

(** C10: with no state tensor [analytic_probability] returns [None] and
    raises nothing.  With a state tensor, of the shape of the device, it
    returns an array, for no wires given and for any wires of the device,
    and the array is computed from the diagonal of the matrix form: its
    entry for the bits [x] of all wires is the real part, without its
    sign, of the state's entry at row and column [x], and its entry for
    the bits [a] of the given wires is that of the sum of those diagonal
    entries over the bits of the other wires. *)
Theorem analytic_probability_spec (ws : option Wires) (d : device) :
  (_state d = None -> analytic_probability ws d = (inr None, d))
  /\ (forall st,
        _state d = Some st ->
        shape st = repeat 2 (2 * num_wires d) ->
        let N := num_wires d in
        match ws with
        | None =>
            exists p,
              analytic_probability None d = (inr (Some p), d)
              /\ shape p = [2 ^ N]
              /\ forall x, valid_index (repeat 2 N) x ->
                   data p [ravel (repeat 2 N) x]
                   = reflect_negative (creal (data st (x ++ x)))
        | Some w =>
            forall mapped,
              NoDup w ->
              map_labels (wires d) w = Some mapped ->
              exists p,
                analytic_probability (Some w) d = (inr (Some p), d)
                /\ shape p = [2 ^ length mapped]
                /\ forall a, valid_index (repeat 2 (length mapped)) a ->
                     data p [ravel (repeat 2 (length mapped)) a]
                     = reflect_negative
                         (creal
                            (sum_list (all_indices (repeat 2 (N - length mapped)))
                               (fun e => data st (merge N mapped a e
                                                  ++ merge N mapped a e))))
        end).
Proof.
  split.
  - apply (proj1 (analytic_probability_run ws d)).
  - intros st Hs Hshape N.
    pose proof (proj2 (analytic_probability_run ws d) st) as Hrun.
    destruct ws as [w |].
    + intros mapped Hnd Hmap.
      pose proof (@map_labels_NoDup (wires d) w mapped Hmap Hnd) as Hnd'.
      pose proof (@map_labels_lt (wires d) w mapped Hmap) as Hlt.
      fold (num_wires d) in Hlt. fold N in Hlt.
      eexists. split; [| split].
      * apply Hrun; [exact Hs | exact Hshape |].
        unfold selected_probs. rewrite Hmap. reflexivity.
      * reflexivity.
      * intros a Ha. cbn [tmap data marginal_prob nth]. fold N.
        apply f_equal. apply f_equal. unfold bits.
        rewrite unravel_ravel by exact Ha.
        rewrite free_axes_length by assumption.
        apply sum_list_ext. intros e He. apply all_indices_valid in He.
        apply (matrix_form_diagonal N st).
        apply merge_valid; assumption.
    + eexists. split; [| split].
      * apply Hrun; [exact Hs | exact Hshape | reflexivity].
      * cbn [tmap shape diagonal matrix_form nth]. rewrite Nat.min_id. reflexivity.
      * intros x Hx. cbn [tmap data]. apply f_equal. apply f_equal.
        apply (matrix_form_diagonal N st x Hx).
Qed.

End ProbabilityEntries.

(** Two wires in |01>. *)
Definition ket01_device : @device GaussScalar :=
  mkDevice [LInt 0; LInt 1] Numpy None
           (Some (basis_projector 2 1)) (Some (basis_projector 2 1)) [] None.

Lemma analytic_probability_spec_witness :
  analytic_probability (Some [LInt 1]) stateless_device = (inr None, stateless_device)
  /\ (exists p,
        analytic_probability (Some [LInt 1]) ket01_device = (inr (Some p), ket01_device)
        /\ shape p = [2]
        /\ data p [0] = 0%Z /\ data p [1] = 1%Z)
  /\ (exists p,
        analytic_probability None ket01_device = (inr (Some p), ket01_device)
        /\ shape p = [4]
        /\ data p [1] = 1%Z /\ data p [2] = 0%Z).
Proof.
  split; [| split].
  - apply (proj1 (@analytic_probability_spec GaussScalar (Some [LInt 1])
                    stateless_device)).
    reflexivity.
  - destruct (proj2 (@analytic_probability_spec GaussScalar (Some [LInt 1])
                       ket01_device)
                (basis_projector 2 1) eq_refl eq_refl [1])
      as (p & Hrun & Hs & He).
    + repeat constructor. intros [].
    + reflexivity.
    + exists p. split; [exact Hrun |]. split; [exact Hs |]. split.
      * etransitivity; [apply (He [0]); cbn; lia |]. vm_compute. reflexivity.
      * etransitivity; [apply (He [1]); cbn; lia |]. vm_compute. reflexivity.
  - destruct (proj2 (@analytic_probability_spec GaussScalar None ket01_device)
                (basis_projector 2 1) eq_refl eq_refl)
      as (p & Hrun & Hs & He).
    exists p. split; [exact Hrun |]. split; [exact Hs |]. split.
    + etransitivity; [apply (He [0; 1]); cbn; lia |]. vm_compute. reflexivity.
    + etransitivity; [apply (He [1; 0]); cbn; lia |]. vm_compute. reflexivity.
Defined.
